(** * havCSON: a shallow embedding of the CSON parser and writers

    The development follows [havCSON.hpp]: the cursor and the indent-stack
    model of [class Parser], the recursive-descent value grammar, the
    lossless parser of [detail::LosslessParser], and the canonical and
    lossless writers.

    Conventions of the embedding:
    - [std::string] and [std::string_view] are [string] (a sequence of
      8-bit characters); a [char] is an [ascii].  Every comparison the
      source makes on a [char] is an equality or a two-sided range between
      7-bit bounds, so the signedness of [char] is immaterial.
    - [std::size_t] members ([mPos], [mLine], [mCol]) are [nat]: they are
      bounded by the size of the source text and never wrap.
    - [int] indent columns are [Z].
    - [std::uint32_t] code points are [Z], reduced modulo [2^32] where the
      source computes on them.
    - [double] is [spec_float] at binary64; [std::strtod] and
      [std::to_string] are modelled by exact arithmetic on [Z].
    - [Object] ([std::unordered_map<std::string, Value>]) is a
      [gmap string Value]; iteration follows [map_fold].
    - Recursive productions take a [fuel : nat]; [None] means that the fuel
      ran out (nothing is claimed about the program then). *)

From Stdlib Require Import ZArith NArith Ascii String Bool Lia SpecFloat.
From Stdlib Require OrderedTypeEx.
From stdpp Require Import base option list strings gmap sorting.

Set Warnings "-register-all".
Local Open Scope Z_scope.

(** ** Characters *)

Definition NUL : ascii := "000"%char.
Definition TAB : ascii := "009"%char.
Definition LF : ascii := "010"%char.
Definition CR : ascii := "013"%char.
Definition SP : ascii := " "%char.
Definition DQ : ascii := "034"%char.
Definition SQ : ascii := "'"%char.
Definition BSL : ascii := "\"%char.
Definition HASH : ascii := "#"%char.

Notation "a =c= b" := (Ascii.eqb a b) (at level 70, no associativity).

(** The numeric value of a character read as [unsigned char]. *)
Definition uchar (c : ascii) : Z := Z.of_N (N_of_ascii c).

(** [static_cast<char>(z)]: truncation to eight bits. *)
Definition to_char (z : Z) : ascii := ascii_of_N (Z.to_N (z mod 256)).

Definition in_range (lo hi c : ascii) : bool :=
  (uchar lo <=? uchar c) && (uchar c <=? uchar hi).

Definition str1 (c : ascii) : string := String c EmptyString.
Definition push_back (s : string) (c : ascii) : string := s +:+ str1 c.

(** [wrap32 z] is [z] as a [std::uint32_t]. *)
Definition wrap32 (z : Z) : Z := z mod 2 ^ 32.

(** ** Errors *)

Inductive ErrorCode :=
| OK
| UnexpectedChar
| UnexpectedEnd
| InvalidNumber
| InvalidEscape
| InvalidUtf8
| UnterminatedString
| UnterminatedTripleString
| InvalidIndentChar
| InconsistentIndent
| InternalError.

Record LocationEntry := mkLocation { line : nat; column : nat }.

Record Error := mkError {
  code : ErrorCode;
  where_ : LocationEntry;
  message : string
}.

Definition Error_default : Error := mkError OK (mkLocation 1 1) "".

(** The result of a production: the value it assigns to its out-parameter
    on [ErrorCode::OK], or the error code it returns. *)
Inductive Res (A : Type) :=
| ROk (a : A)
| RFail (e : ErrorCode).
Arguments ROk {A} a.
Arguments RFail {A} e.

(** ** The value tree *)

Definition double := spec_float.

Inductive Value :=
| VNull
| VBool (b : bool)
| VNumber (d : double)
| VString (s : string)
| VArray (a : list Value)
| VObject (o : gmap string Value).

Abbreviation Array := (list Value).
Abbreviation Object := (gmap string Value).

(** [std::unordered_map::emplace]: inserts only if the key is absent. *)
Definition emplace (key : string) (value : Value) (object : Object) : Object :=
  match object !! key with
  | Some _ => object
  | None => <[key := value]> object
  end.

Record LosslessComment := mkComment {
  indent : Z;
  text : string
}.

Inductive LosslessValue := mkLossless {
  value : Value;
  leadingComments : list LosslessComment;
  inlineComment : string;
  arrayItems : list LosslessValue;
  objectItems : list (string * LosslessValue);
  trailingComments : list LosslessComment
}.

Definition LosslessValue_default : LosslessValue :=
  mkLossless VNull [] "" [] [] [].

(** ** The parser state ([class Parser], protected members) *)

Record Parser := mkParser {
  mSrc : string;
  mPos : nat;
  mLine : nat;
  mCol : nat;
  mIndentUnit : Z;
  mIndentStack : list Z;  (* head = [back()] *)
  mError : Error
}.

(** [Parser(src)]: the member initialisers. *)
Definition Parser_new (src : string) : Parser :=
  mkParser src 0 1 1 0 [0] Error_default.

Definition set_cursor (pos ln col : nat) (p : Parser) : Parser :=
  mkParser (mSrc p) pos ln col (mIndentUnit p) (mIndentStack p) (mError p).
Definition set_indent_unit (u : Z) (p : Parser) : Parser :=
  mkParser (mSrc p) (mPos p) (mLine p) (mCol p) u (mIndentStack p) (mError p).
Definition set_indent_stack (st : list Z) (p : Parser) : Parser :=
  mkParser (mSrc p) (mPos p) (mLine p) (mCol p) (mIndentUnit p) st (mError p).
Definition set_error (e : Error) (p : Parser) : Parser :=
  mkParser (mSrc p) (mPos p) (mLine p) (mCol p) (mIndentUnit p) (mIndentStack p) e.

Definition size (p : Parser) : nat := String.length (mSrc p).
Definition remaining (p : Parser) : nat := (size p - mPos p)%nat.

(** [mSrc[i]] for an index inside the text, ['\0'] otherwise. *)
Definition char_at (i : nat) (p : Parser) : ascii :=
  match String.get i (mSrc p) with
  | Some c => c
  | None => NUL
  end.

Definition Peek (p : Parser) : ascii := char_at (mPos p) p.

Definition EndOfFile (p : Parser) : bool := (size p <=? mPos p)%nat.

Definition Get (p : Parser) : ascii * Parser :=
  if EndOfFile p then (NUL, p)
  else
    let c := char_at (mPos p) p in
    if c =c= LF
    then (c, set_cursor (S (mPos p)) (S (mLine p)) 1 p)
    else (c, set_cursor (S (mPos p)) (mLine p) (S (mCol p)) p).

Definition advance (p : Parser) : Parser := snd (Get p).

Definition Match (c : ascii) (p : Parser) : bool * Parser :=
  if Peek p =c= c then (true, advance p) else (false, p).

Definition Location (p : Parser) : LocationEntry := mkLocation (mLine p) (mCol p).

(** [Fail(code, nullptr, message)]: records the error in [mError]; the
    returned code is threaded by the caller. *)
Definition Fail (c : ErrorCode) (msg : string) (p : Parser) : Parser :=
  set_error (mkError c (Location p) msg) p.

Definition failed {A} (c : ErrorCode) (msg : string) (p : Parser) : Res A * Parser :=
  (RFail c, Fail c msg p).

(** Loops that consume one character per iteration run on the number of
    characters left, which bounds their iterations. *)

Fixpoint SkipInlineSpaces_loop (n : nat) (p : Parser) : Parser :=
  match n with
  | O => p
  | S n =>
      let c := Peek p in
      if (c =c= SP) || (c =c= TAB)
      then SkipInlineSpaces_loop n (advance p)
      else p
  end.

Definition SkipInlineSpaces (p : Parser) : Parser :=
  SkipInlineSpaces_loop (remaining p) p.

Fixpoint SkipToEOL_loop (n : nat) (p : Parser) : Parser :=
  match n with
  | O => p
  | S n =>
      if EndOfFile p then p
      else
        let (c, p) := Get p in
        if c =c= LF then p else SkipToEOL_loop n p
  end.

Definition SkipToEOL (p : Parser) : Parser :=
  SkipToEOL_loop (remaining p) p.

Fixpoint SkipWhitespaceAndComments_loop (n : nat) (p : Parser) : Parser :=
  match n with
  | O => p
  | S n =>
      if EndOfFile p then p
      else
        let c := Peek p in
        if (c =c= SP) || (c =c= TAB)
        then SkipWhitespaceAndComments_loop n (advance p)
        else if c =c= HASH
        then SkipWhitespaceAndComments_loop n (SkipToEOL p)
        else if c =c= CR
        then
          let p := advance p in
          let p := if Peek p =c= LF then advance p else p in
          SkipWhitespaceAndComments_loop n p
        else if c =c= LF
        then SkipWhitespaceAndComments_loop n (advance p)
        else p
  end.

Definition SkipWhitespaceAndComments (p : Parser) : Parser :=
  SkipWhitespaceAndComments_loop (remaining p) p.

(** ** Indentation *)

(** The leading-space loop of [ReadLineIndent]. *)
Fixpoint ReadLineIndent_spaces (n : nat) (indentCols : Z) (p : Parser)
  : Res Z * Parser :=
  match n with
  | O => (ROk indentCols, p)
  | S n =>
      if EndOfFile p then (ROk indentCols, p)
      else
        let c := Peek p in
        if c =c= SP
        then ReadLineIndent_spaces n (indentCols + 1) (advance p)
        else if c =c= TAB
        then failed InvalidIndentChar "Tabs are not allowed in indentation" p
        else (ROk indentCols, p)
  end.

(** Returns [(indentCols, hasContent)]. *)
Definition ReadLineIndent (p : Parser) : Res (Z * bool) * Parser :=
  match ReadLineIndent_spaces (remaining p) 0 p with
  | (RFail e, p) => (RFail e, p)
  | (ROk indentCols, p) =>
      let c := Peek p in
      if (c =c= HASH) || (c =c= CR) || (c =c= LF) || (c =c= NUL)
      then
        let '(c, p) :=
          if c =c= HASH then let p := SkipToEOL p in (Peek p, p) else (c, p) in
        let p :=
          if c =c= CR
          then
            let p := advance p in
            if Peek p =c= LF then advance p else p
          else if c =c= LF then advance p
          else p in
        (ROk (indentCols, false), p)
      else if 0 <? indentCols
      then
        if mIndentUnit p =? 0
        then (ROk (indentCols, true), set_indent_unit indentCols p)
        else if negb (indentCols mod mIndentUnit p =? 0)
        then failed InconsistentIndent
               "Indentation is not a multiple of base indent width" p
        else (ROk (indentCols, true), p)
      else (ROk (indentCols, true), p)
  end.

Definition back (st : list Z) : Z := hd 0 st.

Fixpoint pop_while_less (indentCols : Z) (st : list Z) : list Z :=
  match st with
  | [] => []
  | top :: rest =>
      if indentCols <? top then pop_while_less indentCols rest else st
  end.

Definition ApplyIndentLevel (indentCols : Z) (p : Parser) : Res unit * Parser :=
  let top := back (mIndentStack p) in
  if top <? indentCols
  then (ROk tt, set_indent_stack (indentCols :: mIndentStack p) p)
  else if indentCols <? top
  then
    let st := pop_while_less indentCols (mIndentStack p) in
    let p := set_indent_stack st p in
    match st with
    | [] => failed InconsistentIndent
              "Dedent does not match any previous indent level" p
    | top' :: _ =>
        if negb (top' =? indentCols)
        then failed InconsistentIndent
               "Dedent does not match any previous indent level" p
        else (ROk tt, p)
    end
  else (ROk tt, p).

(** [NextContentLine]: the result is [hasLine].  An iteration need not
    consume input, so the loop runs on [fuel]. *)
Fixpoint NextContentLine (fuel : nat) (p : Parser) : option (Res bool * Parser) :=
  match fuel with
  | O => None
  | S fuel =>
      if EndOfFile p then Some (ROk false, p)
      else if negb (mCol p =? 1)%nat
      then
        let p := SkipToEOL p in
        if EndOfFile p then Some (ROk false, p) else NextContentLine fuel p
      else
        match ReadLineIndent p with
        | (RFail e, p) => Some (RFail e, p)
        | (ROk (indentCols, hasContent), p) =>
            if negb hasContent then NextContentLine fuel p
            else
              match ApplyIndentLevel indentCols p with
              | (RFail e, p) => Some (RFail e, p)
              | (ROk _, p) => Some (ROk true, p)
              end
        end
  end.

(** ** Escapes and UTF-8 *)

Definition HexValue (c : ascii) : Z :=
  if in_range "0" "9" c then uchar c - uchar "0"
  else if in_range "a" "f" c then 10 + (uchar c - uchar "a")
  else if in_range "A" "F" c then 10 + (uchar c - uchar "A")
  else -1.

Definition AppendUTF8 (out : string) (codePoint : Z) : string :=
  if codePoint <=? 0x7F
  then push_back out (to_char codePoint)
  else if codePoint <=? 0x7FF
  then
    let out := push_back out (to_char (Z.lor 0xC0 (Z.shiftr codePoint 6))) in
    push_back out (to_char (Z.lor 0x80 (Z.land codePoint 0x3F)))
  else if codePoint <=? 0xFFFF
  then
    let out := push_back out (to_char (Z.lor 0xE0 (Z.shiftr codePoint 12))) in
    let out := push_back out (to_char (Z.lor 0x80 (Z.land (Z.shiftr codePoint 6) 0x3F))) in
    push_back out (to_char (Z.lor 0x80 (Z.land codePoint 0x3F)))
  else
    let out := push_back out (to_char (Z.lor 0xF0 (Z.shiftr codePoint 18))) in
    let out := push_back out (to_char (Z.lor 0x80 (Z.land (Z.shiftr codePoint 12) 0x3F))) in
    let out := push_back out (to_char (Z.lor 0x80 (Z.land (Z.shiftr codePoint 6) 0x3F))) in
    push_back out (to_char (Z.lor 0x80 (Z.land codePoint 0x3F))).

(** [stringView[i]] as [unsigned char]; reads inside the text only. *)
Definition byte_at (i : nat) (s : string) : Z :=
  match String.get i s with
  | Some c => uchar c
  | None => 0
  end.

Definition has_bom_at (i : nat) (s : string) : bool :=
  (byte_at i s =? 0xEF) && (byte_at (i + 1) s =? 0xBB) && (byte_at (i + 2) s =? 0xBF).

(** The continuation-byte loop of [ValidateUTF8] ([k] from 1 below
    [length]); [None] when a byte is not a continuation byte. *)
Fixpoint utf8_continuation (s : string) (index k count : nat) (codePoint : Z)
  : option Z :=
  match count with
  | O => Some codePoint
  | S count =>
      let cc := byte_at (index + k) s in
      if negb (Z.land cc 0xC0 =? 0x80) then None
      else utf8_continuation s index (S k) count
             (wrap32 (Z.lor (Z.shiftl codePoint 6) (Z.land cc 0x3F)))
  end.

Record Utf8Check := mkUtf8Check {
  utf8_ok : bool;
  badIndex : nat;
  badLine : nat;
  badCol : nat
}.

Definition bumpCol (codePoint : Z) (ln col : nat) : nat * nat :=
  if codePoint =? uchar LF then (S ln, 1%nat) else (ln, S col).

(** [ValidateUTF8]; [badIndex] keeps the caller's value [0] on success.
    Every iteration advances [index], so the loop runs on the size. *)
Fixpoint ValidateUTF8_loop (n : nat) (s : string) (allowLeadingBOM : bool)
    (index ln col : nat) : Utf8Check :=
  match n with
  | O => mkUtf8Check true 0 ln col
  | S n =>
      if (String.length s <=? index)%nat then mkUtf8Check true 0 ln col
      else
        let c := byte_at index s in
        if (index =? 0)%nat && allowLeadingBOM && (3 <=? String.length s)%nat
           && has_bom_at 0 s
        then ValidateUTF8_loop n s allowLeadingBOM (index + 3) ln col
        else if (0 <? index)%nat && (c =? 0xEF) && (index + 2 <? String.length s)%nat
                && (byte_at (index + 1) s =? 0xBB) && (byte_at (index + 2) s =? 0xBF)
        then mkUtf8Check false index ln col
        else if c <=? 0x7F
        then
          let '(ln, col) := bumpCol c ln col in
          ValidateUTF8_loop n s allowLeadingBOM (S index) ln col
        else
          let header :=
            if Z.land c 0xE0 =? 0xC0 then Some (2%nat, Z.land c 0x1F)
            else if Z.land c 0xF0 =? 0xE0 then Some (3%nat, Z.land c 0x0F)
            else if Z.land c 0xF8 =? 0xF0 then Some (4%nat, Z.land c 0x07)
            else None in
          match header with
          | None => mkUtf8Check false index ln col
          | Some (len, codePoint) =>
              if (String.length s <? index + len)%nat
              then mkUtf8Check false index ln col
              else
                match utf8_continuation s index 1 (len - 1) codePoint with
                | None => mkUtf8Check false index ln col
                | Some codePoint =>
                    if ((len =? 2)%nat && (codePoint <? 0x80))
                       || ((len =? 3)%nat && (codePoint <? 0x800))
                       || ((len =? 4)%nat
                           && ((codePoint <? 0x10000) || (0x10FFFF <? codePoint)))
                       || ((0xD800 <=? codePoint) && (codePoint <=? 0xDFFF))
                    then mkUtf8Check false index ln col
                    else
                      let '(ln, col) := bumpCol codePoint ln col in
                      ValidateUTF8_loop n s allowLeadingBOM (index + len) ln col
              end
          end
  end.

Definition ValidateUTF8 (s : string) (allowLeadingBOM : bool) : Utf8Check :=
  ValidateUTF8_loop (String.length s) s allowLeadingBOM 0 1 1.

(** ** Identifiers *)

Definition IsIdentifierStart (c : ascii) : bool :=
  in_range "A" "Z" c || in_range "a" "z" c || (c =c= "_").

Definition IsIdentifierChar (c : ascii) : bool :=
  IsIdentifierStart c || in_range "0" "9" c || (c =c= "-") || (c =c= "_").

Definition IsNumberStart (c : ascii) : bool :=
  in_range "0" "9" c || (c =c= "-") || (c =c= "+").

(** [while (IsIdentifierChar(Peek())) ident.push_back(Get());] *)
Fixpoint read_identifier (n : nat) (ident : string) (p : Parser) : string * Parser :=
  match n with
  | O => (ident, p)
  | S n =>
      if IsIdentifierChar (Peek p)
      then let (c, p) := Get p in read_identifier n (push_back ident c) p
      else (ident, p)
  end.

(** ** Quoted strings *)

(** [for (index = 0; index < 4; ++index)]: four hexadecimal digits. *)
Fixpoint ReadHex4 (k : nat) (acc : Z) (p : Parser) : Res Z * Parser :=
  match k with
  | O => (ROk acc, p)
  | S k =>
      if EndOfFile p
      then failed InvalidEscape "Incomplete unicode escape" p
      else
        let (c, p) := Get p in
        let hv := HexValue c in
        if hv <? 0
        then failed InvalidEscape "Invalid hex in unicode escape" p
        else ReadHex4 k (wrap32 (Z.lor (Z.shiftl acc 4) hv)) p
  end.

(** The block of [case 'u':] (the same text in [ParseStringDouble] and
    [ParseStringSingle]), up to the call of [AppendUTF8]: the code point
    of a [\uXXXX] escape, combined with a following low surrogate. *)
Definition UnicodeEscape (p : Parser) : Res Z * Parser :=
  match ReadHex4 4 0 p with
  | (RFail e, p) => (RFail e, p)
  | (ROk codePoint, p) =>
      if (0xD800 <=? codePoint) && (codePoint <=? 0xDBFF)
      then
        if negb ((Peek p =c= BSL) && (mPos p + 1 <? size p)%nat
                 && (char_at (mPos p + 1) p =c= "u"))
        then failed InvalidEscape "Unpaired surrogate" p
        else
          let p := advance (advance p) in
          match ReadHex4 4 0 p with
          | (RFail e, p) => (RFail e, p)
          | (ROk lowSurrogate, p) =>
              if (lowSurrogate <? 0xDC00) || (0xDFFF <? lowSurrogate)
              then failed InvalidEscape "Invalid low surrogate" p
              else
                (ROk (wrap32 (0x10000 +
                        Z.lor (wrap32 (Z.shiftl (wrap32 (codePoint - 0xD800)) 10))
                              (wrap32 (lowSurrogate - 0xDC00)))), p)
          end
      else if (0xDC00 <=? codePoint) && (codePoint <=? 0xDFFF)
      then failed InvalidEscape "Unpaired surrogate" p
      else (ROk codePoint, p)
  end.

(** The loop of [ParseStringDouble] ([q] = double quote) and of
    [ParseStringSingle] ([q] = single quote), which differ in the quote
    character only.  Running out of [n] is reaching the end of the text. *)
Fixpoint ParseQuoted_loop (q : ascii) (n : nat) (result : string) (p : Parser)
  : Res Value * Parser :=
  match n with
  | O => failed UnterminatedString "Unterminated string literal" p
  | S n =>
      if EndOfFile p
      then failed UnterminatedString "Unterminated string literal" p
      else
        let (c, p) := Get p in
        if c =c= q then (ROk (VString result), p)
        else if c =c= BSL
        then
          if EndOfFile p then failed UnterminatedString "" p
          else
            let (e, p) := Get p in
            if e =c= q then ParseQuoted_loop q n (push_back result q) p
            else if e =c= BSL then ParseQuoted_loop q n (push_back result BSL) p
            else if e =c= "n" then ParseQuoted_loop q n (push_back result LF) p
            else if e =c= "r" then ParseQuoted_loop q n (push_back result CR) p
            else if e =c= "t" then ParseQuoted_loop q n (push_back result TAB) p
            else if e =c= "u"
            then
              match UnicodeEscape p with
              | (RFail err, p) => (RFail err, p)
              | (ROk codePoint, p) =>
                  ParseQuoted_loop q n (AppendUTF8 result codePoint) p
              end
            else failed InvalidEscape "Invalid escape in string" p
        else if (c =c= LF) || (c =c= CR)
        then failed UnterminatedString "Newline in string literal" p
        else ParseQuoted_loop q n (push_back result c) p
  end.

Definition ParseQuoted (q : ascii) (p : Parser) : Res Value * Parser :=
  match Match q p with
  | (false, p) => failed InternalError "" p
  | (true, p) => ParseQuoted_loop q (remaining p) "" p
  end.

Definition ParseStringDouble (p : Parser) : Res Value * Parser := ParseQuoted DQ p.
Definition ParseStringSingle (p : Parser) : Res Value * Parser := ParseQuoted SQ p.

Definition at_triple_quote (p : Parser) : bool :=
  (mPos p + 2 <? size p)%nat && (char_at (mPos p) p =c= DQ)
  && (char_at (mPos p + 1) p =c= DQ) && (char_at (mPos p + 2) p =c= DQ).

Fixpoint ParseTripleString_loop (n : nat) (result : string) (p : Parser)
  : Res Value * Parser :=
  match n with
  | O => failed UnterminatedTripleString "Unterminated triple string literal" p
  | S n =>
      if EndOfFile p
      then failed UnterminatedTripleString "Unterminated triple string literal" p
      else if (Peek p =c= DQ) && (mPos p + 2 <? size p)%nat
              && (char_at (mPos p + 1) p =c= DQ) && (char_at (mPos p + 2) p =c= DQ)
      then (ROk (VString result), advance (advance (advance p)))
      else let (c, p) := Get p in ParseTripleString_loop n (push_back result c) p
  end.

Definition ParseTripleString (p : Parser) : Res Value * Parser :=
  let (m1, p) := Match DQ p in
  if negb m1 then failed InternalError "" p
  else
    let (m2, p) := Match DQ p in
    if negb m2 then failed InternalError "" p
    else
      let (m3, p) := Match DQ p in
      if negb m3 then failed InternalError "" p
      else ParseTripleString_loop (remaining p) "" p.

Definition ParseStringOrTriple (p : Parser) : Res Value * Parser :=
  if negb (Peek p =c= DQ) then failed InternalError "" p
  else if at_triple_quote p then ParseTripleString p
  else ParseStringDouble p.

Definition ParseKey (p : Parser) : Res string * Parser :=
  let p := SkipInlineSpaces p in
  let c := Peek p in
  if c =c= DQ
  then
    match ParseStringDouble p with
    | (ROk (VString s), p) => (ROk s, p)
    | (ROk _, p) => (ROk "", p)  (* not reached: the value is a string *)
    | (RFail e, p) => (RFail e, p)
    end
  else if c =c= SQ
  then
    match ParseStringSingle p with
    | (ROk (VString s), p) => (ROk s, p)
    | (ROk _, p) => (ROk "", p)  (* not reached: the value is a string *)
    | (RFail e, p) => (RFail e, p)
    end
  else if negb (IsIdentifierStart c)
  then failed UnexpectedChar "Expected identifier or string as key" p
  else
    let (ident, p) := read_identifier (remaining p) "" p in
    (ROk ident, p).

(** ** Numbers *)

(** binary64 *)
Definition prec : Z := 53.
Definition emax : Z := 1024.

Definition is_digit (c : ascii) : bool := in_range "0" "9" c.

(** The longest prefix of decimal digits, and the rest. *)
Fixpoint span_digits (s : string) : string * string :=
  match s with
  | EmptyString => (EmptyString, EmptyString)
  | String c r =>
      if is_digit c
      then let (d, rest) := span_digits r in (String c d, rest)
      else (EmptyString, s)
  end.

Fixpoint digits_value (acc : Z) (s : string) : Z :=
  match s with
  | EmptyString => acc
  | String c r => digits_value (10 * acc + (uchar c - uchar "0")) r
  end.

(** The binary64 number nearest to [m * 10^e] (ties to even), for
    [0 <= m] written with [nd] digits; out of the range of the format the
    result is an infinity or a zero. *)
Definition decimal_to_double (neg : bool) (m : Z) (nd : Z) (e : Z) : double :=
  if m =? 0 then S754_zero neg
  else if 400 <? e then S754_infinity neg
  else if nd + e <? -400 then S754_zero neg
  else if 0 <=? e
  then binary_normalize prec emax (cond_Zopp neg (m * 10 ^ e)) 0 neg
  else SFdiv prec emax (S754_finite neg (Z.to_pos m) 0)
                       (S754_finite false (Z.to_pos (10 ^ (- e))) 0).

(** [std::strtod] in the C locale on a text without leading white space,
    restricted to decimal literals (the only ones [ParseNumber] can
    capture): the value and the number of characters converted, [0] when
    no conversion is performed. *)
Definition strtod (s : string) : double * nat :=
  let '(neg, s1) :=
    match s with
    | String c r =>
        if c =c= "-" then (true, r)
        else if c =c= "+" then (false, r)
        else (false, s)
    | EmptyString => (false, s)
    end in
  let '(ip, s2) := span_digits s1 in
  let '(fp, s3) :=
    match s2 with
    | String c r => if c =c= "." then span_digits r else (EmptyString, s2)
    | EmptyString => (EmptyString, s2)
    end in
  if ((String.length ip =? 0) && (String.length fp =? 0))%nat
  then (S754_zero false, 0%nat)
  else
    let '(ex, s4) :=
      match s3 with
      | String c r =>
          if (c =c= "e") || (c =c= "E")
          then
            let '(eneg, r1) :=
              match r with
              | String c1 r' =>
                  if c1 =c= "-" then (true, r')
                  else if c1 =c= "+" then (false, r')
                  else (false, r)
              | EmptyString => (false, r)
              end in
            let '(ed, r2) := span_digits r1 in
            if (String.length ed =? 0)%nat then (0, s3)
            else (cond_Zopp eneg (digits_value 0 ed), r2)
          else (0, s3)
      | EmptyString => (0, s3)
      end in
    let mant := ip +:+ fp in
    (decimal_to_double neg (digits_value 0 mant)
       (Z.of_nat (String.length mant))
       (ex - Z.of_nat (String.length fp)),
     (String.length s - String.length s4)%nat).

(** The scanning loop of [ParseNumber]. *)
Fixpoint ParseNumber_scan (n : nat) (hasDot hasExp : bool) (p : Parser) : Parser :=
  match n with
  | O => p
  | S n =>
      if EndOfFile p then p
      else
        let c := Peek p in
        if in_range "0" "9" c
        then ParseNumber_scan n hasDot hasExp (advance p)
        else if (c =c= ".") && negb hasDot
        then ParseNumber_scan n true hasExp (advance p)
        else if ((c =c= "e") || (c =c= "E")) && negb hasExp
        then
          let p := advance p in
          let p := if (Peek p =c= "+") || (Peek p =c= "-") then advance p else p in
          ParseNumber_scan n hasDot true p
        else p
  end.

Definition ParseNumber (p : Parser) : Res Value * Parser :=
  let start := mPos p in
  let p := if (Peek p =c= "+") || (Peek p =c= "-") then advance p else p in
  let p := ParseNumber_scan (remaining p) false false p in
  let tempValue := substring start (mPos p - start) (mSrc p) in
  let '(value, consumed) := strtod tempValue in
  if negb (consumed =? String.length tempValue)%nat
  then failed InvalidNumber "Invalid number literal" p
  else (ROk (VNumber value), p).

(** Rounding [a / b] to the nearest integer, ties to even ([0 <= a], [0 < b]). *)
Definition round_div (a b : Z) : Z :=
  let q := a / b in
  let r := a mod b in
  match 2 * r ?= b with
  | Lt => q
  | Gt => q + 1
  | Eq => if Z.even q then q else q + 1
  end.

Fixpoint dec_digits (n : nat) (z : Z) (acc : string) : string :=
  match n with
  | O => acc
  | S n =>
      let acc := String (to_char (uchar "0" + z mod 10)) acc in
      if z / 10 =? 0 then acc else dec_digits n (z / 10) acc
  end.

Definition dec_string (z : Z) : string :=
  dec_digits (S (Z.to_nat (Z.log2 z))) z "".

(** [std::to_string(double)], that is [printf("%f")]: six digits after
    the point, the exact value rounded to nearest, ties to even. *)
Definition to_string (d : double) : string :=
  match d with
  | S754_zero s => (if s then "-" else "") +:+ "0.000000"
  | S754_infinity s => (if s then "-" else "") +:+ "inf"
  | S754_nan => "nan"
  | S754_finite s m e =>
      let scaled :=
        if 0 <=? e then Zpos m * 2 ^ e * 10 ^ 6
        else round_div (Zpos m * 10 ^ 6) (2 ^ (- e)) in
      (if s then "-" else "")
      +:+ dec_string (scaled / 10 ^ 6)
      +:+ "."
      +:+ substring 1 6 (dec_string (10 ^ 6 + scaled mod 10 ^ 6))
  end.

(** ** The parser monad: state, errors, and fuel *)

Definition StM (St A : Type) : Type := St -> option (Res A * St).

Definition ret {St A} (a : A) : StM St A := fun p => Some (ROk a, p).

Definition bind {St A B} (m : StM St A) (k : A -> StM St B) : StM St B :=
  fun p =>
    match m p with
    | None => None
    | Some (RFail e, p) => Some (RFail e, p)
    | Some (ROk a, p) => k a p
    end.

Notation "x <- m ;; k" := (bind m (fun x => k))
  (at level 100, m at next level, right associativity).
Notation "m ;;; k" := (bind m (fun _ => k))
  (at level 100, right associativity).

Definition out_of_fuel {St A} : StM St A := fun _ => None.

(** Productions of the plain parser run on a [Parser]. *)
Definition M (A : Type) : Type := StM Parser A.

Definition fail {A} (c : ErrorCode) (msg : string) : M A :=
  fun p => Some (failed c msg p).
Definition run (f : Parser -> Parser) : M unit := fun p => Some (ROk tt, f p).
Definition ask {A} (f : Parser -> A) : M A := fun p => Some (ROk (f p), p).
Definition total {A} (f : Parser -> Res A * Parser) : M A := fun p => Some (f p).
Definition match_ (c : ascii) : M bool :=
  fun p => let (b, p) := Match c p in Some (ROk b, p).

Definition peek : M ascii := ask Peek.
Definition stack_back : M Z := ask (fun p => back (mIndentStack p)).

(** [c = Get(); if (c == '\r' && Peek() == '\n') Get();] *)
Definition consume_eol (p : Parser) : Parser :=
  let (c, p) := Get p in
  if (c =c= CR) && (Peek p =c= LF) then advance p else p.

Definition is_eol (c : ascii) : bool := (c =c= CR) || (c =c= LF).

(** ** The value grammar ([Parser::ParseValue] and its productions)

    Each [while (true)] loop is a function of its own; [continue] is the
    recursive call and [break] returns the collection built so far to the
    code after the loop. *)

Fixpoint ParseValue (fuel : nat) (currentIndent : Z) {struct fuel} : M Value :=
  match fuel with
  | O => out_of_fuel
  | S fuel =>
      run SkipWhitespaceAndComments ;;;
      c <- peek ;;
      if c =c= "{" then ParseInlineObject fuel currentIndent
      else if c =c= "[" then ParseArray fuel currentIndent
      else if c =c= DQ then total ParseStringOrTriple
      else if c =c= SQ then total ParseStringSingle
      else if IsIdentifierStart c
      then parseIdentifierOrIndentedObject fuel currentIndent
      else if IsNumberStart c then total ParseNumber
      else
        eof <- ask EndOfFile ;;
        if eof
        then fail UnexpectedEnd "Unexpected end of input while parsing value"
        else fail UnexpectedChar "Unexpected character while parsing value"
  end

with parseIdentifierOrIndentedObject (fuel : nat) (currentIndent : Z)
  {struct fuel} : M Value :=
  match fuel with
  | O => out_of_fuel
  | S fuel =>
      ident <- (fun p => Some (let (i, p) := read_identifier (remaining p) "" p in
                               (ROk i, p))) ;;
      run SkipInlineSpaces ;;;
      c <- peek ;;
      if c =c= ":"
      then
        (* mPos -= ident.size(); mCol -= ident.size(); *)
        run (fun p => set_cursor (mPos p - String.length ident) (mLine p)
                        (mCol p - String.length ident) p) ;;;
        object <- ParseIndentedObjectBody fuel (-1) ∅ currentIndent ;;
        ret (VObject object)
      else if String.eqb ident "true" then ret (VBool true)
      else if String.eqb ident "false" then ret (VBool false)
      else if String.eqb ident "null" then ret VNull
      else ret (VString ident)
  end

with ParseInlineObject (fuel : nat) (currentIndent : Z) {struct fuel} : M Value :=
  match fuel with
  | O => out_of_fuel
  | S fuel =>
      m <- match_ "{" ;;
      if negb m then fail InternalError ""
      else
        run SkipWhitespaceAndComments ;;;
        m <- match_ "}" ;;
        if m then ret (VObject ∅)
        else ParseInlineObject_loop fuel currentIndent ∅
  end

with ParseInlineObject_loop (fuel : nat) (currentIndent : Z) (object : Object)
  {struct fuel} : M Value :=
  match fuel with
  | O => out_of_fuel
  | S fuel =>
      key <- total ParseKey ;;
      run SkipWhitespaceAndComments ;;;
      m <- match_ ":" ;;
      if negb m then fail UnexpectedChar "Expected ':' in object"
      else
        run SkipWhitespaceAndComments ;;;
        value <- ParseValue fuel currentIndent ;;
        let object := emplace key value object in
        run SkipWhitespaceAndComments ;;;
        m <- match_ "}" ;;
        if m then ret (VObject object)
        else
          c <- peek ;;
          closed <-
            (if c =c= HASH
             then run SkipToEOL ;;; run SkipWhitespaceAndComments ;;; match_ "}"
             else ret false) ;;
          if closed : bool then ret (VObject object)
          else
            m <- match_ "," ;;
            if m
            then run SkipWhitespaceAndComments ;;;
                 ParseInlineObject_loop fuel currentIndent object
            else fail UnexpectedChar "Expected ',' or '}' in object"
  end

(** The loop of [ParseIndentedObjectBody]; [bodyIndent] is [-1] until the
    first iteration. *)
with ParseIndentedObjectBody (fuel : nat) (bodyIndent : Z) (object : Object)
  (parentIndent : Z) {struct fuel} : M Object :=
  match fuel with
  | O => out_of_fuel
  | S fuel =>
      top <- stack_back ;;
      let bodyIndent := if bodyIndent =? -1 then top else bodyIndent in
      (* what follows a block or a line that is done: [break] when the
         text ends or dedents below the body, [continue] otherwise *)
      let next_line : M Object :=
        hasLine <- NextContentLine fuel ;;
        if negb hasLine then ret object
        else
          top <- stack_back ;;
          if top <? bodyIndent then ret object
          else ParseIndentedObjectBody fuel bodyIndent object parentIndent in
      run SkipInlineSpaces ;;;
      eof <- ask EndOfFile ;;
      if eof then ret object
      else
        c <- peek ;;
        if (c =c= HASH) || (c =c= CR) || (c =c= LF) then next_line
        else if negb (IsIdentifierStart c) && negb (c =c= DQ) && negb (c =c= SQ)
        then ret object
        else
          key <- total ParseKey ;;
          run SkipInlineSpaces ;;;
          m <- match_ ":" ;;
          if negb m then fail UnexpectedChar "Expected ':' in object pair"
          else
            run SkipInlineSpaces ;;;
            c <- peek ;;
            if (c =c= HASH) || is_eol c
            then
              (* block value on the next content line *)
              run (if c =c= HASH then SkipToEOL else consume_eol) ;;;
              hasLine <- NextContentLine fuel ;;
              if negb hasLine
              then fail InconsistentIndent "Expected indented block after ':'"
              else
                top <- stack_back ;;
                if top <=? bodyIndent
                then fail InconsistentIndent
                       "Expected deeper indentation for block value"
                else
                  value <- ParseValue fuel top ;;
                  let object := emplace key value object in
                  top <- stack_back ;;
                  if top <? bodyIndent then ret object
                  else ParseIndentedObjectBody fuel bodyIndent object parentIndent
            else
              (* inline value on the same line *)
              value <- ParseValue fuel parentIndent ;;
              let object := emplace key value object in
              let next_line : M Object :=
                hasLine <- NextContentLine fuel ;;
                if negb hasLine then ret object
                else
                  top <- stack_back ;;
                  if top <? bodyIndent then ret object
                  else ParseIndentedObjectBody fuel bodyIndent object parentIndent in
              run SkipInlineSpaces ;;;
              c <- peek ;;
              if c =c= HASH then run SkipToEOL ;;; next_line
              else
                m <- match_ "," ;;
                if m
                then run SkipInlineSpaces ;;;
                     ParseIndentedObjectBody fuel bodyIndent object parentIndent
                else
                  c <- peek ;;
                  if is_eol c then run consume_eol ;;; next_line
                  else ret object
  end

with ParseArray (fuel : nat) (parentIndent : Z) {struct fuel} : M Value :=
  match fuel with
  | O => out_of_fuel
  | S fuel =>
      m <- match_ "[" ;;
      if negb m then fail InternalError ""
      else
        run SkipInlineSpaces ;;;
        c <- peek ;;
        if is_eol c
        then
          run consume_eol ;;;
          hasLine <- NextContentLine fuel ;;
          c <- peek ;;
          if negb hasLine || (c =c= "]")
          then
            run (fun p => if Peek p =c= "]" then advance p else p) ;;;
            ret (VArray [])
          else
            arrayIndent <- stack_back ;;
            array <- ParseArray_multiline fuel arrayIndent [] ;;
            run (fun p => if Peek p =c= "]" then advance p else p) ;;;
            ret (VArray array)
        else
          run SkipWhitespaceAndComments ;;;
          m <- match_ "]" ;;
          if m then ret (VArray [])
          else
            array <- ParseArray_inline fuel parentIndent [] ;;
            ret (VArray array)
  end

(** The element loop of a multiline array. *)
with ParseArray_multiline (fuel : nat) (arrayIndent : Z) (array : Array)
  {struct fuel} : M Array :=
  match fuel with
  | O => out_of_fuel
  | S fuel =>
      c <- peek ;;
      if c =c= "]" then run advance ;;; ret array
      else
        value <- ParseValue fuel arrayIndent ;;
        let array := array ++ [value] in
        let next_line : M Array :=
          hasLine <- NextContentLine fuel ;;
          if negb hasLine then ret array
          else
            top <- stack_back ;;
            if top <? arrayIndent then ret array
            else ParseArray_multiline fuel arrayIndent array in
        top <- stack_back ;;
        if top <? arrayIndent then ret array
        else
          run SkipInlineSpaces ;;;
          c <- peek ;;
          if c =c= HASH then run SkipToEOL ;;; next_line
          else
            m <- match_ "]" ;;
            if m then ret array
            else
              m <- match_ "," ;;
              if m
              then run SkipWhitespaceAndComments ;;;
                   ParseArray_multiline fuel arrayIndent array
              else
                c <- peek ;;
                if is_eol c then run consume_eol ;;; next_line
                else fail UnexpectedChar
                       "Expected ',' or ']' or newline in multiline array"
  end

(** The element loop of an inline array. *)
with ParseArray_inline (fuel : nat) (parentIndent : Z) (array : Array)
  {struct fuel} : M Array :=
  match fuel with
  | O => out_of_fuel
  | S fuel =>
      c <- peek ;;
      if c =c= "]" then run advance ;;; ret array
      else
        value <- ParseValue fuel parentIndent ;;
        let array := array ++ [value] in
        run SkipWhitespaceAndComments ;;;
        m <- match_ "]" ;;
        if m then ret array
        else
          m <- match_ "," ;;
          if negb m
          then fail UnexpectedChar "Expected ',' or ']' in inline array"
          else run SkipWhitespaceAndComments ;;;
               ParseArray_inline fuel parentIndent array
  end.

(** ** [Parser::Parse] *)

(** The loop that consumes white space and comments after the top-level
    value. *)
Fixpoint skip_trailing (n : nat) (p : Parser) : Parser :=
  match n with
  | O => p
  | S n =>
      if EndOfFile p then p
      else
        let c := Peek p in
        if (c =c= SP) || (c =c= TAB) || (c =c= CR) || (c =c= LF)
        then skip_trailing n (advance p)
        else if c =c= HASH then skip_trailing n (SkipToEOL p)
        else p
  end.

Definition has_bom (s : string) : bool :=
  (3 <=? String.length s)%nat && has_bom_at 0 s.

(** What a call leaves behind: the returned code, the caller's [out], the
    caller's [*error] ([None] for a null pointer), and the parser. *)
Record ParseResult := mkParseResult {
  pr_code : ErrorCode;
  pr_out : Value;
  pr_error : option Error;
  pr_parser : Parser
}.

(** [*error = e] when [error] is not null. *)
Definition store_error (error : option Error) (e : Error) : option Error :=
  match error with
  | Some _ => Some e
  | None => None
  end.

(** [Parser::Parse(out, error)] on the instance [p]; [out] and [error]
    are what the caller's objects hold at the call. *)
Definition Parser_Parse (fuel : nat) (p : Parser) (out : Value)
    (error : option Error) : option ParseResult :=
  let p := set_error Error_default p in
  let hasBOM := has_bom (mSrc p) in
  let chk := ValidateUTF8 (mSrc p) true in
  if negb (utf8_ok chk)
  then
    let p := set_cursor (badIndex chk) (badLine chk) (badCol chk) p in
    let p := Fail InvalidUtf8 "Invalid UTF-8 encoding" p in
    Some (mkParseResult InvalidUtf8 out (store_error error (mError p)) p)
  else
    let p := if hasBOM then set_cursor 3 1 1 p else p in
    let p := SkipWhitespaceAndComments p in
    let parsed :=
      if EndOfFile p then Some (ROk VNull, p) else ParseValue fuel 0 p in
    match parsed with
    | None => None
    | Some (RFail errorCode, p) =>
        let e :=
          match code (mError p) with
          | OK => mkError errorCode (Location p) ""
          | _ => mError p
          end in
        Some (mkParseResult errorCode out (store_error error e) p)
    | Some (ROk value, p) =>
        let p := skip_trailing (remaining p) p in
        let p := set_indent_stack [0] p in
        if negb (mPos p =? size p)%nat
        then
          let p := Fail UnexpectedChar "Trailing characters after top-level value" p in
          Some (mkParseResult UnexpectedChar out (store_error error (mError p)) p)
        else
          Some (mkParseResult OK value (store_error error Error_default) p)
    end.

(** [havCSON::Parse(src, out, error)]: a fresh parser over [src]. *)
Definition Parse (fuel : nat) (src : string) (out : Value) (error : option Error)
  : option ParseResult :=
  Parser_Parse fuel (Parser_new src) out error.

(** The outcome of [Parse] seen by a caller who passes a default [Value]
    and no [Error]. *)
Definition parse (fuel : nat) (src : string) : option (ErrorCode * Value) :=
  match Parse fuel src VNull None with
  | Some r => Some (pr_code r, pr_out r)
  | None => None
  end.

(** ** The lossless parser ([detail::LosslessParser])

    The state is the base [Parser], the member [mPendingComments], and the
    [LosslessValue] that the running production receives by reference
    ([out], [outWrapper]). *)

Record LState := mkLState {
  lbase : Parser;
  mPendingComments : list LosslessComment;
  lout : LosslessValue
}.

Definition LM (A : Type) : Type := StM LState A.

Definition set_lbase (p : Parser) (st : LState) : LState :=
  mkLState p (mPendingComments st) (lout st).
Definition set_pending (cs : list LosslessComment) (st : LState) : LState :=
  mkLState (lbase st) cs (lout st).
Definition set_lout (v : LosslessValue) (st : LState) : LState :=
  mkLState (lbase st) (mPendingComments st) v.

Definition set_value (v : Value) (l : LosslessValue) : LosslessValue :=
  mkLossless v (leadingComments l) (inlineComment l) (arrayItems l)
    (objectItems l) (trailingComments l).
Definition set_leadingComments (cs : list LosslessComment) (l : LosslessValue)
  : LosslessValue :=
  mkLossless (value l) cs (inlineComment l) (arrayItems l)
    (objectItems l) (trailingComments l).
Definition set_inlineComment (c : string) (l : LosslessValue) : LosslessValue :=
  mkLossless (value l) (leadingComments l) c (arrayItems l)
    (objectItems l) (trailingComments l).
Definition set_arrayItems (items : list LosslessValue) (l : LosslessValue)
  : LosslessValue :=
  mkLossless (value l) (leadingComments l) (inlineComment l) items
    (objectItems l) (trailingComments l).
Definition set_objectItems (items : list (string * LosslessValue))
    (l : LosslessValue) : LosslessValue :=
  mkLossless (value l) (leadingComments l) (inlineComment l) (arrayItems l)
    items (trailingComments l).
Definition set_trailingComments (cs : list LosslessComment) (l : LosslessValue)
  : LosslessValue :=
  mkLossless (value l) (leadingComments l) (inlineComment l) (arrayItems l)
    (objectItems l) cs.

(** Base-class operations run on the base parser. *)
Definition lift {A} (m : M A) : LM A :=
  fun st =>
    match m (lbase st) with
    | None => None
    | Some (r, p) => Some (r, set_lbase p st)
    end.

Definition lrun (f : Parser -> Parser) : LM unit := lift (run f).
Definition lask {A} (f : Parser -> A) : LM A := lift (ask f).
Definition ltotal {A} (f : Parser -> Res A * Parser) : LM A := lift (total f).
Definition lmatch (c : ascii) : LM bool := lift (match_ c).
Definition lpeek : LM ascii := lift peek.
Definition lstack_back : LM Z := lift stack_back.

Definition modify_out (f : LosslessValue -> LosslessValue) : LM unit :=
  fun st => Some (ROk tt, set_lout (f (lout st)) st).

(** [Finish(errorCode, nullptr, message)]. *)
Definition Finish_mError (errorCode : ErrorCode) (msg : option string)
    (p : Parser) : Parser :=
  match msg with
  | Some m => set_error (mkError errorCode (Location p) m) p
  | None =>
      match code (mError p) with
      | OK => set_error (mkError errorCode (Location p) "") p
      | _ => p
      end
  end.

Definition Finish {A} (errorCode : ErrorCode) (msg : option string) : LM A :=
  fun st => Some (RFail errorCode,
                  set_lbase (Finish_mError errorCode msg (lbase st)) st).

(** [preKeyComments.swap(mPendingComments)] on a non-empty pending list. *)
Definition take_pending : LM (list LosslessComment) :=
  fun st => Some (ROk (mPendingComments st), set_pending [] st).

Definition push_pending (c : LosslessComment) : LM unit :=
  fun st => Some (ROk tt, set_pending (mPendingComments st ++ [c]) st).

(** Runs [m] on a local [LosslessValue child] that starts as [init], and
    yields the child; the enclosing [out] is untouched. *)
Definition with_child (init : LosslessValue) (m : LM unit) : LM LosslessValue :=
  fun st =>
    match m (set_lout init st) with
    | None => None
    | Some (RFail e, st') => Some (RFail e, set_lout (lout st) st')
    | Some (ROk _, st') => Some (ROk (lout st'), set_lout (lout st) st')
    end.

(** Removes the trailing ['\r'] and ['\n'] characters. *)
Fixpoint strip_eol (s : string) : string :=
  match s with
  | EmptyString => EmptyString
  | String c r =>
      match strip_eol r with
      | EmptyString => if is_eol c then EmptyString else str1 c
      | r' => String c r'
      end
  end.

(** [s.substr(n)] for [n] within the string. *)
Fixpoint substr_from (n : nat) (s : string) : string :=
  match n, s with
  | O, _ => s
  | S n, String _ r => substr_from n r
  | S _, EmptyString => EmptyString
  end.

(** The comment recorded for a line without content that started at
    [lineStart], seen when the cursor [p] has passed it. *)
Definition comment_of_line (lineStart : nat) (indentCols : Z) (p : Parser)
  : LosslessComment :=
  let line := strip_eol (substring lineStart (mPos p - lineStart) (mSrc p)) in
  if (Z.to_nat indentCols <? String.length line)%nat
  then mkComment indentCols (substr_from (Z.to_nat indentCols) line)
  else mkComment indentCols "".

Fixpoint NextContentLineLossless (fuel : nat) : LM bool :=
  match fuel with
  | O => out_of_fuel
  | S fuel =>
      eof <- lask EndOfFile ;;
      if eof then ret false
      else
        col <- lask mCol ;;
        if negb (col =? 1)%nat
        then
          lrun SkipToEOL ;;;
          eof <- lask EndOfFile ;;
          if eof then ret false else NextContentLineLossless fuel
        else
          lineStart <- lask mPos ;;
          r <- ltotal ReadLineIndent ;;
          let '(indentCols, hasContent) := r in
          if negb hasContent
          then
            c <- lask (comment_of_line lineStart indentCols) ;;
            push_pending c ;;;
            NextContentLineLossless fuel
          else
            ltotal (ApplyIndentLevel indentCols) ;;;
            ret true
  end.

(** Reads the rest of the line up to, not including, its end. *)
Fixpoint rest_of_line (n : nat) (acc : string) (p : Parser) : string * Parser :=
  match n with
  | O => (acc, p)
  | S n =>
      if EndOfFile p then (acc, p)
      else if is_eol (Peek p) then (acc, p)
      else let (c, p) := Get p in rest_of_line n (push_back acc c) p
  end.

(** The comment at ['#'] becomes a pending comment line. *)
Definition pending_comment_here : LM unit :=
  lrun advance ;;;
  line <- lift (fun p => Some (let (l, p) := rest_of_line (remaining p) "#" p in
                               (ROk l, p))) ;;
  col <- lask mCol ;;
  (* static_cast<int>(mCol) - 1, never negative *)
  push_pending (mkComment (Z.max 0 (Z.of_nat col - 1)) line).

(** The text after ['#'] up to the end of the line. *)
Definition inline_comment_here : LM string :=
  lrun advance ;;;
  lift (fun p => Some (let (l, p) := rest_of_line (remaining p) "" p in (ROk l, p))).

Definition set_last_inline_array (comment : string) (l : LosslessValue)
  : LosslessValue :=
  match reverse (arrayItems l) with
  | [] => l
  | x :: xs => set_arrayItems (reverse (set_inlineComment comment x :: xs)) l
  end.

Definition set_last_inline_object (comment : string) (l : LosslessValue)
  : LosslessValue :=
  match reverse (objectItems l) with
  | [] => l
  | (k, x) :: xs =>
      set_objectItems (reverse ((k, set_inlineComment comment x) :: xs)) l
  end.

Definition append_leading (cs : list LosslessComment) (l : LosslessValue)
  : LosslessValue :=
  set_leadingComments (leadingComments l ++ cs) l.

Fixpoint ParseValueLossless (fuel : nat) (currentIndent : Z)
    (consumePending : bool) {struct fuel} : LM unit :=
  match fuel with
  | O => out_of_fuel
  | S fuel =>
      (if consumePending
       then cs <- take_pending ;; modify_out (append_leading cs)
       else ret tt) ;;;
      c <- lpeek ;;
      if c =c= "{"
      then modify_out (set_value (VObject ∅)) ;;;
           ParseInlineObjectLossless fuel currentIndent
      else if c =c= "["
      then modify_out (set_value (VArray [])) ;;;
           ParseArrayLossless fuel currentIndent
      else if c =c= DQ
      then v <- ltotal ParseStringOrTriple ;; modify_out (set_value v)
      else if c =c= SQ
      then v <- ltotal ParseStringSingle ;; modify_out (set_value v)
      else if IsIdentifierStart c
      then ParseIdentifierOrIndentedObjectLossless fuel currentIndent
      else if IsNumberStart c
      then v <- ltotal ParseNumber ;; modify_out (set_value v)
      else
        eof <- lask EndOfFile ;;
        if eof
        then Finish UnexpectedEnd
               (Some "Unexpected end of input while parsing value")
        else Finish UnexpectedChar
               (Some "Unexpected character while parsing value")
  end

with ParseInlineObjectLossless (fuel : nat) (currentIndent : Z)
  {struct fuel} : LM unit :=
  match fuel with
  | O => out_of_fuel
  | S fuel =>
      m <- lmatch "{" ;;
      if negb m then Finish InternalError None
      else
        lrun SkipWhitespaceAndComments ;;;
        m <- lmatch "}" ;;
        if m then modify_out (set_value (VObject ∅))
        else ParseInlineObjectLossless_loop fuel currentIndent ∅
  end

with ParseInlineObjectLossless_loop (fuel : nat) (currentIndent : Z)
  (object : Object) {struct fuel} : LM unit :=
  match fuel with
  | O => out_of_fuel
  | S fuel =>
      (* preKeyComments takes the pending comments and is dropped *)
      take_pending ;;;
      key <- ltotal ParseKey ;;
      lrun SkipWhitespaceAndComments ;;;
      m <- lmatch ":" ;;
      if negb m
      then Finish UnexpectedChar (Some "Expected ':' in inline object")
      else
        lrun SkipWhitespaceAndComments ;;;
        child <- with_child LosslessValue_default
                   (ParseValueLossless fuel currentIndent true) ;;
        modify_out (fun o => set_objectItems (objectItems o ++ [(key, child)]) o) ;;;
        let object := emplace key (value child) object in
        lrun SkipWhitespaceAndComments ;;;
        m <- lmatch "}" ;;
        if m then modify_out (set_value (VObject object))
        else
          m <- lmatch "," ;;
          if negb m
          then Finish UnexpectedChar (Some "Expected ',' in inline object")
          else lrun SkipWhitespaceAndComments ;;;
               ParseInlineObjectLossless_loop fuel currentIndent object
  end

with ParseArrayLossless (fuel : nat) (parentIndent : Z) {struct fuel} : LM unit :=
  match fuel with
  | O => out_of_fuel
  | S fuel =>
      m <- lmatch "[" ;;
      if negb m then Finish InternalError None
      else
        lrun SkipInlineSpaces ;;;
        c <- lpeek ;;
        if is_eol c
        then
          lrun consume_eol ;;;
          hasLine <- NextContentLineLossless fuel ;;
          c <- lpeek ;;
          if negb hasLine || (c =c= "]")
          then
            lrun (fun p => if Peek p =c= "]" then advance p else p) ;;;
            modify_out (set_value (VArray []))
          else
            arrayIndent <- lstack_back ;;
            array <- ParseArrayLossless_multiline fuel arrayIndent [] ;;
            lrun (fun p => if Peek p =c= "]" then advance p else p) ;;;
            modify_out (set_value (VArray array))
        else
          lrun SkipWhitespaceAndComments ;;;
          m <- lmatch "]" ;;
          if m then modify_out (set_value (VArray []))
          else
            array <- ParseArrayLossless_inline fuel parentIndent [] ;;
            modify_out (set_value (VArray array))
  end

with ParseArrayLossless_multiline (fuel : nat) (arrayIndent : Z) (array : Array)
  {struct fuel} : LM Array :=
  match fuel with
  | O => out_of_fuel
  | S fuel =>
      c <- lpeek ;;
      if c =c= "]" then lrun advance ;;; ret array
      else
        child <- with_child LosslessValue_default
                   (ParseValueLossless fuel arrayIndent false) ;;
        let array := array ++ [value child] in
        modify_out (fun o => set_arrayItems (arrayItems o ++ [child]) o) ;;;
        lrun SkipInlineSpaces ;;;
        c <- lpeek ;;
        if c =c= HASH
        then
          col <- lask mCol ;;
          (if (Z.of_nat col <=? arrayIndent + 1)
           then pending_comment_here
           else comment <- inline_comment_here ;;
                modify_out (set_last_inline_array comment)) ;;;
          lrun SkipToEOL ;;;
          hasLine2 <- NextContentLineLossless fuel ;;
          if negb hasLine2 then ret array
          else ParseArrayLossless_multiline fuel arrayIndent array
        else
          m <- lmatch "]" ;;
          if m then ret array
          else
            m <- lmatch "," ;;
            if m
            then lrun SkipWhitespaceAndComments ;;;
                 ParseArrayLossless_multiline fuel arrayIndent array
            else
              c <- lpeek ;;
              if is_eol c
              then
                lrun consume_eol ;;;
                hasLine2 <- NextContentLineLossless fuel ;;
                top <- lstack_back ;;
                if negb hasLine2 || (top <? arrayIndent) then ret array
                else ParseArrayLossless_multiline fuel arrayIndent array
              else Finish UnexpectedChar
                     (Some "Expected ',' or ']' or newline in multiline array")
  end

with ParseArrayLossless_inline (fuel : nat) (parentIndent : Z) (array : Array)
  {struct fuel} : LM Array :=
  match fuel with
  | O => out_of_fuel
  | S fuel =>
      c <- lpeek ;;
      if c =c= "]" then lrun advance ;;; ret array
      else
        child <- with_child LosslessValue_default
                   (ParseValueLossless fuel parentIndent true) ;;
        let array := array ++ [value child] in
        modify_out (fun o => set_arrayItems (arrayItems o ++ [child]) o) ;;;
        lrun SkipWhitespaceAndComments ;;;
        m <- lmatch "]" ;;
        if m then ret array
        else
          m <- lmatch "," ;;
          if negb m
          then Finish UnexpectedChar (Some "Expected ',' or ']' in inline array")
          else lrun SkipWhitespaceAndComments ;;;
               ParseArrayLossless_inline fuel parentIndent array
  end

with ParseIdentifierOrIndentedObjectLossless (fuel : nat) (currentIndent : Z)
  {struct fuel} : LM unit :=
  match fuel with
  | O => out_of_fuel
  | S fuel =>
      identifier <- lift (fun p => Some (let (i, p) :=
                                           read_identifier (remaining p) "" p in
                                         (ROk i, p))) ;;
      lrun SkipInlineSpaces ;;;
      c <- lpeek ;;
      if c =c= ":"
      then
        lrun (fun p => set_cursor (mPos p - String.length identifier) (mLine p)
                         (mCol p - String.length identifier) p) ;;;
        object <- ParseIndentedObjectBodyLossless fuel (-1) ∅ currentIndent ;;
        modify_out (set_value (VObject object))
      else if String.eqb identifier "true" then modify_out (set_value (VBool true))
      else if String.eqb identifier "false" then modify_out (set_value (VBool false))
      else if String.eqb identifier "null" then modify_out (set_value VNull)
      else modify_out (set_value (VString identifier))
  end

with ParseIndentedObjectBodyLossless (fuel : nat) (bodyIndent : Z) (obj : Object)
  (parentIndent : Z) {struct fuel} : LM Object :=
  match fuel with
  | O => out_of_fuel
  | S fuel =>
      top <- lstack_back ;;
      let bodyIndent := if bodyIndent =? -1 then top else bodyIndent in
      let next_line (obj : Object) : LM Object :=
        hasLine <- NextContentLineLossless fuel ;;
        if negb hasLine then ret obj
        else
          top <- lstack_back ;;
          if top <? bodyIndent then ret obj
          else ParseIndentedObjectBodyLossless fuel bodyIndent obj parentIndent in
      lrun SkipInlineSpaces ;;;
      eof <- lask EndOfFile ;;
      if eof then ret obj
      else
        c <- lpeek ;;
        if (c =c= HASH) || (c =c= CR) || (c =c= LF) then next_line obj
        else if negb (IsIdentifierStart c) && negb (c =c= DQ) && negb (c =c= SQ)
        then ret obj
        else
          preKeyComments <- take_pending ;;
          key <- ltotal ParseKey ;;
          lrun SkipInlineSpaces ;;;
          m <- lmatch ":" ;;
          if negb m
          then Finish UnexpectedChar (Some "Expected ':' in object pair")
          else
            lrun SkipInlineSpaces ;;;
            c <- lpeek ;;
            if (c =c= HASH) || is_eol c
            then
              lrun (if c =c= HASH then SkipToEOL else consume_eol) ;;;
              hasLine <- NextContentLineLossless fuel ;;
              if negb hasLine
              then Finish InconsistentIndent
                     (Some "Expected indented block after ':'")
              else
                top <- lstack_back ;;
                if top <=? bodyIndent
                then Finish InconsistentIndent
                       (Some "Expected deeper indentation for block value")
                else
                  child <- with_child
                             (append_leading preKeyComments LosslessValue_default)
                             (ParseValueLossless fuel top false) ;;
                  modify_out
                    (fun o => set_objectItems (objectItems o ++ [(key, child)]) o) ;;;
                  let obj := emplace key (value child) obj in
                  lrun SkipInlineSpaces ;;;
                  lrun (fun p => if Peek p =c= HASH then SkipToEOL p else p) ;;;
                  c <- lpeek ;;
                  if is_eol c
                  then
                    lrun consume_eol ;;;
                    hasLine <- NextContentLineLossless fuel ;;
                    if negb hasLine then ret obj
                    else
                      top <- lstack_back ;;
                      if top <? bodyIndent then ret obj
                      else ParseIndentedObjectBodyLossless fuel bodyIndent obj
                             parentIndent
                  else
                    top <- lstack_back ;;
                    if top <? bodyIndent then ret obj
                    else ParseIndentedObjectBodyLossless fuel bodyIndent obj
                           parentIndent
            else
              child <- with_child
                         (append_leading preKeyComments LosslessValue_default)
                         (ParseValueLossless fuel parentIndent true) ;;
              modify_out
                (fun o => set_objectItems (objectItems o ++ [(key, child)]) o) ;;;
              let obj := emplace key (value child) obj in
              lrun SkipInlineSpaces ;;;
              c <- lpeek ;;
              if c =c= HASH
              then
                col <- lask mCol ;;
                (if (Z.of_nat col <=? bodyIndent + 1)
                 then pending_comment_here
                 else comment <- inline_comment_here ;;
                      modify_out (set_last_inline_object comment)) ;;;
                lrun SkipToEOL ;;;
                next_line obj
              else
                m <- lmatch "," ;;
                if m
                then lrun SkipInlineSpaces ;;;
                     ParseIndentedObjectBodyLossless fuel bodyIndent obj parentIndent
                else
                  c <- lpeek ;;
                  if is_eol c then lrun consume_eol ;;; next_line obj
                  else ret obj
  end.

(** ** [LosslessParser::Parse] *)

Record LParseResult := mkLParseResult {
  lr_code : ErrorCode;
  lr_out : LosslessValue;
  lr_error : option Error;
  lr_state : LState
}.

(** [Finish(errorCode, error, message)] at the top level. *)
Definition Finish_top (errorCode : ErrorCode) (msg : option string)
    (error : option Error) (st : LState) : LParseResult :=
  let p := Finish_mError errorCode msg (lbase st) in
  let e :=
    match msg with
    | Some m => mkError errorCode (Location p) m
    | None =>
        match code (mError p) with
        | OK => mkError errorCode (Location p) ""
        | _ => mError p
        end
    end in
  mkLParseResult errorCode (lout st) (store_error error e) (set_lbase p st).

(** [LosslessParser::Parse(out, error)]; [lout st] is what the caller's
    [out] holds at the call. *)
Definition LosslessParser_Parse (fuel : nat) (st : LState) (error : option Error)
  : option LParseResult :=
  let p := set_error Error_default (lbase st) in
  let hasBOM := has_bom (mSrc p) in
  let chk := ValidateUTF8 (mSrc p) true in
  if negb (utf8_ok chk)
  then
    let p := set_cursor (badIndex chk) (badLine chk) (badCol chk) p in
    Some (Finish_top InvalidUtf8 (Some "Invalid UTF-8 encoding") error
            (set_lbase p st))
  else
    let p := if hasBOM then set_cursor 3 1 1 p else p in
    match NextContentLineLossless fuel (set_lbase p st) with
    | None => None
    | Some (RFail errorCode, st) => Some (Finish_top errorCode None error st)
    | Some (ROk hasLine, st) =>
        if negb hasLine
        then Some (Finish_top UnexpectedEnd (Some "Empty document") error st)
        else
          match ParseValueLossless fuel 0 true st with
          | None => None
          | Some (RFail errorCode, st) => Some (Finish_top errorCode None error st)
          | Some (ROk _, st) =>
              let p := lbase st in
              let p := skip_trailing (remaining p) p in
              let out :=
                set_trailingComments
                  (trailingComments (lout st) ++ mPendingComments st) (lout st) in
              let p := set_indent_stack [0] p in
              let st := mkLState p [] out in
              if negb (EndOfFile p)
              then Some (Finish_top UnexpectedChar
                           (Some "Trailing characters after top-level value")
                           error st)
              else Some (mkLParseResult OK out (store_error error Error_default) st)
          end
    end.

(** [havCSON::ParseLossless(src, out, error)]. *)
Definition ParseLossless (fuel : nat) (src : string) (out : LosslessValue)
    (error : option Error) : option LParseResult :=
  LosslessParser_Parse fuel (mkLState (Parser_new src) [] out) error.

Definition parse_lossless (fuel : nat) (src : string)
  : option (ErrorCode * LosslessValue) :=
  match ParseLossless fuel src LosslessValue_default None with
  | Some r => Some (lr_code r, lr_out r)
  | None => None
  end.

(** ** The canonical writer ([detail::WriteValue] and its helpers)

    A writer appends to [std::string& out]: it takes the text written so
    far and returns the extended text.  A writer that reaches
    [WriteIndent] may leave by the exception that [WriteIndent] throws;
    no writer catches it, and its result is then [None]. *)

Record WriteOptions := mkWriteOptions {
  indentWidth : Z;
  sortObjectKeys : bool
}.

Definition WriteOptions_default : WriteOptions := mkWriteOptions 2 false.

Inductive WriteContext := Root | InObject | InArray.

Definition is_InArray (ctx : WriteContext) : bool :=
  match ctx with InArray => true | _ => false end.

Fixpoint spaces (n : nat) : string :=
  match n with
  | O => EmptyString
  | S n => String SP (spaces n)
  end.

(** [out.append(static_cast<std::size_t>(level * width), ' ')].  The cast
    turns a negative product into a count beyond [max_size()], on which
    [append] throws [std::length_error]: the result is then [None]. *)
Definition WriteIndent (out : string) (level width : Z) : option string :=
  if level * width <? 0 then None
  else Some (out +:+ spaces (Z.to_nat (level * width))).

(** A [for] loop over [l] whose body may throw: the state behind the last
    iteration, or [None] once an iteration has thrown. *)
Fixpoint for_each {X S} (body : S -> X -> option S) (l : list X) (st : S)
  : option S :=
  match l with
  | [] => Some st
  | x :: l =>
      match body st x with
      | Some st => for_each body l st
      | None => None
      end
  end.

Fixpoint WriteStringQuoted_chars (value : string) (out : string) : string :=
  match value with
  | EmptyString => out
  | String c r =>
      let out :=
        if c =c= DQ then out +:+ "\" +:+ str1 DQ
        else if c =c= BSL then out +:+ "\\"
        else if c =c= LF then out +:+ "\n"
        else if c =c= CR then out +:+ "\r"
        else if c =c= TAB then out +:+ "\t"
        else push_back out c in
      WriteStringQuoted_chars r out
  end.

Definition WriteStringQuoted (value : string) (out : string) : string :=
  push_back (WriteStringQuoted_chars value (push_back out DQ)) DQ.

(** [s.find(c) != npos] *)
Fixpoint contains_char (c : ascii) (s : string) : bool :=
  match s with
  | EmptyString => false
  | String d r => (d =c= c) || contains_char c r
  end.

Definition IsSimpleScalar (value : Value) : bool :=
  match value with
  | VNull | VBool _ | VNumber _ => true
  | VString s => negb (contains_char LF s) && (String.length s <=? 32)%nat
  | _ => false
  end.

Definition CanInlineArray (array : Array) : bool :=
  if (3 <? length array)%nat then false
  else forallb IsSimpleScalar array.

Fixpoint all_chars (f : ascii -> bool) (s : string) : bool :=
  match s with
  | EmptyString => true
  | String c r => f c && all_chars f r
  end.

(** The computation of [bareOK] in [WriteObject]. *)
Definition bareOK (key : string) : bool :=
  match key with
  | EmptyString => false
  | String c0 _ =>
      (in_range "A" "Z" c0 || in_range "a" "z" c0 || (c0 =c= "_"))
      && all_chars (fun c => in_range "A" "Z" c || in_range "a" "z" c
                             || in_range "0" "9" c || (c =c= "_") || (c =c= "-"))
           key
  end.

Definition WriteKey (key : string) (out : string) : string :=
  if bareOK key then out +:+ key else WriteStringQuoted key out.

(** Stable insertion sort on the key.  ([std::sort] fixes no order among
    equal keys; they occur in lossless item lists only.) *)
Fixpoint insert_by_key {X} (x : string * X) (l : list (string * X))
  : list (string * X) :=
  match l with
  | [] => [x]
  | y :: l' =>
      if String.ltb (fst y) (fst x) then y :: insert_by_key x l' else x :: l
  end.

Definition sort_by_key {X} (l : list (string * X)) : list (string * X) :=
  foldr insert_by_key [] l.

(** [OrderedObjectItems]: the entries in iteration order, sorted by key on
    request.  An item view carries [f] of the value it points to. *)
Definition OrderedObjectItems {B} (f : Value -> B) (object : Object)
    (sortKeys : bool) : list (string * B) :=
  let items := map_fold (fun key v acc => (key, f v) :: acc) [] object in
  if sortKeys then sort_by_key items else items.

(** The branch [ctx == WriteContext::InArray] of [WriteObject]; an item
    carries the effect of [WriteValueInline] on its value. *)
Definition WriteObject_braced (items : list (string * (string -> string)))
    (out : string) : string :=
  let out := push_back out "{" in
  let step (st : nat * string) (item : string * (string -> string)) :=
    let '(index, out) := st in
    let out := if (0 <? index)%nat then out +:+ ", " else out in
    let out := WriteKey (fst item) out +:+ ": " in
    (S index, snd item out) in
  push_back (snd (fold_left step items (0%nat, out))) "}".

(** The branch of [WriteValueInline] for arrays, given the effect
    [write] of [WriteValueInline] on an element. *)
Definition WriteValueInline_array (write : Value -> string -> string)
    (array : Array) (out : string) : string :=
  let out := push_back out "[" in
  let step (st : nat * string) (e : Value) :=
    let '(index, out) := st in
    let out := if (0 <? index)%nat then out +:+ ", " else out in
    (S index, write e out) in
  push_back (snd (fold_left step array (0%nat, out))) "]".

Fixpoint WriteValueInline (value : Value) (options : WriteOptions) (out : string)
  {struct value} : string :=
  match value with
  | VNull => out +:+ "null"
  | VBool b => out +:+ (if b then "true" else "false")
  | VNumber d => out +:+ to_string d
  | VString s => WriteStringQuoted s out
  | VArray array =>
      WriteValueInline_array (fun e => WriteValueInline e options) array out
  | VObject object =>
      WriteObject_braced
        (OrderedObjectItems (fun v => WriteValueInline v options) object
           (sortObjectKeys options)) out
  end.

(** What [WriteObject] needs of an item outside array context: the value
    pointed to and the effect of [WriteValue] on it. *)
Definition ItemWriter : Type :=
  Value * (string -> Z -> WriteOptions -> WriteContext -> option string).

Definition is_object (v : Value) : bool :=
  match v with VObject _ => true | _ => false end.
Definition is_array (v : Value) : bool :=
  match v with VArray _ => true | _ => false end.
Definition can_inline (v : Value) : bool :=
  match v with VArray a => CanInlineArray a | _ => false end.

(** The brace-less branch of [WriteObject]. *)
Definition WriteObject_block (items : list (string * ItemWriter))
    (out : string) (indentLevel : Z) (options : WriteOptions)
    (indentFirstLine : bool) : option string :=
  let contentIndent := indentLevel in
  match items with
  | [] =>
      out ← (if indentFirstLine
             then WriteIndent out indentLevel (indentWidth options)
             else Some out);
      Some (out +:+ "{}")
  | _ =>
      let step (st : bool * string) (item : string * ItemWriter)
        : option (bool * string) :=
        let '(first, out) := st in
        let '(key, (value, write)) := item in
        let out := if negb first then push_back out LF else out in
        out ← (if negb (first && negb indentFirstLine)
               then WriteIndent out contentIndent (indentWidth options)
               else Some out);
        let out := WriteKey key out +:+ ": " in
        let isObject := is_object value in
        let isArray := is_array value in
        let inlineArray := isArray && can_inline value in
        out ← (if isObject || (isArray && negb inlineArray)
               then write (push_back out LF) (contentIndent + 1) options InObject
               else write out contentIndent options InObject);
        Some (false, out) in
      snd <$> for_each step items (true, out)
  end.

(** [WriteArray], given the effect [write] of [WriteValue] on a value. *)
Definition WriteArray_with
    (write : Value -> string -> Z -> WriteOptions -> WriteContext -> option string)
    (array : Array) (out : string) (indentLevel : Z) (options : WriteOptions)
    (ctx : WriteContext) : option string :=
  match array with
  | [] => Some (out +:+ "[]")
  | _ =>
      let allSimple := forallb IsSimpleScalar array in
      if allSimple && (length array <=? 3)%nat
      then
        let out := push_back out "[" in
        let step (st : bool * string) (value : Value) : option (bool * string) :=
          let '(first, out) := st in
          let out := if negb first then out +:+ ", " else out in
          out ← write value out indentLevel options InArray;
          Some (false, out) in
        out ← snd <$> for_each step array (true, out);
        Some (push_back out "]")
      else
        let callerIndented := is_InArray ctx in
        out ← (if negb callerIndented
               then WriteIndent out indentLevel (indentWidth options)
               else Some out);
        let out := push_back (push_back out "[") LF in
        let step (st : bool * string) (value : Value) : option (bool * string) :=
          let '(first, out) := st in
          let out := if negb first then push_back out LF else out in
          out ← WriteIndent out (indentLevel + 1) (indentWidth options);
          out ← match value with
                | VObject object =>
                    Some (WriteObject_braced
                            (OrderedObjectItems
                               (fun v => WriteValueInline v options) object
                               (sortObjectKeys options)) out)
                | _ => write value out (indentLevel + 1) options InArray
                end;
          Some (false, out) in
        out ← snd <$> for_each step array (true, out);
        let out := push_back out LF in
        out ← WriteIndent out indentLevel (indentWidth options);
        Some (push_back out "]")
  end.

Definition triple_quote : string := str1 DQ +:+ str1 DQ +:+ str1 DQ.

Fixpoint WriteValue (value : Value) (out : string) (indentLevel : Z)
    (options : WriteOptions) (ctx : WriteContext) {struct value}
  : option string :=
  match value with
  | VNull => Some (out +:+ "null")
  | VBool b => Some (out +:+ (if b then "true" else "false"))
  | VNumber d => Some (out +:+ to_string d)
  | VString stringValue =>
      if contains_char LF stringValue
      then Some (out +:+ triple_quote +:+ stringValue +:+ triple_quote)
      else Some (WriteStringQuoted stringValue out)
  | VArray array =>
      WriteArray_with (fun v => WriteValue v) array out indentLevel options ctx
  | VObject object =>
      (* WriteObject(object, out, indentLevel, options, ctx, true) *)
      if is_InArray ctx
      then
        Some (WriteObject_braced
                (OrderedObjectItems (fun v => WriteValueInline v options) object
                   (sortObjectKeys options)) out)
      else
        WriteObject_block
          (OrderedObjectItems (fun v => (v, WriteValue v)) object
             (sortObjectKeys options))
          out indentLevel options true
  end.

Definition WriteArray (array : Array) (out : string) (indentLevel : Z)
    (options : WriteOptions) (ctx : WriteContext) : option string :=
  WriteArray_with WriteValue array out indentLevel options ctx.

Definition WriteObject (object : Object) (out : string) (indentLevel : Z)
    (options : WriteOptions) (ctx : WriteContext) (indentFirstLine : bool)
  : option string :=
  if is_InArray ctx
  then
    Some (WriteObject_braced
            (OrderedObjectItems (fun v => WriteValueInline v options) object
               (sortObjectKeys options)) out)
  else
    WriteObject_block
      (OrderedObjectItems (fun v => (v, WriteValue v)) object
         (sortObjectKeys options))
      out indentLevel options indentFirstLine.

(** [ToString]: the text, or [None] when the writer throws. *)
Definition ToString (value : Value) (options : WriteOptions) : option string :=
  WriteValue value "" 0 options Root.

(** ** The JSON writer ([ToJsonString] and its local [Writer]) *)

Fixpoint JsonString_chars (value : string) (out : string) : string :=
  match value with
  | EmptyString => out
  | String c r =>
      let out :=
        if c =c= DQ then out +:+ "\" +:+ str1 DQ
        else if c =c= BSL then out +:+ "\\"
        else if c =c= LF then out +:+ "\n"
        else if c =c= CR then out +:+ "\r"
        else if c =c= TAB then out +:+ "\t"
        else push_back out c in
      JsonString_chars r out
  end.

(** [Writer::JsonString] *)
Definition JsonString (value : string) (out : string) : string :=
  push_back (JsonString_chars value (push_back out DQ)) DQ.

(** The branch of [Writer::Write] for arrays, given the effect [write] of
    [Writer::Write] on an element. *)
Definition JsonWrite_array (write : Value -> string -> string) (array : Array)
    (out : string) : string :=
  let out := push_back out "[" in
  let step (st : bool * string) (e : Value) :=
    let '(first, out) := st in
    let out := if negb first then push_back out "," else out in
    (false, write e out) in
  push_back (snd (fold_left step array (true, out))) "]".

(** The branch for objects; an item carries the effect of [Writer::Write]
    on its value. *)
Definition JsonWrite_object (items : list (string * (string -> string)))
    (out : string) : string :=
  let out := push_back out "{" in
  let step (st : bool * string) (item : string * (string -> string)) :=
    let '(first, out) := st in
    let out := if negb first then push_back out "," else out in
    let out := JsonString (fst item) out in
    let out := push_back out ":" in
    (false, snd item out) in
  push_back (snd (fold_left step items (true, out))) "}".

(** [Writer::Write] *)
Fixpoint JsonWrite (value : Value) (out : string) {struct value} : string :=
  match value with
  | VNull => out +:+ "null"
  | VBool b => out +:+ (if b then "true" else "false")
  | VNumber d => out +:+ to_string d
  | VString s => JsonString s out
  | VArray array => JsonWrite_array (fun e => JsonWrite e) array out
  | VObject object =>
      JsonWrite_object (OrderedObjectItems (fun v => JsonWrite v) object false) out
  end.

Definition ToJsonString (value : Value) : string := JsonWrite value "".

(** ** The lossless writer ([detail::WriteLosslessValue])

    [WriteLosslessValue] takes its tree by const reference and, through
    [const_cast], clears and restores the [leadingComments] of children
    in place.  The tree is therefore threaded through the writer: a call
    yields the tree as the call leaves it, and the text, or [None] for
    the text when the call is left by the exception of [WriteIndent].
    The recursive call on a child runs on the child as it is stored at
    that moment, so the recursion is on [fuel]. *)

Fixpoint WriteCommentLines_loop (lines : list LosslessComment)
    (prevNonEmpty : bool) (out : string) : option string :=
  match lines with
  | [] => Some out
  | ln :: rest =>
      let empty := (String.length (text ln) =? 0)%nat in
      let out := if prevNonEmpty && negb empty then push_back out LF else out in
      if empty
      then WriteCommentLines_loop rest false (push_back out LF)
      else
        (* the indent is in absolute columns *)
        out ← WriteIndent out (indent ln) 1;
        WriteCommentLines_loop rest true (push_back (out +:+ text ln) LF)
  end.

Definition WriteCommentLines (lines : list LosslessComment) (out : string)
    (options : WriteOptions) : option string :=
  WriteCommentLines_loop lines false out.

(** The lambda [trimTrailingSpaces]. *)
Fixpoint trimTrailingSpaces (s : string) : string :=
  match s with
  | EmptyString => EmptyString
  | String c r =>
      match trimTrailingSpaces r with
      | EmptyString => if (c =c= SP) || (c =c= TAB) then EmptyString else str1 c
      | r' => String c r'
      end
  end.

(** The lambda [writeInlineComment]. *)
Definition writeInlineComment (out : string) (comment : string) : string :=
  if (String.length comment =? 0)%nat then out else out +:+ " #" +:+ comment.

(** [OrderedLosslessItems]: a view is a key and a pointer into
    [objectItems], here the position of the entry. *)
Definition OrderedLosslessItems (items : list (string * LosslessValue))
    (sortKeys : bool) : list (string * nat) :=
  let views := imap (fun i kv => (fst kv, i)) items in
  if sortKeys then sort_by_key views else views.

Section WriteLosslessLoops.

(** [WriteLosslessValue] on a child, as the enclosing call sees it. *)
Variable rec :
  LosslessValue -> string -> Z -> WriteOptions -> WriteContext ->
  option (LosslessValue * option string).
Variable options : WriteOptions.
Variable indentLevel : Z.

(** [for (index = 0; index < value.arrayItems.size(); ++index)] *)
Fixpoint write_arrayItems (indices : list nat) (items : list LosslessValue)
    (out : string) : option (list LosslessValue * option string) :=
  match indices with
  | [] => Some (items, Some out)
  | index :: indices =>
      match items !! index with
      | None => Some (items, Some out)  (* not reached: [index] is in range *)
      | Some child =>
          match rec child out (indentLevel + 1) options InArray with
          | None => None
          | Some (child, None) => Some (<[index := child]> items, None)
          | Some (child, Some out) =>
              let items := <[index := child]> items in
              let out :=
                if (index + 1 <? length items)%nat then push_back out LF
                else out in
              write_arrayItems indices items out
          end
      end
  end.

(** The loop over the views of an object in array context. *)
Fixpoint write_objectItems_braced (index : nat) (views : list (string * nat))
    (count : nat) (items : list (string * LosslessValue)) (out : string)
  : option string :=
  match views with
  | [] => Some out
  | (key, ptr) :: views =>
      match items !! ptr with
      | None => Some out  (* not reached: [ptr] is in range *)
      | Some (_, child) =>
          out ← WriteCommentLines (leadingComments child) out options;
          out ← WriteIndent out (indentLevel + 1) (indentWidth options);
          let out := out +:+ key +:+ ": " in
          out ← WriteValue (value child) out (indentLevel + 1) options InObject;
          let out := writeInlineComment out (inlineComment child) in
          let out := if (index + 1 <? count)%nat then push_back out LF else out in
          write_objectItems_braced (S index) views count items out
      end
  end.

(** The loop over the views of an object outside array context; the
    children are cleared and restored in [items].  An exception leaves
    the loop at once: a child that has been cleared stays cleared. *)
Fixpoint write_objectItems_block (index : nat) (views : list (string * nat))
    (count : nat) (items : list (string * LosslessValue)) (out : string)
  : option (list (string * LosslessValue) * option string) :=
  match views with
  | [] => Some (items, Some out)
  | (key, ptr) :: views =>
      match items !! ptr with
      | None => Some (items, Some out)  (* not reached: [ptr] is in range *)
      | Some (k, child) =>
          match
            out ← WriteCommentLines (leadingComments child) out options;
            WriteIndent out indentLevel (indentWidth options)
          with
          | None => Some (items, None)
          | Some out =>
              let out := out +:+ key +:+ ":" in
              let isObject := is_object (value child) in
              let isArray := is_array (value child) in
              let written :=
                if isObject || isArray
                then
                  let out := push_back out LF in
                  let savedComments := leadingComments child in
                  let cleared := set_leadingComments [] child in
                  match rec cleared out (indentLevel + 1) options InObject with
                  | None => None
                  | Some (child, None) => Some (<[ptr := (k, child)]> items, None)
                  | Some (child, Some out) =>
                      Some (<[ptr := (k, set_leadingComments savedComments child)]>
                              items, Some out)
                  end
                else
                  let out := push_back out SP in
                  Some (items,
                        WriteValue (value child) out indentLevel options InObject) in
              match written with
              | None => None
              | Some (items, None) => Some (items, None)
              | Some (items, Some out) =>
                  let comment :=
                    match items !! ptr with
                    | Some (_, child) => trimTrailingSpaces (inlineComment child)
                    | None => EmptyString
                    end in
                  let out := writeInlineComment out comment in
                  let out :=
                    if (index + 1 <? count)%nat then push_back out LF else out in
                  write_objectItems_block (S index) views count items out
              end
          end
      end
  end.

End WriteLosslessLoops.

Fixpoint WriteLosslessValue (fuel : nat) (value_ : LosslessValue) (out : string)
    (indentLevel : Z) (options : WriteOptions) (ctx : WriteContext)
  : option (LosslessValue * option string) :=
  match fuel with
  | O => None
  | S fuel =>
      match WriteCommentLines (leadingComments value_) out options with
      | None => Some (value_, None)
      | Some out =>
          if is_array (value value_) && negb (length (arrayItems value_) =? 0)%nat
          then
            match WriteIndent out indentLevel (indentWidth options) with
            | None => Some (value_, None)
            | Some out =>
                let out := out +:+ "[" +:+ str1 LF in
                match write_arrayItems (WriteLosslessValue fuel) options
                        indentLevel (seq 0 (length (arrayItems value_)))
                        (arrayItems value_) out with
                | None => None
                | Some (items, None) => Some (set_arrayItems items value_, None)
                | Some (items, Some out) =>
                    let out := push_back out LF in
                    Some (set_arrayItems items value_,
                          out ← WriteIndent out indentLevel (indentWidth options);
                          Some (push_back out "]"))
                end
            end
          else if is_object (value value_)
                  && negb (length (objectItems value_) =? 0)%nat
          then
            let items :=
              OrderedLosslessItems (objectItems value_) (sortObjectKeys options) in
            if is_InArray ctx
            then
              let out := out +:+ "{" +:+ str1 LF in
              Some (value_,
                    out ← write_objectItems_braced options indentLevel 0 items
                            (length items) (objectItems value_) out;
                    let out := push_back out LF in
                    out ← WriteIndent out indentLevel (indentWidth options);
                    Some (push_back out "}"))
            else
              match write_objectItems_block (WriteLosslessValue fuel) options
                      indentLevel 0 items (length items) (objectItems value_)
                      out with
              | None => None
              | Some (objs, text) => Some (set_objectItems objs value_, text)
              end
          else
            Some (value_,
                  out ← WriteIndent out indentLevel (indentWidth options);
                  out ← WriteValue (value value_) out indentLevel options ctx;
                  Some (writeInlineComment out (inlineComment value_)))
      end
  end.

(** The nesting depth of a lossless tree bounds the recursion. *)
Fixpoint lossless_depth (v : LosslessValue) : nat :=
  S (Nat.max (foldr (fun x acc => Nat.max (lossless_depth x) acc) O (arrayItems v))
             (foldr (fun kv acc => Nat.max (lossless_depth (snd kv)) acc) O
                (objectItems v))).

(** [ToStringLossless]: the tree as the call leaves it, and the text it
    returns, or [None] for the text when it throws. *)
Definition ToStringLossless (value_ : LosslessValue) (options : WriteOptions)
  : option (LosslessValue * option string) :=
  WriteLosslessValue (lossless_depth value_) value_ "" 0 options Root.

(** * Documents and specification-side definitions *)

Definition nl : string := str1 LF.
Definition tab : string := str1 TAB.
Definition dq : string := str1 DQ.

(** The number that a decimal literal denotes. *)
Definition number_of (literal : string) : Value := VNumber (fst (strtod literal)).

(** [a: 1 / a: 2] *)
Definition doc_duplicate_key : string := "a: 1" +:+ nl +:+ "a: 2".

(** The double-quoted literal made of the escape of a line feed and the
    escape of a double quote. *)
Definition doc_newline_quote : string := dq +:+ "\n\" +:+ dq +:+ dq.

(** [ab : 1]: an identifier, a space, a colon. *)
Definition doc_spaced_colon : string := "ab : 1".

(** The text from the cursor on. *)
Definition rest (p : Parser) : string := substr_from (mPos p) (mSrc p).

(** A character that starts content on a line: not a space, a tab, a
    comment sign, a line end, or the end of the text (read as NUL). *)
Definition is_content (c : ascii) : bool :=
  negb ((c =c= SP) || (c =c= TAB) || (c =c= HASH) || (c =c= CR) || (c =c= LF)
        || (c =c= NUL)).

(** The parser after [Get] has consumed the character [c]. *)
Definition after_char (c : ascii) (p : Parser) : Parser :=
  if c =c= LF
  then set_cursor (S (mPos p)) (S (mLine p)) 1 p
  else set_cursor (S (mPos p)) (mLine p) (S (mCol p)) p.

(** A two-space unit, then a sibling indented by three spaces. *)
Definition doc_three_space_sibling : string :=
  "a:" +:+ nl +:+ "  b: 1" +:+ nl +:+ "   c: 2".

(** A tab in the leading white space of the second line. *)
Definition doc_tab_second_line : string := "a: 1" +:+ nl +:+ tab +:+ "b: 2".

(** A tab in the leading white space of the first line. *)
Definition doc_tab_first_line : string := tab +:+ "a: 1".

(** The result of a run without the final state; [None] without fuel. *)
Definition result_of {A St} (r : option (Res A * St)) : option (Res A) :=
  option_map fst r.

(** The value of [k] hexadecimal digits at the head of a text, continuing
    from [acc]; [None] when a digit is missing or is not hexadecimal. *)
Fixpoint hex_digits (k : nat) (acc : Z) (s : string) : option Z :=
  match k with
  | O => Some acc
  | S k =>
      match s with
      | EmptyString => None
      | String c r =>
          if HexValue c <? 0 then None
          else hex_digits k (acc * 16 + HexValue c) r
      end
  end.

(** The low surrogate that a text starts with, written as a [\u] escape. *)
Definition low_surrogate_escape (s : string) : option Z :=
  match s with
  | String b (String u r) =>
      if (b =c= BSL) && (u =c= "u")
      then
        match hex_digits 4 0 r with
        | Some lo => if (0xDC00 <=? lo) && (lo <=? 0xDFFF) then Some lo else None
        | None => None
        end
      else None
  | _ => None
  end.

(** The code point of a surrogate pair. *)
Definition surrogate_pair (hi lo : Z) : Z :=
  0x10000 + (hi - 0xD800) * 0x400 + (lo - 0xDC00).

(** The four-byte UTF-8 encoding of a code point from [0x10000] on. *)
Definition utf8_four (cp : Z) : string :=
  String (to_char (0xF0 + cp / 2 ^ 18))
    (String (to_char (0x80 + (cp / 2 ^ 12) mod 64))
       (String (to_char (0x80 + (cp / 2 ^ 6) mod 64))
          (String (to_char (0x80 + cp mod 64)) EmptyString))).

(** The escapes [\uD83D\uDE00] and [\uD83D] between double quotes. *)
Definition doc_surrogate_pair : string := dq +:+ "\uD83D\uDE00" +:+ dq.
Definition doc_lone_high_surrogate : string := dq +:+ "\uD83D" +:+ dq.

(** A text of white space and comments only; [in_comment] tells whether
    the text starts inside a comment (which runs up to a line feed). *)
Fixpoint blank_text (in_comment : bool) (s : string) : bool :=
  match s with
  | EmptyString => true
  | String c r =>
      if in_comment then blank_text (negb (c =c= LF)) r
      else if (c =c= SP) || (c =c= TAB) || (c =c= CR) || (c =c= LF)
      then blank_text false r
      else if c =c= HASH then blank_text true r
      else false
  end.

(** A text of white space and whole comments: as [blank_text], but a
    comment that the text leaves open, without its line feed, counts only
    where the text ends the document ([at_end]). *)
Fixpoint skipped_text (in_comment at_end : bool) (s : string) : bool :=
  match s with
  | EmptyString => negb in_comment || at_end
  | String c r =>
      if in_comment then skipped_text (negb (c =c= LF)) at_end r
      else if (c =c= SP) || (c =c= TAB) || (c =c= CR) || (c =c= LF)
      then skipped_text false at_end r
      else if c =c= HASH then skipped_text true at_end r
      else false
  end.

(** A document that is empty or holds white space and comments only. *)
Definition blank_document (src : string) : bool := blank_text false src.

(** The cursor is within the text or at its end. *)
Definition cursor_ok (p : Parser) : Prop := (mPos p <= size p)%nat.

(** A comment and a blank line. *)
Definition doc_comment_only : string := "  # note" +:+ nl +:+ nl.

(** The cursor behind the line ending that [ReadLineIndent] consumes at
    the cursor, if there is one. *)
Definition after_line_ending (p : Parser) : Parser :=
  if Peek p =c= CR
  then if Peek (advance p) =c= LF then advance (advance p) else advance p
  else if Peek p =c= LF then advance p
  else p.

(** The number of nodes of a value. *)
Fixpoint value_size (v : Value) : nat :=
  match v with
  | VArray a => S (foldr (fun x acc => (value_size x + acc)%nat) O a)
  | VObject o => S (map_fold (fun _ x acc => (value_size x + acc)%nat) O o)
  | _ => 1%nat
  end.

(** The texts [ts], each but the first preceded by [sep]; with [first]
    unset the first is preceded by [sep] too. *)
Fixpoint sep_concat (first : bool) (sep : string) (ts : list string) : string :=
  match ts with
  | [] => EmptyString
  | t :: ts => (if first then EmptyString else sep) +:+ t +:+ sep_concat false sep ts
  end.

(** The texts [ts] joined by [sep]. *)
Definition join (sep : string) (ts : list string) : string := sep_concat true sep ts.

(** The white space of an indent. *)
Definition indent_text (level width : Z) : string := spaces (Z.to_nat (level * width)).

(** The array [[1, 2, 3, 4]], and the one-element array that holds the
    object [{k: [1, 2, 3, 4]}]. *)
Definition four_numbers : Array :=
  [number_of "1"; number_of "2"; number_of "3"; number_of "4"].
Definition array_of_object_of_array : Value :=
  VArray [VObject {[ "k" := VArray four_numbers ]}].

(** The text of the pieces that a loop appends for the elements of [l];
    [first] holds for the first iteration only. *)
Fixpoint concat_pieces {X} (piece : bool -> X -> string) (first : bool)
    (l : list X) : string :=
  match l with
  | [] => EmptyString
  | x :: l => piece first x +:+ concat_pieces piece false l
  end.

(** The layouts of an array: [[a, b, c]] on one line, and one element per
    line between the brackets, each behind the indent of [level + 1]; [opening]
    is the indent that precedes the opening bracket. *)
Definition inline_layout (elements : list string) : string :=
  "[" +:+ join ", " elements +:+ "]".

Definition multiline_layout (opening : string) (level width : Z)
    (elements : list string) : string :=
  opening +:+ "[" +:+ nl
  +:+ join nl (map (fun t => indent_text (level + 1) width +:+ t) elements)
  +:+ nl +:+ indent_text level width +:+ "]".

(** The inline-braced layout [{k: v, ...}]. *)
Definition braced_layout (items : list (string * string)) : string :=
  "{" +:+ join ", " (map (fun it => WriteKey (fst it) "" +:+ ": " +:+ snd it) items)
  +:+ "}".

Definition three_numbers : Array :=
  [number_of "1"; number_of "2"; number_of "3"].

(** A Unicode scalar value: a code point up to [U+10FFFF] that is not a
    surrogate. *)
Definition is_scalar_value (cp : Z) : bool :=
  (0 <=? cp) && (cp <=? 0x10FFFF) && negb ((0xD800 <=? cp) && (cp <=? 0xDFFF)).

(** The text that [AppendUTF8] builds from a sequence of code points. *)
Definition utf8_of (cps : list Z) : string := fold_left AppendUTF8 cps "".

(** The line and column that [ValidateUTF8] has reached behind the code
    points [cps], from line [ln] and column [col]. *)
Definition position_after (cps : list Z) (ln col : nat) : nat * nat :=
  fold_left (fun lc cp => bumpCol cp (fst lc) (snd lc)) cps (ln, col).

(** A byte that cannot start a UTF-8 sequence: a continuation byte, or a
    byte from [0xF8] on. *)
Definition is_stray_byte (c : ascii) : bool :=
  ((0x80 <=? uchar c) && (uchar c <=? 0xBF)) || (0xF8 <=? uchar c).

(** The error recorded in [mError] is the failure [e], at the place where
    the cursor stands. *)
Definition records (e : ErrorCode) (p : Parser) : Prop :=
  code (mError p) = e /\ e <> OK /\ where_ (mError p) = Location p.

(** A production is coherent when every failure it returns is the one it
    has recorded in [mError]. *)
Definition coherent {A} (m : M A) : Prop :=
  forall p e p', m p = Some (RFail e, p') -> records e p'.

(** The same for a production that needs no fuel. *)
Definition coherent_total {A} (f : Parser -> Res A * Parser) : Prop :=
  forall p e p', f p = (RFail e, p') -> records e p'.

(** The line and column of the position [k] characters into [s], counted
    the way [Get] counts them from line [ln] and column [col]: a line feed
    starts a new line at column 1, any other character is one column. *)
Fixpoint position_at (s : string) (k : nat) (ln col : nat) {struct k}
  : nat * nat :=
  match k with
  | O => (ln, col)
  | S k =>
      match s with
      | String c r =>
          if c =c= LF then position_at r k (S ln) 1 else position_at r k ln (S col)
      | EmptyString => (ln, col)
      end
  end.

(** The parser reads [src], its cursor is between [base] and the end, and
    its line and column are those of the cursor, counted from [base]. *)
Definition tracks (src : string) (base : nat) (p : Parser) : Prop :=
  mSrc p = src
  /\ (base <= mPos p <= String.length src)%nat
  /\ (mLine p, mCol p) = position_at (substr_from base src) (mPos p - base) 1 1.

(** [tracks] holds at the cursor and at the [n] positions before it, all
    on the line of the cursor. *)
Definition tracks_back (src : string) (base : nat) (n : nat) (p : Parser) : Prop :=
  forall k, (k <= n)%nat ->
    tracks src base (set_cursor (mPos p - k) (mLine p) (mCol p - k) p).

(** A production keeps an invariant of the parser state, whatever it
    returns. *)
Definition preserves (I : Parser -> Prop) {A} (m : M A) : Prop :=
  forall p r p', I p -> m p = Some (r, p') -> I p'.

(** A character that [SkipWhitespaceAndComments] passes: white space, a
    line end, or the start of a comment. *)
Definition is_skipped (c : ascii) : bool :=
  (c =c= SP) || (c =c= TAB) || (c =c= HASH) || (c =c= CR) || (c =c= LF).

(** The indent stack as the parser keeps it: strictly increasing from
    the bottom level [0] to the top ([back()], the head of the list). *)
Fixpoint stack_ok (st : list Z) : Prop :=
  match st with
  | [] => False
  | top :: below =>
      match below with
      | [] => top = 0
      | next :: _ => next < top /\ stack_ok below
      end
  end.

(** The order of [std::sort] in [OrderedObjectItems]: [a.first < b.first]. *)
Definition key_lt {B} (a b : string * B) : Prop :=
  String.ltb (fst a) (fst b) = true.

(** A value that is neither an array nor an object. *)
Definition is_leaf (v : Value) : bool :=
  match v with
  | VArray _ | VObject _ => false
  | _ => true
  end.

(** The items of a lossless tree agree with its plain value, at every
    node: the value of an array node lists the values of its [arrayItems],
    in order; the value of an object node maps each key of its
    [objectItems] to the value of the first item with that key. *)
Fixpoint items_agree (l : LosslessValue) : Prop :=
  foldr (fun x acc => items_agree x /\ acc) True (arrayItems l)
  /\ foldr (fun kv acc => items_agree (snd kv) /\ acc) True (objectItems l)
  /\ match value l with
     | VArray a => a = map value (arrayItems l)
     | VObject o =>
         o = list_to_map (map (fun kv => (fst kv, value (snd kv))) (objectItems l))
     | _ => True
     end.

(** A node that has no items yet. *)
Definition fresh (l : LosslessValue) : Prop :=
  arrayItems l = [] /\ objectItems l = [].

Definition children_agree (l : LosslessValue) : Prop :=
  Forall items_agree (arrayItems l)
  /\ Forall (fun kv => items_agree (snd kv)) (objectItems l).

(** The local [array] of [ParseArrayLossless] while [out] is [l]. *)
Definition array_so_far (array : Array) (l : LosslessValue) : Prop :=
  children_agree l /\ array = map value (arrayItems l).

(** The local [object] ([obj]) of the object productions while [out] is [l]. *)
Definition object_so_far (object : Object) (l : LosslessValue) : Prop :=
  children_agree l
  /\ object = list_to_map (map (fun kv => (fst kv, value (snd kv))) (objectItems l)).

(** [m] leaves [out] as it is and fails with an error code only. *)
Definition leaves_out {A} (m : LM A) : Prop :=
  forall st r st', m st = Some (r, st') -> lout st' = lout st /\ r <> RFail OK.

(** From an [out] with [P], a success of [m] that yields [a] leaves an
    [out] with [Q a]; a failure carries an error code. *)
Definition establishes {A} (P : LosslessValue -> Prop) (m : LM A)
    (Q : A -> LosslessValue -> Prop) : Prop :=
  forall st r st',
    P (lout st) -> m st = Some (r, st') ->
    match r with
    | ROk a => Q a (lout st')
    | RFail e => e <> OK
    end.

(** No error has been recorded in [mError]. *)
Definition clean (p : Parser) : Prop := code (mError p) = OK.

(** A step of the cursor that leaves [mError] alone. *)
Definition silent (f : Parser -> Parser) : Prop :=
  forall p, mError (f p) = mError p.

(** A production that leaves [mError] alone when it succeeds. *)
Definition silent_total {A} (f : Parser -> Res A * Parser) : Prop :=
  forall p a p', f p = (ROk a, p') -> mError p' = mError p.

(** A lossless production started with no error recorded: a success
    records none, a failure is the error recorded in [mError]. *)
Definition lcoherent {A} (m : LM A) : Prop :=
  forall st r st',
    clean (lbase st) -> m st = Some (r, st') ->
    match r with
    | ROk _ => clean (lbase st')
    | RFail e => records e (lbase st')
    end.

(** A lossless production keeps an invariant of the base parser, whatever
    it returns. *)
Definition lpreserves (I : Parser -> Prop) {A} (m : LM A) : Prop :=
  forall st r st', I (lbase st) -> m st = Some (r, st') -> I (lbase st').

(** The text that [WriteValue] writes to an empty [out]; empty when it
    throws. *)
Definition written (v : Value) (indentLevel : Z) (options : WriteOptions)
    (ctx : WriteContext) : string :=
  default "" (WriteValue v "" indentLevel options ctx).

(** The comments that the lossless writer writes for a tree, the
    [leadingComments] of its nodes, all have a non-negative indent. *)
Fixpoint indents_ok (v : LosslessValue) : bool :=
  forallb (fun c => 0 <=? indent c) (leadingComments v)
  && forallb indents_ok (arrayItems v)
  && forallb (fun kv => indents_ok (snd kv)) (objectItems v).

(** An object whose key [a] holds an array, with a comment before the key. *)
Definition tree_commented_array : LosslessValue :=
  mkLossless (VObject {[ "a" := VArray [VNull] ]}) [] ""
    []
    [("a", mkLossless (VArray [VNull]) [mkComment 0 "# c"] ""
             [mkLossless VNull [] "" [] [] []] [] [])]
    [].

(** Whether the cursor stands inside a line: [mCol != 1], the test of
    [NextContentLine] and [NextContentLineLossless]. *)
Definition inside_line (p : Parser) : bool := negb (mCol p =? 1)%nat.

(** Whether a blank text has a tab in the leading white space of a line,
    where the lossless parser looks for one: in the spaces that open a
    line.  What follows a comment sign or a carriage return is skipped up
    to the next line feed ([skipping]), so a tab there, and a tab behind a
    carriage return that no line feed follows, is not looked at. *)
Fixpoint tab_in_indent (skipping : bool) (s : string) : bool :=
  match s with
  | EmptyString => false
  | String c r =>
      if skipping then tab_in_indent (negb (c =c= LF)) r
      else if c =c= SP then tab_in_indent false r
      else if c =c= TAB then true
      else if c =c= LF then tab_in_indent false r
      else tab_in_indent true r
  end.

(** A comment line, then a line that a tab opens. *)
Definition doc_comment_then_tab : string := "# note" +:+ nl +:+ " " +:+ tab.

(** A comment that holds the code point U+FEFF, in UTF-8. *)
Definition doc_bom_in_comment : string := "# " +:+ utf8_of [0xFEFF].

(** A production that returns, returns a result with [Q]. *)
Definition yields {A} (Q : A -> Prop) (m : M A) : Prop :=
  forall p a p', m p = Some (ROk a, p') -> Q a.

(** The value of the first pair with the key [key]. *)
Fixpoint first_value (key : string) (pairs : list (string * Value))
  : option Value :=
  match pairs with
  | [] => None
  | (k, v) :: pairs => if String.eqb k key then Some v else first_value key pairs
  end.

(** The pairs of an inline object behind its opening brace, with the key
    [a] twice; and a key whose value is a block, twice. *)
Definition doc_inline_pairs : string := "a: 1, a: 2}".
Definition doc_block_duplicate : string :=
  "a:" +:+ nl +:+ "  b: 1" +:+ nl +:+ "a:" +:+ nl +:+ "  b: 2".

(* -- tactics -- *)
(** Destructs [fuel] [n] times; the runs on too little fuel return [None]. *)
Ltac split_fuel fuel H n :=
  lazymatch n with
  | O => idtac
  | S ?m =>
      destruct fuel as [|fuel];
      [vm_compute in H; discriminate H | split_fuel fuel H m]
  end.

(** Case analysis on the comparisons of the goal. *)
Ltac compare_cases :=
  repeat (match goal with
          | |- context [Z.eqb ?a ?b] => destruct (Z.eqb_spec a b)
          | |- context [Z.leb ?a ?b] => destruct (Z.leb_spec a b)
          | |- context [Z.ltb ?a ?b] => destruct (Z.ltb_spec a b)
          | |- context [Nat.eqb ?a ?b] => destruct (Nat.eqb_spec a b)
          | |- context [Nat.leb ?a ?b] => destruct (Nat.leb_spec a b)
          | |- context [Nat.ltb ?a ?b] => destruct (Nat.ltb_spec a b)
          end; try lia; cbn [andb orb negb]).

(** The equations of the Euclidean division of [a] by [b], for [lia]. *)
Ltac euclid a b :=
  pose proof (Z.div_mod a b ltac:(lia));
  pose proof (Z.mod_pos_bound a b ltac:(lia)).

(** * Properties *)

(** ** Overwrite on duplicate keys *)

Lemma emplace_present (key : string) (v : Value) (o : Object) :
  is_Some (o !! key) -> emplace key v o = o.
Proof. intros [w Hw]. unfold emplace. by rewrite Hw. Qed.

Lemma emplace_lookup_same (key : string) (v : Value) (o : Object) :
  emplace key v o !! key = Some (default v (o !! key)).
Proof.
  unfold emplace. destruct (o !! key) as [w|] eqn:Hw; simpl.
  - done.
  - by rewrite lookup_insert_eq.
Qed.

(** [emplace] never replaces a value: a second [emplace] on a key changes
    nothing, and the value found is that of the first [emplace]. *)
Lemma emplace_twice (key : string) (v1 v2 : Value) (o : Object) :
  emplace key v2 (emplace key v1 o) = emplace key v1 o.
Proof.
  apply emplace_present. rewrite emplace_lookup_same. by eexists.
Qed.

(** C1, as stated, fails: no run of the plain parser on the document
    [a: 1 / a: 2] yields an object in which [a] maps to [2]. *)
Lemma C1_last_value_not_kept :
  ~ exists fuel o,
      parse fuel doc_duplicate_key = Some (OK, VObject o)
      /\ o !! "a" = Some (number_of "2").
Proof.
  intros (fuel & o & H & Ha).
  split_fuel fuel H 5%nat.
  vm_compute in H. injection H as <-. vm_compute in Ha. discriminate Ha.
Qed.

(** ** Round trip through the canonical writer *)

(** C2 fails on the code: the document [doc_newline_quote] parses to the
    string of a line feed and a double quote; [ToString] writes it between
    triple quotes without escaping, as four double quotes after the line
    feed; re-parsing that text ends the triple-quoted string at the first
    three of them and fails on the fourth with [UnexpectedChar]. *)
Theorem C2_reparse_fails :
  forall k,
    parse (1 + k) doc_newline_quote = Some (OK, VString (nl +:+ dq))
    /\ ToString (VString (nl +:+ dq)) WriteOptions_default
       = Some (dq +:+ dq +:+ dq +:+ nl +:+ dq +:+ dq +:+ dq +:+ dq)
    /\ parse (1 + k) (dq +:+ dq +:+ dq +:+ nl +:+ dq +:+ dq +:+ dq +:+ dq)
       = Some (UnexpectedChar, VNull).
Proof.
  intros k. repeat split; vm_compute; reflexivity.
Qed.

(** ** Identifier or first key *)

(** C4 fails on the code: on [ab : 1] the identifier [ab] is followed,
    after a space, by a colon; the cursor is rewound by the length of the
    identifier from behind the skipped space, and the object that results
    has the single key [b].  On [a : 1] the rewind lands on the space, the
    object body is empty and the parse fails on the colon. *)
Theorem C4_rewind_after_spaces :
  forall k,
    parse (4 + k) doc_spaced_colon = Some (OK, VObject {[ "b" := number_of "1" ]})
    /\ parse (4 + k) "a : 1" = Some (UnexpectedChar, VNull)
    /\ parse (4 + k) "ab: 1" = Some (OK, VObject {[ "ab" := number_of "1" ]}).
Proof.
  intros k. repeat split; vm_compute; reflexivity.
Qed.

(** ** Repeated calls of [Parse] on one instance *)

(** C5 fails on the code: [Parse] resets [mError] only.  A first call on
    a fresh parser over [1] returns the number; a second call on the same
    instance starts at the end of the text and returns [Null]. *)
Theorem C5_second_parse_differs :
  forall k, exists r1 r2,
    Parser_Parse (1 + k) (Parser_new "1") VNull None = Some r1
    /\ pr_code r1 = OK /\ pr_out r1 = number_of "1"
    /\ mPos (pr_parser r1) = 1%nat
    /\ Parser_Parse (1 + k) (pr_parser r1) VNull None = Some r2
    /\ pr_code r2 = OK /\ pr_out r2 = VNull.
Proof.
  intros k. do 2 eexists.
  split; [vm_compute; reflexivity|].
  repeat split; vm_compute; reflexivity.
Qed.

(** ** Failure leaves the out-parameter alone *)

(** C6: whenever [Parser::Parse] returns a code other than [OK], the
    caller's [out] holds what it held before the call. *)
Theorem C6_out_unchanged_on_failure :
  forall fuel p out error r,
    Parser_Parse fuel p out error = Some r ->
    pr_code r <> OK ->
    pr_out r = out.
Proof.
  intros fuel p out error r H Hcode. unfold Parser_Parse in H.
  destruct (negb (utf8_ok _)); [by injection H as <-|].
  match type of H with
  | match ?x with _ => _ end = _ => destruct x as [[[v|e] p']|]
  end; [| by injection H as <- | discriminate H].
  destruct (negb _); injection H as <-; [done|].
  by destruct Hcode.
Qed.

Lemma C6_out_unchanged_on_failure_witness :
  exists r,
    Parse 4 "[" (VBool true) None = Some r
    /\ pr_code r = UnexpectedEnd
    /\ pr_out r = VBool true.
Proof.
  eexists. split; [vm_compute; reflexivity|]. split; [reflexivity|].
  apply (C6_out_unchanged_on_failure 4 (Parser_new "[") (VBool true) None).
  - vm_compute. reflexivity.
  - discriminate.
Defined.

(** ** The cursor and the text that remains *)

Lemma substr_from_cons n s c r :
  substr_from n s = String c r ->
  String.get n s = Some c /\ substr_from (S n) s = r /\ (n < String.length s)%nat.
Proof.
  revert s. induction n as [|n IH]; intros [|d s] H; simpl in *; try discriminate.
  - injection H as -> ->. repeat split; simpl; lia.
  - destruct (IH s H) as (? & ? & ?). repeat split; simpl; try done; lia.
Qed.

Lemma substr_from_nil n s :
  substr_from n s = EmptyString -> (String.length s <= n)%nat.
Proof.
  revert s. induction n as [|n IH]; intros [|d s] H; simpl in *;
    try discriminate; try lia.
  specialize (IH s H). lia.
Qed.

Lemma substr_from_length n s :
  String.length (substr_from n s) = (String.length s - n)%nat.
Proof.
  revert s. induction n as [|n IH]; intros [|d s]; simpl; try lia. apply IH.
Qed.

Lemma remaining_rest p : remaining p = String.length (rest p).
Proof. unfold remaining, rest, size. by rewrite substr_from_length. Qed.

Lemma rest_nil_eof p : rest p = EmptyString -> EndOfFile p = true.
Proof.
  intros H. apply substr_from_nil in H. unfold EndOfFile, size.
  by apply Nat.leb_le.
Qed.

Lemma rest_cons_eof p c r : rest p = String c r -> EndOfFile p = false.
Proof.
  intros H. apply substr_from_cons in H as (_ & _ & H).
  unfold EndOfFile, size. apply Nat.leb_gt. lia.
Qed.

Lemma rest_cons_peek p c r : rest p = String c r -> Peek p = c.
Proof.
  intros H. apply substr_from_cons in H as (H & _ & _).
  unfold Peek, char_at. by rewrite H.
Qed.

Lemma rest_nil_peek p : rest p = EmptyString -> Peek p = NUL.
Proof.
  intros H. apply substr_from_nil in H. unfold Peek, char_at.
  destruct (String.get (mPos p) (mSrc p)) as [c|] eqn:Hget; [|done].
  assert (mPos p < String.length (mSrc p))%nat; [|lia].
  clear H. revert Hget. generalize (mPos p). induction (mSrc p) as [|d s IH];
    intros [|n] Hget; simpl in *; try discriminate; try lia.
  specialize (IH n Hget). lia.
Qed.

Lemma rest_cons_Get p c r : rest p = String c r -> Get p = (c, after_char c p).
Proof.
  intros H. unfold Get. rewrite (rest_cons_eof p c r H).
  apply substr_from_cons in H as (H & _ & _).
  unfold char_at, after_char. rewrite H. by destruct (c =c= LF).
Qed.

Lemma rest_cons_advance p c r : rest p = String c r -> advance p = after_char c p.
Proof. intros H. unfold advance. by rewrite (rest_cons_Get p c r H). Qed.

Lemma rest_after_char p c r : rest p = String c r -> rest (after_char c p) = r.
Proof.
  intros H. apply substr_from_cons in H as (_ & H & _).
  unfold after_char, rest. by destruct (c =c= LF).
Qed.

Lemma after_char_fields c p :
  mSrc (after_char c p) = mSrc p
  /\ mPos (after_char c p) = S (mPos p)
  /\ mIndentUnit (after_char c p) = mIndentUnit p
  /\ mIndentStack (after_char c p) = mIndentStack p
  /\ mError (after_char c p) = mError p.
Proof. unfold after_char. by destruct (c =c= LF). Qed.

Lemma after_char_col c p :
  mCol (after_char c p) = if c =c= LF then 1%nat else S (mCol p).
Proof. unfold after_char. by destruct (c =c= LF). Qed.

(** ** Validation of leading indentation *)

Lemma ReadLineIndent_spaces_run k :
  forall n acc p c r,
    rest p = spaces k +:+ String c r ->
    c <> SP ->
    (k < n)%nat ->
    exists p',
      rest p' = String c r
      /\ mIndentUnit p' = mIndentUnit p
      /\ ReadLineIndent_spaces n acc p
         = if c =c= TAB
           then failed InvalidIndentChar "Tabs are not allowed in indentation" p'
           else (ROk (acc + Z.of_nat k), p').
Proof.
  induction k as [|k IH]; intros n acc p c r Hrest Hc Hn;
    destruct n as [|n]; try lia; simpl in *.
  - exists p. rewrite (rest_cons_eof _ _ _ Hrest), (rest_cons_peek _ _ _ Hrest).
    assert ((c =c= SP) = false) as -> by by apply Ascii.eqb_neq.
    repeat split; [done|]. destruct (c =c= TAB); [done|]. by rewrite Z.add_0_r.
  - rewrite (rest_cons_eof _ _ _ Hrest), (rest_cons_peek _ _ _ Hrest).
    rewrite (rest_cons_advance _ _ _ Hrest). simpl.
    destruct (IH n (acc + 1) (after_char SP p) c r) as (p' & Hr & Hu & ->);
      [by apply rest_after_char|done|lia|].
    exists p'. repeat split; [done|by rewrite Hu|].
    destruct (c =c= TAB); [done|]. do 2 f_equal. lia.
Qed.

Lemma rest_length_spaces p k c r :
  rest p = spaces k +:+ String c r -> (k < remaining p)%nat.
Proof.
  intros H. rewrite remaining_rest, H. clear H.
  induction k as [|k IH]; simpl; lia.
Qed.

Lemma ReadLineIndent_tab p k r :
  rest p = spaces k +:+ String TAB r ->
  fst (ReadLineIndent p) = RFail InvalidIndentChar.
Proof.
  intros Hrest. unfold ReadLineIndent.
  destruct (ReadLineIndent_spaces_run k (remaining p) 0 p TAB r Hrest)
    as (p' & _ & _ & ->); [done|by eapply rest_length_spaces|done].
Qed.

Lemma ReadLineIndent_content p k c r :
  rest p = spaces k +:+ String c r ->
  is_content c = true ->
  exists p',
    mIndentUnit p' = mIndentUnit p
    /\ ReadLineIndent p
       = if 0 <? Z.of_nat k
         then
           if mIndentUnit p =? 0
           then (ROk (Z.of_nat k, true), set_indent_unit (Z.of_nat k) p')
           else if negb (Z.of_nat k mod mIndentUnit p =? 0)
           then failed InconsistentIndent
                  "Indentation is not a multiple of base indent width" p'
           else (ROk (Z.of_nat k, true), p')
         else (ROk (Z.of_nat k, true), p').
Proof.
  intros Hrest Hc. unfold ReadLineIndent.
  assert (c <> SP) as Hsp by (intros ->; discriminate Hc).
  destruct (ReadLineIndent_spaces_run k (remaining p) 0 p c r Hrest Hsp)
    as (p' & Hr & Hu & ->); [by eapply rest_length_spaces|].
  exists p'. split; [done|].
  unfold is_content in Hc. apply negb_true_iff in Hc.
  repeat (apply orb_false_iff in Hc as [Hc ?]).
  assert ((c =c= TAB) = false) as -> by done.
  rewrite (rest_cons_peek _ _ _ Hr), Hu.
  replace ((c =c= HASH) || (c =c= CR) || (c =c= LF) || (c =c= NUL)) with false
    by (symmetry; repeat (apply orb_false_iff; split); done).
  by rewrite Z.add_0_l.
Qed.

Lemma NextContentLine_at_line_start fuel p k c r :
  rest p = spaces k +:+ String c r ->
  mCol p = 1%nat ->
  forall e, fst (ReadLineIndent p) = RFail e ->
  result_of (NextContentLine (S fuel) p) = Some (RFail e).
Proof.
  intros Hrest Hcol e He. unfold result_of. simpl.
  assert (EndOfFile p = false) as ->.
  { destruct k; simpl in Hrest; by eapply rest_cons_eof. }
  rewrite Hcol. simpl. destruct (ReadLineIndent p) as [[[i h]|e'] p'];
    simpl in He; [discriminate He|]. by injection He as ->.
Qed.

(** X20: a line that [NextContentLine] meets at its first column, made
    of [k] spaces followed by a character [c], is validated by
    [ReadLineIndent]: a tab fails with [InvalidIndentChar]; a content
    character, once a non-zero indent has fixed the unit, fails with
    [InconsistentIndent] when [k] is not a multiple of the unit; and the
    first non-zero indent fixes the unit. *)
Theorem NextContentLine_validates_indent :
  forall (p : Parser) (k : nat) (c : ascii) (r : string),
    rest p = spaces k +:+ String c r ->
    mCol p = 1%nat ->
    (c = TAB ->
     forall fuel, result_of (NextContentLine (S fuel) p) = Some (RFail InvalidIndentChar))
    /\ (is_content c = true -> (0 < k)%nat ->
        mIndentUnit p <> 0 -> Z.of_nat k mod mIndentUnit p <> 0 ->
        forall fuel,
          result_of (NextContentLine (S fuel) p) = Some (RFail InconsistentIndent))
    /\ (is_content c = true -> (0 < k)%nat -> mIndentUnit p = 0 ->
        exists p', ReadLineIndent p = (ROk (Z.of_nat k, true), p')
                   /\ mIndentUnit p' = Z.of_nat k).
Proof.
  intros p k c r Hrest Hcol. split; [|split].
  - intros -> fuel. eapply NextContentLine_at_line_start; [done|done|].
    by eapply ReadLineIndent_tab.
  - intros Hc Hk Hunit Hmod fuel.
    eapply NextContentLine_at_line_start; [done|done|].
    destruct (ReadLineIndent_content p k c r Hrest Hc) as (p' & _ & ->).
    assert ((0 <? Z.of_nat k) = true) as -> by (apply Z.ltb_lt; lia).
    assert ((mIndentUnit p =? 0) = false) as -> by by apply Z.eqb_neq.
    assert ((Z.of_nat k mod mIndentUnit p =? 0) = false) as -> by by apply Z.eqb_neq.
    done.
  - intros Hc Hk Hunit.
    destruct (ReadLineIndent_content p k c r Hrest Hc) as (p' & _ & ->).
    assert ((0 <? Z.of_nat k) = true) as -> by (apply Z.ltb_lt; lia).
    rewrite Hunit. simpl. by eexists.
Qed.

(** The second line of [doc_tab_second_line] and the third line of
    [doc_three_space_sibling], as [NextContentLine] meets them. *)
Lemma NextContentLine_validates_indent_witness :
  result_of (NextContentLine 1 (set_cursor 5 2 1 (Parser_new doc_tab_second_line)))
  = Some (RFail InvalidIndentChar)
  /\ result_of (NextContentLine 1
                  (set_indent_unit 2
                     (set_cursor 10 3 1 (Parser_new doc_three_space_sibling))))
     = Some (RFail InconsistentIndent).
Proof.
  split.
  - apply (NextContentLine_validates_indent
             (set_cursor 5 2 1 (Parser_new doc_tab_second_line)) 0 TAB "b: 2");
      reflexivity.
  - apply (NextContentLine_validates_indent
             (set_indent_unit 2
                (set_cursor 10 3 1 (Parser_new doc_three_space_sibling)))
             3 "c" ": 2"); try reflexivity.
    + simpl. lia.
    + discriminate.
    + vm_compute. discriminate.
Defined.

(** C7 fails on the code: the plain parser accepts a tab in the leading
    indentation of the first content line.  [Parser::Parse] steps over
    the white space before the first value with
    [SkipWhitespaceAndComments], which takes a tab as white space, so
    [doc_tab_first_line] parses to the object with the key [a], and no run
    reports [InvalidIndentChar].  [LosslessParser::Parse] reads the same
    line through [ReadLineIndent] and fails with [InvalidIndentChar], as
    the plain parser does for a tab that opens a later line; a three-space
    sibling after a two-space unit fails with [InconsistentIndent] as
    claimed. *)
Theorem C7_tab_on_first_line_accepted :
  forall n,
    parse (4 + n) doc_tab_first_line
    = Some (OK, VObject {[ "a" := number_of "1" ]})
    /\ parse_lossless (1 + n) doc_tab_first_line
       = Some (InvalidIndentChar, LosslessValue_default)
    /\ parse (5 + n) doc_tab_second_line = Some (InvalidIndentChar, VNull)
    /\ fst <$> parse_lossless (5 + n) doc_tab_second_line
       = Some InvalidIndentChar
    /\ parse (7 + n) doc_three_space_sibling = Some (InconsistentIndent, VNull).
Proof.
  intros n. split; [|split; [|split; [|split]]]; vm_compute; reflexivity.
Qed.


(** ** Surrogate pairs in quoted strings *)

Lemma lor_shiftl_small (a b n : Z) :
  0 <= n -> 0 <= b < 2 ^ n -> Z.lor (Z.shiftl a n) b = a * 2 ^ n + b.
Proof.
  intros Hn Hb.
  assert (Z.land (Z.shiftl a n) b = 0) as Hland.
  { destruct (Z.eq_dec b 0) as [->|Hb0]; [apply Z.land_0_r|].
    apply Z.bits_inj'. intros i Hi. rewrite Z.land_spec, Z.bits_0.
    destruct (Z.lt_ge_cases i n) as [Hlt|Hge].
    - by rewrite Z.shiftl_spec_low.
    - rewrite (Z.bits_above_log2 b i), andb_false_r; [done|lia|].
      apply Z.log2_lt_pow2; [lia|].
      apply Z.lt_le_trans with (2 ^ n); [lia|].
      apply Z.pow_le_mono_r; lia. }
  rewrite <- Z.lxor_lor, <- Z.add_nocarry_lxor, Z.shiftl_mul_pow2 by done.
  done.
Qed.

Lemma HexValue_bound (c : ascii) : -1 <= HexValue c <= 15.
Proof.
  destruct c as [[] [] [] [] [] [] [] []]; vm_compute; split; discriminate.
Qed.

Lemma ReadHex4_spec k :
  forall acc p,
    0 <= acc -> (acc + 1) * 16 ^ Z.of_nat k <= 2 ^ 32 ->
    match hex_digits k acc (rest p) with
    | Some v =>
        exists p', ReadHex4 k acc p = (ROk v, p')
                   /\ rest p' = substr_from k (rest p)
    | None => fst (ReadHex4 k acc p) = RFail InvalidEscape
    end.
Proof.
  induction k as [|k IH]; intros acc p Hacc Hbound; simpl hex_digits.
  - exists p. by destruct (rest p).
  - simpl ReadHex4. destruct (rest p) as [|c r] eqn:Hrest.
    { by rewrite (rest_nil_eof _ Hrest). }
    rewrite (rest_cons_eof _ _ _ Hrest), (rest_cons_Get _ _ _ Hrest).
    destruct (HexValue c <? 0) eqn:Hneg; [done|].
    apply Z.ltb_ge in Hneg. pose proof (HexValue_bound c) as Hhv.
    assert (wrap32 (Z.lor (Z.shiftl acc 4) (HexValue c)) = acc * 16 + HexValue c)
      as ->.
    { rewrite lor_shiftl_small by lia. unfold wrap32.
      apply Z.mod_small. rewrite Nat2Z.inj_succ, Z.pow_succ_r in Hbound by lia.
      assert (1 <= 16 ^ Z.of_nat k) by (apply Z.pow_le_mono_r with (b := 0); lia).
      change (2 ^ 4) with 16. nia. }
    specialize (IH (acc * 16 + HexValue c) (after_char c p)).
    rewrite (rest_after_char _ _ _ Hrest) in IH. simpl substr_from.
    apply IH; [lia|].
    rewrite Nat2Z.inj_succ, Z.pow_succ_r in Hbound by lia.
    assert (0 <= 16 ^ Z.of_nat k) by (apply Z.pow_nonneg; lia). nia.
Qed.

Lemma hex_digits_bound k :
  forall acc s v,
    0 <= acc -> hex_digits k acc s = Some v ->
    0 <= v < (acc + 1) * 16 ^ Z.of_nat k.
Proof.
  induction k as [|k IH]; intros acc s v Hacc H; simpl in H.
  - injection H as <-. simpl. lia.
  - destruct s as [|c r]; [discriminate H|].
    destruct (HexValue c <? 0) eqn:Hneg; [discriminate H|].
    apply Z.ltb_ge in Hneg. pose proof (HexValue_bound c).
    apply IH in H; [|lia].
    rewrite Nat2Z.inj_succ, Z.pow_succ_r by lia.
    assert (0 <= 16 ^ Z.of_nat k) by (apply Z.pow_nonneg; lia). nia.
Qed.

Lemma substr_from_add m :
  forall n s, substr_from n (substr_from m s) = substr_from (m + n) s.
Proof.
  induction m as [|m IH]; intros n s; simpl; [done|].
  destruct s as [|c r]; [by destruct n|]. apply IH.
Qed.

Lemma rest_second p b s :
  rest p = String b s ->
  (mPos p + 1 <? size p)%nat = negb (String.length s =? 0)%nat
  /\ char_at (mPos p + 1) p = match s with String u _ => u | EmptyString => NUL end.
Proof.
  intros H. pose proof (rest_after_char _ _ _ H) as H1.
  pose proof (after_char_fields b p) as (Hsrc & Hpos & _).
  rewrite Nat.add_1_r.
  replace (size p) with (size (after_char b p)) by (unfold size; by rewrite Hsrc).
  replace (char_at (S (mPos p)) p) with (Peek (after_char b p))
    by (unfold Peek, char_at; by rewrite Hsrc, Hpos).
  rewrite <- Hpos. destruct s as [|u r]; simpl.
  - split; [|by apply rest_nil_peek].
    apply rest_nil_eof in H1. unfold EndOfFile in H1.
    apply Nat.leb_le in H1. apply Nat.ltb_ge. lia.
  - split; [|by eapply rest_cons_peek].
    apply rest_cons_eof in H1. unfold EndOfFile in H1.
    apply Nat.leb_gt in H1. by apply Nat.ltb_lt.
Qed.

Lemma surrogate_formula hi lo :
  0xD800 <= hi <= 0xDBFF -> 0xDC00 <= lo <= 0xDFFF ->
  wrap32 (0x10000 + Z.lor (wrap32 (Z.shiftl (wrap32 (hi - 0xD800)) 10))
                          (wrap32 (lo - 0xDC00)))
  = surrogate_pair hi lo.
Proof.
  intros Hhi Hlo. unfold wrap32, surrogate_pair.
  rewrite (Z.mod_small (hi - 0xD800)) by lia.
  rewrite (Z.mod_small (lo - 0xDC00)) by lia.
  rewrite Z.shiftl_mul_pow2 by lia.
  rewrite (Z.mod_small ((hi - 0xD800) * 2 ^ 10)) by lia.
  rewrite <- Z.shiftl_mul_pow2 by lia.
  rewrite lor_shiftl_small by lia.
  rewrite Z.mod_small by lia. lia.
Qed.

Lemma UnicodeEscape_high_surrogate p hi :
  hex_digits 4 0 (rest p) = Some hi ->
  0xD800 <= hi <= 0xDBFF ->
  match low_surrogate_escape (substr_from 4 (rest p)) with
  | Some lo =>
      exists p', UnicodeEscape p = (ROk (surrogate_pair hi lo), p')
                 /\ rest p' = substr_from 10 (rest p)
  | None => fst (UnicodeEscape p) = RFail InvalidEscape
  end.
Proof.
  intros Hhex Hhi. unfold UnicodeEscape.
  pose proof (ReadHex4_spec 4 0 p) as H4. rewrite Hhex in H4.
  destruct H4 as (p4 & -> & Hrest4); [lia|simpl; lia|].
  assert ((0xD800 <=? hi) && (hi <=? 0xDBFF) = true) as ->.
  { apply andb_true_iff. split; apply Z.leb_le; lia. }
  rewrite <- Hrest4.
  assert ((Peek p4 =c= BSL) && (mPos p4 + 1 <? size p4)%nat
          && (char_at (mPos p4 + 1) p4 =c= "u")
          = match rest p4 with
            | String b (String u _) => (b =c= BSL) && (u =c= "u")
            | _ => false
            end) as ->.
  { destruct (rest p4) as [|b [|u r']] eqn:Hr4.
    - by rewrite (rest_nil_peek _ Hr4).
    - destruct (rest_second _ _ _ Hr4) as [-> _]. by rewrite andb_false_r.
    - destruct (rest_second _ _ _ Hr4) as [-> ->].
      rewrite (rest_cons_peek _ _ _ Hr4). simpl. by rewrite andb_true_r. }
  destruct (rest p4) as [|b [|u r']] eqn:Hr4; cbn [low_surrogate_escape negb];
    [done|done|].
  - destruct ((b =c= BSL) && (u =c= "u")) eqn:Hbu; [|done]. cbn [negb].
    rewrite (rest_cons_advance _ _ _ Hr4).
    pose proof (rest_after_char _ _ _ Hr4) as Hr5.
    rewrite (rest_cons_advance _ _ _ Hr5).
    pose proof (rest_after_char _ _ _ Hr5) as Hr6.
    pose proof (ReadHex4_spec 4 0 (after_char u (after_char b p4))) as H8.
    rewrite Hr6 in H8.
    destruct (hex_digits 4 0 r') as [lo|] eqn:Hlo.
    + destruct H8 as (p10 & -> & Hrest10); [lia|simpl; lia|].
      destruct ((0xDC00 <=? lo) && (lo <=? 0xDFFF)) eqn:Hrange.
      * apply andb_true_iff in Hrange as [H1 H2].
        apply Z.leb_le in H1, H2.
        assert ((lo <? 0xDC00) || (0xDFFF <? lo) = false) as ->.
        { apply orb_false_iff. split; apply Z.ltb_ge; lia. }
        exists p10. rewrite surrogate_formula by lia. split; [done|].
        rewrite Hrest10.
        change r' with (substr_from 2 (String b (String u r'))).
        rewrite Hrest4, !substr_from_add. done.
      * assert ((lo <? 0xDC00) || (0xDFFF <? lo) = true) as ->; [|done].
        apply andb_false_iff in Hrange as [H1|H1];
          [apply Z.leb_gt in H1|apply Z.leb_gt in H1];
          apply orb_true_iff; [left|right]; apply Z.ltb_lt; lia.
    + specialize (H8 ltac:(lia) ltac:(simpl; lia)).
      destruct (ReadHex4 4 0 (after_char u (after_char b p4))) as [[v|e] p'];
        simpl in H8; [discriminate H8|]. done.
Qed.

Lemma append_String c s t : String c s +:+ t = String c (s +:+ t).
Proof. reflexivity. Qed.

Lemma append_empty_l t : EmptyString +:+ t = t.
Proof. reflexivity. Qed.

Lemma push_back_app s t c : push_back (s +:+ t) c = s +:+ push_back t c.
Proof.
  unfold push_back. induction s as [|d s IH].
  - by rewrite !append_empty_l.
  - by rewrite !append_String, IH.
Qed.

Lemma lor_0x80 x : Z.lor 0x80 (Z.land x 0x3F) = 0x80 + x mod 64.
Proof.
  change 0x3F with (Z.ones 6). rewrite Z.land_ones by lia.
  change 0x80 with (Z.shiftl 2 6). rewrite lor_shiftl_small; [done|lia|].
  apply Z.mod_pos_bound. lia.
Qed.

Lemma AppendUTF8_four out cp :
  0x10000 <= cp <= 0x10FFFF -> AppendUTF8 out cp = out +:+ utf8_four cp.
Proof.
  intros Hcp. unfold AppendUTF8.
  assert ((cp <=? 0x7F) = false) as -> by (apply Z.leb_gt; lia).
  assert ((cp <=? 0x7FF) = false) as -> by (apply Z.leb_gt; lia).
  assert ((cp <=? 0xFFFF) = false) as -> by (apply Z.leb_gt; lia).
  rewrite !lor_0x80, !Z.shiftr_div_pow2 by lia.
  assert (Z.lor 0xF0 (cp / 2 ^ 18) = 0xF0 + cp / 2 ^ 18) as ->.
  { change 0xF0 with (Z.shiftl 15 4). rewrite lor_shiftl_small; [done|lia|].
    split; [apply Z.div_pos; lia|]. apply Z.div_lt_upper_bound; lia. }
  unfold utf8_four. unfold push_back at 4. rewrite !push_back_app.
  unfold push_back, str1. by rewrite !append_String, !append_empty_l.
Qed.

Lemma low_surrogate_escape_range s lo :
  low_surrogate_escape s = Some lo -> 0xDC00 <= lo <= 0xDFFF.
Proof.
  unfold low_surrogate_escape. destruct s as [|b [|u r]]; try discriminate.
  destruct ((b =c= BSL) && (u =c= "u")); [|discriminate].
  destruct (hex_digits 4 0 r) as [v|]; [|discriminate].
  destruct ((0xDC00 <=? v) && (v <=? 0xDFFF)) eqn:H; [|discriminate].
  intros [= <-]. apply andb_true_iff in H as [H1 H2].
  apply Z.leb_le in H1, H2. lia.
Qed.

Lemma ParseQuoted_loop_high_surrogate q n result p r hi :
  q = DQ \/ q = SQ ->
  rest p = String BSL (String "u" r) ->
  hex_digits 4 0 r = Some hi ->
  0xD800 <= hi <= 0xDBFF ->
  match low_surrogate_escape (substr_from 4 r) with
  | Some lo =>
      exists p',
        rest p' = substr_from 10 r
        /\ ParseQuoted_loop q (S n) result p
           = ParseQuoted_loop q n (result +:+ utf8_four (surrogate_pair hi lo)) p'
  | None => fst (ParseQuoted_loop q (S n) result p) = RFail InvalidEscape
  end.
Proof.
  intros Hq Hrest Hhex Hhi. cbn [ParseQuoted_loop].
  rewrite (rest_cons_eof _ _ _ Hrest), (rest_cons_Get _ _ _ Hrest).
  pose proof (rest_after_char _ _ _ Hrest) as Hr1.
  rewrite (rest_cons_eof _ _ _ Hr1), (rest_cons_Get _ _ _ Hr1).
  pose proof (rest_after_char _ _ _ Hr1) as Hr2.
  assert ((BSL =c= q) = false) as -> by (by destruct Hq as [-> | ->]).
  assert (("u" =c= q)%char = false) as -> by (by destruct Hq as [-> | ->]).
  cbn [Ascii.eqb Bool.eqb BSL]. simpl "=c=".
  pose proof (UnicodeEscape_high_surrogate
                (after_char "u" (after_char BSL p)) hi) as Hu.
  rewrite Hr2 in Hu. specialize (Hu Hhex Hhi).
  destruct (low_surrogate_escape (substr_from 4 r)) as [lo|] eqn:Hlow.
  - destruct Hu as (p' & -> & Hp'). exists p'. split; [done|].
    apply low_surrogate_escape_range in Hlow.
    rewrite AppendUTF8_four; [done|]. unfold surrogate_pair. lia.
  - destruct (UnicodeEscape _) as [[v|e] p']; simpl in Hu; [discriminate Hu|].
    by injection Hu as ->.
Qed.

(** C8: in a quoted string, a [\u] escape of a high surrogate followed at
    once by a [\u] escape of a low surrogate decodes to the four-byte
    UTF-8 encoding of the code point of the pair; followed by anything
    else, it fails with [InvalidEscape].  In particular [\uD83D\uDE00]
    decodes to the bytes [F0 9F 98 80] of [U+1F600], and [\uD83D] alone
    fails with [InvalidEscape]. *)
Theorem C8_surrogate_pairs :
  forall (q : ascii) (n : nat) (result : string) (p : Parser) (r : string) (hi : Z),
    q = DQ \/ q = SQ ->
    rest p = String BSL (String "u" r) ->
    hex_digits 4 0 r = Some hi ->
    0xD800 <= hi <= 0xDBFF ->
    match low_surrogate_escape (substr_from 4 r) with
    | Some lo =>
        exists p',
          rest p' = substr_from 10 r
          /\ ParseQuoted_loop q (S n) result p
             = ParseQuoted_loop q n
                 (result +:+ utf8_four (surrogate_pair hi lo)) p'
    | None => fst (ParseQuoted_loop q (S n) result p) = RFail InvalidEscape
    end
    /\ surrogate_pair 0xD83D 0xDE00 = 0x1F600
    /\ utf8_four 0x1F600
       = String (to_char 0xF0) (String (to_char 0x9F)
           (String (to_char 0x98) (String (to_char 0x80) EmptyString)))
    /\ (forall k, parse (1 + k) doc_surrogate_pair
                  = Some (OK, VString (utf8_four 0x1F600)))
    /\ (forall k, parse (1 + k) doc_lone_high_surrogate
                  = Some (InvalidEscape, VNull)).
Proof.
  intros q n result p r hi Hq Hrest Hhex Hhi.
  split; [by apply ParseQuoted_loop_high_surrogate|].
  split; [reflexivity|]. split; [reflexivity|].
  split; intros k; vm_compute; reflexivity.
Qed.

(** The cursor behind the opening quote of [doc_surrogate_pair] and of
    [doc_lone_high_surrogate]. *)
Lemma C8_surrogate_pairs_witness :
  (exists p',
      ParseQuoted_loop DQ 13 "" (set_cursor 1 1 2 (Parser_new doc_surrogate_pair))
      = ParseQuoted_loop DQ 12 (utf8_four 0x1F600) p'
      /\ rest p' = dq)
  /\ fst (ParseQuoted_loop DQ 7 ""
            (set_cursor 1 1 2 (Parser_new doc_lone_high_surrogate)))
     = RFail InvalidEscape.
Proof.
  split.
  - destruct (C8_surrogate_pairs DQ 12 ""
                (set_cursor 1 1 2 (Parser_new doc_surrogate_pair))
                ("D83D\uDE00" +:+ dq) 0xD83D) as [H _].
    + by left.
    + reflexivity.
    + reflexivity.
    + lia.
    + destruct H as (p' & Hrest & Hloop). exists p'. split; [exact Hloop|exact Hrest].
  - apply (C8_surrogate_pairs DQ 6 ""
             (set_cursor 1 1 2 (Parser_new doc_lone_high_surrogate))
             ("D83D" +:+ dq) 0xD83D).
    + by left.
    + reflexivity.
    + reflexivity.
    + lia.
Defined.

(** ** Empty documents *)

Lemma rest_cases p :
  (rest p = EmptyString /\ Peek p = NUL /\ EndOfFile p = true)
  \/ (exists c r,
        rest p = String c r /\ Peek p = c /\ EndOfFile p = false
        /\ Get p = (c, after_char c p)
        /\ advance p = after_char c p
        /\ rest (after_char c p) = r).
Proof.
  destruct (rest p) as [|c r] eqn:H.
  - left. split; [done|]. split; [by apply rest_nil_peek|by apply rest_nil_eof].
  - right. exists c, r. split; [done|].
    split; [by eapply rest_cons_peek|]. split; [by eapply rest_cons_eof|].
    split; [by eapply rest_cons_Get|]. split; [by eapply rest_cons_advance|].
    by eapply rest_after_char.
Qed.

Lemma Get_cursor_ok p : cursor_ok p -> cursor_ok (snd (Get p)).
Proof.
  unfold cursor_ok, Get, EndOfFile, size. intros H.
  destruct (String.length (mSrc p) <=? mPos p)%nat eqn:E; [done|].
  apply Nat.leb_gt in E. destruct (char_at (mPos p) p =c= LF); simpl; lia.
Qed.

Lemma advance_cursor_ok p : cursor_ok p -> cursor_ok (advance p).
Proof. apply Get_cursor_ok. Qed.

Lemma SkipToEOL_loop_cursor_ok n : forall p, cursor_ok p -> cursor_ok (SkipToEOL_loop n p).
Proof.
  induction n as [|n IH]; intros p H; simpl; [done|].
  destruct (EndOfFile p); [done|].
  pose proof (Get_cursor_ok p H). destruct (Get p) as [c p'].
  destruct (c =c= LF); [done|]. by apply IH.
Qed.

Lemma SkipWhitespaceAndComments_loop_cursor_ok n :
  forall p, cursor_ok p -> cursor_ok (SkipWhitespaceAndComments_loop n p).
Proof.
  induction n as [|n IH]; intros p H; simpl; [done|].
  destruct (EndOfFile p); [done|].
  destruct ((Peek p =c= SP) || (Peek p =c= TAB));
    [by apply IH, advance_cursor_ok|].
  destruct (Peek p =c= HASH); [by apply IH, SkipToEOL_loop_cursor_ok|].
  destruct (Peek p =c= CR).
  { apply IH. destruct (Peek (advance p) =c= LF);
      auto using advance_cursor_ok. }
  destruct (Peek p =c= LF); [by apply IH, advance_cursor_ok|done].
Qed.

(** [SkipToEOL] from inside a comment stops behind the comment. *)
Lemma SkipToEOL_loop_blank n :
  forall p,
    blank_text true (rest p) = true ->
    (String.length (rest p) <= n)%nat ->
    blank_text false (rest (SkipToEOL_loop n p)) = true
    /\ (String.length (rest (SkipToEOL_loop n p))
        <= pred (String.length (rest p)))%nat.
Proof.
  induction n as [|n IH]; intros p Hblank Hlen; simpl.
  - destruct (rest p); simpl in *; [done|lia].
  - destruct (rest_cases p) as [(Hr & _ & ->)|(c & r & Hr & _ & -> & -> & _ & Hr')].
    + rewrite Hr. done.
    + rewrite Hr in Hblank, Hlen. simpl in Hblank, Hlen. rewrite Hr.
      destruct (c =c= LF); simpl in Hblank.
      * rewrite Hr'. simpl. split; [done|lia].
      * destruct (IH (after_char c p)) as [H1 H2];
          [by rewrite Hr'|rewrite Hr'; lia|].
        split; [done|]. rewrite Hr' in H2. simpl. lia.
Qed.

Lemma SkipToEOL_blank p :
  blank_text true (rest p) = true ->
  blank_text false (rest (SkipToEOL p)) = true
  /\ (String.length (rest (SkipToEOL p)) <= pred (String.length (rest p)))%nat.
Proof.
  intros H. apply SkipToEOL_loop_blank; [done|]. by rewrite remaining_rest.
Qed.

Lemma blank_text_false_true s : blank_text false s = true -> blank_text true s = true.
Proof.
  induction s as [|c r IH]; [done|]. simpl.
  destruct (c =c= LF) eqn:E4.
  { rewrite !orb_true_r. done. }
  rewrite orb_false_r. simpl.
  destruct ((c =c= SP) || (c =c= TAB) || (c =c= CR)); [done|].
  by destruct (c =c= HASH).
Qed.

(** On a blank text [SkipWhitespaceAndComments] runs to the end. *)
Lemma SkipWhitespaceAndComments_loop_blank n :
  forall p,
    blank_text false (rest p) = true ->
    (String.length (rest p) <= n)%nat ->
    rest (SkipWhitespaceAndComments_loop n p) = EmptyString.
Proof.
  induction n as [|n IH]; intros p Hblank Hlen; simpl.
  - destruct (rest p); simpl in *; [done|lia].
  - destruct (rest_cases p) as [(Hr & _ & ->)|(c & r & Hr & -> & -> & _ & -> & Hr')];
      [done|].
    rewrite Hr in Hblank, Hlen. simpl in Hblank, Hlen.
    destruct (c =c= SP) eqn:E1.
    { simpl in *. apply IH; rewrite Hr'; [done|lia]. }
    destruct (c =c= TAB) eqn:E2.
    { simpl in *. apply IH; rewrite Hr'; [done|lia]. }
    simpl in *. destruct (c =c= HASH) eqn:E5.
    { apply Ascii.eqb_eq in E5 as ->. simpl in Hblank.
      destruct (SkipToEOL_blank p) as [H1 H2].
      - rewrite Hr. simpl. done.
      - apply IH; [done|]. rewrite Hr in H2. simpl in H2. lia. }
    destruct (c =c= CR) eqn:E3.
    { simpl in Hblank.
      destruct (rest_cases (after_char c p))
        as [(Hr1 & -> & _)|(c1 & r1 & Hr1 & -> & _ & _ & -> & Hr1')].
      - simpl. apply IH; rewrite Hr'; [done|lia].
      - rewrite Hr' in Hr1. subst r.
        destruct (c1 =c= LF) eqn:E6.
        + apply Ascii.eqb_eq in E6 as ->. rewrite Hr1 in Hblank, Hlen.
          simpl in Hblank, Hlen. apply IH; rewrite Hr1'; [done|lia].
        + apply IH; [done|lia]. }
    destruct (c =c= LF) eqn:E4; [|done].
    simpl in Hblank. apply IH; rewrite Hr'; [done|lia].
Qed.

Lemma blank_document_no_bom src : blank_document src = true -> has_bom src = false.
Proof.
  unfold blank_document, has_bom, has_bom_at, byte_at.
  destruct src as [|c r]; [done|]. simpl.
  destruct (c =c= SP) eqn:E1; [apply Ascii.eqb_eq in E1 as ->; by destruct r as [|? [|? ?]]|].
  destruct (c =c= TAB) eqn:E2; [apply Ascii.eqb_eq in E2 as ->; by destruct r as [|? [|? ?]]|].
  destruct (c =c= CR) eqn:E3; [apply Ascii.eqb_eq in E3 as ->; by destruct r as [|? [|? ?]]|].
  destruct (c =c= LF) eqn:E4; [apply Ascii.eqb_eq in E4 as ->; by destruct r as [|? [|? ?]]|].
  destruct (c =c= HASH) eqn:E5; [apply Ascii.eqb_eq in E5 as ->; by destruct r as [|? [|? ?]]|].
  done.
Qed.

Lemma skip_trailing_eof n p : EndOfFile p = true -> skip_trailing n p = p.
Proof. intros H. destruct n; simpl; [done|]. by rewrite H. Qed.

(** The plain parser on a blank document. *)
Lemma Parse_blank fuel src out error :
  blank_document src = true ->
  utf8_ok (ValidateUTF8 src true) = true ->
  Parse fuel src out error
  = Some (mkParseResult OK VNull (store_error error Error_default)
            (set_indent_stack [0]
               (SkipWhitespaceAndComments
                  (set_error Error_default (Parser_new src))))).
Proof.
  intros Hblank Hutf8. unfold Parse, Parser_Parse.
  change (mSrc (set_error Error_default (Parser_new src))) with src.
  rewrite Hutf8, (blank_document_no_bom _ Hblank). simpl negb. cbv iota.
  set (p0 := set_error Error_default (Parser_new src)).
  set (p1 := SkipWhitespaceAndComments p0).
  assert (rest p1 = EmptyString) as Hrest.
  { apply SkipWhitespaceAndComments_loop_blank; [done|]. by rewrite remaining_rest. }
  assert (cursor_ok p1) as Hok.
  { apply SkipWhitespaceAndComments_loop_cursor_ok. unfold cursor_ok. simpl. lia. }
  pose proof (rest_nil_eof _ Hrest) as Heof. rewrite Heof.
  rewrite skip_trailing_eof by done.
  assert ((mPos p1 =? size (set_indent_stack [0%Z] p1))%nat = true) as ->; [|done].
  apply Nat.eqb_eq. unfold EndOfFile in Heof. apply Nat.leb_le in Heof.
  unfold cursor_ok in Hok. unfold size in *. simpl. lia.
Qed.

(** A text that [ValidateUTF8] rejects is refused before anything is read. *)
Lemma Parse_invalid_utf8 fuel src out error :
  utf8_ok (ValidateUTF8 src true) = false ->
  exists r,
    Parse fuel src out error = Some r
    /\ pr_code r = InvalidUtf8 /\ pr_out r = out.
Proof.
  intros Hutf8. unfold Parse, Parser_Parse.
  change (mSrc (set_error Error_default (Parser_new src))) with src.
  rewrite Hutf8. simpl negb. cbv iota zeta. by eexists.
Qed.

Lemma ParseLossless_invalid_utf8 fuel src out error :
  utf8_ok (ValidateUTF8 src true) = false ->
  exists r,
    ParseLossless fuel src out error = Some r
    /\ lr_code r = InvalidUtf8 /\ lr_out r = out.
Proof.
  intros Hutf8. unfold ParseLossless, LosslessParser_Parse.
  cbn [lbase]. change (mSrc (set_error Error_default (Parser_new src))) with src.
  rewrite Hutf8. simpl negb. cbv iota zeta. by eexists.
Qed.

(** [NextContentLineLossless], one iteration, in direct style. *)
Lemma NextContentLineLossless_unfold fuel st :
  NextContentLineLossless (S fuel) st
  = let p := lbase st in
    if EndOfFile p then Some (ROk false, st)
    else if negb (mCol p =? 1)%nat
    then
      let st' := set_lbase (SkipToEOL p) st in
      if EndOfFile (SkipToEOL p) then Some (ROk false, st')
      else NextContentLineLossless fuel st'
    else
      match ReadLineIndent p with
      | (RFail e, p') => Some (RFail e, set_lbase p' st)
      | (ROk (indentCols, hasContent), p') =>
          if negb hasContent
          then
            NextContentLineLossless fuel
              (set_pending
                 (mPendingComments st ++ [comment_of_line (mPos p) indentCols p'])
                 (set_lbase p' st))
          else
            match ApplyIndentLevel indentCols p' with
            | (RFail e, p'') => Some (RFail e, set_lbase p'' st)
            | (ROk _, p'') => Some (ROk true, set_lbase p'' st)
            end
      end.
Proof.
  destruct st as [p pend o]. cbn [NextContentLineLossless].
  cbv beta iota zeta delta
    [bind lask lrun ltotal lift ask run total ret push_pending set_lbase
     set_pending lbase mPendingComments lout].
  destruct (EndOfFile p); [done|].
  destruct (negb (mCol p =? 1)%nat).
  { by destruct (EndOfFile (SkipToEOL p)). }
  destruct (ReadLineIndent p) as [[[indentCols hasContent]|e] p']; [|done].
  destruct hasContent; cbv beta iota zeta delta [negb]; [|done].
  by destruct (ApplyIndentLevel indentCols p') as [[[]|e] p''].
Qed.

Lemma advance_blank p c r :
  rest p = String c r ->
  blank_text false (rest p) = true ->
  (c =c= SP) || (c =c= TAB) || (c =c= CR) || (c =c= LF) = true ->
  blank_text false (rest (advance p)) = true
  /\ String.length (rest (advance p)) = pred (String.length (rest p)).
Proof.
  intros Hr Hblank Hc. rewrite (rest_cons_advance _ _ _ Hr).
  rewrite (rest_after_char _ _ _ Hr). rewrite Hr in *. simpl in *.
  by rewrite Hc in Hblank.
Qed.

(** The consumption of a line ending in [ReadLineIndent]. *)
Lemma line_ending_blank p :
  blank_text false (rest p) = true ->
  blank_text false (rest (after_line_ending p)) = true
  /\ (String.length (rest (after_line_ending p)) <= String.length (rest p))%nat
  /\ ((Peek p =c= CR) || (Peek p =c= LF) = true ->
      (String.length (rest (after_line_ending p)) < String.length (rest p))%nat).
Proof.
  intros Hblank. unfold after_line_ending.
  destruct (rest_cases p) as [(Hr & -> & _)|(c & r & Hr & -> & _ & _ & _ & _)].
  { simpl. rewrite Hr. done. }
  destruct (c =c= CR) eqn:E3.
  - destruct (advance_blank p c r Hr Hblank) as [H1 H2];
      [by rewrite E3, !orb_true_r|].
    rewrite Hr in H2. simpl in H2. rewrite Hr. simpl.
    destruct (rest_cases (advance p))
      as [(Hr1 & -> & _)|(c1 & r1 & Hr1 & -> & _ & _ & _ & _)].
    + simpl. rewrite H2. split; [done|]. split; [lia|]. lia.
    + destruct (c1 =c= LF) eqn:E6.
      * destruct (advance_blank (advance p) c1 r1 Hr1 H1) as [H3 H4];
          [by rewrite E6, !orb_true_r|].
        rewrite H4, H2. split; [done|]. split; lia.
      * rewrite H2. split; [done|]. split; lia.
  - destruct (c =c= LF) eqn:E4.
    + destruct (advance_blank p c r Hr Hblank) as [H1 H2];
        [by rewrite E4, !orb_true_r|].
      rewrite H2, Hr. simpl. split; [done|]. split; lia.
    + simpl. split; [done|]. split; [lia|discriminate].
Qed.

Lemma after_char_inside c p :
  (1 <= mCol p)%nat ->
  (1 <= mCol (after_char c p))%nat
  /\ inside_line (after_char c p) = negb (c =c= LF).
Proof.
  intros H. unfold after_char, inside_line.
  destruct (c =c= LF); simpl; [split; [lia|done]|].
  split; [lia|]. destruct (mCol p); [lia|done].
Qed.

Lemma tab_in_indent_nil skipping : tab_in_indent skipping "" = false.
Proof. by destruct skipping. Qed.

(** [SkipToEOL] stops behind the line feed, in the first column, or at
    the end of the text. *)
Lemma SkipToEOL_loop_tab n :
  forall p,
    (1 <= mCol p)%nat ->
    (String.length (rest p) <= n)%nat ->
    (1 <= mCol (SkipToEOL_loop n p))%nat
    /\ tab_in_indent true (rest p) = tab_in_indent false (rest (SkipToEOL_loop n p))
    /\ (rest (SkipToEOL_loop n p) = "" \/ mCol (SkipToEOL_loop n p) = 1%nat).
Proof.
  induction n as [|n IH]; intros p Hcol Hlen; simpl.
  - destruct (rest p) eqn:Hr; [|simpl in Hlen; lia].
    split; [done|]. split; [done|by left].
  - destruct (rest_cases p) as [(Hr & _ & ->)|(c & r & Hr & _ & -> & -> & _ & Hr')].
    + rewrite Hr. split; [done|]. split; [done|by left].
    + rewrite Hr in Hlen |- *. simpl in Hlen.
      destruct (after_char_inside c p Hcol) as [Hc1 Hc2].
      cbn [tab_in_indent].
      destruct (c =c= LF) eqn:E.
      * rewrite Hr'. split; [done|]. split; [done|]. right.
        unfold after_char. by rewrite E.
      * destruct (IH (after_char c p)) as (H1 & H2 & H3); [done|rewrite Hr'; lia|].
        split; [done|]. split; [|done]. by rewrite <- H2, Hr'.
Qed.

Lemma SkipToEOL_tab p :
  (1 <= mCol p)%nat ->
  (1 <= mCol (SkipToEOL p))%nat
  /\ tab_in_indent true (rest p) = tab_in_indent false (rest (SkipToEOL p))
  /\ (rest (SkipToEOL p) = "" \/ mCol (SkipToEOL p) = 1%nat).
Proof.
  intros H. apply SkipToEOL_loop_tab; [done|]. by rewrite remaining_rest.
Qed.

(** The line ending that [ReadLineIndent] consumes: behind a line feed
    the cursor is in the first column, behind a lone carriage return it is
    not. *)
Lemma line_ending_tab p :
  (1 <= mCol p)%nat ->
  ((Peek p =c= CR) || (Peek p =c= LF) = false ->
   rest p = "" \/ mCol p = 1%nat) ->
  (1 <= mCol (after_line_ending p))%nat
  /\ tab_in_indent false (rest p)
     = tab_in_indent (inside_line (after_line_ending p))
         (rest (after_line_ending p)).
Proof.
  intros Hcol Hstart. unfold after_line_ending.
  destruct (rest_cases p) as [(Hr & Hp & _)|(c & r & Hr & Hp & _ & _ & Ha & Hr')];
    rewrite Hp in *.
  { simpl. rewrite Hr, !tab_in_indent_nil. done. }
  destruct (after_char_inside c p Hcol) as [Hc1 Hc2].
  destruct (c =c= CR) eqn:E3.
  - apply Ascii.eqb_eq in E3. subst c. rewrite Ha.
    destruct (rest_cases (after_char CR p))
      as [(Hr1 & Hp1 & _)|(c1 & r1 & Hr1 & Hp1 & _ & _ & Ha1 & Hr1')];
      rewrite Hp1.
    + simpl (NUL =c= LF). cbv iota. split; [done|].
      rewrite Hr, Hr1, !tab_in_indent_nil. rewrite Hr1 in Hr'. by subst r.
    + destruct (after_char_inside c1 (after_char CR p) Hc1) as [Hd1 Hd2].
      rewrite Hr1 in Hr'. subst r.
      destruct (c1 =c= LF) eqn:E6.
      * rewrite Ha1, Hd2, Hr1', Hr. split; [done|]. cbn. by rewrite E6.
      * rewrite Hc2, Hr1, Hr. split; [done|]. done.
  - destruct (c =c= LF) eqn:E4.
    + apply Ascii.eqb_eq in E4. subst c.
      rewrite Ha, Hc2, Hr', Hr. split; [done|]. done.
    + split; [done|]. destruct Hstart as [Hs|Hs]; [done|by rewrite Hr in Hs|].
      unfold inside_line. by rewrite Hs.
Qed.

Lemma ReadLineIndent_spaces_blank n :
  forall acc p,
    blank_text false (rest p) = true ->
    (String.length (rest p) <= n)%nat ->
    (1 <= mCol p)%nat ->
    (fst (ReadLineIndent_spaces n acc p) = RFail InvalidIndentChar
     /\ tab_in_indent false (rest p) = true)
    \/ exists k p',
         ReadLineIndent_spaces n acc p = (ROk k, p')
         /\ blank_text false (rest p') = true
         /\ (String.length (rest p') <= String.length (rest p))%nat
         /\ (Peek p' =c= SP) = false
         /\ (Peek p' =c= TAB) = false
         /\ (1 <= mCol p')%nat
         /\ tab_in_indent false (rest p) = tab_in_indent false (rest p').
Proof.
  induction n as [|n IH]; intros acc p Hblank Hlen Hcol; simpl.
  - right. exists acc, p. destruct (rest_cases p)
      as [(Hr & -> & _)|(c & r & Hr & _)]; [done|].
    rewrite Hr in Hlen. simpl in Hlen. lia.
  - destruct (rest_cases p) as [(Hr & Hp & ->)|(c & r & Hr & Hp & -> & _ & Ha & Hr')].
    { right. exists acc, p. by rewrite Hp. }
    rewrite Hp. destruct (c =c= SP) eqn:E1.
    + destruct (advance_blank p c r Hr Hblank) as [H1 H2]; [by rewrite E1|].
      destruct (after_char_inside c p Hcol) as [Hc1 _]. rewrite <- Ha in Hc1.
      assert (tab_in_indent false (rest p) = tab_in_indent false (rest (advance p)))
        as Htab.
      { rewrite Ha, Hr', Hr. simpl. by rewrite E1. }
      destruct (IH (acc + 1) (advance p) H1)
        as [[Hfail Ht]|(k & p' & -> & H3 & H4 & H5 & H6 & H7 & H8)].
      * rewrite H2, Hr in *. simpl in *. lia.
      * done.
      * left. split; [done|]. by rewrite Htab.
      * right. exists k, p'. split; [done|]. split; [done|]. split; [lia|].
        split; [done|]. split; [done|]. split; [done|]. by rewrite Htab.
    + destruct (c =c= TAB) eqn:E2.
      * left. split; [done|]. rewrite Hr. simpl. by rewrite E1, E2.
      * right. exists acc, p. by rewrite Hp.
Qed.

(** [ReadLineIndent] on a line of a blank text: it fails on a tab in the
    leading white space, or it consumes the line. *)
Lemma ReadLineIndent_blank p :
  blank_text false (rest p) = true ->
  rest p <> EmptyString ->
  (1 <= mCol p)%nat ->
  (fst (ReadLineIndent p) = RFail InvalidIndentChar
   /\ tab_in_indent false (rest p) = true)
  \/ exists k p',
       ReadLineIndent p = (ROk (k, false), p')
       /\ blank_text false (rest p') = true
       /\ (String.length (rest p') < String.length (rest p))%nat
       /\ (1 <= mCol p')%nat
       /\ tab_in_indent false (rest p)
          = tab_in_indent (inside_line p') (rest p').
Proof.
  intros Hblank Hne Hcol. unfold ReadLineIndent.
  assert (String.length (rest p) <= remaining p)%nat as Hlen
    by by rewrite remaining_rest.
  destruct (ReadLineIndent_spaces_blank (remaining p) 0 p Hblank Hlen Hcol)
    as [[Hfail Htab]|(k & p1 & -> & H1 & H2 & H3 & H4 & Hcol1 & Htab)].
  { left. split; [|done].
    destruct (ReadLineIndent_spaces _ _ _) as [[?|?] ?]; simpl in *;
      [discriminate Hfail|by injection Hfail as ->]. }
  right. exists k.
  assert (0 < String.length (rest p))%nat as Hpos.
  { destruct (rest p); [done|simpl; lia]. }
  destruct (rest_cases p1) as [(Hr & Hp & _)|(c & r & Hr & Hp & _)].
  - (* the spaces run to the end of the text *)
    rewrite Hp. simpl. exists p1.
    split; [done|]. split; [done|]. split; [rewrite Hr; simpl; lia|].
    split; [done|]. by rewrite Htab, Hr, !tab_in_indent_nil.
  - rewrite Hp in *. pose proof H1 as Hb. rewrite Hr in Hb. simpl in Hb.
    rewrite H3, H4 in Hb. simpl in Hb.
    destruct (c =c= HASH) eqn:E5.
    + (* a comment line *)
      simpl. destruct (SkipToEOL_blank p1) as [H5 H6].
      { by apply blank_text_false_true. }
      destruct (SkipToEOL_tab p1 Hcol1) as (Hcol2 & Htab2 & Hstart).
      destruct (line_ending_blank (SkipToEOL p1) H5) as (H7 & H8 & _).
      destruct (line_ending_tab (SkipToEOL p1) Hcol2) as (Hcol3 & Htab3);
        [done|].
      exists (after_line_ending (SkipToEOL p1)). split; [reflexivity|].
      split; [exact H7|].
      split; [rewrite Hr in H6; simpl in H6; rewrite Hr in H2; simpl in H2; lia|].
      split; [done|]. rewrite Htab, <- Htab3, <- Htab2, Hr.
      apply Ascii.eqb_eq in E5. clear Hb H3 H4 Hp. subst c. reflexivity.
    + destruct (line_ending_blank p1 H1) as (H7 & H8 & H9).
      rewrite Hp in *.
      assert ((c =c= CR) || (c =c= LF) = true) as Heol.
      { destruct (c =c= CR); [done|]. by destruct (c =c= LF). }
      destruct (line_ending_tab p1 Hcol1) as (Hcol3 & Htab3).
      { rewrite Hp, Heol. discriminate. }
      exists (after_line_ending p1). unfold after_line_ending at 1. rewrite Hp.
      destruct (c =c= CR) eqn:E3; destruct (c =c= LF) eqn:E4; simpl in *;
        try discriminate Hb; try discriminate Heol;
        (split; [reflexivity|]; split; [exact H7|];
         split; [specialize (H9 eq_refl); lia|];
         split; [exact Hcol3|]; by rewrite Htab, Htab3).
Qed.

(** On a blank text [NextContentLineLossless] finds no line: it reports a
    tab in the leading white space of a line, if there is one, and the end
    of the text otherwise. *)
Lemma NextContentLineLossless_blank fuel :
  forall st,
    blank_text true (rest (lbase st)) = true ->
    (mCol (lbase st) = 1%nat -> blank_text false (rest (lbase st)) = true) ->
    (1 <= mCol (lbase st))%nat ->
    (String.length (rest (lbase st)) < fuel)%nat ->
    exists st',
      lout st' = lout st
      /\ NextContentLineLossless fuel st
         = Some (if tab_in_indent (inside_line (lbase st)) (rest (lbase st))
                 then RFail InvalidIndentChar else ROk false, st').
Proof.
  induction fuel as [|fuel IH]; intros st Htrue Hfalse Hpos Hlen; [lia|].
  rewrite NextContentLineLossless_unfold. cbv zeta.
  destruct (rest_cases (lbase st)) as [(Hr & _ & ->)|(c & r & Hr & _ & -> & _)].
  { exists st. split; [done|]. by rewrite Hr, tab_in_indent_nil. }
  unfold inside_line at 1.
  destruct (mCol (lbase st) =? 1)%nat eqn:Hcol; simpl negb; cbv iota.
  - (* at the start of a line *)
    apply Nat.eqb_eq in Hcol. specialize (Hfalse Hcol).
    destruct (ReadLineIndent_blank (lbase st) Hfalse)
      as [[Hfail Htab]|(k & p' & -> & H1 & H2 & H3 & Htab)].
    { by rewrite Hr. }
    { done. }
    { rewrite Htab. destruct (ReadLineIndent (lbase st)) as [[?|e] p'];
        simpl in Hfail; [discriminate Hfail|].
      injection Hfail as ->. eexists. split; [|reflexivity]. done. }
    simpl negb. cbv iota. rewrite Htab.
    edestruct (IH (set_pending
                     (mPendingComments st ++
                        [comment_of_line (mPos (lbase st)) k p'])
                     (set_lbase p' st))) as (st' & Hout & Hres).
    + simpl. by apply blank_text_false_true.
    + done.
    + done.
    + simpl. lia.
    + exists st'. split; [done|]. exact Hres.
  - (* inside a line: skip to its end *)
    destruct (SkipToEOL_blank (lbase st) Htrue) as [H1 H2].
    destruct (SkipToEOL_tab (lbase st) Hpos) as (Hpos' & -> & Hstart).
    destruct (rest_cases (SkipToEOL (lbase st)))
      as [(Hr1 & _ & ->)|(c1 & r1 & Hr1 & _ & -> & _)].
    { eexists. split; [|by rewrite Hr1]. done. }
    destruct Hstart as [Hs|Hs]; [by rewrite Hr1 in Hs|].
    edestruct (IH (set_lbase (SkipToEOL (lbase st)) st)) as (st' & Hout & Hres).
    + simpl. by apply blank_text_false_true.
    + done.
    + done.
    + simpl. rewrite Hr in H2. simpl in H2. rewrite Hr in Hlen. simpl in Hlen. lia.
    + exists st'. split; [done|]. rewrite Hres. simpl.
      unfold inside_line. by rewrite Hs.
Qed.

(** The lossless parser on a blank document. *)
Lemma ParseLossless_blank fuel src out error :
  blank_document src = true ->
  utf8_ok (ValidateUTF8 src true) = true ->
  (String.length src < fuel)%nat ->
  exists r,
    ParseLossless fuel src out error = Some r
    /\ lr_code r
       = (if tab_in_indent false src then InvalidIndentChar else UnexpectedEnd)
    /\ lr_out r = out.
Proof.
  intros Hblank Hutf8 Hfuel. unfold ParseLossless, LosslessParser_Parse.
  cbn [lbase]. change (mSrc (set_error Error_default (Parser_new src))) with src.
  rewrite Hutf8, (blank_document_no_bom _ Hblank). simpl negb. cbv iota zeta.
  edestruct (NextContentLineLossless_blank fuel
               (set_lbase (set_error Error_default (Parser_new src))
                  (mkLState (Parser_new src) [] out)))
    as (st' & Hout & ->).
  - simpl. by apply blank_text_false_true.
  - done.
  - simpl. lia.
  - done.
  - change (inside_line _) with false.
    change (rest (lbase (set_lbase (set_error Error_default (Parser_new src))
                           (mkLState (Parser_new src) [] out)))) with src.
    destruct (tab_in_indent false src); eexists; (split; [reflexivity|]);
      simpl; by split.
Qed.

(** C3, as stated, fails for the lossless parser: no run of
    [ParseLossless] on the empty document returns [OK]. *)
Lemma C3_lossless_rejects_empty :
  ~ exists fuel r,
      ParseLossless fuel "" LosslessValue_default None = Some r
      /\ lr_code r = OK.
Proof.
  intros (fuel & r & H & Hcode).
  destruct fuel as [|fuel]; [vm_compute in H; discriminate H|].
  vm_compute in H. injection H as <-. discriminate Hcode.
Qed.

(** C3 (amended): on every input that is empty or holds white space and
    comments only, [Parse] succeeds and produces [Null], unless
    [ValidateUTF8] rejects the input, which both parsers answer with
    [InvalidUtf8].  [ParseLossless] never succeeds on such an input: where
    a tab stands in the spaces that open a line it fails with
    [InvalidIndentChar], and otherwise with [UnexpectedEnd] (empty
    document).  Every failure leaves the caller's value as it was. *)
Theorem C3_blank_document :
  forall (src : string),
    blank_document src = true ->
    (forall fuel out error,
        exists r, Parse fuel src out error = Some r
                  /\ (pr_code r, pr_out r)
                     = if utf8_ok (ValidateUTF8 src true)
                       then (OK, VNull) else (InvalidUtf8, out))
    /\ (forall fuel out error,
          (String.length src < fuel)%nat ->
          exists r, ParseLossless fuel src out error = Some r
                    /\ lr_code r
                       = (if negb (utf8_ok (ValidateUTF8 src true))
                          then InvalidUtf8
                          else if tab_in_indent false src then InvalidIndentChar
                          else UnexpectedEnd)
                    /\ lr_out r = out).
Proof.
  intros src Hblank.
  destruct (utf8_ok (ValidateUTF8 src true)) eqn:Hutf8; split.
  - intros fuel out error. eexists. split; [by apply Parse_blank|done].
  - intros fuel out error Hfuel. by apply ParseLossless_blank.
  - intros fuel out error.
    destruct (Parse_invalid_utf8 fuel src out error Hutf8) as (r & H & Hc & Ho).
    exists r. split; [done|]. by rewrite Hc, Ho.
  - intros fuel out error _.
    destruct (ParseLossless_invalid_utf8 fuel src out error Hutf8)
      as (r & H & Hc & Ho).
    exists r. by split.
Qed.

(** A comment and a blank line; a tab that opens the line behind a
    comment; and a comment that holds [U+FEFF]. *)
Lemma C3_blank_document_witness :
  (exists r, Parse 0 doc_comment_only (VBool true) None = Some r
             /\ (pr_code r, pr_out r) = (OK, VNull))
  /\ (exists r, ParseLossless 12 doc_comment_only LosslessValue_default None = Some r
                /\ lr_code r = UnexpectedEnd
                /\ lr_out r = LosslessValue_default)
  /\ (exists r, ParseLossless 12 doc_comment_then_tab LosslessValue_default None
                = Some r
                /\ lr_code r = InvalidIndentChar
                /\ lr_out r = LosslessValue_default)
  /\ (exists r, Parse 0 doc_bom_in_comment (VBool true) None = Some r
                /\ (pr_code r, pr_out r) = (InvalidUtf8, VBool true)).
Proof.
  destruct (C3_blank_document doc_comment_only) as [Hplain Hlossless];
    [reflexivity|].
  destruct (C3_blank_document doc_comment_then_tab) as [_ Htab];
    [reflexivity|].
  destruct (C3_blank_document doc_bom_in_comment) as [Hbom _];
    [reflexivity|].
  split; [apply Hplain|].
  split; [apply Hlossless; vm_compute; lia|].
  split; [apply Htab; vm_compute; lia|].
  apply Hbom.
Defined.

(** ** The canonical writer only appends; the layout of arrays *)

Lemma append_assoc a b c : (a +:+ b) +:+ c = a +:+ b +:+ c.
Proof.
  induction a as [|d a IH].
  - by rewrite !append_empty_l.
  - by rewrite !append_String, IH.
Qed.

Lemma append_empty_r a : a +:+ EmptyString = a.
Proof.
  induction a as [|d a IH]; [done|]. by rewrite append_String, IH.
Qed.

Lemma WriteStringQuoted_chars_app value :
  forall out,
    WriteStringQuoted_chars value out = out +:+ WriteStringQuoted_chars value "".
Proof.
  induction value as [|c r IH]; intros out; simpl.
  - by rewrite append_empty_r.
  - rewrite IH. symmetry. rewrite IH. symmetry. unfold push_back.
    repeat (match goal with |- context [if ?b then _ else _] => destruct b end);
      by rewrite !append_empty_l, !append_assoc.
Qed.

Lemma WriteStringQuoted_app value out :
  WriteStringQuoted value out = out +:+ WriteStringQuoted value "".
Proof.
  unfold WriteStringQuoted, push_back.
  rewrite WriteStringQuoted_chars_app. symmetry.
  rewrite WriteStringQuoted_chars_app. symmetry.
  by rewrite !append_assoc, append_empty_l.
Qed.

Lemma WriteKey_app key out : WriteKey key out = out +:+ WriteKey key "".
Proof.
  unfold WriteKey. destruct (bareOK key).
  - by rewrite append_empty_l.
  - apply WriteStringQuoted_app.
Qed.

Lemma WriteValueInline_array_fold (write : Value -> string -> string) array :
  Forall (fun e => forall o, write e o = o +:+ write e "") array ->
  forall index out,
    snd (fold_left
           (fun (st : nat * string) (e : Value) =>
              let '(index, out) := st in
              let out := if (0 <? index)%nat then out +:+ ", " else out in
              (S index, write e out))
           array (index, out))
    = out +:+ sep_concat (index =? 0)%nat ", " (map (fun e => write e "") array).
Proof.
  induction 1 as [|e array He _ IH]; intros index out; simpl.
  - by rewrite append_empty_r.
  - rewrite IH. simpl. rewrite He. destruct index; simpl.
    + by rewrite append_empty_l, !append_assoc.
    + by rewrite !append_assoc.
Qed.

Lemma WriteValueInline_array_shape (write : Value -> string -> string) array out :
  Forall (fun e => forall o, write e o = o +:+ write e "") array ->
  WriteValueInline_array write array out
  = out +:+ "[" +:+ join ", " (map (fun e => write e "") array) +:+ "]".
Proof.
  intros H. unfold WriteValueInline_array, join, push_back, str1.
  rewrite (WriteValueInline_array_fold write array H). simpl.
  by rewrite !append_assoc.
Qed.

Lemma WriteObject_braced_fold (items : list (string * (string -> string))) :
  Forall (fun it => forall o, snd it o = o +:+ snd it "") items ->
  forall index out,
    snd (fold_left
           (fun (st : nat * string) (item : string * (string -> string)) =>
              let '(index, out) := st in
              let out := if (0 <? index)%nat then out +:+ ", " else out in
              let out := WriteKey (fst item) out +:+ ": " in
              (S index, snd item out))
           items (index, out))
    = out +:+ sep_concat (index =? 0)%nat ", "
                (map (fun it => WriteKey (fst it) "" +:+ ": " +:+ snd it "") items).
Proof.
  induction 1 as [|it items Hit _ IH]; intros index out; simpl.
  - by rewrite append_empty_r.
  - rewrite IH. simpl. rewrite Hit, WriteKey_app. destruct index; simpl.
    + by rewrite append_empty_l, !append_assoc.
    + by rewrite !append_assoc.
Qed.

Lemma WriteObject_braced_shape (items : list (string * (string -> string))) out :
  Forall (fun it => forall o, snd it o = o +:+ snd it "") items ->
  WriteObject_braced items out
  = out +:+ "{"
    +:+ join ", " (map (fun it => WriteKey (fst it) "" +:+ ": " +:+ snd it "") items)
    +:+ "}".
Proof.
  intros H. unfold WriteObject_braced, join, push_back, str1.
  rewrite (WriteObject_braced_fold items H). simpl.
  by rewrite !append_assoc.
Qed.

Lemma foldr_size_bound (a : list Value) (x : Value) :
  x ∈ a -> (value_size x <= foldr (fun y acc => value_size y + acc) O a)%nat.
Proof. induction 1; simpl; lia. Qed.

Lemma value_size_object (o : Object) (key : string) (x : Value) :
  o !! key = Some x -> (value_size x < value_size (VObject o))%nat.
Proof.
  intros H. apply elem_of_map_to_list in H. simpl.
  rewrite map_fold_foldr. revert H. generalize (map_to_list o).
  induction l as [|[k v] l IH]; intros Hin; [by apply elem_of_nil in Hin|].
  apply elem_of_cons in Hin as [[= <- <-]|Hin]; simpl.
  - lia.
  - specialize (IH Hin). lia.
Qed.

(** Induction on the size of a value. *)
Lemma value_size_ind (P : Value -> Prop) :
  (forall v, (forall w, (value_size w < value_size v)%nat -> P w) -> P v) ->
  forall v, P v.
Proof.
  intros Hstep v. remember (value_size v) as n eqn:Hn.
  revert v Hn. induction n as [n IH] using lt_wf_ind. intros v ->.
  apply Hstep. intros w Hw. by apply (IH (value_size w)).
Qed.

Lemma OrderedObjectItems_unsorted {B} (f : Value -> B) (o : Object) :
  OrderedObjectItems f o false = map (fun kv => (fst kv, f (snd kv))) (map_to_list o).
Proof.
  unfold OrderedObjectItems. rewrite map_fold_foldr.
  induction (map_to_list o) as [|[k v] l IH]; simpl; [done|]. by rewrite IH.
Qed.

Lemma insert_by_key_Forall {X} (Q : string * X -> Prop) x l :
  Q x -> Forall Q l -> Forall Q (insert_by_key x l).
Proof.
  intros Hx. induction 1 as [|y l Hy Hl IH]; simpl.
  - by constructor.
  - destruct (String.ltb (fst y) (fst x)); by repeat constructor.
Qed.

Lemma sort_by_key_Forall {X} (Q : string * X -> Prop) l :
  Forall Q l -> Forall Q (sort_by_key l).
Proof.
  induction 1; simpl; [constructor|]. by apply insert_by_key_Forall.
Qed.

Lemma OrderedObjectItems_Forall {B} (f : Value -> B) (o : Object) sortKeys
    (Q : B -> Prop) :
  (forall key v, o !! key = Some v -> Q (f v)) ->
  Forall (fun it => Q (snd it)) (OrderedObjectItems f o sortKeys).
Proof.
  intros H.
  assert (Forall (fun it : string * B => Q (snd it)) (OrderedObjectItems f o false))
    as Hunsorted.
  { rewrite OrderedObjectItems_unsorted. apply Forall_forall.
    intros it Hin. apply list_elem_of_fmap in Hin as ([k v] & -> & Hin).
    apply elem_of_map_to_list in Hin. simpl. eauto. }
  destruct sortKeys; [|done].
  unfold OrderedObjectItems in *. by apply sort_by_key_Forall.
Qed.

(** [WriteValueInline] only appends. *)
Lemma WriteValueInline_app options :
  forall v out,
    WriteValueInline v options out = out +:+ WriteValueInline v options "".
Proof.
  induction v as [v IH] using value_size_ind. intros out.
  destruct v as [|b|d|s|a|o]; simpl.
  - by rewrite append_empty_l.
  - by rewrite append_empty_l.
  - by rewrite append_empty_l.
  - apply WriteStringQuoted_app.
  - assert (Forall (fun e => forall o, WriteValueInline e options o
                                       = o +:+ WriteValueInline e options "") a)
      as Ha.
    { apply Forall_forall. intros e He. apply IH.
      pose proof (foldr_size_bound a e He). simpl. lia. }
    rewrite !(WriteValueInline_array_shape _ a _ Ha).
    by rewrite append_empty_l.
  - assert (Forall (fun it : string * (string -> string) =>
                      forall out, snd it out = out +:+ snd it "")
              (OrderedObjectItems (fun v => WriteValueInline v options) o
                 (sortObjectKeys options))) as Ho.
    { apply (OrderedObjectItems_Forall (fun v => WriteValueInline v options) o _
               (fun w => forall out, w out = out +:+ w "")).
      intros key v Hv. apply IH. by eapply value_size_object. }
    rewrite !(WriteObject_braced_shape _ _ Ho).
    by rewrite append_empty_l.
Qed.

Lemma fold_left_pieces {X} (step : bool * string -> X -> bool * string)
    (piece : bool -> X -> string) (l : list X) :
  Forall (fun x => forall first out,
              step (first, out) x = (false, out +:+ piece first x)) l ->
  forall first out,
    snd (fold_left step l (first, out)) = out +:+ concat_pieces piece first l.
Proof.
  induction 1 as [|x l Hx _ IH]; intros first out; simpl.
  - by rewrite append_empty_r.
  - by rewrite Hx, IH, append_assoc.
Qed.

Lemma concat_pieces_sep {X} (t : X -> string) sep first (l : list X) :
  concat_pieces (fun first x => (if first then "" else sep) +:+ t x) first l
  = sep_concat first sep (map t l).
Proof.
  revert first. induction l as [|x l IH]; intros first; simpl; [done|].
  by rewrite IH, append_assoc.
Qed.

Lemma WriteIndent_ok out level width :
  0 <= level -> 0 <= width ->
  WriteIndent out level width = Some (out +:+ indent_text level width).
Proof.
  intros Hl Hw. unfold WriteIndent, indent_text.
  assert ((level * width <? 0) = false) as -> by (apply Z.ltb_ge; nia). done.
Qed.

Lemma WriteIndent_app out level width :
  WriteIndent out level width
  = (fun t => out +:+ t) <$> WriteIndent "" level width.
Proof.
  unfold WriteIndent. destruct (_ <? _); [done|]. simpl.
  by rewrite append_empty_l.
Qed.

Lemma for_each_pieces {X} (body : bool * string -> X -> option (bool * string))
    (piece : bool -> X -> string) (l : list X) :
  Forall (fun x => forall first out,
              body (first, out) x = Some (false, out +:+ piece first x)) l ->
  forall first out,
    snd <$> for_each body l (first, out)
    = Some (out +:+ concat_pieces piece first l).
Proof.
  induction 1 as [|x l Hx _ IH]; intros first out; simpl.
  - by rewrite append_empty_r.
  - by rewrite Hx, IH, append_assoc.
Qed.

Lemma for_each_app {X} (body : bool * string -> X -> option (bool * string))
    (l : list X) :
  Forall (fun x => forall first out,
              body (first, out) x
              = (fun st => (fst st, out +:+ snd st)) <$> body (first, "") x) l ->
  forall first out,
    for_each body l (first, out)
    = (fun st => (fst st, out +:+ snd st)) <$> for_each body l (first, "").
Proof.
  induction 1 as [|x l Hx _ IH]; intros first out; simpl.
  - by rewrite append_empty_r.
  - rewrite Hx. destruct (body (first, "") x) as [[f t]|]; simpl; [|done].
    rewrite IH, (IH f t).
    destruct (for_each body l (f, "")) as [[f' t']|]; simpl; [|done].
    by rewrite append_assoc.
Qed.

Lemma CanInlineArray_cond (array : Array) :
  forallb IsSimpleScalar array && (length array <=? 3)%nat = CanInlineArray array.
Proof.
  unfold CanInlineArray. destruct (3 <? length array)%nat eqn:E.
  - apply Nat.ltb_lt in E.
    assert ((length array <=? 3)%nat = false) as -> by (apply Nat.leb_gt; lia).
    apply andb_false_r.
  - apply Nat.ltb_ge in E.
    assert ((length array <=? 3)%nat = true) as -> by (apply Nat.leb_le; lia).
    apply andb_true_r.
Qed.

(** A writer that appends [t] to every [out] writes [t] to the empty one. *)
Lemma written_text (f : string -> option string) (t : string) :
  (forall o, f o = Some (o +:+ t)) ->
  forall o, f o = Some (o +:+ default "" (f "")).
Proof. intros H o. rewrite (H ""), append_empty_l. simpl. apply H. Qed.

(** The layout of [WriteArray_with] at a non-negative indent, given that
    [write] appends the text [text] there. *)
Lemma WriteArray_with_shape
    (write : Value -> string -> Z -> WriteOptions -> WriteContext -> option string)
    (text : Value -> Z -> WriteContext -> string)
    (array : Array) out indentLevel options ctx :
  0 <= indentLevel -> 0 <= indentWidth options ->
  Forall (fun v => forall o l c,
              0 <= l -> write v o l options c = Some (o +:+ text v l c)) array ->
  WriteArray_with write array out indentLevel options ctx
  = Some
      (if CanInlineArray array
       then
         out +:+ "["
         +:+ join ", " (map (fun v => text v indentLevel InArray) array)
         +:+ "]"
       else
         out
         +:+ (if is_InArray ctx then ""
              else indent_text indentLevel (indentWidth options))
         +:+ "[" +:+ nl
         +:+ join nl
               (map (fun v =>
                       indent_text (indentLevel + 1) (indentWidth options)
                       +:+ match v with
                           | VObject _ => WriteValueInline v options ""
                           | _ => text v (indentLevel + 1) InArray
                           end) array)
         +:+ nl +:+ indent_text indentLevel (indentWidth options) +:+ "]").
Proof.
  intros Hl Hw H. unfold WriteArray_with.
  destruct array as [|v0 array']; [done|].
  set (array := v0 :: array') in *. rewrite CanInlineArray_cond.
  destruct (CanInlineArray array).
  - rewrite (for_each_pieces _
               (fun first v => (if first then "" else ", ")
                               +:+ text v indentLevel InArray) array).
    + cbn [mbind option_bind]. rewrite concat_pieces_sep.
      unfold push_back, str1, join. by rewrite !append_assoc.
    + eapply Forall_impl; [exact H|]. intros v Hv first o. cbv zeta beta iota.
      rewrite Hv by done. cbn [mbind option_bind].
      by destruct first; cbn [negb]; cbv iota;
        rewrite ?append_empty_l, ?append_assoc.
  - assert (WriteIndent (if negb (is_InArray ctx) then out else out) indentLevel
              (indentWidth options)
            = Some (out +:+ indent_text indentLevel (indentWidth options))) as _
      by (destruct (negb _); by apply WriteIndent_ok).
    assert ((if negb (is_InArray ctx)
             then WriteIndent out indentLevel (indentWidth options)
             else Some out)
            = Some (out +:+ (if is_InArray ctx then ""
                             else indent_text indentLevel (indentWidth options))))
      as ->.
    { destruct (is_InArray ctx); cbn [negb].
      - by rewrite append_empty_r.
      - by apply WriteIndent_ok. }
    cbn [mbind option_bind].
    rewrite (for_each_pieces _
               (fun first v =>
                  (if first then "" else nl)
                  +:+ (indent_text (indentLevel + 1) (indentWidth options)
                       +:+ match v with
                           | VObject _ => WriteValueInline v options ""
                           | _ => text v (indentLevel + 1) InArray
                           end)) array).
    + cbn [mbind option_bind]. rewrite WriteIndent_ok by done.
      cbn [mbind option_bind].
      rewrite concat_pieces_sep. unfold push_back, str1, join, nl.
      by rewrite ?append_empty_l, !append_assoc.
    + eapply Forall_impl; [exact H|]. intros v Hv first o. cbv zeta beta iota.
      rewrite WriteIndent_ok by lia. cbn [mbind option_bind].
      unfold push_back, str1, nl.
      assert (forall object o,
                 WriteObject_braced
                   (OrderedObjectItems (fun v => WriteValueInline v options) object
                      (sortObjectKeys options)) o
                 = o +:+ WriteValueInline (VObject object) options "") as Hbraced.
      { intros object o'.
        apply (WriteValueInline_app options (VObject object) o'). }
      destruct v as [|b|d|s|a|obj];
        first [rewrite Hbraced | rewrite Hv by lia]; cbn [mbind option_bind];
        by destruct first; cbn [negb]; cbv iota;
          rewrite ?append_empty_l, ?append_assoc.
Qed.

(** The brace-less writer at a non-negative indent, given that every item
    writer appends a text. *)
Lemma WriteObject_block_ok (items : list (string * ItemWriter)) indentLevel
    options indentFirstLine :
  0 <= indentLevel -> 0 <= indentWidth options ->
  Forall (fun it : string * ItemWriter =>
            forall l c, 0 <= l ->
              exists t, forall o, snd (snd it) o l options c = Some (o +:+ t))
    items ->
  exists t, forall out,
    WriteObject_block items out indentLevel options indentFirstLine
    = Some (out +:+ t).
Proof.
  intros Hl Hw H. unfold WriteObject_block.
  destruct items as [|it0 items'].
  { destruct indentFirstLine.
    - eexists. intros out. rewrite WriteIndent_ok by done.
      cbn [mbind option_bind]. by rewrite append_assoc.
    - by eexists. }
  set (items := it0 :: items') in *.
  set (piece := fun (first : bool) (item : string * ItemWriter) =>
         (if first then "" else nl)
         +:+ (if negb (first && negb indentFirstLine)
              then indent_text indentLevel (indentWidth options) else "")
         +:+ WriteKey (fst item) "" +:+ ": "
         +:+ (if is_object (fst (snd item))
                 || (is_array (fst (snd item))
                     && negb (is_array (fst (snd item))
                              && can_inline (fst (snd item))))
              then nl +:+ default "" (snd (snd item) "" (indentLevel + 1)
                                        options InObject)
              else default "" (snd (snd item) "" indentLevel options InObject))).
  exists (concat_pieces piece true items). intros out.
  apply for_each_pieces.
  eapply Forall_impl; [exact H|]. intros [key [value write]] Hwr first o.
  simpl in Hwr. cbv zeta beta iota. unfold piece. cbn [fst snd].
  destruct (Hwr (indentLevel + 1) InObject ltac:(lia)) as [t1 Ht1].
  destruct (Hwr indentLevel InObject Hl) as [t0 Ht0].
  assert (default "" (write "" (indentLevel + 1) options InObject) = t1) as ->
    by (by rewrite Ht1, append_empty_l).
  assert (default "" (write "" indentLevel options InObject) = t0) as ->
    by (by rewrite Ht0, append_empty_l).
  assert ((if negb (first && negb indentFirstLine)
           then WriteIndent (if negb first then push_back o LF else o) indentLevel
                  (indentWidth options)
           else Some (if negb first then push_back o LF else o))
          = Some ((if negb first then push_back o LF else o)
                  +:+ (if negb (first && negb indentFirstLine)
                       then indent_text indentLevel (indentWidth options)
                       else ""))) as ->.
  { destruct (negb (first && negb indentFirstLine)).
    - by apply WriteIndent_ok.
    - by rewrite append_empty_r. }
  cbn [mbind option_bind]. unfold push_back, str1, nl.
  destruct (is_object value
            || is_array value && negb (is_array value && can_inline value));
    rewrite ?Ht1, ?Ht0; cbn [mbind option_bind]; rewrite (WriteKey_app key);
    by destruct first; cbn [negb andb];
      rewrite ?append_empty_l, ?append_assoc.
Qed.

(** At a non-negative indent [WriteValue] returns: it appends to [out]
    the text that it writes to an empty [out]. *)
Lemma WriteValue_ok options :
  0 <= indentWidth options ->
  forall v out indentLevel ctx,
    0 <= indentLevel ->
    WriteValue v out indentLevel options ctx
    = Some (out +:+ written v indentLevel options ctx).
Proof.
  intros Hw. induction v as [v IH] using value_size_ind.
  intros out indentLevel ctx Hl. unfold written.
  apply (written_text (fun o => WriteValue v o indentLevel options ctx)
           (written v indentLevel options ctx)).
  clear out. unfold written.
  destruct v as [|b|d|s|a|o].
  - intros out. simpl. done.
  - intros out. simpl. done.
  - intros out. simpl. done.
  - intros out. simpl. destruct (contains_char LF s); simpl.
    + by rewrite append_empty_l.
    + by rewrite (WriteStringQuoted_app s out).
  - assert (Forall (fun e => forall o l c,
                        0 <= l ->
                        WriteValue e o l options c
                        = Some (o +:+ written e l options c)) a) as Ha.
    { apply Forall_forall. intros e He o l c Hl'. apply IH; [|done].
      pose proof (foldr_size_bound a e He). simpl. lia. }
    intros out. cbn [WriteValue].
    rewrite !(WriteArray_with_shape _ (fun e l c => written e l options c)
                a _ _ _ _ Hl Hw Ha).
    simpl. f_equal.
    destruct (CanInlineArray a); by rewrite ?append_empty_l, ?append_assoc.
  - intros out. cbn [WriteValue]. destruct (is_InArray ctx).
    + simpl. f_equal. apply (WriteValueInline_app options (VObject o)).
    + destruct (WriteObject_block_ok
                  (OrderedObjectItems (fun v => (v, WriteValue v)) o
                     (sortObjectKeys options))
                  indentLevel options true Hl Hw) as [t Ht].
      { apply (OrderedObjectItems_Forall (fun v => (v, WriteValue v)) o _
                 (fun w : ItemWriter =>
                    forall l c, 0 <= l ->
                      exists t, forall out, snd w out l options c
                                            = Some (out +:+ t))).
        intros key v Hv l c Hl'. eexists. intros out'. simpl.
        apply IH; [by eapply value_size_object|done]. }
      rewrite !Ht. simpl. by rewrite append_empty_l.
Qed.

(** The same writers, whether or not they throw: what is in [out] has no
    part in it, and a writer that returns has appended to [out]. *)
Lemma WriteArray_with_app
    (write : Value -> string -> Z -> WriteOptions -> WriteContext -> option string)
    (array : Array) out indentLevel options ctx :
  Forall (fun v => forall o l c,
              write v o l options c
              = (fun t => o +:+ t) <$> write v "" l options c) array ->
  WriteArray_with write array out indentLevel options ctx
  = (fun t => out +:+ t) <$> WriteArray_with write array "" indentLevel options ctx.
Proof.
  intros H. unfold WriteArray_with.
  assert (forall object o,
             WriteObject_braced
               (OrderedObjectItems (fun v => WriteValueInline v options) object
                  (sortObjectKeys options)) o
             = o +:+ WriteObject_braced
                       (OrderedObjectItems (fun v => WriteValueInline v options)
                          object (sortObjectKeys options)) "") as Hbraced.
  { intros object o'. apply (WriteValueInline_app options (VObject object) o'). }
  destruct array as [|v0 array']; [simpl; by rewrite append_empty_l|].
  set (array := v0 :: array') in *. clearbody array.
  destruct (forallb IsSimpleScalar array && (length array <=? 3)%nat).
  - match goal with
    | |- context [for_each ?step array (true, push_back out "[")] =>
        assert (Forall (fun x => forall first o,
                            step (first, o) x
                            = (fun st => (fst st, o +:+ snd st))
                                <$> step (first, "") x) array) as Hstep
    end.
    { eapply Forall_impl; [exact H|]. intros v Hv first o. cbv zeta beta iota.
      rewrite Hv.
      rewrite (Hv (if negb first then "" +:+ ", " else "")).
      destruct (write v "" indentLevel options InArray) as [t|]; simpl; [|done].
      by destruct first; cbn [negb]; cbv iota;
        rewrite ?append_empty_l, ?append_assoc. }
    rewrite (for_each_app _ array Hstep true (push_back out "[")).
    rewrite (for_each_app _ array Hstep true (push_back "" "[")).
    match goal with
    | |- context [for_each ?step array (true, "")] =>
        destruct (for_each step array (true, "")) as [[f t]|]
    end; simpl; [|done].
    unfold push_back, str1. by rewrite ?append_empty_l, ?append_assoc.
  - rewrite (WriteIndent_app out).
    destruct (negb (is_InArray ctx)).
    + destruct (WriteIndent "" indentLevel (indentWidth options)) as [i0|];
        simpl; [|done].
      match goal with
      | |- context [for_each ?step array (true, _)] =>
          assert (Forall (fun x => forall first o,
                              step (first, o) x
                              = (fun st => (fst st, o +:+ snd st))
                                  <$> step (first, "") x) array) as Hstep
      end.
      { eapply Forall_impl; [exact H|]. intros v Hv first o. cbv zeta beta iota.
        rewrite (WriteIndent_app (if negb first then push_back o LF else o)).
        rewrite (WriteIndent_app (if negb first then push_back "" LF else "")).
        destruct (WriteIndent "" (indentLevel + 1) (indentWidth options))
          as [i1|]; simpl; [|done].
        destruct v as [|b|d|s|a|obj];
          try (rewrite (Hv ((if negb first then push_back o LF else o) +:+ i1)),
                 (Hv ((if negb first then push_back "" LF else "") +:+ i1)));
          try (destruct (write _ "" (indentLevel + 1) options InArray) as [t|];
               simpl; [|done]);
          simpl;
          try (rewrite (Hbraced obj ((if negb first then push_back o LF else o)
                                     +:+ i1)),
                 (Hbraced obj ((if negb first then push_back "" LF else "")
                               +:+ i1)));
          unfold push_back, str1;
          by destruct first; cbn [negb]; cbv iota;
            rewrite ?append_empty_l, ?append_assoc. }
      rewrite (for_each_app _ array Hstep true
                 (push_back (push_back (out +:+ i0) "[") LF)).
      rewrite (for_each_app _ array Hstep true
                 (push_back (push_back i0 "[") LF)).
      match goal with
      | |- context [for_each ?step array (true, "")] =>
          destruct (for_each step array (true, "")) as [[f t]|]
      end; simpl; [|done].
      rewrite (WriteIndent_app (push_back _ LF)).
      rewrite (WriteIndent_app (push_back (push_back _ LF +:+ t) LF)).
      destruct (WriteIndent "" indentLevel (indentWidth options)) as [i2|];
        simpl; [|done].
      unfold push_back, str1. by rewrite ?append_empty_l, ?append_assoc.
    + simpl.
      match goal with
      | |- context [for_each ?step array (true, _)] =>
          assert (Forall (fun x => forall first o,
                              step (first, o) x
                              = (fun st => (fst st, o +:+ snd st))
                                  <$> step (first, "") x) array) as Hstep
      end.
      { eapply Forall_impl; [exact H|]. intros v Hv first o. cbv zeta beta iota.
        rewrite (WriteIndent_app (if negb first then push_back o LF else o)).
        rewrite (WriteIndent_app (if negb first then push_back "" LF else "")).
        destruct (WriteIndent "" (indentLevel + 1) (indentWidth options))
          as [i1|]; simpl; [|done].
        destruct v as [|b|d|s|a|obj];
          try (rewrite (Hv ((if negb first then push_back o LF else o) +:+ i1)),
                 (Hv ((if negb first then push_back "" LF else "") +:+ i1)));
          try (destruct (write _ "" (indentLevel + 1) options InArray) as [t|];
               simpl; [|done]);
          simpl;
          try (rewrite (Hbraced obj ((if negb first then push_back o LF else o)
                                     +:+ i1)),
                 (Hbraced obj ((if negb first then push_back "" LF else "")
                               +:+ i1)));
          unfold push_back, str1;
          by destruct first; cbn [negb]; cbv iota;
            rewrite ?append_empty_l, ?append_assoc. }
      rewrite (for_each_app _ array Hstep true
                 (push_back (push_back out "[") LF)).
      rewrite (for_each_app _ array Hstep true
                 (push_back (push_back "" "[") LF)).
      match goal with
      | |- context [for_each ?step array (true, "")] =>
          destruct (for_each step array (true, "")) as [[f t]|]
      end; simpl; [|done].
      rewrite (WriteIndent_app (push_back _ LF)).
      rewrite (WriteIndent_app (push_back (push_back _ LF +:+ t) LF)).
      destruct (WriteIndent "" indentLevel (indentWidth options)) as [i2|];
        simpl; [|done].
      unfold push_back, str1. by rewrite ?append_empty_l, ?append_assoc.
Qed.

Lemma WriteObject_block_app (items : list (string * ItemWriter)) out indentLevel
    options indentFirstLine :
  Forall (fun it : string * ItemWriter =>
            forall o l c, snd (snd it) o l options c
                          = (fun t => o +:+ t) <$> snd (snd it) "" l options c)
    items ->
  WriteObject_block items out indentLevel options indentFirstLine
  = (fun t => out +:+ t)
      <$> WriteObject_block items "" indentLevel options indentFirstLine.
Proof.
  intros H. unfold WriteObject_block.
  destruct items as [|it0 items'].
  { destruct indentFirstLine; [|simpl; by rewrite append_empty_l].
    rewrite (WriteIndent_app out).
    destruct (WriteIndent "" indentLevel (indentWidth options)) as [i0|];
      simpl; [|done].
    by rewrite ?append_empty_l, ?append_assoc. }
  set (items := it0 :: items') in *. clearbody items.
  match goal with
  | |- context [for_each ?step items (true, out)] =>
      assert (Forall (fun x => forall first o,
                          step (first, o) x
                          = (fun st => (fst st, o +:+ snd st))
                              <$> step (first, "") x) items) as Hstep
  end.
  { eapply Forall_impl; [exact H|]. intros [key [value write]] Hw first o.
    simpl in Hw. cbv zeta beta iota.
    rewrite (WriteIndent_app (if negb first then push_back o LF else o)).
    rewrite (WriteIndent_app (if negb first then push_back "" LF else "")).
    assert ((if negb (first && negb indentFirstLine)
             then (fun t => (if negb first then push_back o LF else o) +:+ t)
                    <$> WriteIndent "" indentLevel (indentWidth options)
             else Some (if negb first then push_back o LF else o))
            = (fun t => (if negb first then push_back o LF else o) +:+ t)
                <$> (if negb (first && negb indentFirstLine)
                     then WriteIndent "" indentLevel (indentWidth options)
                     else Some "")) as ->.
    { destruct (negb (first && negb indentFirstLine)); [done|].
      simpl. by rewrite append_empty_r. }
    assert ((if negb (first && negb indentFirstLine)
             then (fun t => (if negb first then push_back "" LF else "") +:+ t)
                    <$> WriteIndent "" indentLevel (indentWidth options)
             else Some (if negb first then push_back "" LF else ""))
            = (fun t => (if negb first then push_back "" LF else "") +:+ t)
                <$> (if negb (first && negb indentFirstLine)
                     then WriteIndent "" indentLevel (indentWidth options)
                     else Some "")) as ->.
    { destruct (negb (first && negb indentFirstLine)); [done|].
      simpl. by rewrite append_empty_r. }
    destruct (if negb (first && negb indentFirstLine)
              then WriteIndent "" indentLevel (indentWidth options)
              else Some "") as [i1|]; simpl; [|done].
    rewrite !(WriteKey_app key (_ +:+ i1)).
    destruct (is_object value
              || is_array value && negb (is_array value && can_inline value)).
    - match goal with
      | |- write ?a _ _ _ ≫= _ = _ <$> (write ?b _ _ _ ≫= _) =>
          rewrite (Hw a), (Hw b)
      end.
      destruct (write "" (indentLevel + 1) options InObject) as [t|];
        simpl; [|done].
      unfold push_back, str1.
      by destruct first; cbn [negb]; cbv iota;
        rewrite ?append_empty_l, ?append_assoc.
    - match goal with
      | |- write ?a _ _ _ ≫= _ = _ <$> (write ?b _ _ _ ≫= _) =>
          rewrite (Hw a), (Hw b)
      end.
      destruct (write "" indentLevel options InObject) as [t|]; simpl; [|done].
      unfold push_back, str1.
      by destruct first; cbn [negb]; cbv iota;
        rewrite ?append_empty_l, ?append_assoc. }
  rewrite (for_each_app _ items Hstep true out).
  match goal with
  | |- context [for_each ?step items (true, "")] =>
      destruct (for_each step items (true, "")) as [[f t]|]
  end; simpl; done.
Qed.

(** [WriteValue] throws or not whatever [out] holds, and only appends. *)
Lemma WriteValue_app options :
  forall v out indentLevel ctx,
    WriteValue v out indentLevel options ctx
    = (fun t => out +:+ t) <$> WriteValue v "" indentLevel options ctx.
Proof.
  induction v as [v IH] using value_size_ind. intros out indentLevel ctx.
  destruct v as [|b|d|s|a|o]; cbn [WriteValue].
  - done.
  - done.
  - done.
  - destruct (contains_char LF s); simpl.
    + by rewrite append_empty_l.
    + by rewrite (WriteStringQuoted_app s out).
  - apply WriteArray_with_app.
    apply Forall_forall. intros e He o l c. apply IH.
    pose proof (foldr_size_bound a e He). simpl. lia.
  - destruct (is_InArray ctx).
    + simpl. f_equal. apply (WriteValueInline_app options (VObject o)).
    + apply WriteObject_block_app.
      apply (OrderedObjectItems_Forall (fun v => (v, WriteValue v)) o _
               (fun w : ItemWriter =>
                  forall out l c, snd w out l options c
                                  = (fun t => out +:+ t) <$> snd w "" l options c)).
      intros key v Hv out' l c. apply IH. by eapply value_size_object.
Qed.

Lemma insert_by_key_map {X Y} (g : X -> Y) (x : string * X) l :
  map (fun it => (fst it, g (snd it))) (insert_by_key x l)
  = insert_by_key (fst x, g (snd x)) (map (fun it => (fst it, g (snd it))) l).
Proof.
  induction l as [|y l IH]; simpl; [done|].
  destruct (String.ltb (fst y) (fst x)); simpl; [by rewrite IH|done].
Qed.

Lemma sort_by_key_map {X Y} (g : X -> Y) (l : list (string * X)) :
  map (fun it => (fst it, g (snd it))) (sort_by_key l)
  = sort_by_key (map (fun it => (fst it, g (snd it))) l).
Proof.
  induction l as [|x l IH]; simpl; [done|].
  by rewrite insert_by_key_map, IH.
Qed.

Lemma OrderedObjectItems_map {B C} (g : B -> C) (f : Value -> B) (o : Object)
    sortKeys :
  map (fun it => (fst it, g (snd it))) (OrderedObjectItems f o sortKeys)
  = OrderedObjectItems (fun v => g (f v)) o sortKeys.
Proof.
  assert (map (fun it : string * B => (fst it, g (snd it)))
            (OrderedObjectItems f o false)
          = OrderedObjectItems (fun v => g (f v)) o false) as Hunsorted.
  { rewrite !OrderedObjectItems_unsorted, map_map. done. }
  destruct sortKeys; [|done].
  unfold OrderedObjectItems in *. by rewrite sort_by_key_map, Hunsorted.
Qed.




(** ** The lossless writer leaves its tree as it found it *)

Lemma foldr_max_bound {A} (f : A -> nat) (l : list A) (x : A) :
  x ∈ l -> (f x <= foldr (fun y acc => Nat.max (f y) acc) O l)%nat.
Proof.
  induction 1 as [x l|x y l _ IH]; simpl; lia.
Qed.

Lemma depth_arrayItems (v child : LosslessValue) :
  child ∈ arrayItems v -> (lossless_depth child < lossless_depth v)%nat.
Proof.
  intros Hin. destruct v as [val lead inl arr obj trail]; simpl in *.
  pose proof (foldr_max_bound lossless_depth arr child Hin). lia.
Qed.

Lemma depth_objectItems (v : LosslessValue) (kv : string * LosslessValue) :
  kv ∈ objectItems v -> (lossless_depth (snd kv) < lossless_depth v)%nat.
Proof.
  intros Hin. destruct v as [val lead inl arr obj trail]; simpl in *.
  pose proof (foldr_max_bound (fun kv => lossless_depth (snd kv)) obj kv Hin).
  simpl in *. lia.
Qed.

Lemma depth_set_leadingComments cs (v : LosslessValue) :
  lossless_depth (set_leadingComments cs v) = lossless_depth v.
Proof. by destruct v. Qed.

Lemma restore_leadingComments (v : LosslessValue) :
  set_leadingComments (leadingComments v) (set_leadingComments [] v) = v.
Proof. by destruct v. Qed.

Lemma set_arrayItems_same (v : LosslessValue) : set_arrayItems (arrayItems v) v = v.
Proof. by destruct v. Qed.

Lemma set_objectItems_same (v : LosslessValue) : set_objectItems (objectItems v) v = v.
Proof. by destruct v. Qed.

Lemma indents_ok_unfold (v : LosslessValue) :
  indents_ok v = true
  <-> Forall (fun c => 0 <= indent c) (leadingComments v)
      /\ Forall (fun child => indents_ok child = true) (arrayItems v)
      /\ Forall (fun kv => indents_ok (snd kv) = true) (objectItems v).
Proof.
  destruct v as [val lead inl arr obj trail].
  cbn [indents_ok leadingComments arrayItems objectItems].
  rewrite !andb_true_iff, !forallb_forall, !Forall_forall.
  split.
  - intros [[H1 H2] H3]. repeat split.
    + intros c Hc. apply Z.leb_le, H1. by apply list_elem_of_In.
    + intros c Hc. apply H2. by apply list_elem_of_In.
    + intros c Hc. apply H3. by apply list_elem_of_In.
  - intros (H1 & H2 & H3). repeat split.
    + intros c Hc. apply Z.leb_le, H1. by apply list_elem_of_In.
    + intros c Hc. apply H2. by apply list_elem_of_In.
    + intros c Hc. apply H3. by apply list_elem_of_In.
Qed.

Lemma indents_ok_cleared (v : LosslessValue) :
  indents_ok v = true -> indents_ok (set_leadingComments [] v) = true.
Proof.
  rewrite !indents_ok_unfold. intros (_ & H2 & H3). by repeat split.
Qed.

Lemma WriteCommentLines_loop_ok lines :
  Forall (fun c => 0 <= indent c) lines ->
  forall prev out, is_Some (WriteCommentLines_loop lines prev out).
Proof.
  induction 1 as [|ln lines Hln _ IH]; intros prev out; simpl; [by eexists|].
  destruct (String.length (text ln) =? 0)%nat; [apply IH|].
  rewrite WriteIndent_ok by lia. cbn [mbind option_bind]. apply IH.
Qed.

Section WriteLosslessFrame.

Variable rec :
  LosslessValue -> string -> Z -> WriteOptions -> WriteContext ->
  option (LosslessValue * option string).
Variable bound : nat.
Variable opts : WriteOptions.

(** The recursive call yields a result; when it returns, the child is
    the child it was given; at a non-negative indent it returns. *)
Hypothesis rec_frame :
  forall child out lvl ctx,
    (lossless_depth child <= bound)%nat ->
    exists child' r,
      rec child out lvl opts ctx = Some (child', r)
      /\ (is_Some r -> child' = child)
      /\ (0 <= indentWidth opts -> 0 <= lvl -> indents_ok child = true ->
          is_Some r).

Lemma write_arrayItems_frame lvl indices (items : list LosslessValue) :
  Forall (fun child => (lossless_depth child <= bound)%nat) items ->
  forall out,
  exists items' r,
    write_arrayItems rec opts lvl indices items out = Some (items', r)
    /\ (is_Some r -> items' = items)
    /\ (0 <= indentWidth opts -> 0 <= lvl ->
        Forall (fun child => indents_ok child = true) items -> is_Some r).
Proof.
  intros Hitems.
  induction indices as [|index indices IH]; intros out; simpl.
  - exists items, (Some out). by repeat split.
  - destruct (items !! index) as [child|] eqn:Hchild;
      [|exists items, (Some out); by repeat split].
    pose proof (Forall_lookup_1 _ _ _ _ Hitems Hchild) as Hdepth.
    destruct (rec_frame child out (lvl + 1) InArray Hdepth)
      as (child' & r & -> & Hsame & Hok).
    destruct r as [out1|].
    + rewrite (Hsame ltac:(by eexists)), (list_insert_id _ _ _ Hchild).
      apply IH.
    + eexists _, None. split; [done|]. split; [by intros [? ?]|].
      intros Hw Hl Hall. apply Hok; [done|lia|].
      apply (Forall_lookup_1 _ _ _ _ Hall Hchild).
Qed.

Lemma write_objectItems_braced_ok lvl views
    (items : list (string * LosslessValue)) :
  0 <= indentWidth opts -> 0 <= lvl ->
  Forall (fun kv => indents_ok (snd kv) = true) items ->
  forall index count out,
    is_Some (write_objectItems_braced opts lvl index views count items out).
Proof.
  intros Hw Hl Hall.
  induction views as [|[key ptr] views IH]; intros index count out; simpl.
  - by eexists.
  - destruct (items !! ptr) as [[k child]|] eqn:Hchild; [|by eexists].
    pose proof (Forall_lookup_1 _ _ _ _ Hall Hchild) as Hc. simpl in Hc.
    apply indents_ok_unfold in Hc as (Hlead & _).
    destruct (WriteCommentLines_loop_ok _ Hlead false out) as [out1 E1].
    unfold WriteCommentLines. rewrite E1. cbn [mbind option_bind].
    rewrite WriteIndent_ok by lia. cbn [mbind option_bind].
    rewrite (WriteValue_ok opts Hw) by lia. cbn [mbind option_bind].
    apply IH.
Qed.

Lemma write_objectItems_block_frame lvl views
    (items : list (string * LosslessValue)) :
  Forall (fun kv => (lossless_depth (snd kv) <= bound)%nat) items ->
  forall index count out,
  exists items' r,
    write_objectItems_block rec opts lvl index views count items out
    = Some (items', r)
    /\ (is_Some r -> items' = items)
    /\ (0 <= indentWidth opts -> 0 <= lvl ->
        Forall (fun kv => indents_ok (snd kv) = true) items -> is_Some r).
Proof.
  intros Hitems.
  induction views as [|[key ptr] views IH]; intros index count out; simpl.
  - exists items, (Some out). by repeat split.
  - destruct (items !! ptr) as [[k child]|] eqn:Hchild;
      [|exists items, (Some out); by repeat split].
    pose proof (Forall_lookup_1 _ _ _ _ Hitems Hchild) as Hdepth.
    simpl in Hdepth.
    assert (forall (P : Prop),
               (0 <= indentWidth opts -> 0 <= lvl ->
                Forall (fun kv => indents_ok (snd kv) = true) items ->
                indents_ok child = true -> P) ->
               0 <= indentWidth opts -> 0 <= lvl ->
               Forall (fun kv => indents_ok (snd kv) = true) items -> P)
      as Hwith.
    { intros P HP Hw Hl Hall. apply HP; try done.
      apply (Forall_lookup_1 _ _ _ _ Hall Hchild). }
    destruct (WriteCommentLines (leadingComments child) out opts ≫=
              (fun out0 => WriteIndent out0 lvl (indentWidth opts)))
      as [out1|] eqn:E1.
    2: { exists items, None. split; [done|]. split; [by intros [? ?]|].
         apply Hwith. intros Hw Hl _ Hc.
         apply indents_ok_unfold in Hc as (Hlead & _).
         destruct (WriteCommentLines_loop_ok _ Hlead false out) as [o1 Eo].
         unfold WriteCommentLines in E1. rewrite Eo in E1.
         cbn [mbind option_bind] in E1.
         rewrite WriteIndent_ok in E1 by lia. discriminate E1. }
    destruct (is_object (value child) || is_array (value child)).
    + destruct (rec_frame (set_leadingComments [] child)
                  (push_back (out1 +:+ key +:+ ":") LF) (lvl + 1) InObject)
        as (child' & r & -> & Hsame & Hok).
      { by rewrite depth_set_leadingComments. }
      destruct r as [out2|].
      * rewrite (Hsame ltac:(by eexists)), restore_leadingComments,
          (list_insert_id _ _ _ Hchild).
        apply IH.
      * eexists _, None. split; [done|]. split; [by intros [? ?]|].
        apply Hwith. intros Hw Hl _ Hc.
        apply Hok; [done|lia|by apply indents_ok_cleared].
    + destruct (WriteValue (value child) (push_back (out1 +:+ key +:+ ":") SP)
                  lvl opts InObject) as [out2|] eqn:E2.
      * apply IH.
      * exists items, None. split; [done|]. split; [by intros [? ?]|].
        apply Hwith. intros Hw Hl _ _.
        rewrite (WriteValue_ok opts Hw) in E2 by lia. discriminate E2.
Qed.

End WriteLosslessFrame.

Lemma WriteLosslessValue_frame opts fuel :
  forall v out lvl ctx,
    (lossless_depth v <= fuel)%nat ->
    exists v' r,
      WriteLosslessValue fuel v out lvl opts ctx = Some (v', r)
      /\ (is_Some r -> v' = v)
      /\ (0 <= indentWidth opts -> 0 <= lvl -> indents_ok v = true -> is_Some r).
Proof.
  induction fuel as [|fuel IH]; intros v out lvl ctx Hdepth.
  - destruct v; simpl in Hdepth; lia.
  - cbn [WriteLosslessValue].
    destruct (WriteCommentLines (leadingComments v) out opts) as [out0|] eqn:E0.
    2: { exists v, None. split; [done|]. split; [by intros [? ?]|].
         intros Hw Hl Hv. apply indents_ok_unfold in Hv as (Hlead & _).
         destruct (WriteCommentLines_loop_ok _ Hlead false out) as [o1 Eo].
         unfold WriteCommentLines in E0. rewrite Eo in E0. discriminate E0. }
    destruct (is_array (value v) && negb (length (arrayItems v) =? 0)%nat).
    { destruct (WriteIndent out0 lvl (indentWidth opts)) as [out1|] eqn:E1.
      2: { exists v, None. split; [done|]. split; [by intros [? ?]|].
           intros Hw Hl _. rewrite WriteIndent_ok in E1 by done.
           discriminate E1. }
      destruct (write_arrayItems_frame (WriteLosslessValue fuel) fuel opts IH lvl
                  (seq 0 (length (arrayItems v))) (arrayItems v))
        with (out := out1 +:+ "[" +:+ str1 LF)
        as (items' & r & -> & Hsame & Hok).
      { apply Forall_forall. intros child Hin.
        pose proof (depth_arrayItems v child Hin). lia. }
      destruct r as [out2|].
      - rewrite (Hsame ltac:(by eexists)), set_arrayItems_same.
        eexists v, _. split; [done|]. split; [done|].
        intros Hw Hl _. rewrite WriteIndent_ok by done. by eexists.
      - eexists _, None. split; [done|]. split; [by intros [? ?]|].
        intros Hw Hl Hv. apply indents_ok_unfold in Hv as (_ & Harr & _).
        by apply Hok. }
    destruct (is_object (value v) && negb (length (objectItems v) =? 0)%nat).
    { destruct (is_InArray ctx).
      - eexists v, _. split; [done|]. split; [done|].
        intros Hw Hl Hv. apply indents_ok_unfold in Hv as (_ & _ & Hobj).
        destruct (write_objectItems_braced_ok opts lvl
                    (OrderedLosslessItems (objectItems v) (sortObjectKeys opts))
                    (objectItems v) Hw Hl Hobj 0%nat
                    (length (OrderedLosslessItems (objectItems v)
                               (sortObjectKeys opts)))
                    (out0 +:+ "{" +:+ str1 LF)) as [o1 ->].
        cbn [mbind option_bind]. rewrite WriteIndent_ok by done. by eexists.
      - destruct (write_objectItems_block_frame (WriteLosslessValue fuel) fuel opts
                    IH lvl
                    (OrderedLosslessItems (objectItems v) (sortObjectKeys opts))
                    (objectItems v))
          with (index := 0%nat)
               (count := length (OrderedLosslessItems (objectItems v)
                                   (sortObjectKeys opts)))
               (out := out0)
          as (items' & r & -> & Hsame & Hok).
        { apply Forall_forall. intros kv Hin.
          pose proof (depth_objectItems v kv Hin). lia. }
        eexists _, r. split; [done|]. split.
        + intros Hr. by rewrite (Hsame Hr), set_objectItems_same.
        + intros Hw Hl Hv. apply indents_ok_unfold in Hv as (_ & _ & Hobj).
          by apply Hok. }
    eexists v, _. split; [done|]. split; [done|].
    intros Hw Hl _. rewrite WriteIndent_ok by done. cbn [mbind option_bind].
    rewrite (WriteValue_ok opts Hw) by done. by eexists.
Qed.


(** Where [WriteIndent] throws inside the call on a child whose comments
    have been cleared, the comments are not put back: with an indent width
    of [-1] the call on [tree_commented_array] is left by the exception,
    and the array under the key [a] has lost its comment. *)
Lemma ToStringLossless_thrown :
  exists v',
    ToStringLossless tree_commented_array (mkWriteOptions (-1) false)
    = Some (v', None)
    /\ map (fun kv => leadingComments (snd kv)) (objectItems tree_commented_array)
       = [[mkComment 0 "# c"]]
    /\ map (fun kv => leadingComments (snd kv)) (objectItems v') = [[]].
Proof.
  eexists. split; [vm_compute; reflexivity|]. split; reflexivity.
Qed.

(** * Further properties of the code *)

(** ** Quoted strings: what the writer quotes, the parser reads back *)

Lemma append_length (s t : string) :
  String.length (s +:+ t) = (String.length s + String.length t)%nat.
Proof. induction s as [|c s IH]; simpl; [done|]. by rewrite IH. Qed.

Lemma WriteStringQuoted_chars_cons c r :
  WriteStringQuoted_chars (String c r) ""
  = (if c =c= DQ then String BSL (str1 DQ)
     else if c =c= BSL then String BSL (str1 BSL)
     else if c =c= LF then String BSL "n"
     else if c =c= CR then String BSL "r"
     else if c =c= TAB then String BSL "t"
     else str1 c)
    +:+ WriteStringQuoted_chars r "".
Proof.
  simpl. rewrite WriteStringQuoted_chars_app.
  by repeat destruct (_ =c= _).
Qed.

(** The loop of [ParseStringDouble] on the escaped text of [s], closed by
    a double quote: it appends [s] to [result] and stops behind the
    quote. *)
Lemma ParseQuoted_loop_written s :
  forall n result p tail,
    rest p = WriteStringQuoted_chars s "" +:+ String DQ tail ->
    (String.length s < n)%nat ->
    exists p',
      ParseQuoted_loop DQ n result p = (ROk (VString (result +:+ s)), p')
      /\ rest p' = tail /\ mSrc p' = mSrc p.
Proof.
  induction s as [|c r IH]; intros n result p tail Hrest Hn.
  - destruct n as [|n]; [simpl in Hn; lia|].
    cbn [WriteStringQuoted_chars] in Hrest. rewrite append_empty_l in Hrest.
    simpl. rewrite (rest_cons_eof _ _ _ Hrest), (rest_cons_Get _ _ _ Hrest).
    simpl. exists (after_char DQ p). rewrite append_empty_r.
    split; [done|]. split; [by eapply rest_after_char|apply after_char_fields].
  - destruct n as [|n]; [simpl in Hn; lia|]. simpl in Hn.
    rewrite WriteStringQuoted_chars_cons in Hrest.
    assert (forall e,
               rest p = String BSL (String e (WriteStringQuoted_chars r ""
                                              +:+ String DQ tail)) ->
               rest (after_char e (after_char BSL p))
               = WriteStringQuoted_chars r "" +:+ String DQ tail
               /\ mSrc (after_char e (after_char BSL p)) = mSrc p
               /\ EndOfFile p = false
               /\ Get p = (BSL, after_char BSL p)
               /\ EndOfFile (after_char BSL p) = false
               /\ Get (after_char BSL p) = (e, after_char e (after_char BSL p)))
      as Hesc.
    { intros e He.
      pose proof (rest_after_char _ _ _ He) as He1.
      pose proof (rest_after_char _ _ _ He1) as He2.
      pose proof (after_char_fields BSL p) as (HsrcA & _).
      pose proof (after_char_fields e (after_char BSL p)) as (HsrcB & _).
      split; [done|]. split; [congruence|].
      split; [by eapply rest_cons_eof|]. split; [by eapply rest_cons_Get|].
      split; [by eapply rest_cons_eof|by eapply rest_cons_Get]. }
    assert (forall q : Parser,
               rest q = WriteStringQuoted_chars r "" +:+ String DQ tail ->
               mSrc q = mSrc p ->
               exists p',
                 ParseQuoted_loop DQ n (push_back result c) q
                 = (ROk (VString (result +:+ String c r)), p')
                 /\ rest p' = tail /\ mSrc p' = mSrc p) as Hnext.
    { intros q Hq Hsrc.
      destruct (IH n (push_back result c) q tail Hq) as (p' & Hloop & Hr & Hs);
        [lia|].
      exists p'. split; [|split; [done|congruence]].
      rewrite Hloop. unfold push_back, str1.
      by rewrite append_assoc, append_String, append_empty_l. }
    destruct (c =c= DQ) eqn:E1.
    { apply Ascii.eqb_eq in E1 as ->.
      unfold str1 in Hrest. rewrite !append_String, append_empty_l in Hrest.
      destruct (Hesc _ Hrest) as (Hr2 & Hs2 & Heof & Hget & Heof1 & Hget1).
      simpl. rewrite Heof, Hget. simpl. rewrite Heof1, Hget1. simpl.
      by apply Hnext. }
    destruct (c =c= BSL) eqn:E2.
    { apply Ascii.eqb_eq in E2 as ->.
      unfold str1 in Hrest. rewrite !append_String, append_empty_l in Hrest.
      destruct (Hesc _ Hrest) as (Hr2 & Hs2 & Heof & Hget & Heof1 & Hget1).
      simpl. rewrite Heof, Hget. simpl. rewrite Heof1, Hget1. simpl.
      by apply Hnext. }
    destruct (c =c= LF) eqn:E3.
    { apply Ascii.eqb_eq in E3 as ->.
      unfold str1 in Hrest. rewrite !append_String, append_empty_l in Hrest.
      destruct (Hesc _ Hrest) as (Hr2 & Hs2 & Heof & Hget & Heof1 & Hget1).
      simpl. rewrite Heof, Hget. simpl. rewrite Heof1, Hget1. simpl.
      by apply Hnext. }
    destruct (c =c= CR) eqn:E4.
    { apply Ascii.eqb_eq in E4 as ->.
      unfold str1 in Hrest. rewrite !append_String, append_empty_l in Hrest.
      destruct (Hesc _ Hrest) as (Hr2 & Hs2 & Heof & Hget & Heof1 & Hget1).
      simpl. rewrite Heof, Hget. simpl. rewrite Heof1, Hget1. simpl.
      by apply Hnext. }
    destruct (c =c= TAB) eqn:E5.
    { apply Ascii.eqb_eq in E5 as ->.
      unfold str1 in Hrest. rewrite !append_String, append_empty_l in Hrest.
      destruct (Hesc _ Hrest) as (Hr2 & Hs2 & Heof & Hget & Heof1 & Hget1).
      simpl. rewrite Heof, Hget. simpl. rewrite Heof1, Hget1. simpl.
      by apply Hnext. }
    unfold str1 in Hrest. rewrite append_String, append_empty_l in Hrest.
    simpl. rewrite (rest_cons_eof _ _ _ Hrest), (rest_cons_Get _ _ _ Hrest).
    rewrite E1, E2, E3, E4. simpl.
    apply Hnext; [by eapply rest_after_char|apply after_char_fields].
Qed.

Lemma SkipInlineSpaces_stay p :
  (Peek p =c= SP) || (Peek p =c= TAB) = false -> SkipInlineSpaces p = p.
Proof.
  intros H. unfold SkipInlineSpaces. destruct (remaining p); simpl; [done|].
  by rewrite H.
Qed.

Lemma Match_head p c r : rest p = String c r -> Match c p = (true, after_char c p).
Proof.
  intros H. unfold Match.
  by rewrite (rest_cons_peek _ _ _ H), Ascii.eqb_refl, (rest_cons_advance _ _ _ H).
Qed.

Lemma WriteStringQuoted_ParseStringDouble_aux (s tail : string) (p : Parser) :
  rest p = WriteStringQuoted s "" +:+ tail ->
  exists p', ParseStringDouble p = (ROk (VString s), p') /\ rest p' = tail.
Proof.
  intros Hrest. unfold WriteStringQuoted in Hrest.
  rewrite WriteStringQuoted_chars_app in Hrest. unfold push_back, str1 in Hrest.
  rewrite append_empty_l, !append_String, append_empty_l, !append_assoc,
    append_String, append_empty_l in Hrest.
  unfold ParseStringDouble, ParseQuoted. rewrite (Match_head _ _ _ Hrest).
  pose proof (rest_after_char _ _ _ Hrest) as Hrest1.
  destruct (ParseQuoted_loop_written s (remaining (after_char DQ p)) ""
              (after_char DQ p) tail Hrest1) as (p' & Hloop & Hr & _).
  - rewrite remaining_rest, Hrest1, append_length. simpl.
    assert (String.length s <= String.length (WriteStringQuoted_chars s ""))%nat;
      [|lia].
    clear. induction s as [|c r IH]; [done|].
    rewrite WriteStringQuoted_chars_cons, append_length.
    repeat destruct (_ =c= _); simpl; lia.
  - exists p'. rewrite Hloop, append_empty_l. done.
Qed.

(** X1: the parser reads back what [WriteStringQuoted] writes, for every
    string: on the quoted text of [s], [ParseStringDouble] returns [s] and
    stops behind the closing quote. *)
Theorem WriteStringQuoted_ParseStringDouble (s tail : string) (p : Parser) :
  rest p = WriteStringQuoted s "" +:+ tail ->
  exists p', ParseStringDouble p = (ROk (VString s), p') /\ rest p' = tail.
Proof. apply WriteStringQuoted_ParseStringDouble_aux. Qed.

Lemma WriteStringQuoted_ParseStringDouble_witness :
  exists p',
    ParseStringDouble (Parser_new (WriteStringQuoted ("a" +:+ dq +:+ nl +:+ "\b") ""))
    = (ROk (VString ("a" +:+ dq +:+ nl +:+ "\b")), p')
    /\ rest p' = "".
Proof.
  apply (WriteStringQuoted_ParseStringDouble _ "").
  vm_compute. reflexivity.
Defined.

(** ** Keys: what [WriteObject] writes for a key, [ParseKey] reads back *)

Lemma read_identifier_run k :
  forall n ident p tl,
    all_chars IsIdentifierChar k = true ->
    rest p = k +:+ tl ->
    match tl with
    | String c _ => IsIdentifierChar c = false
    | EmptyString => True
    end ->
    (String.length k <= n)%nat ->
    exists p', read_identifier n ident p = (ident +:+ k, p') /\ rest p' = tl.
Proof.
  induction k as [|c k IH]; intros n ident p tl Hall Hrest Htl Hn.
  - rewrite append_empty_l in Hrest. rewrite append_empty_r.
    exists p. split; [|done].
    destruct n as [|n]; [done|]. simpl.
    destruct tl as [|c tl].
    + by rewrite (rest_nil_peek _ Hrest).
    + by rewrite (rest_cons_peek _ _ _ Hrest), Htl.
  - simpl in Hall. apply andb_true_iff in Hall as [Hc Hall].
    rewrite append_String in Hrest.
    destruct n as [|n]; [simpl in Hn; lia|]. simpl in Hn. simpl.
    rewrite (rest_cons_peek _ _ _ Hrest), Hc, (rest_cons_Get _ _ _ Hrest).
    destruct (IH n (push_back ident c) (after_char c p) tl Hall) as (p' & Hrun & Hr);
      [by eapply rest_after_char|done|lia|].
    exists p'. split; [|done]. rewrite Hrun. unfold push_back, str1.
    by rewrite append_assoc, append_String, append_empty_l.
Qed.

Lemma bareOK_identifier key :
  bareOK key = true ->
  exists c0 r, key = String c0 r /\ IsIdentifierStart c0 = true
               /\ all_chars IsIdentifierChar key = true.
Proof.
  destruct key as [|c0 r]; [done|]. intros H. exists c0, r.
  unfold bareOK in H. apply andb_true_iff in H as [Hstart Hall].
  split; [done|]. split; [exact Hstart|].
  revert Hall. generalize (String c0 r). clear.
  induction s as [|c s IH]; [done|]. simpl.
  intros H. apply andb_true_iff in H as [Hc Hs]. rewrite (IH Hs), andb_true_r.
  unfold IsIdentifierChar, IsIdentifierStart.
  destruct (in_range "A" "Z" c), (in_range "a" "z" c), (in_range "0" "9" c),
    (c =c= "_"), (c =c= "-"); done.
Qed.

Lemma IsIdentifierStart_not_quote_or_space c :
  IsIdentifierStart c = true ->
  (c =c= SP) || (c =c= TAB) = false /\ (c =c= DQ) = false /\ (c =c= SQ) = false.
Proof.
  destruct c as [[] [] [] [] [] [] [] []]; vm_compute; intros H;
    first [discriminate H | done].
Qed.

(** X2: [ParseKey] reads back the key that the writers emit: a bare key
    where [bareOK] holds, a quoted one otherwise, followed by a colon. *)
Theorem WriteKey_ParseKey (key tail : string) (p : Parser) :
  rest p = WriteKey key "" +:+ ":" +:+ tail ->
  exists p', ParseKey p = (ROk key, p') /\ rest p' = ":" +:+ tail.
Proof.
  intros Hrest. unfold WriteKey in Hrest. unfold ParseKey.
  destruct (bareOK key) eqn:Hbare.
  - rewrite append_empty_l in Hrest.
    destruct (bareOK_identifier key Hbare) as (c0 & r & -> & Hstart & Hall).
    pose proof Hrest as Hrest0. rewrite append_String in Hrest0.
    destruct (IsIdentifierStart_not_quote_or_space c0 Hstart) as (Hsp & Hdq & Hsq).
    pose proof (rest_cons_peek _ _ _ Hrest0) as Hpeek.
    rewrite SkipInlineSpaces_stay by (by rewrite Hpeek).
    rewrite Hpeek, Hdq, Hsq, Hstart. simpl negb. cbv iota.
    destruct (read_identifier_run (String c0 r) (remaining p) "" p (":" +:+ tail)
                Hall Hrest) as (p' & Hrun & Hr).
    + done.
    + rewrite remaining_rest, Hrest, append_length. lia.
    + rewrite Hrun, append_empty_l. by exists p'.
  - assert (exists r, rest p = String DQ r) as [r Hr].
    { unfold WriteStringQuoted in Hrest.
      rewrite WriteStringQuoted_chars_app in Hrest. unfold push_back, str1 in Hrest.
      rewrite append_empty_l, !append_String in Hrest. by eexists. }
    pose proof (rest_cons_peek _ _ _ Hr) as Hpeek.
    rewrite SkipInlineSpaces_stay by (by rewrite Hpeek).
    rewrite Hpeek. simpl.
    destruct (WriteStringQuoted_ParseStringDouble_aux key (":" +:+ tail) p Hrest)
      as (p' & -> & Hr').
    by exists p'.
Qed.

Lemma WriteKey_ParseKey_witness :
  (exists p', ParseKey (Parser_new "some-key_1: 2") = (ROk "some-key_1", p')
              /\ rest p' = ": 2")
  /\ (exists p',
         ParseKey (Parser_new (WriteKey "two words" "" +:+ ": 2"))
         = (ROk "two words", p')
         /\ rest p' = ": 2").
Proof.
  split.
  - apply (WriteKey_ParseKey "some-key_1" " 2"). vm_compute. reflexivity.
  - apply (WriteKey_ParseKey "two words" " 2"). vm_compute. reflexivity.
Defined.

(** ** Triple-quoted strings *)

Lemma char_at_offset k :
  forall p,
    char_at (mPos p + k) p
    = match substr_from k (rest p) with String c _ => c | EmptyString => NUL end
    /\ (mPos p + k <? size p)%nat = (k <? String.length (rest p))%nat.
Proof.
  intros p. unfold rest. rewrite substr_from_add, substr_from_length.
  unfold char_at, size. split.
  - destruct (substr_from (mPos p + k) (mSrc p)) as [|c r] eqn:E.
    + apply substr_from_nil in E.
      destruct (String.get (mPos p + k) (mSrc p)) eqn:G; [|done].
      assert (mPos p + k < String.length (mSrc p))%nat; [|lia].
      revert G. generalize (mPos p + k)%nat (mSrc p). clear.
      induction n as [|n IH]; intros [|c s]; simpl; try done; try lia.
      intros G. apply IH in G. lia.
    + apply substr_from_cons in E as (-> & _). done.
  - destruct (Nat.ltb_spec (mPos p + k) (String.length (mSrc p)));
      destruct (Nat.ltb_spec k (String.length (mSrc p) - mPos p)); done || lia.
Qed.

Lemma ParseTripleString_loop_plain s :
  forall n result p tail,
    contains_char DQ s = false ->
    rest p = s +:+ triple_quote +:+ tail ->
    (String.length s < n)%nat ->
    exists p',
      ParseTripleString_loop n result p = (ROk (VString (result +:+ s)), p')
      /\ rest p' = tail.
Proof.
  induction s as [|c r IH]; intros n result p tail Hdq Hrest Hn.
  - destruct n as [|n]; [simpl in Hn; lia|].
    rewrite append_empty_l in Hrest. unfold triple_quote, str1 in Hrest.
    rewrite !append_String, !append_empty_l in Hrest. simpl.
    rewrite (rest_cons_eof _ _ _ Hrest), (rest_cons_peek _ _ _ Hrest).
    destruct (char_at_offset 1 p) as [-> _].
    destruct (char_at_offset 2 p) as [-> ->].
    rewrite Hrest. simpl.
    pose proof (rest_cons_advance _ _ _ Hrest) as A1.
    pose proof (rest_after_char _ _ _ Hrest) as R1.
    pose proof (rest_cons_advance _ _ _ R1) as A2.
    pose proof (rest_after_char _ _ _ R1) as R2.
    pose proof (rest_cons_advance _ _ _ R2) as A3.
    pose proof (rest_after_char _ _ _ R2) as R3.
    rewrite A1, A2, A3, append_empty_r. by eexists.
  - destruct n as [|n]; [simpl in Hn; lia|]. simpl in Hn.
    simpl in Hdq. apply orb_false_iff in Hdq as [Hc Hdq].
    rewrite append_String in Hrest. simpl.
    rewrite (rest_cons_eof _ _ _ Hrest), (rest_cons_peek _ _ _ Hrest), Hc.
    simpl. rewrite (rest_cons_Get _ _ _ Hrest).
    destruct (IH n (push_back result c) (after_char c p) tail Hdq) as (p' & -> & Hr);
      [by eapply rest_after_char|lia|].
    exists p'. split; [|done]. unfold push_back, str1.
    by rewrite append_assoc, append_String, append_empty_l.
Qed.

(** X3: [WriteValue] returns on a string value, and what it writes is
    read back by [ParseStringOrTriple], provided that a string with a line
    feed (which is written between triple quotes, unescaped) holds no
    double quote, and that the empty string is not followed by a double
    quote. *)
Theorem WriteValue_string_read_back (s tail : string) (p : Parser)
    (indentLevel : Z) (options : WriteOptions) (ctx : WriteContext) :
  (contains_char LF s = true -> contains_char DQ s = false) ->
  (s = "" -> match tail with String c _ => c <> DQ | EmptyString => True end) ->
  exists text,
    WriteValue (VString s) "" indentLevel options ctx = Some text
    /\ (rest p = text +:+ tail ->
        exists p', ParseStringOrTriple p = (ROk (VString s), p') /\ rest p' = tail).
Proof.
  intros Hlf Hempty.
  exists (if contains_char LF s
          then "" +:+ triple_quote +:+ s +:+ triple_quote
          else WriteStringQuoted s "").
  split; [simpl; by destruct (contains_char LF s)|].
  intros Hrest. unfold ParseStringOrTriple.
  destruct (contains_char LF s) eqn:E.
  - specialize (Hlf eq_refl).
    rewrite append_empty_l, !append_assoc in Hrest.
    pose proof Hrest as Hrest0.
    unfold triple_quote at 1 in Hrest0. unfold str1 in Hrest0.
    repeat first [rewrite append_String in Hrest0 | rewrite append_empty_l in Hrest0].
    rewrite (rest_cons_peek _ _ _ Hrest0). simpl negb. cbv iota.
    assert (at_triple_quote p = true) as ->.
    { unfold at_triple_quote.
      destruct (char_at_offset 0 p) as [H0 _].
      destruct (char_at_offset 1 p) as [-> _].
      destruct (char_at_offset 2 p) as [-> ->].
      rewrite Nat.add_0_r in H0. by rewrite H0, Hrest0. }
    unfold ParseTripleString.
    pose proof (rest_after_char _ _ _ Hrest0) as R1.
    pose proof (rest_after_char _ _ _ R1) as R2.
    pose proof (rest_after_char _ _ _ R2) as R3.
    rewrite (Match_head _ _ _ Hrest0). simpl negb. cbv iota.
    rewrite (Match_head _ _ _ R1). simpl negb. cbv iota.
    rewrite (Match_head _ _ _ R2). simpl negb. cbv iota.
    destruct (ParseTripleString_loop_plain s
                (remaining (after_char DQ (after_char DQ (after_char DQ p)))) ""
                (after_char DQ (after_char DQ (after_char DQ p))) tail Hlf R3)
      as (p' & -> & Hr).
    + rewrite remaining_rest, R3, !append_length. simpl. lia.
    + rewrite append_empty_l. by exists p'.
  - pose proof Hrest as Hrest0. unfold WriteStringQuoted in Hrest0.
    rewrite WriteStringQuoted_chars_app in Hrest0. unfold push_back, str1 in Hrest0.
    rewrite append_empty_l, !append_String, append_empty_l, !append_assoc,
      append_String, append_empty_l in Hrest0.
    rewrite (rest_cons_peek _ _ _ Hrest0). simpl negb. cbv iota.
    assert (at_triple_quote p = false) as ->.
    { unfold at_triple_quote.
      destruct (char_at_offset 1 p) as [-> _].
      destruct (char_at_offset 2 p) as [-> ->].
      rewrite Hrest0. destruct s as [|c r].
      - cbn [WriteStringQuoted_chars]. rewrite append_empty_l.
        specialize (Hempty eq_refl). destruct tail as [|t tail].
        + apply andb_false_iff. left. apply andb_false_iff. left.
          apply andb_false_iff. by left.
        + apply andb_false_iff. right. simpl. by apply Ascii.eqb_neq.
      - apply andb_false_iff. left. apply andb_false_iff. right.
        rewrite WriteStringQuoted_chars_cons.
        destruct (c =c= DQ) eqn:E1;
          [cbv iota; unfold str1; repeat rewrite append_String; done|].
        destruct (c =c= BSL), (c =c= LF), (c =c= CR), (c =c= TAB);
          cbv iota; unfold str1; repeat rewrite append_String; simpl;
          by rewrite ?E1. }
    by apply WriteStringQuoted_ParseStringDouble_aux.
Qed.

Lemma WriteValue_string_read_back_witness :
  ToString (VString ("two" +:+ nl +:+ "lines")) WriteOptions_default
  = Some (triple_quote +:+ "two" +:+ nl +:+ "lines" +:+ triple_quote)
  /\ exists p',
       ParseStringOrTriple
         (Parser_new (triple_quote +:+ "two" +:+ nl +:+ "lines" +:+ triple_quote))
       = (ROk (VString ("two" +:+ nl +:+ "lines")), p')
       /\ rest p' = "".
Proof.
  destruct (WriteValue_string_read_back ("two" +:+ nl +:+ "lines") ""
              (Parser_new (triple_quote +:+ "two" +:+ nl +:+ "lines"
                           +:+ triple_quote))
              0 WriteOptions_default Root) as (text & Ht & Hread).
  - reflexivity.
  - intros H. discriminate H.
  - split; [vm_compute; reflexivity|].
    vm_compute in Ht. injection Ht as <-. apply Hread.
    vm_compute. reflexivity.
Defined.

(** ** UTF-8: what [AppendUTF8] encodes, [ValidateUTF8] accepts *)

Lemma byte_cases (P : Z -> bool) :
  forallb P (map Z.of_nat (seq 0 256)) = true ->
  forall z, 0 <= z < 256 -> P z = true.
Proof.
  intros H z Hz. rewrite forallb_forall in H. apply H.
  apply in_map_iff. exists (Z.to_nat z). split; [lia|].
  apply in_seq. lia.
Qed.

Lemma uchar_to_char z : 0 <= z < 256 -> uchar (to_char z) = z.
Proof.
  intros Hz. unfold uchar, to_char. rewrite Z.mod_small by lia.
  rewrite N_ascii_embedding by lia. lia.
Qed.

Lemma lead_bits c :
  0 <= c < 256 ->
  (0xC0 <= c <= 0xDF -> Z.land c 0xE0 = 0xC0 /\ Z.land c 0x1F = c - 0xC0)
  /\ (0xE0 <= c <= 0xEF ->
      Z.land c 0xE0 <> 0xC0 /\ Z.land c 0xF0 = 0xE0 /\ Z.land c 0x0F = c - 0xE0)
  /\ (0xF0 <= c <= 0xF7 ->
      Z.land c 0xE0 <> 0xC0 /\ Z.land c 0xF0 <> 0xE0 /\ Z.land c 0xF8 = 0xF0
      /\ Z.land c 0x07 = c - 0xF0)
  /\ (0x80 <= c <= 0xBF -> Z.land c 0xC0 = 0x80 /\ Z.land c 0x3F = c - 0x80).
Proof.
  intros Hc.
  pose proof (byte_cases
    (fun c =>
       implb ((0xC0 <=? c) && (c <=? 0xDF))
         ((Z.land c 0xE0 =? 0xC0) && (Z.land c 0x1F =? c - 0xC0))
       && implb ((0xE0 <=? c) && (c <=? 0xEF))
            (negb (Z.land c 0xE0 =? 0xC0) && (Z.land c 0xF0 =? 0xE0)
             && (Z.land c 0x0F =? c - 0xE0))
       && implb ((0xF0 <=? c) && (c <=? 0xF7))
            (negb (Z.land c 0xE0 =? 0xC0) && negb (Z.land c 0xF0 =? 0xE0)
             && (Z.land c 0xF8 =? 0xF0) && (Z.land c 0x07 =? c - 0xF0))
       && implb ((0x80 <=? c) && (c <=? 0xBF))
            ((Z.land c 0xC0 =? 0x80) && (Z.land c 0x3F =? c - 0x80)))
    eq_refl c Hc) as H.
  cbv beta in H.
  repeat (apply andb_true_iff in H as [H ?]).
  repeat split; intros;
    repeat match goal with
           | H : implb ((?a <=? ?b) && (?c <=? ?d)) _ = true |- _ =>
               destruct (Z.leb_spec a b); destruct (Z.leb_spec c d);
               simpl in H; try lia;
               repeat (apply andb_true_iff in H as [H ?])
           end;
    repeat match goal with
           | H : negb (_ =? _) = true |- _ =>
               apply negb_true_iff, Z.eqb_neq in H
           | H : (_ =? _) = true |- _ => apply Z.eqb_eq in H
           end; try done; try lia.
Qed.

Lemma byte_at_substr i :
  forall k s, byte_at (i + k) s = byte_at k (substr_from i s).
Proof.
  induction i as [|i IH]; intros k [|c s]; simpl; try done.
  apply (IH k s).
Qed.

Lemma substr_from_app (a b : string) : substr_from (String.length a) (a +:+ b) = b.
Proof. induction a as [|c a IH]; [done|]. by rewrite append_String. Qed.

Lemma substr_from_app_length i s c a b :
  substr_from i s = String c a +:+ b ->
  substr_from (i + S (String.length a)) s = b
  /\ String.length s = (i + S (String.length a) + String.length b)%nat.
Proof.
  intros H. split.
  - rewrite <- substr_from_add, H. apply (substr_from_app (String c a)).
  - pose proof (substr_from_length i s) as Hlen.
    rewrite H, append_length in Hlen.
    rewrite append_String in H. apply substr_from_cons in H as (_ & _ & ?).
    simpl in *. lia.
Qed.

Lemma AppendUTF8_one cp :
  0 <= cp <= 0x7F -> AppendUTF8 "" cp = String (to_char cp) "".
Proof.
  intros H. unfold AppendUTF8.
  by assert ((cp <=? 0x7F) = true) as -> by (apply Z.leb_le; lia).
Qed.

Lemma AppendUTF8_two cp :
  0x80 <= cp <= 0x7FF ->
  AppendUTF8 "" cp
  = String (to_char (0xC0 + cp / 64)) (String (to_char (0x80 + cp mod 64)) "").
Proof.
  intros H. unfold AppendUTF8.
  assert ((cp <=? 0x7F) = false) as -> by (apply Z.leb_gt; lia).
  assert ((cp <=? 0x7FF) = true) as -> by (apply Z.leb_le; lia).
  rewrite lor_0x80, Z.shiftr_div_pow2 by lia.
  assert (Z.lor 0xC0 (cp / 2 ^ 6) = 0xC0 + cp / 64) as ->.
  { change 0xC0 with (Z.shiftl 6 5). rewrite lor_shiftl_small; [done|lia|].
    change (2 ^ 6) with 64. change (2 ^ 5) with 32. euclid cp 64. lia. }
  done.
Qed.

Lemma AppendUTF8_three cp :
  0x800 <= cp <= 0xFFFF ->
  AppendUTF8 "" cp
  = String (to_char (0xE0 + cp / 4096))
      (String (to_char (0x80 + (cp / 64) mod 64))
         (String (to_char (0x80 + cp mod 64)) "")).
Proof.
  intros H. unfold AppendUTF8.
  assert ((cp <=? 0x7F) = false) as -> by (apply Z.leb_gt; lia).
  assert ((cp <=? 0x7FF) = false) as -> by (apply Z.leb_gt; lia).
  assert ((cp <=? 0xFFFF) = true) as -> by (apply Z.leb_le; lia).
  rewrite !lor_0x80, !Z.shiftr_div_pow2 by lia.
  assert (Z.lor 0xE0 (cp / 2 ^ 12) = 0xE0 + cp / 4096) as ->.
  { change 0xE0 with (Z.shiftl 7 5). rewrite lor_shiftl_small; [done|lia|].
    change (2 ^ 12) with 4096. change (2 ^ 5) with 32. euclid cp 4096. lia. }
  done.
Qed.

Lemma continuation_step acc cc :
  0 <= acc < 2 ^ 20 -> 0x80 <= cc <= 0xBF ->
  negb (Z.land cc 0xC0 =? 0x80) = false
  /\ wrap32 (Z.lor (Z.shiftl acc 6) (Z.land cc 0x3F)) = acc * 64 + (cc - 0x80).
Proof.
  intros Hacc Hcc.
  destruct (lead_bits cc) as (_ & _ & _ & Hc); [lia|].
  destruct (Hc Hcc) as [-> ->]. split; [done|].
  rewrite lor_shiftl_small by lia. unfold wrap32.
  rewrite Z.mod_small; [done|]. change (2 ^ 6) with 64. lia.
Qed.

Lemma byte_at_head c r : byte_at 0 (String c r) = uchar c.
Proof. done. Qed.

Lemma byte_at_next k c r : byte_at (S k) (String c r) = byte_at k r.
Proof. done. Qed.

Lemma bom_conditions s b index :
  byte_at index s <> 0xEF ->
  (index =? 0)%nat && b && (3 <=? String.length s)%nat && has_bom_at 0 s = false
  /\ (forall x y z,
         (0 <? index)%nat && (byte_at index s =? 0xEF) && x && y && z = false).
Proof.
  intros H. split.
  - destruct (Nat.eqb_spec index 0) as [->|]; [|done].
    unfold has_bom_at. apply Z.eqb_neq in H. rewrite H.
    by rewrite !andb_false_r.
  - intros x y z. apply Z.eqb_neq in H. rewrite H. by rewrite andb_false_r.
Qed.

Lemma suffix_bytes index s c r :
  substr_from index s = String c r ->
  (String.length s <=? index)%nat = false
  /\ byte_at index s = uchar c
  /\ (forall k, byte_at (index + S k) s = byte_at k r)
  /\ String.length s = (index + S (String.length r))%nat.
Proof.
  intros H.
  pose proof (substr_from_length index s) as Hlen. rewrite H in Hlen.
  pose proof H as H'. apply substr_from_cons in H' as (_ & _ & Hlt).
  simpl in Hlen. split; [apply Nat.leb_gt; lia|].
  split; [|split; [|lia]].
  - pose proof (byte_at_substr index 0 s) as B. rewrite Nat.add_0_r, H in B. done.
  - intros k. by rewrite byte_at_substr, H.
Qed.

(** One iteration of [ValidateUTF8] on a sequence of [len] bytes that it
    accepts. *)
Lemma ValidateUTF8_loop_sequence n s b index ln col len cp0 cpd :
  (String.length s <=? index)%nat = false ->
  (index =? 0)%nat && b && (3 <=? String.length s)%nat && has_bom_at 0 s = false ->
  (0 <? index)%nat && (byte_at index s =? 0xEF)
  && (index + 2 <? String.length s)%nat
  && (byte_at (index + 1) s =? 0xBB) && (byte_at (index + 2) s =? 0xBF) = false ->
  (byte_at index s <=? 0x7F) = false ->
  (if Z.land (byte_at index s) 0xE0 =? 0xC0
   then Some (2%nat, Z.land (byte_at index s) 0x1F)
   else if Z.land (byte_at index s) 0xF0 =? 0xE0
   then Some (3%nat, Z.land (byte_at index s) 0x0F)
   else if Z.land (byte_at index s) 0xF8 =? 0xF0
   then Some (4%nat, Z.land (byte_at index s) 0x07)
   else None) = Some (len, cp0) ->
  (String.length s <? index + len)%nat = false ->
  utf8_continuation s index 1 (len - 1) cp0 = Some cpd ->
  ((len =? 2)%nat && (cpd <? 0x80))
  || ((len =? 3)%nat && (cpd <? 0x800))
  || ((len =? 4)%nat && ((cpd <? 0x10000) || (0x10FFFF <? cpd)))
  || ((0xD800 <=? cpd) && (cpd <=? 0xDFFF)) = false ->
  ValidateUTF8_loop (S n) s b index ln col
  = ValidateUTF8_loop n s b (index + len)
      (fst (bumpCol cpd ln col)) (snd (bumpCol cpd ln col)).
Proof.
  intros Hlen C1 C2 Hascii Hheader Hfit Hcont Hchecks.
  cbn [ValidateUTF8_loop]. rewrite Hlen, C1, C2, Hascii, Hheader, Hfit, Hcont, Hchecks.
  by destruct (bumpCol cpd ln col) as [ln0 col0].
Qed.

Lemma ValidateUTF8_loop_one n s b index ln col cp post :
  substr_from index s = AppendUTF8 "" cp +:+ post ->
  0 <= cp <= 0x7F ->
  exists lc,
    ValidateUTF8_loop (S n) s b index ln col
    = ValidateUTF8_loop n s b (index + String.length (AppendUTF8 "" cp))
        (fst lc) (snd lc)
    /\ (cp <> 0xFEFF -> lc = bumpCol cp ln col).
Proof.
  intros Hsub Hcp. rewrite AppendUTF8_one in * by done.
  rewrite append_String in Hsub.
  destruct (suffix_bytes _ _ _ _ Hsub) as (Hlen & B0 & _ & _).
  rewrite uchar_to_char in B0 by lia.
  destruct (bom_conditions s b index) as [C1 C2]; [lia|].
  cbn [ValidateUTF8_loop]. rewrite Hlen, C1, C2, B0.
  assert ((cp <=? 0x7F) = true) as -> by (apply Z.leb_le; lia).
  exists (bumpCol cp ln col). split; [|done].
  destruct (bumpCol cp ln col) as [ln0 col0].
  simpl String.length. by rewrite Nat.add_1_r.
Qed.

Lemma ValidateUTF8_loop_two n s b index ln col cp post :
  substr_from index s = AppendUTF8 "" cp +:+ post ->
  0x80 <= cp <= 0x7FF ->
  exists lc,
    ValidateUTF8_loop (S n) s b index ln col
    = ValidateUTF8_loop n s b (index + String.length (AppendUTF8 "" cp))
        (fst lc) (snd lc)
    /\ (cp <> 0xFEFF -> lc = bumpCol cp ln col).
Proof.
  intros Hsub Hcp. rewrite AppendUTF8_two in * by done.
  rewrite !append_String in Hsub. euclid cp 64.
  destruct (suffix_bytes _ _ _ _ Hsub) as (Hlen & B0 & B & L).
  pose proof (B 0%nat) as B1. rewrite byte_at_head in B1.
  rewrite uchar_to_char in B0, B1 by lia.
  destruct (bom_conditions s b index) as [C1 C2]; [lia|].
  destruct (lead_bits (0xC0 + cp / 64)) as (Hlead & _); [lia|].
  destruct Hlead as [Hl1 Hl2]; [lia|].
  destruct (continuation_step (cp / 64) (0x80 + cp mod 64)) as [Hc1 Hc2]; [lia|lia|].
  exists (bumpCol cp ln col). split; [|done].
  apply (ValidateUTF8_loop_sequence n s b index ln col 2 (cp / 64) cp).
  - exact Hlen.
  - exact C1.
  - apply C2.
  - rewrite B0. apply Z.leb_gt. lia.
  - rewrite B0, Hl1, Hl2. simpl. do 2 f_equal. lia.
  - apply Nat.ltb_ge. simpl in L. lia.
  - cbn [Nat.sub utf8_continuation]. rewrite B1, Hc1, Hc2. f_equal. lia.
  - compare_cases; done.
Qed.

Lemma ValidateUTF8_loop_three n s b index ln col cp post :
  substr_from index s = AppendUTF8 "" cp +:+ post ->
  0x800 <= cp <= 0xFFFF ->
  ~ (0xD800 <= cp <= 0xDFFF) ->
  (index = 0%nat \/ cp <> 0xFEFF) ->
  exists lc,
    ValidateUTF8_loop (S n) s b index ln col
    = ValidateUTF8_loop n s b (index + String.length (AppendUTF8 "" cp))
        (fst lc) (snd lc)
    /\ (cp <> 0xFEFF -> lc = bumpCol cp ln col).
Proof.
  intros Hsub Hcp Hsur Hbom. rewrite AppendUTF8_three in * by done.
  rewrite !append_String in Hsub.
  assert (cp / 4096 = cp / 64 / 64) as Hq
    by (rewrite Z.div_div by lia; reflexivity).
  euclid cp 64. euclid (cp / 64) 64. rewrite Hq in *.
  destruct (suffix_bytes _ _ _ _ Hsub) as (Hlen & B0 & B & L).
  pose proof (B 0%nat) as B1. rewrite byte_at_head in B1.
  pose proof (B 1%nat) as B2. rewrite byte_at_next, byte_at_head in B2.
  rewrite uchar_to_char in B0, B1, B2 by lia.
  destruct (lead_bits (0xE0 + cp / 64 / 64)) as (_ & Hlead & _); [lia|].
  destruct Hlead as (Hl1 & Hl2 & Hl3); [lia|].
  destruct (continuation_step (cp / 64 / 64) (0x80 + (cp / 64) mod 64))
    as [Hc1 Hc2]; [lia|lia|].
  destruct (continuation_step (cp / 64 / 64 * 64 + (cp / 64) mod 64)
              (0x80 + cp mod 64)) as [Hd1 Hd2]; [lia|lia|].
  destruct ((index =? 0)%nat && b && (3 <=? String.length s)%nat && has_bom_at 0 s)
    eqn:C1.
  { exists (ln, col). split; [cbn [ValidateUTF8_loop]; by rewrite Hlen, C1|].
    intros Hcp'. exfalso. apply Hcp'.
    apply andb_true_iff in C1 as [C1 Hb]. apply andb_true_iff in C1 as [C1 _].
    apply andb_true_iff in C1 as [C1 _]. apply Nat.eqb_eq in C1. subst index.
    unfold has_bom_at in Hb. rewrite B0, B1, B2 in Hb.
    revert Hb. compare_cases; done. }
  exists (bumpCol cp ln col). split; [|done].
  apply (ValidateUTF8_loop_sequence n s b index ln col 3 (cp / 64 / 64) cp).
  - exact Hlen.
  - exact C1.
  - rewrite B0, B1, B2. replace (index + 1 + 1)%nat with (index + 2)%nat in B2 by lia.
    destruct Hbom as [->|Hbom]; [done|].
    compare_cases; done.
  - rewrite B0. apply Z.leb_gt. lia.
  - rewrite B0. apply Z.eqb_neq in Hl1. rewrite Hl1, Hl2, Hl3. simpl.
    do 2 f_equal. lia.
  - apply Nat.ltb_ge. simpl in L. lia.
  - cbn [Nat.sub utf8_continuation]. rewrite B1, Hc1, Hc2.
    replace (128 + (cp / 64) mod 64 - 128) with ((cp / 64) mod 64) by lia.
    replace (index + 2)%nat with (index + S 1)%nat by lia.
    rewrite B2, Hd1, Hd2. f_equal. lia.
  - compare_cases; done.
Qed.

Lemma ValidateUTF8_loop_four n s b index ln col cp post :
  substr_from index s = AppendUTF8 "" cp +:+ post ->
  0x10000 <= cp <= 0x10FFFF ->
  exists lc,
    ValidateUTF8_loop (S n) s b index ln col
    = ValidateUTF8_loop n s b (index + String.length (AppendUTF8 "" cp))
        (fst lc) (snd lc)
    /\ (cp <> 0xFEFF -> lc = bumpCol cp ln col).
Proof.
  intros Hsub Hcp. rewrite AppendUTF8_four, append_empty_l in * by done.
  unfold utf8_four in *. rewrite !append_String in Hsub.
  assert (cp / 2 ^ 12 = cp / 64 / 64) as Hq
    by (rewrite Z.div_div by lia; reflexivity).
  assert (cp / 2 ^ 18 = cp / 64 / 64 / 64) as Hq'
    by (rewrite !Z.div_div by lia; reflexivity).
  change (2 ^ 6) with 64 in *. rewrite Hq, Hq' in *.
  euclid cp 64. euclid (cp / 64) 64. euclid (cp / 64 / 64) 64.
  destruct (suffix_bytes _ _ _ _ Hsub) as (Hlen & B0 & B & L).
  pose proof (B 0%nat) as B1. rewrite byte_at_head in B1.
  pose proof (B 1%nat) as B2. rewrite byte_at_next, byte_at_head in B2.
  pose proof (B 2%nat) as B3. rewrite !byte_at_next, byte_at_head in B3.
  rewrite uchar_to_char in B0, B1, B2, B3 by lia.
  destruct (lead_bits (0xF0 + cp / 64 / 64 / 64)) as (_ & _ & Hlead & _); [lia|].
  destruct Hlead as (Hl1 & Hl2 & Hl3 & Hl4); [lia|].
  destruct (continuation_step (cp / 64 / 64 / 64) (0x80 + (cp / 64 / 64) mod 64))
    as [Hc1 Hc2]; [lia|lia|].
  destruct (continuation_step (cp / 64 / 64 / 64 * 64 + (cp / 64 / 64) mod 64)
              (0x80 + (cp / 64) mod 64)) as [Hd1 Hd2]; [lia|lia|].
  destruct (continuation_step
              ((cp / 64 / 64 / 64 * 64 + (cp / 64 / 64) mod 64) * 64
               + (cp / 64) mod 64)
              (0x80 + cp mod 64)) as [He1 He2]; [lia|lia|].
  destruct (bom_conditions s b index) as [C1 C2]; [lia|].
  exists (bumpCol cp ln col). split; [|done].
  apply (ValidateUTF8_loop_sequence n s b index ln col 4 (cp / 64 / 64 / 64) cp).
  - exact Hlen.
  - exact C1.
  - apply C2.
  - rewrite B0. apply Z.leb_gt. lia.
  - rewrite B0. apply Z.eqb_neq in Hl1, Hl2. rewrite Hl1, Hl2, Hl3, Hl4. simpl.
    do 2 f_equal. lia.
  - apply Nat.ltb_ge. simpl in L. lia.
  - cbn [Nat.sub utf8_continuation]. rewrite B1, Hc1, Hc2.
    replace (128 + (cp / 64 / 64) mod 64 - 128) with ((cp / 64 / 64) mod 64) by lia.
    replace (index + 2)%nat with (index + S 1)%nat by lia.
    rewrite B2, Hd1, Hd2.
    replace (128 + (cp / 64) mod 64 - 128) with ((cp / 64) mod 64) by lia.
    replace (index + 3)%nat with (index + S 2)%nat by lia.
    rewrite B3, He1, He2. f_equal. lia.
  - compare_cases; done.
Qed.

Lemma AppendUTF8_app out cp : AppendUTF8 out cp = out +:+ AppendUTF8 "" cp.
Proof.
  unfold AppendUTF8, push_back.
  repeat destruct (_ <=? _); by rewrite ?append_empty_l, ?append_assoc.
Qed.

Lemma utf8_of_cons cp cps : utf8_of (cp :: cps) = AppendUTF8 "" cp +:+ utf8_of cps.
Proof.
  unfold utf8_of. simpl. generalize (AppendUTF8 "" cp).
  induction cps as [|c cps IH]; intros out; simpl.
  - by rewrite append_empty_r.
  - rewrite IH, (IH (AppendUTF8 "" c)), (AppendUTF8_app out). by rewrite append_assoc.
Qed.

Lemma AppendUTF8_length cp :
  is_scalar_value cp = true ->
  exists c r, AppendUTF8 "" cp = String c r.
Proof.
  intros _. unfold AppendUTF8, push_back, str1.
  repeat destruct (_ <=? _); rewrite ?append_empty_l, ?append_String; by eexists _, _.
Qed.

Lemma ValidateUTF8_loop_step n s b index ln col cp post :
  substr_from index s = AppendUTF8 "" cp +:+ post ->
  is_scalar_value cp = true ->
  (index = 0%nat \/ cp <> 0xFEFF) ->
  exists lc,
    ValidateUTF8_loop (S n) s b index ln col
    = ValidateUTF8_loop n s b (index + String.length (AppendUTF8 "" cp))
        (fst lc) (snd lc)
    /\ (cp <> 0xFEFF -> lc = bumpCol cp ln col).
Proof.
  intros Hsub Hcp Hbom. unfold is_scalar_value in Hcp.
  apply andb_true_iff in Hcp as [Hcp Hsur].
  apply andb_true_iff in Hcp as [Hlo Hhi].
  apply Z.leb_le in Hlo, Hhi. apply negb_true_iff, andb_false_iff in Hsur.
  assert (~ (0xD800 <= cp <= 0xDFFF)) as Hsur'.
  { intros [? ?]. destruct Hsur as [Hs|Hs]; apply Z.leb_gt in Hs; lia. }
  destruct (Z.le_gt_cases cp 0x7F); [by apply (ValidateUTF8_loop_one _ _ _ _ _ _ _ post); [|lia]|].
  destruct (Z.le_gt_cases cp 0x7FF); [by apply (ValidateUTF8_loop_two _ _ _ _ _ _ _ post); [|lia]|].
  destruct (Z.le_gt_cases cp 0xFFFF);
    [by apply (ValidateUTF8_loop_three _ _ _ _ _ _ _ post); [|lia| |]|].
  by apply (ValidateUTF8_loop_four _ _ _ _ _ _ _ post); [|lia].
Qed.

Lemma ValidateUTF8_loop_utf8_of b s cps :
  forall n index ln col,
    substr_from index s = utf8_of cps ->
    (String.length (utf8_of cps) <= n)%nat ->
    Forall (fun cp => is_scalar_value cp = true) cps ->
    (index = 0%nat \/ Forall (fun cp => cp <> 0xFEFF) cps) ->
    Forall (fun cp => cp <> 0xFEFF) (tail cps) ->
    utf8_ok (ValidateUTF8_loop n s b index ln col) = true.
Proof.
  induction cps as [|cp cps IH]; intros n index ln col Hsub Hn Hsc Hfirst Htail.
  - apply substr_from_nil in Hsub.
    destruct n as [|n]; [done|]. cbn [ValidateUTF8_loop].
    by assert ((String.length s <=? index)%nat = true) as -> by (apply Nat.leb_le; lia).
  - rewrite utf8_of_cons in Hsub, Hn.
    apply Forall_cons in Hsc as [Hcp Hsc]. simpl in Htail.
    destruct (AppendUTF8_length cp Hcp) as (c & r & Henc).
    rewrite append_length, Henc in Hn. simpl in Hn.
    destruct n as [|n]; [lia|].
    destruct (ValidateUTF8_loop_step n s b index ln col cp (utf8_of cps) Hsub Hcp)
      as (lc & -> & _).
    { destruct Hfirst as [->|Hall]; [by left|right].
      by apply Forall_cons in Hall as [? _]. }
    rewrite Henc in Hsub.
    destruct (substr_from_app_length _ _ _ _ _ Hsub) as [Hsub' _].
    rewrite Henc. apply IH; try done.
    + simpl. lia.
    + by right.
    + by destruct cps as [|? ? ]; [constructor|apply Forall_cons in Htail as [_ ?]].
Qed.

Lemma ValidateUTF8_accepts_scalars (cps : list Z) (allowLeadingBOM : bool) :
  Forall (fun cp => is_scalar_value cp = true) cps ->
  Forall (fun cp => cp <> 0xFEFF) (tail cps) ->
  utf8_ok (ValidateUTF8 (utf8_of cps) allowLeadingBOM) = true.
Proof.
  intros Hsc Htail. unfold ValidateUTF8.
  apply (ValidateUTF8_loop_utf8_of allowLeadingBOM _ cps); try done. by left.
Qed.

(** X4: [ValidateUTF8] accepts the text that [AppendUTF8] builds from any
    sequence of Unicode scalar values, as long as [U+FEFF] occurs at the
    start only. *)
Theorem ValidateUTF8_accepts_AppendUTF8 (cps : list Z) (allowLeadingBOM : bool) :
  Forall (fun cp => is_scalar_value cp = true) cps ->
  Forall (fun cp => cp <> 0xFEFF) (tail cps) ->
  utf8_ok (ValidateUTF8 (utf8_of cps) allowLeadingBOM) = true.
Proof. apply ValidateUTF8_accepts_scalars. Qed.

Lemma ValidateUTF8_accepts_AppendUTF8_witness :
  utf8_ok (ValidateUTF8 (utf8_of [0xFEFF; 0x41; 0xE9; 0x20AC; 0x1F600]) true) = true.
Proof.
  apply ValidateUTF8_accepts_AppendUTF8.
  - repeat constructor.
  - repeat constructor; lia.
Defined.

Lemma ReadHex4_value k acc p v p' :
  0 <= acc -> (acc + 1) * 16 ^ Z.of_nat k <= 2 ^ 32 ->
  ReadHex4 k acc p = (ROk v, p') ->
  0 <= v < (acc + 1) * 16 ^ Z.of_nat k.
Proof.
  intros Hacc Hbound Hread.
  pose proof (ReadHex4_spec k acc p Hacc Hbound) as Hspec.
  destruct (hex_digits k acc (rest p)) as [w|] eqn:Hw.
  - destruct Hspec as (q & Hq & _). rewrite Hread in Hq. injection Hq as <- _.
    by eapply hex_digits_bound.
  - by rewrite Hread in Hspec.
Qed.

(** X5: the code point that a [\u] escape yields is a Unicode scalar
    value, so the bytes that the string parsers append for it are
    well-formed UTF-8. *)
Theorem UnicodeEscape_scalar_value (p p' : Parser) (codePoint : Z) :
  UnicodeEscape p = (ROk codePoint, p') ->
  is_scalar_value codePoint = true
  /\ forall allowLeadingBOM,
       utf8_ok (ValidateUTF8 (AppendUTF8 "" codePoint) allowLeadingBOM) = true.
Proof.
  intros H.
  assert (is_scalar_value codePoint = true) as Hsc.
  { unfold UnicodeEscape in H.
    destruct (ReadHex4 4 0 p) as [[hi|e] p1] eqn:Hhi; [|discriminate H].
    apply ReadHex4_value in Hhi; [|lia|by vm_compute].
    change ((0 + 1) * 16 ^ Z.of_nat 4) with 65536 in Hhi.
    destruct ((0xD800 <=? hi) && (hi <=? 0xDBFF)) eqn:Hhigh.
    - destruct (negb _); [discriminate H|].
      destruct (ReadHex4 4 0 (advance (advance p1))) as [[lo|e] p2] eqn:Hlo;
        [|discriminate H].
      destruct ((lo <? 0xDC00) || (0xDFFF <? lo)) eqn:Hlow; [discriminate H|].
      injection H as <- _.
      apply andb_true_iff in Hhigh as [H1 H2]. apply Z.leb_le in H1, H2.
      apply orb_false_iff in Hlow as [H3 H4]. apply Z.ltb_ge in H3, H4.
      rewrite surrogate_formula by lia. unfold surrogate_pair, is_scalar_value.
      compare_cases; done.
    - destruct ((0xDC00 <=? hi) && (hi <=? 0xDFFF)) eqn:Hlow; [discriminate H|].
      injection H as <- _. unfold is_scalar_value.
      revert Hhigh Hlow. compare_cases; done. }
  split; [done|]. intros b.
  apply (ValidateUTF8_accepts_scalars [codePoint] b); by repeat constructor.
Qed.

Lemma UnicodeEscape_scalar_value_witness :
  is_scalar_value 0x20AC = true
  /\ forall allowLeadingBOM,
       utf8_ok (ValidateUTF8 (AppendUTF8 "" 0x20AC) allowLeadingBOM) = true.
Proof.
  apply (UnicodeEscape_scalar_value (Parser_new "20AC") (set_cursor 4 1 5 (Parser_new "20AC"))).
  vm_compute. reflexivity.
Defined.

(** ** UTF-8: where [ValidateUTF8] stops *)

Lemma uchar_bound c : 0 <= uchar c < 256.
Proof. unfold uchar. pose proof (N_ascii_bounded c). lia. Qed.

Lemma stray_byte_header z :
  0 <= z < 256 ->
  ((0x80 <=? z) && (z <=? 0xBF)) || (0xF8 <=? z) = true ->
  z <> 0xEF /\ (z <=? 0x7F) = false
  /\ (Z.land z 0xE0 =? 0xC0) = false /\ (Z.land z 0xF0 =? 0xE0) = false
  /\ (Z.land z 0xF8 =? 0xF0) = false.
Proof.
  intros Hz Hstray.
  pose proof (byte_cases
    (fun z =>
       implb (((0x80 <=? z) && (z <=? 0xBF)) || (0xF8 <=? z))
         (negb (z =? 0xEF) && negb (z <=? 0x7F)
          && negb (Z.land z 0xE0 =? 0xC0) && negb (Z.land z 0xF0 =? 0xE0)
          && negb (Z.land z 0xF8 =? 0xF0))) eq_refl z Hz) as H.
  cbv beta in H. rewrite Hstray in H. simpl in H.
  repeat (apply andb_true_iff in H as [H ?]).
  repeat match goal with
         | H : negb _ = true |- _ => apply negb_true_iff in H
         end.
  repeat split; try done. by apply Z.eqb_neq.
Qed.

Lemma ValidateUTF8_loop_stray b s c post cps :
  forall n index ln col,
    substr_from index s = utf8_of cps +:+ String c post ->
    (String.length (utf8_of cps) < n)%nat ->
    Forall (fun cp => is_scalar_value cp = true) cps ->
    Forall (fun cp => cp <> 0xFEFF) cps ->
    is_stray_byte c = true ->
    ValidateUTF8_loop n s b index ln col
    = mkUtf8Check false (index + String.length (utf8_of cps))
        (fst (position_after cps ln col)) (snd (position_after cps ln col)).
Proof.
  induction cps as [|cp cps IH]; intros n index ln col Hsub Hn Hsc Hbom Hc.
  - change (utf8_of []) with EmptyString in *. rewrite append_empty_l in Hsub.
    destruct n as [|n]; [simpl in Hn; lia|].
    destruct (suffix_bytes _ _ _ _ Hsub) as (Hlen & B0 & _ & _).
    destruct (stray_byte_header (uchar c) (uchar_bound c) Hc)
      as (Hef & Hascii & H2 & H3 & H4).
    destruct (bom_conditions s b index) as [C1 C2]; [by rewrite B0|].
    cbn [ValidateUTF8_loop]. rewrite Hlen, C1, C2, B0, Hascii, H2, H3, H4.
    simpl. by rewrite Nat.add_0_r.
  - rewrite utf8_of_cons in Hsub, Hn. rewrite utf8_of_cons.
    apply Forall_cons in Hsc as [Hcp Hsc]. apply Forall_cons in Hbom as [Hcp' Hbom].
    destruct (AppendUTF8_length cp Hcp) as (c0 & r & Henc).
    rewrite append_length, Henc in Hn. simpl in Hn.
    destruct n as [|n]; [lia|].
    rewrite append_assoc in Hsub.
    destruct (ValidateUTF8_loop_step n s b index ln col cp _ Hsub Hcp)
      as (lc & -> & Hlc); [by right|].
    rewrite (Hlc Hcp'). rewrite Henc in Hsub.
    destruct (substr_from_app_length _ _ _ _ _ Hsub) as [Hsub' _].
    rewrite Henc, append_length. rewrite (IH n _ _ _ Hsub'); try done; [|simpl; lia].
    unfold position_after. simpl. destruct (bumpCol cp ln col). f_equal. lia.
Qed.

(** X6: a stray byte (a continuation byte or a byte from [0xF8] on) behind
    well-formed text without [U+FEFF] is where [ValidateUTF8] stops, and
    [Parse] reports [InvalidUtf8] at the line and column of that byte,
    columns counted in code points. *)
Theorem Parse_reports_stray_byte (cps : list Z) (c : ascii) (post : string) :
  Forall (fun cp => is_scalar_value cp = true) cps ->
  Forall (fun cp => cp <> 0xFEFF) cps ->
  is_stray_byte c = true ->
  let src := utf8_of cps +:+ String c post in
  let ln := fst (position_after cps 1 1) in
  let col := snd (position_after cps 1 1) in
  (forall allowLeadingBOM,
      ValidateUTF8 src allowLeadingBOM
      = mkUtf8Check false (String.length (utf8_of cps)) ln col)
  /\ (forall fuel out e0,
         exists r,
           Parse fuel src out (Some e0) = Some r
           /\ pr_code r = InvalidUtf8
           /\ pr_out r = out
           /\ pr_error r
              = Some (mkError InvalidUtf8 (mkLocation ln col)
                        "Invalid UTF-8 encoding")).
Proof.
  intros Hsc Hbom Hc src ln col.
  assert (forall b, ValidateUTF8 src b
                    = mkUtf8Check false (String.length (utf8_of cps)) ln col) as Hv.
  { intros b. unfold ValidateUTF8.
    rewrite (ValidateUTF8_loop_stray b src c post cps _ 0 1 1); try done.
    unfold src. rewrite append_length. simpl. lia. }
  split; [exact Hv|].
  intros fuel out e0. unfold Parse, Parser_Parse. cbn [mSrc Parser_new set_error].
  rewrite Hv. simpl. eexists. split; [reflexivity|]. done.
Qed.

Lemma Parse_reports_stray_byte_witness :
  let src := utf8_of [0x61; 0x0A; 0xE9] +:+ String (to_char 0x80) "x" in
  (forall allowLeadingBOM,
      ValidateUTF8 src allowLeadingBOM = mkUtf8Check false 4 2 2)
  /\ (forall fuel out e0,
         exists r,
           Parse fuel src out (Some e0) = Some r
           /\ pr_code r = InvalidUtf8
           /\ pr_out r = out
           /\ pr_error r
              = Some (mkError InvalidUtf8 (mkLocation 2 2) "Invalid UTF-8 encoding")).
Proof.
  apply (Parse_reports_stray_byte [0x61; 0x0A; 0xE9] (to_char 0x80) "x").
  - repeat constructor.
  - repeat constructor; lia.
  - reflexivity.
Defined.

(** ** Errors: the recorded error is the returned one *)

Lemma coherent_ret {A} (a : A) : coherent (ret a).
Proof. intros p e p' H. discriminate H. Qed.

Lemma coherent_fail {A} c msg : c <> OK -> coherent (@fail A c msg).
Proof. intros Hc p e p' H. injection H as <- <-. done. Qed.

Lemma coherent_run f : coherent (run f).
Proof. intros p e p' H. discriminate H. Qed.

Lemma coherent_ask {A} (f : Parser -> A) : coherent (ask f).
Proof. intros p e p' H. discriminate H. Qed.

Lemma coherent_match c : coherent (match_ c).
Proof. intros p e p' H. unfold match_ in H. destruct (Match c p). discriminate H. Qed.

Lemma coherent_bind {A B} (m : M A) (k : A -> M B) :
  coherent m -> (forall a, coherent (k a)) -> coherent (bind m k).
Proof.
  intros Hm Hk p e p' H. unfold bind in H.
  destruct (m p) as [[[a|e1] p1]|] eqn:Hmp; [|..|discriminate H].
  - by eapply Hk.
  - injection H as <- <-. by eapply Hm.
Qed.

Lemma coherent_of_total {A} (f : Parser -> Res A * Parser) :
  coherent_total f -> coherent (total f).
Proof. intros Hf p e p' H. injection H as H. by eapply Hf. Qed.

Lemma coherent_if {A} (b : bool) (m1 m2 : M A) :
  coherent m1 -> coherent m2 -> coherent (if b then m1 else m2).
Proof. by destruct b. Qed.

Lemma coherent_identifier :
  coherent (fun p => Some (let (i, p) := read_identifier (remaining p) "" p in
                           (ROk i, p))).
Proof.
  intros p e p' H. destruct (read_identifier (remaining p) "" p). discriminate H.
Qed.

Lemma failed_coherent {A} c msg p e p' :
  @failed A c msg p = (RFail e, p') -> c <> OK -> records e p'.
Proof. intros H Hc. by injection H as <- <-. Qed.

Lemma ReadHex4_coherent k : forall acc, coherent_total (ReadHex4 k acc).
Proof.
  induction k as [|k IH]; intros acc p e p' H; simpl in H; [discriminate H|].
  destruct (EndOfFile p); [by eapply failed_coherent|].
  destruct (Get p) as [c q]. destruct (HexValue c <? 0); [by eapply failed_coherent|].
  by eapply IH.
Qed.

Lemma UnicodeEscape_coherent : coherent_total UnicodeEscape.
Proof.
  intros p e p' H. unfold UnicodeEscape in H.
  destruct (ReadHex4 4 0 p) as [[hi|e1] p1] eqn:Hhi.
  - destruct ((0xD800 <=? hi) && (hi <=? 0xDBFF)).
    + destruct (negb _); [by eapply failed_coherent|].
      destruct (ReadHex4 4 0 (advance (advance p1))) as [[lo|e2] p2] eqn:Hlo.
      * destruct ((lo <? 0xDC00) || (0xDFFF <? lo));
          [by eapply failed_coherent|discriminate H].
      * injection H as <- <-. by eapply ReadHex4_coherent.
    + destruct ((0xDC00 <=? hi) && (hi <=? 0xDFFF));
        [by eapply failed_coherent|discriminate H].
  - injection H as <- <-. by eapply ReadHex4_coherent.
Qed.

Lemma ParseQuoted_loop_coherent q n :
  forall result, coherent_total (ParseQuoted_loop q n result).
Proof.
  induction n as [|n IH]; intros result p e p' H; simpl in H;
    [by eapply failed_coherent|].
  destruct (EndOfFile p); [by eapply failed_coherent|].
  destruct (Get p) as [c p1]. destruct (c =c= q); [discriminate H|].
  destruct (c =c= BSL).
  - destruct (EndOfFile p1); [by eapply failed_coherent|].
    destruct (Get p1) as [c2 p2].
    repeat (destruct (c2 =c= _); [by eapply IH|]).
    destruct (c2 =c= "u"); [|by eapply failed_coherent].
    destruct (UnicodeEscape p2) as [[cp|e1] p3] eqn:Hu.
    + by eapply IH.
    + injection H as <- <-. by eapply UnicodeEscape_coherent.
  - destruct ((c =c= LF) || (c =c= CR)); [by eapply failed_coherent|].
    by eapply IH.
Qed.

Lemma ParseQuoted_coherent q : coherent_total (ParseQuoted q).
Proof.
  intros p e p' H. unfold ParseQuoted in H.
  destruct (Match q p) as [[] p1]; [|by eapply failed_coherent].
  by eapply ParseQuoted_loop_coherent.
Qed.

Lemma ParseTripleString_loop_coherent n :
  forall result, coherent_total (ParseTripleString_loop n result).
Proof.
  induction n as [|n IH]; intros result p e p' H; simpl in H;
    [by eapply failed_coherent|].
  destruct (EndOfFile p); [by eapply failed_coherent|].
  destruct (_ && _); [discriminate H|].
  destruct (Get p) as [c p1]. by eapply IH.
Qed.

Lemma ParseStringOrTriple_coherent : coherent_total ParseStringOrTriple.
Proof.
  intros p e p' H. unfold ParseStringOrTriple in H.
  destruct (negb _); [by eapply failed_coherent|].
  destruct (at_triple_quote p); [|by eapply (ParseQuoted_coherent DQ)].
  unfold ParseTripleString in H.
  destruct (Match DQ p) as [[] p1]; simpl in H; [|by eapply failed_coherent].
  destruct (Match DQ p1) as [[] p2]; simpl in H; [|by eapply failed_coherent].
  destruct (Match DQ p2) as [[] p3]; simpl in H; [|by eapply failed_coherent].
  by eapply ParseTripleString_loop_coherent.
Qed.

Lemma ParseNumber_coherent : coherent_total ParseNumber.
Proof.
  intros p e p' H. unfold ParseNumber in H.
  destruct (strtod _) as [v consumed].
  destruct (negb _); [by eapply failed_coherent|discriminate H].
Qed.

Lemma ParseKey_coherent : coherent_total ParseKey.
Proof.
  intros p e p' H. unfold ParseKey in H.
  destruct (Peek (SkipInlineSpaces p) =c= DQ).
  { destruct (ParseStringDouble _) as [[[]|e1] p1] eqn:Hs; try discriminate H.
    injection H as <- <-. by eapply (ParseQuoted_coherent DQ). }
  destruct (Peek (SkipInlineSpaces p) =c= SQ).
  { destruct (ParseStringSingle _) as [[[]|e1] p1] eqn:Hs; try discriminate H.
    injection H as <- <-. by eapply (ParseQuoted_coherent SQ). }
  destruct (negb _); [by eapply failed_coherent|].
  destruct (read_identifier _ _ _). discriminate H.
Qed.

Lemma ReadLineIndent_spaces_coherent n :
  forall cols, coherent_total (ReadLineIndent_spaces n cols).
Proof.
  induction n as [|n IH]; intros cols p e p' H; simpl in H; [discriminate H|].
  destruct (EndOfFile p); [discriminate H|].
  destruct (Peek p =c= SP); [by eapply IH|].
  destruct (Peek p =c= TAB); [by eapply failed_coherent|discriminate H].
Qed.

Lemma ReadLineIndent_coherent : coherent_total ReadLineIndent.
Proof.
  intros p e p' H. unfold ReadLineIndent in H.
  destruct (ReadLineIndent_spaces _ _ _) as [[cols|e1] p1] eqn:Hs.
  - destruct (_ || _).
    + destruct (if Peek p1 =c= HASH then _ else _) as [c q]. discriminate H.
    + destruct (0 <? cols); [|discriminate H].
      destruct (mIndentUnit p1 =? 0); [discriminate H|].
      destruct (negb _); [by eapply failed_coherent|discriminate H].
  - injection H as <- <-. by eapply ReadLineIndent_spaces_coherent.
Qed.

Lemma ApplyIndentLevel_coherent cols : coherent_total (ApplyIndentLevel cols).
Proof.
  intros p e p' H. unfold ApplyIndentLevel in H.
  destruct (_ <? _); [discriminate H|].
  destruct (_ <? _); [|discriminate H].
  destruct (pop_while_less _ _) as [|top st]; [by eapply failed_coherent|].
  destruct (negb _); [by eapply failed_coherent|discriminate H].
Qed.

Lemma NextContentLine_coherent fuel : coherent (NextContentLine fuel).
Proof.
  induction fuel as [|fuel IH]; intros p e p' H; simpl in H; [discriminate H|].
  destruct (EndOfFile p); [discriminate H|].
  destruct (negb _).
  { destruct (EndOfFile _); [discriminate H|]. by eapply IH. }
  destruct (ReadLineIndent p) as [[[cols hasContent]|e1] p1] eqn:Hr.
  - destruct (negb hasContent); [by eapply IH|].
    destruct (ApplyIndentLevel cols p1) as [[[]|e2] p2] eqn:Ha; [discriminate H|].
    injection H as <- <-. by eapply ApplyIndentLevel_coherent.
  - injection H as <- <-. by eapply ReadLineIndent_coherent.
Qed.

Lemma coherent_out_of_fuel {A} : coherent (@out_of_fuel Parser A).
Proof. intros p e p' H. discriminate H. Qed.

Lemma productions_coherent fuel :
  (forall ci, coherent (ParseValue fuel ci))
  /\ (forall ci, coherent (parseIdentifierOrIndentedObject fuel ci))
  /\ (forall ci, coherent (ParseInlineObject fuel ci))
  /\ (forall ci o, coherent (ParseInlineObject_loop fuel ci o))
  /\ (forall bi o pi, coherent (ParseIndentedObjectBody fuel bi o pi))
  /\ (forall pi, coherent (ParseArray fuel pi))
  /\ (forall ai a, coherent (ParseArray_multiline fuel ai a))
  /\ (forall pi a, coherent (ParseArray_inline fuel pi a)).
Proof.
  induction fuel as [|fuel (IH1 & IH2 & IH3 & IH4 & IH5 & IH6 & IH7 & IH8)].
  { repeat (split; [intros; apply coherent_out_of_fuel|]).
    intros. apply coherent_out_of_fuel. }
  split; [|split; [|split; [|split; [|split; [|split; [|split]]]]]]; intros;
    [ cbn [ParseValue] | cbn [parseIdentifierOrIndentedObject]
    | cbn [ParseInlineObject] | cbn [ParseInlineObject_loop]
    | cbn [ParseIndentedObjectBody] | cbn [ParseArray]
    | cbn [ParseArray_multiline] | cbn [ParseArray_inline] ];
    repeat first
      [ progress cbv zeta
      | apply coherent_ret | apply coherent_fail; discriminate
      | apply coherent_run
      | apply coherent_ask | apply coherent_match
      | apply coherent_identifier | apply NextContentLine_coherent
      | apply coherent_of_total;
        first [ apply ParseStringOrTriple_coherent
              | apply (ParseQuoted_coherent SQ)
              | apply ParseNumber_coherent
              | apply ParseKey_coherent ]
      | apply IH1 | apply IH2 | apply IH3 | apply IH4 | apply IH5
      | apply IH6 | apply IH7 | apply IH8
      | apply coherent_if
      | apply coherent_bind; [|intros ?] ].
Qed.

(** X7: whatever [Parse] returns, the [Error] that it stores for the
    caller carries the returned code; on a failure its location is the
    line and column at which the parser stopped, and on success it is the
    default [Error]. *)
Theorem Parse_error_matches_code (fuel : nat) (p : Parser) (out : Value)
    (e0 : Error) (r : ParseResult) :
  Parser_Parse fuel p out (Some e0) = Some r ->
  exists e,
    pr_error r = Some e
    /\ code e = pr_code r
    /\ (pr_code r <> OK -> where_ e = Location (pr_parser r) /\ pr_out r = out)
    /\ (pr_code r = OK -> e = Error_default).
Proof.
  unfold Parser_Parse. intros H.
  destruct (negb (utf8_ok _)).
  { injection H as <-. eexists. split; [reflexivity|]. simpl. done. }
  match type of H with
  | match ?parsed with _ => _ end = _ => destruct parsed as [[[v|ec] q]|] eqn:Hparsed
  end; [| |discriminate H].
  - destruct (negb _); injection H as <-; eexists; (split; [reflexivity|]); simpl; done.
  - injection H as <-.
    assert (records ec q) as (Hcode & Hnot & Hwhere).
    { destruct (EndOfFile _); [discriminate Hparsed|].
      by eapply (proj1 (productions_coherent fuel)). }
    eexists. split; [reflexivity|]. simpl.
    destruct (code (mError q)) eqn:Hc; simpl; rewrite ?Hc; subst ec; done.
Qed.

Lemma Parse_error_matches_code_witness :
  exists r e,
    Parse 8 "[1, 2" VNull (Some Error_default) = Some r
    /\ pr_error r = Some e
    /\ code e = pr_code r
    /\ (pr_code r <> OK -> where_ e = Location (pr_parser r) /\ pr_out r = VNull)
    /\ (pr_code r = OK -> e = Error_default).
Proof.
  assert (exists r, Parse 8 "[1, 2" VNull (Some Error_default) = Some r) as [r H].
  { vm_compute. eexists. reflexivity. }
  destruct (Parse_error_matches_code 8 (Parser_new "[1, 2") VNull Error_default r H)
    as (e & He1 & He2 & He3 & He4).
  exists r, e. split; [exact H|]. split; [exact He1|]. split; [exact He2|].
  split; [exact He3|exact He4].
Defined.

(** ** Positions: the line and column follow the cursor *)

Lemma get_substr_from b :
  forall k s, String.get k (substr_from b s) = String.get (b + k) s.
Proof.
  induction b as [|b IH]; intros k [|c s]; simpl; done.
Qed.

Lemma position_at_step s :
  forall k ln col c,
    String.get k s = Some c ->
    position_at s (S k) ln col
    = (if c =c= LF then (S (fst (position_at s k ln col)), 1%nat)
       else (fst (position_at s k ln col), S (snd (position_at s k ln col)))).
Proof.
  induction s as [|d s IH]; intros k ln col c Hget; [by destruct k|].
  destruct k as [|k].
  - simpl in Hget. injection Hget as ->. simpl. by destruct (c =c= LF).
  - simpl in Hget. change (position_at (String d s) (S (S k)) ln col)
      with (if d =c= LF then position_at s (S k) (S ln) 1
            else position_at s (S k) ln (S col)).
    change (position_at (String d s) (S k) ln col)
      with (if d =c= LF then position_at s k (S ln) 1
            else position_at s k ln (S col)).
    destruct (d =c= LF); by apply IH.
Qed.

Lemma tracks_fields src base p q :
  mSrc q = mSrc p -> mPos q = mPos p -> mLine q = mLine p -> mCol q = mCol p ->
  tracks src base p -> tracks src base q.
Proof. unfold tracks. by intros -> -> -> ->. Qed.

Lemma tracks_after_char src base p c :
  tracks src base p -> String.get (mPos p) (mSrc p) = Some c ->
  tracks src base (after_char c p).
Proof.
  intros (Hsrc & Hpos & Hlc) Hget.
  assert (mPos p < String.length src)%nat as Hlt.
  { rewrite <- Hsrc. clear -Hget. revert Hget. generalize (mPos p) (mSrc p).
    induction n as [|n IH]; intros [|d s]; simpl; try done; try lia.
    intros H. apply IH in H. lia. }
  destruct (after_char_fields c p) as (Hs & Hp & _).
  pose proof (after_char_col c p) as Hcol.
  assert (mLine (after_char c p) = if c =c= LF then S (mLine p) else mLine p)
    as Hline by (unfold after_char; by destruct (c =c= LF)).
  split; [congruence|]. split; [lia|].
  rewrite Hp. replace (S (mPos p) - base)%nat with (S (mPos p - base)) by lia.
  rewrite (position_at_step _ _ _ _ c).
  - rewrite <- Hlc, Hline, Hcol. simpl. by destruct (c =c= LF).
  - rewrite get_substr_from, <- Hsrc. by replace (base + (mPos p - base))%nat
      with (mPos p) by lia.
Qed.

Lemma Get_cases p :
  (EndOfFile p = true /\ Get p = (NUL, p))
  \/ (exists c, EndOfFile p = false /\ String.get (mPos p) (mSrc p) = Some c
                /\ Peek p = c /\ Get p = (c, after_char c p)).
Proof.
  destruct (rest_cases p) as [(Hr & _ & He)|(c & r & Hr & Hp & He & Hg & _)].
  - left. split; [done|]. unfold Get. by rewrite He.
  - right. exists c. repeat split; try done.
    by apply substr_from_cons in Hr as (? & _).
Qed.

Lemma tracks_Get src base p : tracks src base p -> tracks src base (snd (Get p)).
Proof.
  intros H. destruct (Get_cases p) as [[_ ->]|(c & _ & Hget & _ & ->)]; [done|].
  by apply tracks_after_char.
Qed.

Lemma tracks_advance src base p : tracks src base p -> tracks src base (advance p).
Proof. apply tracks_Get. Qed.

(** *** Invariants of the parser state

    An invariant that [Get] keeps, and that does not depend on the
    recorded error or on the indent unit, is kept by the cursor helpers
    and by the token parsers; if [ApplyIndentLevel] and the rewind to the
    start of an identifier keep it too, so do all productions. *)

Section Invariant.

Variable I : Parser -> Prop.
Hypothesis I_Get : forall p, I p -> I (snd (Get p)).
Hypothesis I_Fail : forall c msg p, I p -> I (Fail c msg p).
Hypothesis I_unit : forall u p, I p -> I (set_indent_unit u p).
Hypothesis I_apply :
  forall cols p, 0 <= cols -> I p -> I (snd (ApplyIndentLevel cols p)).
Hypothesis I_rewind :
  forall (body : M Object),
    preserves I body ->
    preserves I
      (ident <- (fun p => Some (let (i, p) := read_identifier (remaining p) "" p in
                                (ROk i, p))) ;;
       run SkipInlineSpaces ;;;
       c <- peek ;;
       if c =c= ":"
       then
         run (fun p => set_cursor (mPos p - String.length ident) (mLine p)
                         (mCol p - String.length ident) p) ;;;
         object <- body ;;
         ret (VObject object)
       else if String.eqb ident "true" then ret (VBool true)
       else if String.eqb ident "false" then ret (VBool false)
       else if String.eqb ident "null" then ret VNull
       else ret (VString ident)).

Lemma keeps_Get_eq p c q : Get p = (c, q) -> I p -> I q.
Proof. intros H Hp. apply I_Get in Hp. by rewrite H in Hp. Qed.

Lemma keeps_advance p : I p -> I (advance p).
Proof. apply I_Get. Qed.

Lemma keeps_Match c p : I p -> I (snd (Match c p)).
Proof. intros H. unfold Match. destruct (_ =c= _); [by apply keeps_advance|done]. Qed.

Lemma keeps_Match_eq c p b q : Match c p = (b, q) -> I p -> I q.
Proof. intros H Hp. apply (keeps_Match c) in Hp. by rewrite H in Hp. Qed.

Lemma keeps_SkipInlineSpaces_loop n : forall p, I p -> I (SkipInlineSpaces_loop n p).
Proof.
  induction n as [|n IH]; intros p H; simpl; [done|].
  destruct (_ || _); [|done]. by apply IH, keeps_advance.
Qed.

Lemma keeps_SkipToEOL_loop n : forall p, I p -> I (SkipToEOL_loop n p).
Proof.
  induction n as [|n IH]; intros p H; simpl; [done|].
  destruct (EndOfFile p); [done|].
  destruct (Get p) as [c q] eqn:Hg. apply (keeps_Get_eq _ _ _ Hg) in H.
  destruct (c =c= LF); [done|by apply IH].
Qed.

Lemma keeps_SkipToEOL p : I p -> I (SkipToEOL p).
Proof. apply keeps_SkipToEOL_loop. Qed.

Lemma keeps_SkipInlineSpaces p : I p -> I (SkipInlineSpaces p).
Proof. apply keeps_SkipInlineSpaces_loop. Qed.

Lemma keeps_SkipWhitespaceAndComments_loop n :
  forall p, I p -> I (SkipWhitespaceAndComments_loop n p).
Proof.
  induction n as [|n IH]; intros p H; simpl; [done|].
  destruct (EndOfFile p); [done|].
  destruct (_ || _); [by apply IH, keeps_advance|].
  destruct (_ =c= HASH); [by apply IH, keeps_SkipToEOL|].
  destruct (_ =c= CR).
  { apply IH. destruct (_ =c= LF); by repeat apply keeps_advance. }
  destruct (_ =c= LF); [by apply IH, keeps_advance|done].
Qed.

Lemma keeps_SkipWhitespaceAndComments p : I p -> I (SkipWhitespaceAndComments p).
Proof. apply keeps_SkipWhitespaceAndComments_loop. Qed.

Lemma keeps_skip_trailing n : forall p, I p -> I (skip_trailing n p).
Proof.
  induction n as [|n IH]; intros p H; simpl; [done|].
  destruct (EndOfFile p); [done|].
  destruct (_ || _); [by apply IH, keeps_advance|].
  destruct (_ =c= HASH); [by apply IH, keeps_SkipToEOL|done].
Qed.

Lemma keeps_consume_eol p : I p -> I (consume_eol p).
Proof.
  intros H. unfold consume_eol. destruct (Get p) as [c q] eqn:Hg.
  apply (keeps_Get_eq _ _ _ Hg) in H.
  destruct (_ && _); [by apply keeps_advance|done].
Qed.

Lemma keeps_ReadLineIndent_spaces n :
  forall cols p, I p -> I (snd (ReadLineIndent_spaces n cols p)).
Proof.
  induction n as [|n IH]; intros cols p H; simpl; [done|].
  destruct (EndOfFile p); [done|].
  destruct (_ =c= SP); [by apply IH, keeps_advance|].
  destruct (_ =c= TAB); [by apply I_Fail|done].
Qed.

Lemma keeps_ReadLineIndent p : I p -> I (snd (ReadLineIndent p)).
Proof.
  intros H. unfold ReadLineIndent.
  pose proof (keeps_ReadLineIndent_spaces (remaining p) 0 p H) as H1.
  destruct (ReadLineIndent_spaces _ _ _) as [[cols|e] p1]; simpl in H1; [|done].
  destruct (_ || _).
  - destruct (Peek p1 =c= HASH).
    + apply keeps_SkipToEOL in H1. simpl.
      destruct (_ =c= CR); [destruct (_ =c= LF); by repeat apply keeps_advance|].
      destruct (_ =c= LF); [by apply keeps_advance|done].
    + simpl.
      destruct (_ =c= CR); [destruct (_ =c= LF); by repeat apply keeps_advance|].
      destruct (_ =c= LF); [by apply keeps_advance|done].
  - destruct (0 <? cols); [|done].
    destruct (_ =? 0); [by apply I_unit|].
    destruct (negb _); [by apply I_Fail|done].
Qed.

Lemma ReadLineIndent_spaces_nonneg n :
  forall cols p c q,
    0 <= cols -> ReadLineIndent_spaces n cols p = (ROk c, q) -> 0 <= c.
Proof.
  induction n as [|n IH]; intros cols p c q Hc H; simpl in H;
    [by injection H as <- _|].
  destruct (EndOfFile p); [by injection H as <- _|].
  destruct (_ =c= SP); [eapply IH; [|exact H]; lia|].
  destruct (_ =c= TAB); [discriminate H|by injection H as <- _].
Qed.

Lemma ReadLineIndent_nonneg p c hasContent q :
  ReadLineIndent p = (ROk (c, hasContent), q) -> 0 <= c.
Proof.
  unfold ReadLineIndent. intros H.
  destruct (ReadLineIndent_spaces _ _ _) as [[cols|e] p1] eqn:Hs; [|discriminate H].
  apply ReadLineIndent_spaces_nonneg in Hs; [|lia].
  destruct (_ || _).
  - destruct (if Peek p1 =c= HASH then _ else _) as [c1 q1].
    by injection H as <- _ _.
  - destruct (0 <? cols); [|by injection H as <- _ _].
    destruct (_ =? 0); [by injection H as <- _ _|].
    destruct (negb _); [discriminate H|by injection H as <- _ _].
Qed.

Lemma preserves_NextContentLine fuel : preserves I (NextContentLine fuel).
Proof.
  induction fuel as [|fuel IH]; intros p r p' Hp H; simpl in H; [discriminate H|].
  destruct (EndOfFile p); [by injection H as <- <-|].
  destruct (negb _).
  { apply keeps_SkipToEOL in Hp.
    destruct (EndOfFile _); [by injection H as <- <-|]. by eapply IH. }
  pose proof (keeps_ReadLineIndent p Hp) as H1.
  destruct (ReadLineIndent p) as [[[cols hasContent]|e1] p1] eqn:Hr; simpl in H1;
    [|by injection H as <- <-].
  destruct (negb hasContent); [by eapply IH|].
  apply ReadLineIndent_nonneg in Hr.
  pose proof (I_apply cols p1 Hr H1) as H2.
  destruct (ApplyIndentLevel cols p1) as [[[]|e2] p2]; simpl in H2;
    by injection H as <- <-.
Qed.

Lemma keeps_read_identifier n :
  forall ident p, I p -> I (snd (read_identifier n ident p)).
Proof.
  induction n as [|n IH]; intros ident p H; simpl; [done|].
  destruct (IsIdentifierChar _); [|done].
  destruct (Get p) as [c q] eqn:Hg. apply (keeps_Get_eq _ _ _ Hg) in H.
  by apply IH.
Qed.

Lemma keeps_ReadHex4 k : forall acc p, I p -> I (snd (ReadHex4 k acc p)).
Proof.
  induction k as [|k IH]; intros acc p H; simpl; [done|].
  destruct (EndOfFile p); [by apply I_Fail|].
  destruct (Get p) as [c q] eqn:Hg. apply (keeps_Get_eq _ _ _ Hg) in H.
  destruct (_ <? 0); [by apply I_Fail|by apply IH].
Qed.

Lemma keeps_UnicodeEscape p : I p -> I (snd (UnicodeEscape p)).
Proof.
  intros H. unfold UnicodeEscape.
  pose proof (keeps_ReadHex4 4 0 p H) as H1.
  destruct (ReadHex4 4 0 p) as [[hi|e] p1]; simpl in H1; [|done].
  destruct (_ && _).
  - destruct (negb _); [by apply I_Fail|].
    pose proof (keeps_ReadHex4 4 0 (advance (advance p1))) as H2.
    destruct (ReadHex4 4 0 (advance (advance p1))) as [[lo|e] p2]; simpl in H2.
    + destruct (_ || _); [apply I_Fail|]; by apply H2; repeat apply keeps_advance.
    + by apply H2; repeat apply keeps_advance.
  - destruct (_ && _); [by apply I_Fail|done].
Qed.

Lemma keeps_ParseQuoted_loop q n :
  forall result p, I p -> I (snd (ParseQuoted_loop q n result p)).
Proof.
  induction n as [|n IH]; intros result p H; simpl; [by apply I_Fail|].
  destruct (EndOfFile p); [by apply I_Fail|].
  destruct (Get p) as [c p1] eqn:Hg. apply (keeps_Get_eq _ _ _ Hg) in H.
  destruct (c =c= q); [done|].
  destruct (c =c= BSL).
  - destruct (EndOfFile p1); [by apply I_Fail|].
    destruct (Get p1) as [c2 p2] eqn:Hg2. apply (keeps_Get_eq _ _ _ Hg2) in H.
    repeat (destruct (c2 =c= _); [by apply IH|]).
    destruct (c2 =c= "u"); [|by apply I_Fail].
    pose proof (keeps_UnicodeEscape p2 H) as H3.
    destruct (UnicodeEscape p2) as [[cp|e1] p3]; simpl in H3; [by apply IH|done].
  - destruct (_ || _); [by apply I_Fail|by apply IH].
Qed.

Lemma keeps_ParseQuoted q p : I p -> I (snd (ParseQuoted q p)).
Proof.
  intros H. unfold ParseQuoted.
  destruct (Match q p) as [[] p1] eqn:Hm; apply (keeps_Match_eq _ _ _ _ Hm) in H.
  - by apply keeps_ParseQuoted_loop.
  - by apply I_Fail.
Qed.

Lemma keeps_ParseTripleString_loop n :
  forall result p, I p -> I (snd (ParseTripleString_loop n result p)).
Proof.
  induction n as [|n IH]; intros result p H; simpl; [by apply I_Fail|].
  destruct (EndOfFile p); [by apply I_Fail|].
  destruct (_ && _); [by repeat apply keeps_advance|].
  destruct (Get p) as [c p1] eqn:Hg. apply (keeps_Get_eq _ _ _ Hg) in H.
  by apply IH.
Qed.

Lemma keeps_ParseStringOrTriple p : I p -> I (snd (ParseStringOrTriple p)).
Proof.
  intros H. unfold ParseStringOrTriple.
  destruct (negb _); [by apply I_Fail|].
  destruct (at_triple_quote p); [|by apply keeps_ParseQuoted].
  unfold ParseTripleString.
  destruct (Match DQ p) as [[] p1] eqn:Hm1;
    apply (keeps_Match_eq _ _ _ _ Hm1) in H; simpl; [|by apply I_Fail].
  destruct (Match DQ p1) as [[] p2] eqn:Hm2;
    apply (keeps_Match_eq _ _ _ _ Hm2) in H; simpl; [|by apply I_Fail].
  destruct (Match DQ p2) as [[] p3] eqn:Hm3;
    apply (keeps_Match_eq _ _ _ _ Hm3) in H; simpl; [|by apply I_Fail].
  by apply keeps_ParseTripleString_loop.
Qed.

Lemma keeps_ParseNumber_scan n :
  forall hasDot hasExp p, I p -> I (ParseNumber_scan n hasDot hasExp p).
Proof.
  induction n as [|n IH]; intros hasDot hasExp p H; simpl; [done|].
  destruct (EndOfFile p); [done|].
  destruct (in_range _ _ _); [by apply IH, keeps_advance|].
  destruct (_ && _); [by apply IH, keeps_advance|].
  destruct (_ && _); [|done].
  apply IH. destruct (_ || _); by repeat apply keeps_advance.
Qed.

Lemma keeps_ParseNumber p : I p -> I (snd (ParseNumber p)).
Proof.
  intros H. unfold ParseNumber.
  set (p1 := if (Peek p =c= "+") || (Peek p =c= "-") then advance p else p).
  assert (I p1) as H1
    by (unfold p1; destruct (_ || _); [by apply keeps_advance|done]).
  pose proof (keeps_ParseNumber_scan (remaining p1) false false p1 H1) as H2.
  destruct (strtod _) as [v consumed].
  destruct (negb _); [by apply I_Fail|done].
Qed.

Lemma keeps_ParseKey p : I p -> I (snd (ParseKey p)).
Proof.
  intros H. unfold ParseKey. apply keeps_SkipInlineSpaces in H.
  destruct (_ =c= DQ).
  { pose proof (keeps_ParseQuoted DQ _ H) as H1.
    unfold ParseStringDouble. by destruct (ParseQuoted DQ _) as [[[]|e1] p1]. }
  destruct (_ =c= SQ).
  { pose proof (keeps_ParseQuoted SQ _ H) as H1.
    unfold ParseStringSingle. by destruct (ParseQuoted SQ _) as [[[]|e1] p1]. }
  destruct (negb _); [by apply I_Fail|].
  pose proof (keeps_read_identifier (remaining (SkipInlineSpaces p)) "" _ H) as H1.
  by destruct (read_identifier _ _ _).
Qed.

Lemma preserves_ret {A} (a : A) : preserves I (ret a).
Proof. intros p r p' Hp H. by injection H as <- <-. Qed.

Lemma preserves_out_of_fuel {A} : preserves I (@out_of_fuel Parser A).
Proof. intros p r p' Hp H. discriminate H. Qed.

Lemma preserves_run f : (forall p, I p -> I (f p)) -> preserves I (run f).
Proof. intros Hf p r p' Hp H. injection H as <- <-. by apply Hf. Qed.

Lemma preserves_ask {A} (f : Parser -> A) : preserves I (ask f).
Proof. intros p r p' Hp H. by injection H as <- <-. Qed.

Lemma preserves_total {A} (f : Parser -> Res A * Parser) :
  (forall p, I p -> I (snd (f p))) -> preserves I (total f).
Proof.
  intros Hf p r p' Hp H. injection H as H. specialize (Hf p Hp). by rewrite H in Hf.
Qed.

Lemma preserves_bind {A B} (m : M A) (k : A -> M B) :
  preserves I m -> (forall a, preserves I (k a)) -> preserves I (bind m k).
Proof.
  intros Hm Hk p r p' Hp H. unfold bind in H.
  destruct (m p) as [[[a|e1] p1]|] eqn:Hmp; [|..|discriminate H].
  - eapply Hk; [|exact H]. by eapply Hm.
  - injection H as <- <-. by eapply Hm.
Qed.

Lemma preserves_if {A} (b : bool) (m1 m2 : M A) :
  preserves I m1 -> preserves I m2 -> preserves I (if b then m1 else m2).
Proof. by destruct b. Qed.

Lemma preserves_fail {A} c msg : preserves I (@fail A c msg).
Proof. intros p r p' Hp H. injection H as <- <-. by apply I_Fail. Qed.

Lemma preserves_match c : preserves I (match_ c).
Proof.
  intros p r p' Hp H. unfold match_ in H.
  destruct (Match c p) as [b q] eqn:Hm. injection H as <- <-.
  by eapply keeps_Match_eq.
Qed.

Lemma productions_preserve fuel :
  (forall ci, preserves I (ParseValue fuel ci))
  /\ (forall ci, preserves I (parseIdentifierOrIndentedObject fuel ci))
  /\ (forall ci, preserves I (ParseInlineObject fuel ci))
  /\ (forall ci o, preserves I (ParseInlineObject_loop fuel ci o))
  /\ (forall bi o pi, preserves I (ParseIndentedObjectBody fuel bi o pi))
  /\ (forall pi, preserves I (ParseArray fuel pi))
  /\ (forall ai a, preserves I (ParseArray_multiline fuel ai a))
  /\ (forall pi a, preserves I (ParseArray_inline fuel pi a)).
Proof.
  induction fuel as [|fuel (IH1 & IH2 & IH3 & IH4 & IH5 & IH6 & IH7 & IH8)].
  { repeat (split; [intros; apply preserves_out_of_fuel|]).
    intros. apply preserves_out_of_fuel. }
  split; [|split; [|split; [|split; [|split; [|split; [|split]]]]]]; intros;
    [ cbn [ParseValue]
    | cbn [parseIdentifierOrIndentedObject]; apply I_rewind
    | cbn [ParseInlineObject] | cbn [ParseInlineObject_loop]
    | cbn [ParseIndentedObjectBody] | cbn [ParseArray]
    | cbn [ParseArray_multiline] | cbn [ParseArray_inline] ];
    repeat first
      [ progress cbv zeta
      | apply preserves_ret | apply preserves_fail | apply preserves_ask
      | apply preserves_match | apply preserves_NextContentLine
      | apply preserves_run;
        first [ apply keeps_SkipWhitespaceAndComments
              | apply keeps_SkipInlineSpaces | apply keeps_SkipToEOL
              | apply keeps_consume_eol | apply keeps_advance
              | intros ? ?; destruct (_ =c= _);
                first [ by apply keeps_advance | by apply keeps_SkipToEOL
                      | by apply keeps_consume_eol | done ] ]
      | apply preserves_total;
        first [ apply keeps_ParseStringOrTriple
              | apply (keeps_ParseQuoted SQ)
              | apply keeps_ParseNumber
              | apply keeps_ParseKey ]
      | apply IH1 | apply IH2 | apply IH3 | apply IH4 | apply IH5
      | apply IH6 | apply IH7 | apply IH8
      | apply preserves_if
      | apply preserves_bind; [|intros ?] ].
Qed.

End Invariant.

(** *** The position of the cursor *)

Lemma tracks_failed src base c msg p :
  tracks src base p -> tracks src base (Fail c msg p).
Proof. by apply tracks_fields. Qed.

Lemma tracks_set_indent_unit src base u p :
  tracks src base p -> tracks src base (set_indent_unit u p).
Proof. by apply tracks_fields. Qed.

Lemma tracks_set_indent_stack src base st p :
  tracks src base p -> tracks src base (set_indent_stack st p).
Proof. by apply tracks_fields. Qed.

Lemma tracks_ApplyIndentLevel src base cols p :
  tracks src base p -> tracks src base (snd (ApplyIndentLevel cols p)).
Proof.
  intros H. unfold ApplyIndentLevel.
  destruct (_ <? _); [by apply tracks_set_indent_stack|].
  destruct (_ <? _); [|done].
  destruct (pop_while_less _ _) as [|top st];
    [by apply tracks_failed, tracks_set_indent_stack|].
  destruct (negb _); [by apply tracks_failed, tracks_set_indent_stack|].
  by apply tracks_set_indent_stack.
Qed.

Lemma tracks_back_here src base n p : tracks_back src base n p -> tracks src base p.
Proof.
  intros H. specialize (H 0%nat ltac:(lia)).
  eapply tracks_fields; [| | | |exact H]; simpl; lia || done.
Qed.

Lemma tracks_back_start src base p : tracks src base p -> tracks_back src base 0 p.
Proof.
  intros H k Hk. assert (k = 0%nat) as -> by lia.
  eapply tracks_fields; [| | | |exact H]; simpl; lia || done.
Qed.

Lemma tracks_back_Get src base n p :
  tracks_back src base n p -> EndOfFile p = false -> (Peek p =c= LF) = false ->
  tracks_back src base (S n) (snd (Get p)).
Proof.
  intros H Heof Hlf.
  destruct (Get_cases p) as [[He _]|(c & _ & Hget & Hpeek & Hg)]; [congruence|].
  rewrite Hg. simpl. rewrite Hpeek in Hlf. intros [|k] Hk.
  - apply tracks_back_start; [|lia]. apply tracks_after_char; [|done].
    by eapply tracks_back_here.
  - specialize (H k ltac:(lia)).
    eapply tracks_fields; [| | | |exact H]; unfold after_char; rewrite Hlf; simpl;
      lia || done.
Qed.

Lemma tracks_back_read_identifier src base n :
  forall ident p,
    tracks_back src base (String.length ident) p ->
    tracks_back src base (String.length (fst (read_identifier n ident p)))
      (snd (read_identifier n ident p)).
Proof.
  induction n as [|n IH]; intros ident p H; simpl; [done|].
  destruct (IsIdentifierChar (Peek p)) eqn:Hid; [|done].
  assert (EndOfFile p = false /\ (Peek p =c= LF) = false) as [Heof Hlf].
  { destruct (rest_cases p) as [(_ & Hp & _)|(c & r & _ & Hp & He & _)].
    - by rewrite Hp in Hid.
    - split; [done|]. destruct (Peek p =c= LF) eqn:E; [|done].
      apply Ascii.eqb_eq in E. by rewrite E in Hid. }
  pose proof (tracks_back_Get src base _ p H Heof Hlf) as H1.
  destruct (Get p) as [c q]. simpl in H1. apply IH.
  unfold push_back. rewrite append_length. simpl.
  by rewrite Nat.add_1_r.
Qed.

Lemma tracks_back_SkipInlineSpaces src base n p :
  tracks_back src base n p -> tracks_back src base n (SkipInlineSpaces p).
Proof.
  unfold SkipInlineSpaces. generalize (remaining p). intros m. revert p.
  induction m as [|m IH]; intros p H; simpl; [done|].
  destruct ((Peek p =c= SP) || (Peek p =c= TAB)) eqn:Hsp; [|done].
  assert (EndOfFile p = false /\ (Peek p =c= LF) = false) as [Heof Hlf].
  { destruct (rest_cases p) as [(_ & Hp & _)|(c & r & _ & Hp & He & _)].
    - by rewrite Hp in Hsp.
    - split; [done|]. destruct (Peek p =c= LF) eqn:E; [|done].
      apply Ascii.eqb_eq in E. by rewrite E in Hsp. }
  apply IH. pose proof (tracks_back_Get src base _ p H Heof Hlf) as H1.
  intros k Hk. apply H1. lia.
Qed.

Lemma preserves_identifier_or_object src base (body : M Object) :
  preserves (tracks src base) body ->
  preserves (tracks src base)
    (ident <- (fun p => Some (let (i, p) := read_identifier (remaining p) "" p in
                              (ROk i, p))) ;;
     run SkipInlineSpaces ;;;
     c <- peek ;;
     if c =c= ":"
     then
       run (fun p => set_cursor (mPos p - String.length ident) (mLine p)
                       (mCol p - String.length ident) p) ;;;
       object <- body ;;
       ret (VObject object)
     else if String.eqb ident "true" then ret (VBool true)
     else if String.eqb ident "false" then ret (VBool false)
     else if String.eqb ident "null" then ret VNull
     else ret (VString ident)).
Proof.
  intros Hbody p r p' Hp H. unfold bind at 1 in H.
  pose proof (tracks_back_read_identifier src base (remaining p) "" p
                (tracks_back_start _ _ _ Hp)) as Hid.
  destruct (read_identifier (remaining p) "" p) as [ident p1]. simpl in Hid.
  apply tracks_back_SkipInlineSpaces in Hid.
  unfold bind at 1, run at 1 in H. unfold bind at 1, peek, ask in H.
  destruct (Peek (SkipInlineSpaces p1) =c= ":").
  - unfold bind at 1, run at 1 in H.
    eapply (preserves_bind _ body (fun object => ret (VObject object)));
      [exact Hbody|intros; apply preserves_ret| |exact H].
    by apply Hid.
  - apply tracks_back_here in Hid.
    repeat destruct (String.eqb _ _); by injection H as <- <-.
Qed.

Lemma productions_track src base fuel :
  (forall ci, preserves (tracks src base) (ParseValue fuel ci))
  /\ (forall ci, preserves (tracks src base) (parseIdentifierOrIndentedObject fuel ci))
  /\ (forall ci, preserves (tracks src base) (ParseInlineObject fuel ci))
  /\ (forall ci o, preserves (tracks src base) (ParseInlineObject_loop fuel ci o))
  /\ (forall bi o pi,
         preserves (tracks src base) (ParseIndentedObjectBody fuel bi o pi))
  /\ (forall pi, preserves (tracks src base) (ParseArray fuel pi))
  /\ (forall ai a, preserves (tracks src base) (ParseArray_multiline fuel ai a))
  /\ (forall pi a, preserves (tracks src base) (ParseArray_inline fuel pi a)).
Proof.
  apply productions_preserve.
  - apply tracks_Get.
  - apply tracks_failed.
  - apply tracks_set_indent_unit.
  - intros cols p _. apply tracks_ApplyIndentLevel.
  - apply preserves_identifier_or_object.
Qed.

Lemma tracks_start src :
  tracks src (if has_bom src then 3 else 0)%nat
    (let p := set_error Error_default (Parser_new src) in
     if has_bom src then set_cursor 3 1 1 p else p).
Proof.
  destruct (has_bom src) eqn:Hbom.
  - unfold has_bom in Hbom. apply andb_true_iff in Hbom as [Hlen _].
    apply Nat.leb_le in Hlen. split; [done|]. simpl. split; [lia|done].
  - split; [done|]. simpl. split; [lia|done].
Qed.

(** X8: when [Parse] fails on well-formed UTF-8, the location it reports
    is the position of the cursor where the parser stopped: the line is
    one more than the number of line feeds before the cursor, the column
    is one more than the number of bytes behind the last of them (counted
    from behind the byte-order mark, if there is one). *)
Theorem Parse_location_is_cursor_position (fuel : nat) (src : string)
    (out : Value) (e0 : Error) (r : ParseResult) :
  Parse fuel src out (Some e0) = Some r ->
  pr_code r <> OK -> pr_code r <> InvalidUtf8 ->
  exists e,
    pr_error r = Some e
    /\ let base := (if has_bom src then 3 else 0)%nat in
       let offset := mPos (pr_parser r) in
       (base <= offset <= String.length src)%nat
       /\ (line (where_ e), column (where_ e))
          = position_at (substr_from base src) (offset - base) 1 1.
Proof.
  unfold Parse, Parser_Parse. intros H Hok Hutf.
  destruct (negb (utf8_ok _)); [by injection H as <-|].
  pose proof (tracks_start src) as Hstart. cbv zeta in Hstart.
  cbn [mSrc Parser_new set_error] in H.
  apply (keeps_SkipWhitespaceAndComments _ (tracks_Get src _)) in Hstart.
  match type of H with
  | match ?parsed with _ => _ end = _ => destruct parsed as [[[v|ec] q]|] eqn:Hparsed
  end; [| |discriminate H].
  - assert (tracks src (if has_bom src then 3 else 0)%nat q) as Hq.
    { destruct (EndOfFile _); [by injection Hparsed as <- <-|].
      by eapply (proj1 (productions_track src _ fuel)). }
    apply (keeps_skip_trailing _ (tracks_Get src _) (remaining q)) in Hq.
    apply (tracks_set_indent_stack src _ [0]) in Hq.
    destruct (negb _); injection H as <-; [|done].
    eexists. split; [reflexivity|]. destruct Hq as (_ & Hpos & Hlc).
    cbv zeta. split; [exact Hpos|]. exact Hlc.
  - injection H as <-.
    assert (tracks src (if has_bom src then 3 else 0)%nat q /\ records ec q)
      as [(_ & Hpos & Hlc) (Hcode & Hnot & Hwhere)].
    { destruct (EndOfFile _); [discriminate Hparsed|]. split.
      - by eapply (proj1 (productions_track src _ fuel)).
      - by eapply (proj1 (productions_coherent fuel)). }
    eexists. split; [reflexivity|]. cbv zeta. split; [exact Hpos|].
    simpl. rewrite <- Hlc.
    destruct (code (mError q)); simpl; by rewrite ?Hwhere.
Qed.

Lemma Parse_location_is_cursor_position_witness :
  exists r e,
    Parse 8 ("[1," +:+ nl +:+ "  ?]") VNull (Some Error_default) = Some r
    /\ pr_error r = Some e
    /\ (0 <= mPos (pr_parser r) <= 8)%nat
    /\ (line (where_ e), column (where_ e)) = (2%nat, 3%nat).
Proof.
  assert (exists r, Parse 8 ("[1," +:+ nl +:+ "  ?]") VNull (Some Error_default)
                    = Some r /\ mPos (pr_parser r) = 6%nat
                    /\ pr_code r = UnexpectedChar) as (r & H & Hpos & Hcode).
  { vm_compute. eexists. split; [reflexivity|]. split; reflexivity. }
  destruct (Parse_location_is_cursor_position 8 _ VNull Error_default r H)
    as (e & He & Hrange & Hwhere).
  - rewrite Hcode. discriminate.
  - rewrite Hcode. discriminate.
  - exists r, e. split; [exact H|]. split; [exact He|].
    split; [exact Hrange|]. rewrite Hwhere, Hpos. reflexivity.
Defined.

(** ** White space and comments *)

Lemma remaining_advance p :
  (remaining (advance p) <= remaining p)%nat
  /\ (EndOfFile p = false -> remaining (advance p) < remaining p)%nat.
Proof.
  rewrite !remaining_rest.
  destruct (rest_cases p) as [(Hr & _ & He)|(c & r & Hr & _ & He & _ & Ha & Hr')].
  - unfold advance, Get. rewrite He. simpl. split; [lia|]. congruence.
  - rewrite Ha, Hr', Hr. simpl. split; intros; lia.
Qed.

Lemma remaining_SkipToEOL_loop n :
  forall p,
    (remaining (SkipToEOL_loop n p) <= remaining p)%nat
    /\ (EndOfFile p = false -> (0 < n)%nat ->
        remaining (SkipToEOL_loop n p) < remaining p)%nat.
Proof.
  induction n as [|n IH]; intros p; simpl; [split; intros; lia|].
  destruct (EndOfFile p) eqn:He; [split; [lia|congruence]|].
  pose proof (remaining_advance p) as [_ Hlt]. specialize (Hlt He).
  unfold advance in Hlt. destruct (Get p) as [c q]. simpl in Hlt.
  destruct (c =c= LF); [split; intros; lia|].
  destruct (IH q) as [Hle _]. split; intros; lia.
Qed.

Lemma SkipWhitespaceAndComments_loop_stops n :
  forall p,
    (remaining p <= n)%nat ->
    EndOfFile (SkipWhitespaceAndComments_loop n p) = true
    \/ is_skipped (Peek (SkipWhitespaceAndComments_loop n p)) = false.
Proof.
  induction n as [|n IH]; intros p Hn; simpl.
  - left. unfold EndOfFile, remaining in *. apply Nat.leb_le. lia.
  - destruct (EndOfFile p) eqn:He; [by left|].
    pose proof (remaining_advance p) as [_ Hadv]. specialize (Hadv He).
    destruct ((Peek p =c= SP) || (Peek p =c= TAB)) eqn:E1; [apply IH; lia|].
    destruct (Peek p =c= HASH) eqn:E2.
    { apply IH. destruct (remaining_SkipToEOL_loop (remaining p) p) as [_ Hlt].
      unfold SkipToEOL. specialize (Hlt He). lia. }
    destruct (Peek p =c= CR) eqn:E3.
    { apply IH. destruct (_ =c= LF); [|lia].
      pose proof (remaining_advance (advance p)) as [Hle _]. lia. }
    destruct (Peek p =c= LF) eqn:E4; [apply IH; lia|].
    right. unfold is_skipped. apply orb_false_iff in E1 as [-> ->].
    by rewrite E2, E3, E4.
Qed.

Lemma EndOfFile_rest p : rest p = "" -> EndOfFile p = true.
Proof.
  intros H. destruct (rest_cases p) as [(_ & _ & He)|(c & r & Hr & _)]; [done|].
  by rewrite Hr in H.
Qed.

Lemma SkipToEOL_loop_prefix n :
  forall p,
    (remaining p <= n)%nat ->
    exists pc,
      rest p = pc +:+ rest (SkipToEOL_loop n p)
      /\ forall t e, (rest (SkipToEOL_loop n p) = "" -> t = "" /\ e = true) ->
                     skipped_text true e (pc +:+ t) = skipped_text false e t.
Proof.
  induction n as [|n IH]; intros p Hn; simpl.
  - exists "". rewrite append_empty_l. split; [done|]. intros t e Ht.
    rewrite append_empty_l. destruct Ht as [-> ->]; [|done].
    rewrite remaining_rest in Hn. by destruct (rest p); [|simpl in Hn; lia].
  - destruct (rest_cases p) as [(Hr & _ & He)|(c & r & Hr & _ & He & Hg & _ & Hr')];
      rewrite He.
    + exists "". rewrite append_empty_l. split; [done|]. intros t e Ht.
      rewrite append_empty_l. by destruct Ht as [-> ->].
    + rewrite Hg. rewrite remaining_rest, Hr in Hn. simpl in Hn.
      destruct (c =c= LF) eqn:E.
      * exists (str1 c). unfold str1. rewrite append_String, append_empty_l, Hr'.
        split; [done|]. intros t e _. rewrite append_String, append_empty_l.
        simpl. by rewrite E.
      * destruct (IH (after_char c p)) as (pc & Hpc & Hblank);
          [rewrite remaining_rest, Hr'; lia|].
        exists (String c pc). rewrite append_String, <- Hpc, Hr'. split; [done|].
        intros t e Ht. rewrite append_String. simpl. rewrite E. by apply Hblank.
Qed.

Lemma skipped_text_skipped c s e :
  (c =c= SP) || (c =c= TAB) || (c =c= CR) || (c =c= LF) = true ->
  skipped_text false e (String c s) = skipped_text false e s.
Proof. intros H. simpl. by rewrite H. Qed.

Lemma SkipWhitespaceAndComments_loop_prefix n :
  forall p,
    (remaining p <= n)%nat ->
    exists pre,
      rest p = pre +:+ rest (SkipWhitespaceAndComments_loop n p)
      /\ skipped_text false (EndOfFile (SkipWhitespaceAndComments_loop n p)) pre
         = true.
Proof.
  induction n as [|n IH]; intros p Hn; simpl.
  { exists "". by rewrite append_empty_l. }
  destruct (rest_cases p) as [(Hr & _ & He)|(c & r & Hr & Hp & He & _ & Ha & Hr')];
    rewrite He; [exists ""; by rewrite append_empty_l|].
  rewrite Hp. pose proof Hn as Hn'. rewrite remaining_rest, Hr in Hn'. simpl in Hn'.
  assert (remaining p = S (String.length r)) as Hrem
    by (by rewrite remaining_rest, Hr).
  assert ((c =c= SP) || (c =c= TAB) || (c =c= CR) || (c =c= LF) = true ->
          exists pre,
            rest p = pre +:+ rest (SkipWhitespaceAndComments_loop n (after_char c p))
            /\ skipped_text false
                 (EndOfFile (SkipWhitespaceAndComments_loop n (after_char c p))) pre
               = true) as Hone.
  { intros Hc. destruct (IH (after_char c p)) as (pre & Hpre & Hblank);
      [rewrite remaining_rest, Hr'; lia|].
    exists (String c pre). rewrite append_String, <- Hpre, Hr'. split; [done|].
    by rewrite skipped_text_skipped. }
  destruct ((c =c= SP) || (c =c= TAB)) eqn:E1.
  { rewrite Ha. apply Hone. by rewrite ?E1. }
  destruct (c =c= HASH) eqn:E2.
  { destruct (SkipToEOL_loop_prefix (remaining p) p) as (pc & Hpc & Hcomment); [lia|].
    fold (SkipToEOL p) in Hpc, Hcomment.
    destruct (remaining_SkipToEOL_loop (remaining p) p) as [_ Hlt].
    fold (SkipToEOL p) in Hlt. specialize (Hlt He).
    destruct (IH (SkipToEOL p)) as (pre & Hpre & Hblank); [lia|].
    exists (pc +:+ pre). rewrite append_assoc, <- Hpre. split; [done|].
    specialize (Hcomment pre
                  (EndOfFile (SkipWhitespaceAndComments_loop n (SkipToEOL p)))).
    destruct pc as [|d pc]; [by rewrite append_empty_l|].
    rewrite Hr, append_String in Hpc. injection Hpc as <- _.
    apply Ascii.eqb_eq in E2. clear Hp Ha. subst c.
    rewrite append_String in Hcomment |- *.
    match goal with
    | |- skipped_text false ?e (String HASH ?t) = true =>
        change (skipped_text false e (String HASH t))
          with (skipped_text true e (String HASH t))
    end.
    rewrite Hcomment; [done|].
    intros Hempty. rewrite Hempty in Hpre.
    destruct pre; [|done]. split; [done|].
    apply EndOfFile_rest. by rewrite append_empty_l in Hpre. }
  destruct (c =c= CR) eqn:E3.
  { rewrite Ha. destruct (Peek (after_char c p) =c= LF) eqn:E5.
    - destruct (rest_cases (after_char c p))
        as [(Hr2 & Hp2 & _)|(c2 & r2 & Hr2 & Hp2 & _ & _ & Ha2 & Hr2')].
      + by rewrite Hp2 in E5.
      + rewrite Ha2. rewrite Hp2 in E5.
        destruct (IH (after_char c2 (after_char c p))) as (pre & Hpre & Hblank).
        { rewrite remaining_rest, Hr2'. rewrite Hr' in Hr2. subst r.
          rewrite Hr2 in Hn'. simpl in Hn'. lia. }
        exists (String c (String c2 pre)).
        rewrite !append_String, <- Hpre, Hr2', <- Hr2, Hr'. split; [done|].
        rewrite !skipped_text_skipped; [done| |].
        * by rewrite ?E5, ?orb_true_r.
        * by rewrite ?E3, ?orb_true_r.
    - apply Hone. by rewrite ?E3, ?orb_true_r. }
  destruct (c =c= LF) eqn:E4.
  { rewrite Ha. apply Hone. by rewrite ?E4, ?orb_true_r. }
  exists "". by rewrite append_empty_l.
Qed.

(** X9: [SkipWhitespaceAndComments] consumes exactly a text of white space,
    line ends and whole comments: each comment it enters is consumed up to
    and with its line feed, the last one it may leave at the end of the
    text; and it stops at the end of the text or at a character that is
    none of these. *)
Theorem SkipWhitespaceAndComments_stops (p : Parser) :
  (exists pre,
      rest p = pre +:+ rest (SkipWhitespaceAndComments p)
      /\ skipped_text false (EndOfFile (SkipWhitespaceAndComments p)) pre = true)
  /\ (EndOfFile (SkipWhitespaceAndComments p) = true
      \/ is_skipped (Peek (SkipWhitespaceAndComments p)) = false).
Proof.
  split.
  - by apply SkipWhitespaceAndComments_loop_prefix.
  - by apply SkipWhitespaceAndComments_loop_stops.
Qed.

(** ** The indent stack *)

Lemma stack_ok_inv st :
  forall top,
    stack_ok (top :: st) ->
    0 <= top /\ Forall (fun b => b < top) st /\ (st = [] -> top = 0)
    /\ (st <> [] -> stack_ok st).
Proof.
  induction st as [|next st IH]; intros top H.
  - simpl in H. subst top. by repeat split.
  - destruct H as [Hlt Hok].
    destruct (IH next Hok) as (Hnext & Hall & _ & _).
    split; [lia|]. split; [|done].
    constructor; [done|]. eapply Forall_impl; [exact Hall|]. simpl. lia.
Qed.

Lemma pop_while_less_ok cols st :
  0 <= cols -> stack_ok st ->
  exists top rest,
    pop_while_less cols st = top :: rest
    /\ stack_ok (top :: rest) /\ top <= cols
    /\ (cols ∈ st <-> top = cols).
Proof.
  intros Hc. induction st as [|top st IH]; intros Hok; [done|].
  destruct (stack_ok_inv _ _ Hok) as (Htop & Hall & Hnil & Hrest).
  simpl. destruct (Z.ltb_spec cols top) as [Hlt|Hge].
  - assert (st <> []) as Hne by (intros ->; specialize (Hnil eq_refl); lia).
    destruct (IH (Hrest Hne)) as (t & r & -> & Hok' & Hle & Hin).
    exists t, r. repeat split; try done.
    + intros Hel. apply elem_of_cons in Hel as [->|Hel]; [lia|]. by apply Hin.
    + intros Ht. apply elem_of_cons. right. by apply Hin.
  - exists top, st. repeat split; try done.
    + intros Hel. apply elem_of_cons in Hel as [->|Hel]; [done|].
      rewrite Forall_forall in Hall. specialize (Hall _ Hel). lia.
    + intros ->. by left.
Qed.

Lemma ApplyIndentLevel_spec cols p :
  0 <= cols -> stack_ok (mIndentStack p) ->
  match ApplyIndentLevel cols p with
  | (ROk _, p') =>
      (back (mIndentStack p) < cols \/ cols ∈ mIndentStack p)
      /\ stack_ok (mIndentStack p') /\ back (mIndentStack p') = cols
  | (RFail e, p') =>
      e = InconsistentIndent
      /\ ~ (back (mIndentStack p) < cols \/ cols ∈ mIndentStack p)
      /\ stack_ok (mIndentStack p')
  end.
Proof.
  intros Hc Hok. unfold ApplyIndentLevel.
  destruct (mIndentStack p) as [|top st] eqn:Hst; [done|].
  destruct (stack_ok_inv _ _ Hok) as (Htop & Hall & Hnil & Hrest).
  simpl back. destruct (Z.ltb_spec top cols) as [Hlt|Hge].
  - simpl. split; [by left|]. split; [|done]. by split.
  - destruct (Z.ltb_spec cols top) as [Hlt|Hge'].
    + destruct (pop_while_less_ok cols (top :: st) Hc Hok)
        as (t & r & -> & Hok' & Hle & Hin).
      destruct (Z.eqb_spec t cols) as [->|Hne]; simpl.
      * split; [right; by apply Hin|]. done.
      * split; [done|]. split; [|done]. intros [?|Hel]; [lia|]. by apply Hne, Hin.
    + assert (top = cols) as -> by lia. simpl. rewrite Hst.
      split; [right; by left|]. done.
Qed.

(** X10: on an indent stack that is strictly increasing from [0],
    [ApplyIndentLevel] succeeds exactly when the indent is deeper than the
    top or is a level on the stack; the top is then that indent.  It fails
    with [InconsistentIndent] otherwise, and the stack stays strictly
    increasing from [0] in both cases. *)
Theorem ApplyIndentLevel_levels (indentCols : Z) (p : Parser) :
  0 <= indentCols -> stack_ok (mIndentStack p) ->
  match ApplyIndentLevel indentCols p with
  | (ROk _, p') =>
      (back (mIndentStack p) < indentCols \/ indentCols ∈ mIndentStack p)
      /\ stack_ok (mIndentStack p') /\ back (mIndentStack p') = indentCols
  | (RFail e, p') =>
      e = InconsistentIndent
      /\ ~ (back (mIndentStack p) < indentCols \/ indentCols ∈ mIndentStack p)
      /\ stack_ok (mIndentStack p')
  end.
Proof. apply ApplyIndentLevel_spec. Qed.

Lemma stack_ok_example : stack_ok [4; 2; 0].
Proof. simpl. lia. Defined.

Lemma ApplyIndentLevel_levels_witness :
  match ApplyIndentLevel 3 (set_indent_stack [4; 2; 0] (Parser_new "")) with
  | (ROk _, p') => False
  | (RFail e, p') => e = InconsistentIndent /\ mIndentStack p' = [2; 0]
  end.
Proof.
  pose proof (ApplyIndentLevel_levels 3 (set_indent_stack [4; 2; 0] (Parser_new ""))
                ltac:(lia) stack_ok_example) as H.
  simpl in H. destruct H as (He & _ & _). simpl. done.
Defined.

Lemma stack_Get p :
  stack_ok (mIndentStack p) -> stack_ok (mIndentStack (snd (Get p))).
Proof.
  intros H. unfold Get. destruct (EndOfFile p); [done|].
  by destruct (_ =c= LF).
Qed.

Lemma stack_ApplyIndentLevel cols p :
  0 <= cols -> stack_ok (mIndentStack p) ->
  stack_ok (mIndentStack (snd (ApplyIndentLevel cols p))).
Proof.
  intros Hc Hok. pose proof (ApplyIndentLevel_spec cols p Hc Hok) as H.
  destruct (ApplyIndentLevel cols p) as [[[]|e] p']; simpl; tauto.
Qed.

Lemma stack_rewind (body : M Object) :
  preserves (fun p => stack_ok (mIndentStack p)) body ->
  preserves (fun p => stack_ok (mIndentStack p))
    (ident <- (fun p => Some (let (i, p) := read_identifier (remaining p) "" p in
                              (ROk i, p))) ;;
     run SkipInlineSpaces ;;;
     c <- peek ;;
     if c =c= ":"
     then
       run (fun p => set_cursor (mPos p - String.length ident) (mLine p)
                       (mCol p - String.length ident) p) ;;;
       object <- body ;;
       ret (VObject object)
     else if String.eqb ident "true" then ret (VBool true)
     else if String.eqb ident "false" then ret (VBool false)
     else if String.eqb ident "null" then ret VNull
     else ret (VString ident)).
Proof.
  intros Hbody. apply preserves_bind.
  { intros p r p' Hp H.
    pose proof (keeps_read_identifier _ stack_Get (remaining p) "" p Hp) as H1.
    destruct (read_identifier _ _ _). by injection H as <- <-. }
  intros ident. apply preserves_bind.
  { apply preserves_run. apply (keeps_SkipInlineSpaces _ stack_Get). }
  intros _. apply preserves_bind; [apply preserves_ask|]. intros c.
  apply preserves_if.
  - apply preserves_bind; [by apply preserves_run|]. intros _.
    apply preserves_bind; [done|]. intros. apply preserves_ret.
  - repeat apply preserves_if; apply preserves_ret.
Qed.

Lemma productions_keep_stack fuel :
  (forall ci, preserves (fun p => stack_ok (mIndentStack p)) (ParseValue fuel ci))
  /\ preserves (fun p => stack_ok (mIndentStack p)) (NextContentLine fuel).
Proof.
  split.
  - apply (productions_preserve (fun p => stack_ok (mIndentStack p)));
      first [ apply stack_Get | apply stack_ApplyIndentLevel | apply stack_rewind
            | done ].
  - apply (preserves_NextContentLine (fun p => stack_ok (mIndentStack p)));
      first [ apply stack_Get | apply stack_ApplyIndentLevel | done ].
Qed.

(** X11: the indent stack of a fresh parser is strictly increasing from
    [0], and [NextContentLine] and [ParseValue] keep it so, whatever they
    return: the stack is never empty, so its top is always defined. *)
Theorem indent_stack_invariant (fuel : nat) :
  (forall src, stack_ok (mIndentStack (Parser_new src)))
  /\ (forall p r p',
         stack_ok (mIndentStack p) ->
         NextContentLine fuel p = Some (r, p') ->
         stack_ok (mIndentStack p') /\ mIndentStack p' <> [])
  /\ (forall currentIndent p r p',
         stack_ok (mIndentStack p) ->
         ParseValue fuel currentIndent p = Some (r, p') ->
         stack_ok (mIndentStack p') /\ mIndentStack p' <> []).
Proof.
  destruct (productions_keep_stack fuel) as [Hvalue Hnext].
  assert (forall st, stack_ok st -> st <> []) as Hne by (by intros []).
  split; [done|]. split.
  - intros p r p' Hp H. split; [|apply Hne]; by eapply Hnext.
  - intros ci p r p' Hp H. split; [|apply Hne]; by eapply Hvalue.
Qed.

Lemma indent_stack_invariant_witness :
  exists r p',
    ParseValue 8 0 (Parser_new doc_three_space_sibling) = Some (r, p')
    /\ stack_ok (mIndentStack p') /\ mIndentStack p' <> [].
Proof.
  destruct (ParseValue 8 0 (Parser_new doc_three_space_sibling))
    as [[r p']|] eqn:H; [|vm_compute in H; discriminate H].
  exists r, p'. split; [reflexivity|].
  apply (proj2 (proj2 (indent_stack_invariant 8)) 0
           (Parser_new doc_three_space_sibling) r p'); [|exact H].
  simpl. reflexivity.
Defined.

(** ** The canonical writer: the order of the keys *)

Lemma ltb_trans (a b c : string) :
  String.ltb a b = true -> String.ltb b c = true -> String.ltb a c = true.
Proof.
  unfold String.ltb. intros Hab Hbc.
  destruct (String.compare a b) eqn:Eab; try discriminate Hab.
  destruct (String.compare b c) eqn:Ebc; try discriminate Hbc.
  apply OrderedTypeEx.String_as_OT.cmp_lt in Eab, Ebc.
  pose proof (OrderedTypeEx.String_as_OT.lt_trans _ _ _ Eab Ebc) as Hac.
  apply OrderedTypeEx.String_as_OT.cmp_lt in Hac.
  unfold OrderedTypeEx.String_as_OT.cmp in Hac. by rewrite Hac.
Qed.

Lemma ltb_irrefl (a : string) : String.ltb a a = false.
Proof.
  unfold String.ltb. pose proof (String.compare_antisym a a) as H.
  by destruct (String.compare a a).
Qed.

Lemma ltb_total (a b : string) :
  String.ltb a b = false -> a <> b -> String.ltb b a = true.
Proof.
  unfold String.ltb. intros Hab Hne. rewrite String.compare_antisym.
  destruct (String.compare a b) eqn:E; try done.
  by apply String.compare_eq_iff in E.
Qed.

Lemma insert_by_key_perm {X} (x : string * X) l : insert_by_key x l ≡ₚ x :: l.
Proof.
  induction l as [|y l IH]; simpl; [done|].
  destruct (String.ltb _ _); [|done]. rewrite IH. apply Permutation_swap.
Qed.

Lemma sort_by_key_perm {X} (l : list (string * X)) : sort_by_key l ≡ₚ l.
Proof.
  induction l as [|x l IH]; simpl; [done|]. by rewrite insert_by_key_perm, IH.
Qed.

Lemma insert_by_key_sorted {X} (x : string * X) l :
  StronglySorted key_lt l -> fst x ∉ map fst l ->
  StronglySorted key_lt (insert_by_key x l).
Proof.
  induction 1 as [|y l Hl IH Hy]; intros Hnot; simpl.
  - by repeat constructor.
  - apply not_elem_of_cons in Hnot as [Hne Hnot].
    destruct (String.ltb (fst y) (fst x)) eqn:E.
    + constructor; [by apply IH|].
      rewrite insert_by_key_perm. by constructor.
    + apply ltb_total in E; [|done].
      constructor; [by constructor|]. constructor; [done|].
      eapply Forall_impl; [exact Hy|]. intros z Hz. by eapply ltb_trans.
Qed.

Lemma sort_by_key_sorted {X} (l : list (string * X)) :
  NoDup (map fst l) -> StronglySorted key_lt (sort_by_key l).
Proof.
  induction l as [|x l IH]; simpl; intros Hnd; [constructor|].
  apply NoDup_cons in Hnd as [Hx Hnd].
  apply insert_by_key_sorted; [by apply IH|].
  by rewrite sort_by_key_perm.
Qed.

Lemma key_lt_antisymm {X} : AntiSymm eq (@key_lt X).
Proof.
  intros a b Hab Hba. unfold key_lt in *.
  pose proof (ltb_trans _ _ _ Hab Hba) as H. by rewrite ltb_irrefl in H.
Qed.

Lemma OrderedObjectItems_keys {B} (f : Value -> B) (o : Object) :
  NoDup (map fst (OrderedObjectItems f o false)).
Proof.
  rewrite OrderedObjectItems_unsorted, map_map. simpl.
  apply (NoDup_fst_map_to_list o).
Qed.

(** X12: with [sortKeys], [OrderedObjectItems] lists the entries of the
    object, each once, by strictly ascending key, and the list does not
    depend on the order in which the map is iterated: sorting any
    arrangement of the entries gives the same list. *)
Theorem OrderedObjectItems_sorted {B} (f : Value -> B) (o : Object) :
  OrderedObjectItems f o true ≡ₚ OrderedObjectItems f o false
  /\ StronglySorted key_lt (OrderedObjectItems f o true)
  /\ forall l,
       l ≡ₚ OrderedObjectItems f o false ->
       sort_by_key l = OrderedObjectItems f o true.
Proof.
  assert (OrderedObjectItems f o true = sort_by_key (OrderedObjectItems f o false))
    as -> by done.
  pose proof (OrderedObjectItems_keys f o) as Hnd.
  split; [apply sort_by_key_perm|]. split; [by apply sort_by_key_sorted|].
  intros l Hl. apply (@StronglySorted_unique _ key_lt key_lt_antisymm).
  - apply sort_by_key_sorted. by rewrite Hl.
  - by apply sort_by_key_sorted.
  - by rewrite !sort_by_key_perm.
Qed.

Lemma OrderedObjectItems_sorted_witness :
  sort_by_key [("b", VBool false); ("a", VBool true)]
  = OrderedObjectItems (fun v => v) (<["b" := VBool false]> {["a" := VBool true]}) true.
Proof.
  apply (OrderedObjectItems_sorted (fun v => v)
           (<["b" := VBool false]> {["a" := VBool true]})).
  vm_compute. first [reflexivity | apply Permutation_swap].
Defined.

(** ** The canonical writer: what is written stays *)


(** ** The inline writer writes one line *)

Lemma contains_char_app c a b :
  contains_char c (a +:+ b) = contains_char c a || contains_char c b.
Proof.
  induction a as [|d a IH]; [done|]. rewrite append_String. simpl.
  by rewrite IH, orb_assoc.
Qed.

Lemma contains_char_substring c s :
  forall n m, contains_char c s = false -> contains_char c (substring n m s) = false.
Proof.
  induction s as [|d s IH]; intros n m H; [by destruct n, m|].
  simpl in H. apply orb_false_iff in H as [Hd Hs].
  destruct n as [|n]; [|by apply IH].
  destruct m as [|m]; [done|]. simpl. by rewrite Hd, IH.
Qed.

Lemma dec_digits_no_lf n :
  forall z acc, contains_char LF acc = false ->
                contains_char LF (dec_digits n z acc) = false.
Proof.
  induction n as [|n IH]; intros z acc Hacc; simpl; [done|].
  assert (contains_char LF (String (to_char (uchar "0" + z mod 10)) acc) = false)
    as Hnew.
  { simpl. rewrite Hacc, orb_false_r.
    pose proof (Z.mod_pos_bound z 10 ltac:(lia)) as Hm.
    apply Ascii.eqb_neq. intros Heq.
    apply (f_equal uchar) in Heq.
    rewrite uchar_to_char in Heq by (change (uchar "0") with 48; lia).
    change (uchar "0") with 48 in Heq. change (uchar LF) with 10 in Heq. lia. }
  destruct (_ =? 0); [done|by apply IH].
Qed.

Lemma to_string_no_lf d : contains_char LF (to_string d) = false.
Proof.
  assert (forall z, contains_char LF (dec_string z) = false) as Hdec
    by (intros z; by apply dec_digits_no_lf).
  destruct d as [s|s| |s m e]; simpl to_string;
    rewrite ?contains_char_app; [by destruct s|by destruct s|done|].
  rewrite Hdec, contains_char_substring by apply Hdec.
  by destruct s.
Qed.

Lemma WriteStringQuoted_no_lf value :
  contains_char LF (WriteStringQuoted value "") = false.
Proof.
  unfold WriteStringQuoted, push_back. rewrite WriteStringQuoted_chars_app.
  rewrite !contains_char_app, ?append_empty_l. simpl. rewrite ?orb_false_r.
  induction value as [|c r IH]; [done|].
  rewrite WriteStringQuoted_chars_cons, contains_char_app, IH, orb_false_r.
  destruct (c =c= DQ); [done|]. destruct (c =c= BSL); [done|].
  destruct (c =c= LF) eqn:E; [done|]. destruct (c =c= CR); [done|].
  destruct (c =c= TAB); [done|]. simpl. by rewrite E.
Qed.

Lemma WriteKey_no_lf key : contains_char LF (WriteKey key "") = false.
Proof.
  unfold WriteKey. destruct (bareOK key) eqn:Hbare; [|apply WriteStringQuoted_no_lf].
  rewrite append_empty_l.
  destruct (bareOK_identifier key Hbare) as (c0 & r & -> & _ & Hall).
  revert Hall. generalize (String c0 r). clear.
  induction s as [|c s IH]; [done|]. simpl.
  intros H. apply andb_true_iff in H as [Hc Hs]. rewrite (IH Hs), orb_false_r.
  destruct (c =c= LF) eqn:E; [|done].
  apply Ascii.eqb_eq in E. by rewrite E in Hc.
Qed.

Lemma sep_concat_no_lf first sep ts :
  contains_char LF sep = false ->
  Forall (fun t => contains_char LF t = false) ts ->
  contains_char LF (sep_concat first sep ts) = false.
Proof.
  intros Hsep Hts. revert first.
  induction Hts as [|t ts Ht _ IH]; intros first; simpl; [done|].
  rewrite !contains_char_app, Ht, IH. by destruct first; rewrite ?Hsep.
Qed.

(** X14: [WriteValueInline] writes no line feed, whatever the value: the
    inline form is a single line. *)
Theorem WriteValueInline_single_line (options : WriteOptions) (value : Value) :
  contains_char LF (WriteValueInline value options "") = false.
Proof.
  induction value as [v IH] using value_size_ind.
  destruct v as [|b|d|s|a|o]; simpl.
  - done.
  - by destruct b.
  - rewrite append_empty_l. apply to_string_no_lf.
  - apply WriteStringQuoted_no_lf.
  - rewrite WriteValueInline_array_shape
      by (apply Forall_forall; intros; apply WriteValueInline_app).
    rewrite append_empty_l, !contains_char_app. simpl. rewrite orb_false_r.
    apply sep_concat_no_lf; [done|].
    apply Forall_forall. intros t Ht. apply list_elem_of_fmap in Ht as (e & -> & He).
    apply IH. pose proof (foldr_size_bound a e He). simpl. lia.
  - assert (Forall (fun it : string * (string -> string) =>
                      (forall out, snd it out = out +:+ snd it "")
                      /\ contains_char LF (snd it "") = false)
              (OrderedObjectItems (fun v => WriteValueInline v options) o
                 (sortObjectKeys options))) as Ho.
    { apply (OrderedObjectItems_Forall (fun v => WriteValueInline v options) o _
               (fun w => (forall out, w out = out +:+ w "")
                         /\ contains_char LF (w "") = false)).
      intros key v Hv. split; [intros; apply WriteValueInline_app|].
      apply IH. by eapply value_size_object. }
    rewrite WriteObject_braced_shape
      by (eapply Forall_impl; [exact Ho|]; by intros ? [? ?]).
    rewrite append_empty_l, !contains_char_app. simpl. rewrite orb_false_r.
    apply sep_concat_no_lf; [done|].
    apply Forall_forall. intros t Ht. apply list_elem_of_fmap in Ht as (it & -> & Hit).
    rewrite Forall_forall in Ho. destruct (Ho it Hit) as [_ Hno].
    rewrite !contains_char_app, WriteKey_no_lf, Hno. done.
Qed.

(** ** The JSON writer *)

Lemma JsonString_WriteStringQuoted value out :
  JsonString value out = WriteStringQuoted value out.
Proof.
  unfold JsonString, WriteStringQuoted.
  apply (f_equal (fun t => push_back t DQ)). generalize (push_back out DQ).
  induction value as [|c r IH]; intros o; simpl; [done|]. apply IH.
Qed.

Lemma JsonWrite_array_shape (write : Value -> string -> string) array out :
  Forall (fun e => forall o, write e o = o +:+ write e "") array ->
  JsonWrite_array write array out
  = out +:+ "[" +:+ join "," (map (fun e => write e "") array) +:+ "]".
Proof.
  intros H. unfold JsonWrite_array.
  rewrite (fold_left_pieces _
             (fun first e => (if first then "" else ",") +:+ write e "") array).
  - rewrite concat_pieces_sep. unfold push_back, str1, join.
    by rewrite !append_assoc.
  - eapply Forall_impl; [exact H|]. intros e He first o. cbv zeta beta iota.
    apply (f_equal (pair false)). etrans; [apply He|].
    destruct first; cbn [negb]; cbv iota; unfold push_back, str1;
      by rewrite ?append_empty_l, ?append_assoc.
Qed.

Lemma JsonWrite_object_shape (items : list (string * (string -> string))) out :
  Forall (fun it => forall o, snd it o = o +:+ snd it "") items ->
  JsonWrite_object items out
  = out +:+ "{"
    +:+ join "," (map (fun it => JsonString (fst it) "" +:+ ":" +:+ snd it "") items)
    +:+ "}".
Proof.
  intros H. unfold JsonWrite_object.
  rewrite (fold_left_pieces _
             (fun first it => (if first then "" else ",")
                              +:+ (JsonString (fst it) "" +:+ ":" +:+ snd it ""))
             items).
  - rewrite concat_pieces_sep. unfold push_back, str1, join.
    by rewrite !append_assoc.
  - eapply Forall_impl; [exact H|]. intros it Hit first o. cbv zeta beta iota.
    apply (f_equal (pair false)). etrans; [apply Hit|].
    rewrite !JsonString_WriteStringQuoted.
    rewrite (WriteStringQuoted_app (fst it)).
    destruct first; cbn [negb]; cbv iota; unfold push_back, str1;
      by rewrite ?append_empty_l, ?append_assoc.
Qed.

Lemma JsonWrite_app : forall v out, JsonWrite v out = out +:+ JsonWrite v "".
Proof.
  induction v as [v IH] using value_size_ind. intros out.
  destruct v as [|b|d|s|a|o]; simpl.
  - by rewrite append_empty_l.
  - by rewrite append_empty_l.
  - by rewrite append_empty_l.
  - rewrite !JsonString_WriteStringQuoted. apply WriteStringQuoted_app.
  - assert (Forall (fun e => forall o, JsonWrite e o = o +:+ JsonWrite e "") a) as Ha.
    { apply Forall_forall. intros e He. apply IH.
      pose proof (foldr_size_bound a e He). simpl. lia. }
    rewrite !(JsonWrite_array_shape _ a _ Ha). by rewrite append_empty_l.
  - assert (Forall (fun it : string * (string -> string) =>
                      forall out, snd it out = out +:+ snd it "")
              (OrderedObjectItems (fun v => JsonWrite v) o false)) as Ho.
    { apply (OrderedObjectItems_Forall (fun v => JsonWrite v) o _
               (fun w => forall out, w out = out +:+ w "")).
      intros key v Hv. apply IH. by eapply value_size_object. }
    rewrite !(JsonWrite_object_shape _ _ Ho). by rewrite append_empty_l.
Qed.

(** X15: [ToJsonString] is compositional: an array is its elements'
    texts between brackets, an object its entries as quoted key, colon and
    value between braces, each separated by one comma and nothing else; a
    string is quoted exactly as [WriteStringQuoted] quotes it, so
    [ParseStringDouble] reads it back; the writer only appends. *)
Theorem ToJsonString_shape :
  (forall array,
      ToJsonString (VArray array)
      = "[" +:+ join "," (map ToJsonString array) +:+ "]")
  /\ (forall object,
         ToJsonString (VObject object)
         = "{"
           +:+ join ","
                 (map (fun kv => JsonString (fst kv) "" +:+ ":"
                                 +:+ ToJsonString (snd kv))
                    (map_to_list object))
           +:+ "}")
  /\ (forall s, ToJsonString (VString s) = WriteStringQuoted s "")
  /\ (forall s tail p,
         rest p = ToJsonString (VString s) +:+ tail ->
         exists p', ParseStringDouble p = (ROk (VString s), p') /\ rest p' = tail)
  /\ (forall value out, JsonWrite value out = out +:+ ToJsonString value).
Proof.
  split; [|split; [|split; [|split]]].
  - intros array. unfold ToJsonString. simpl.
    rewrite JsonWrite_array_shape
      by (apply Forall_forall; intros; apply JsonWrite_app).
    by rewrite append_empty_l.
  - intros object. unfold ToJsonString. cbn [JsonWrite].
    rewrite JsonWrite_object_shape.
    + rewrite append_empty_l, OrderedObjectItems_unsorted, map_map. done.
    + apply (OrderedObjectItems_Forall (fun v => JsonWrite v) object _
               (fun w => forall out, w out = out +:+ w "")).
      intros key v _. apply JsonWrite_app.
  - intros s. apply JsonString_WriteStringQuoted.
  - intros s tail p Hrest. apply WriteStringQuoted_ParseStringDouble_aux.
    by rewrite <- (JsonString_WriteStringQuoted s "").
  - intros value out. apply JsonWrite_app.
Qed.

Lemma ToJsonString_shape_witness :
  exists p',
    ParseStringDouble (Parser_new (ToJsonString (VString ("a" +:+ dq +:+ "b"))))
    = (ROk (VString ("a" +:+ dq +:+ "b")), p')
    /\ rest p' = "".
Proof.
  apply (proj1 (proj2 (proj2 (proj2 ToJsonString_shape))) _ "").
  vm_compute. reflexivity.
Defined.

(** ** The lossless tree: the items agree with the value *)

Lemma items_agree_unfold (l : LosslessValue) :
  items_agree l
  <-> children_agree l
      /\ match value l with
         | VArray a => a = map value (arrayItems l)
         | VObject o =>
             o = list_to_map (map (fun kv => (fst kv, value (snd kv)))
                                (objectItems l))
         | _ => True
         end.
Proof.
  assert (forall {X} (Q : X -> Prop) (xs : list X),
             foldr (fun x acc => Q x /\ acc) True xs <-> Forall Q xs) as Hall.
  { intros X Q xs. induction xs as [|x xs IH]; simpl.
    - split; [constructor|done].
    - rewrite Forall_cons. by rewrite IH. }
  destruct l as [v lc ic ai oi tc]. unfold children_agree.
  cbn [items_agree arrayItems objectItems value].
  rewrite (Hall _ items_agree ai).
  rewrite (Hall _ (fun kv : string * LosslessValue => items_agree (snd kv)) oi).
  tauto.
Qed.

Lemma emplace_list_to_map (l : list (string * Value)) key v :
  emplace key v (list_to_map l) = list_to_map (l ++ [(key, v)]).
Proof.
  induction l as [|[k' v'] l IH]; simpl.
  - unfold emplace. by rewrite lookup_empty.
  - rewrite <- IH. unfold emplace.
    destruct (decide (key = k')) as [->|Hne].
    + rewrite lookup_insert_eq.
      destruct (list_to_map l !! k') eqn:E; [done|].
      apply map_eq. intros i. destruct (decide (i = k')) as [->|Hi].
      * by rewrite !lookup_insert_eq.
      * by rewrite !lookup_insert_ne.
    + rewrite lookup_insert_ne by done.
      destruct (list_to_map l !! key) eqn:E; [done|].
      by apply insert_insert_ne.
Qed.

Lemma fresh_array_so_far l : fresh l -> array_so_far [] l.
Proof.
  intros [Ha Ho]. unfold array_so_far, children_agree. rewrite Ha, Ho.
  by repeat split.
Qed.

Lemma fresh_object_so_far l : fresh l -> object_so_far ∅ l.
Proof.
  intros [Ha Ho]. unfold object_so_far, children_agree. rewrite Ha, Ho.
  by repeat split.
Qed.

Lemma array_so_far_agree array l :
  array_so_far array l -> items_agree (set_value (VArray array) l).
Proof. intros [Hc Ha]. apply items_agree_unfold. by split. Qed.

Lemma object_so_far_agree object l :
  object_so_far object l -> items_agree (set_value (VObject object) l).
Proof. intros [Hc Ho]. apply items_agree_unfold. by split. Qed.

Lemma fresh_leaf_agree v l :
  is_leaf v = true -> fresh l -> items_agree (set_value v l).
Proof.
  intros Hv [Ha Ho]. apply items_agree_unfold. unfold children_agree. simpl.
  rewrite Ha, Ho. by destruct v.
Qed.

Lemma fresh_set_value v l : fresh l -> fresh (set_value v l).
Proof. done. Qed.

Lemma fresh_append_leading cs l : fresh l -> fresh (append_leading cs l).
Proof. done. Qed.

Lemma fresh_default : fresh LosslessValue_default.
Proof. done. Qed.

Lemma array_so_far_push array l child :
  items_agree child -> array_so_far array l ->
  array_so_far (array ++ [value child])
    (set_arrayItems (arrayItems l ++ [child]) l).
Proof.
  intros Hchild [[Hca Hco] Ha]. unfold array_so_far, children_agree. simpl.
  split; [split; [|done]|].
  - apply Forall_app. by split; [|constructor].
  - by rewrite Ha, map_app.
Qed.

Lemma object_so_far_push object l key child :
  items_agree child -> object_so_far object l ->
  object_so_far (emplace key (value child) object)
    (set_objectItems (objectItems l ++ [(key, child)]) l).
Proof.
  intros Hchild [[Hca Hco] Ho]. unfold object_so_far, children_agree. simpl.
  split; [split; [done|]|].
  - apply Forall_app. by split; [|constructor].
  - by rewrite Ho, map_app, emplace_list_to_map.
Qed.

Lemma items_agree_set_inlineComment comment x :
  items_agree x -> items_agree (set_inlineComment comment x).
Proof. intros H. apply items_agree_unfold. by apply items_agree_unfold in H. Qed.

Lemma array_so_far_inline array l comment :
  array_so_far array l -> array_so_far array (set_last_inline_array comment l).
Proof.
  intros [[Hca Hco] Ha]. unfold set_last_inline_array.
  destruct (reverse (arrayItems l)) as [|x xs] eqn:E; [done|].
  apply (f_equal reverse) in E. rewrite reverse_involutive, reverse_cons in E.
  unfold array_so_far, children_agree. simpl. rewrite reverse_cons.
  rewrite E in Hca, Ha. apply Forall_app in Hca as [Hxs Hx].
  apply Forall_cons in Hx as [Hx _].
  split; [split; [|done]|].
  - apply Forall_app. split; [done|]. constructor; [|done].
    by apply items_agree_set_inlineComment.
  - by rewrite Ha, !map_app.
Qed.

Lemma object_so_far_inline object l comment :
  object_so_far object l -> object_so_far object (set_last_inline_object comment l).
Proof.
  intros [[Hca Hco] Ho]. unfold set_last_inline_object.
  destruct (reverse (objectItems l)) as [|[k x] xs] eqn:E; [done|].
  apply (f_equal reverse) in E. rewrite reverse_involutive, reverse_cons in E.
  unfold object_so_far, children_agree. simpl. rewrite reverse_cons.
  rewrite E in Hco, Ho. apply Forall_app in Hco as [Hxs Hx].
  apply Forall_cons in Hx as [Hx _].
  split; [split; [done|]|].
  - apply Forall_app. split; [done|]. constructor; [|done].
    by apply items_agree_set_inlineComment.
  - by rewrite Ho, !map_app.
Qed.

(** The strings and numbers that the base productions return are leaves. *)

Lemma ParseQuoted_loop_leaf q n : forall result p v p',
  ParseQuoted_loop q n result p = (ROk v, p') -> is_leaf v = true.
Proof.
  induction n as [|n IH]; intros result p v p' H; simpl in H; [discriminate H|].
  destruct (EndOfFile p); [discriminate H|].
  destruct (Get p) as [c p1].
  destruct (c =c= q); [by injection H as <- _|].
  destruct (c =c= BSL).
  - destruct (EndOfFile p1); [discriminate H|].
    destruct (Get p1) as [e p2].
    repeat (match type of H with
            | (if ?b then _ else _) = _ => destruct b; [by eapply IH|]
            end).
    destruct (e =c= "u"); [|discriminate H].
    destruct (UnicodeEscape p2) as [[cp|err] p3]; [by eapply IH|discriminate H].
  - destruct (_ || _); [discriminate H|by eapply IH].
Qed.

Lemma ParseQuoted_leaf q p v p' :
  ParseQuoted q p = (ROk v, p') -> is_leaf v = true.
Proof.
  unfold ParseQuoted. destruct (Match q p) as [[] p1]; [|discriminate].
  apply ParseQuoted_loop_leaf.
Qed.

Lemma ParseTripleString_loop_leaf n : forall result p v p',
  ParseTripleString_loop n result p = (ROk v, p') -> is_leaf v = true.
Proof.
  induction n as [|n IH]; intros result p v p' H; simpl in H; [discriminate H|].
  destruct (EndOfFile p); [discriminate H|].
  destruct (_ && _); [by injection H as <- _|].
  destruct (Get p) as [c p1]. by eapply IH.
Qed.

Lemma ParseStringOrTriple_leaf p v p' :
  ParseStringOrTriple p = (ROk v, p') -> is_leaf v = true.
Proof.
  unfold ParseStringOrTriple. destruct (negb _); [discriminate|].
  destruct (at_triple_quote p); [|apply ParseQuoted_leaf].
  unfold ParseTripleString.
  destruct (Match DQ p) as [[] p1]; [|discriminate]. cbn [negb].
  destruct (Match DQ p1) as [[] p2]; [|discriminate]. cbn [negb].
  destruct (Match DQ p2) as [[] p3]; [|discriminate]. cbn [negb].
  apply ParseTripleString_loop_leaf.
Qed.

Lemma ParseNumber_leaf p v p' :
  ParseNumber p = (ROk v, p') -> is_leaf v = true.
Proof.
  unfold ParseNumber. destruct (strtod _) as [d consumed].
  destruct (negb _); [discriminate|]. by intros [= <- _].
Qed.

(** Rules for [leaves_out]. *)

Lemma leaves_lift_total {A} (f : Parser -> Res A * Parser) :
  coherent_total f -> leaves_out (ltotal f).
Proof.
  intros Hf st r st' H. unfold ltotal, lift, total in H.
  destruct (f (lbase st)) as [r1 p1] eqn:E. injection H as <- <-.
  split; [done|]. intros ->. by destruct (Hf _ _ _ E) as (_ & Hne & _).
Qed.

Lemma leaves_lrun f : leaves_out (lrun f).
Proof. intros st r st' [= <- <-]. by split. Qed.

Lemma leaves_lask {A} (f : Parser -> A) : leaves_out (lask f).
Proof. intros st r st' [= <- <-]. by split. Qed.

Lemma leaves_lpeek : leaves_out lpeek.
Proof. apply leaves_lask. Qed.

Lemma leaves_lstack_back : leaves_out lstack_back.
Proof. apply leaves_lask. Qed.

Lemma leaves_lmatch c : leaves_out (lmatch c).
Proof.
  intros st r st' H. unfold lmatch, lift, match_ in H.
  destruct (Match c (lbase st)) as [b p1]. injection H as <- <-. by split.
Qed.

Lemma leaves_ret {A} (a : A) : leaves_out (ret a : LM A).
Proof. intros st r st' [= <- <-]. by split. Qed.

Lemma leaves_take_pending : leaves_out take_pending.
Proof. intros st r st' [= <- <-]. by split. Qed.

Lemma leaves_push_pending c : leaves_out (push_pending c).
Proof. intros st r st' [= <- <-]. by split. Qed.

Lemma leaves_out_of_fuel {A} : leaves_out (out_of_fuel : LM A).
Proof. by intros st r st' H. Qed.

Lemma leaves_bind {A B} (m : LM A) (f : A -> LM B) :
  leaves_out m -> (forall a, leaves_out (f a)) -> leaves_out (bind m f).
Proof.
  intros Hm Hf st r st' H. unfold bind in H.
  destruct (m st) as [[[a|e] st1]|] eqn:E; [| |discriminate H].
  - destruct (Hm _ _ _ E) as [E1 _]. destruct (Hf a _ _ _ H) as [E2 Hr].
    split; [congruence|done].
  - injection H as <- <-. destruct (Hm _ _ _ E) as [E1 Hne].
    split; [done|]. intros [= ->]. by apply Hne.
Qed.

Lemma leaves_if {A} (b : bool) (m1 m2 : LM A) :
  leaves_out m1 -> leaves_out m2 -> leaves_out (if b then m1 else m2).
Proof. by destruct b. Qed.

Lemma leaves_pending_comment_here : leaves_out pending_comment_here.
Proof.
  unfold pending_comment_here.
  apply leaves_bind; [apply leaves_lrun|intros _].
  apply leaves_bind; [|intros line; apply leaves_bind;
                        [apply leaves_lask|intros col; apply leaves_push_pending]].
  intros st r st' H. unfold lift in H.
  destruct (rest_of_line _ _ _) as [l p1]. injection H as <- <-. by split.
Qed.

Lemma leaves_inline_comment_here : leaves_out inline_comment_here.
Proof.
  unfold inline_comment_here.
  apply leaves_bind; [apply leaves_lrun|intros _].
  intros st r st' H. unfold lift in H.
  destruct (rest_of_line _ _ _) as [l p1]. injection H as <- <-. by split.
Qed.

Lemma leaves_NextContentLineLossless fuel :
  leaves_out (NextContentLineLossless fuel).
Proof.
  induction fuel as [|fuel IH]; [apply leaves_out_of_fuel|].
  cbn [NextContentLineLossless].
  apply leaves_bind; [apply leaves_lask|intros eof].
  apply leaves_if; [apply leaves_ret|].
  apply leaves_bind; [apply leaves_lask|intros col].
  apply leaves_if.
  - apply leaves_bind; [apply leaves_lrun|intros _].
    apply leaves_bind; [apply leaves_lask|intros eof2].
    apply leaves_if; [apply leaves_ret|apply IH].
  - apply leaves_bind; [apply leaves_lask|intros lineStart].
    apply leaves_bind;
      [apply leaves_lift_total, ReadLineIndent_coherent|intros [indentCols hasContent]].
    apply leaves_if.
    + apply leaves_bind; [apply leaves_lask|intros c].
      apply leaves_bind; [apply leaves_push_pending|intros _]. apply IH.
    + apply leaves_bind;
        [apply leaves_lift_total, ApplyIndentLevel_coherent|intros _].
      apply leaves_ret.
Qed.

(** Rules for [establishes]. *)

Lemma establishes_leaves {A B} P (m : LM A) (f : A -> LM B) Q :
  leaves_out m -> (forall a, establishes P (f a) Q) ->
  establishes P (bind m f) Q.
Proof.
  intros Hm Hf st r st' HP H. unfold bind in H.
  destruct (m st) as [[[a|e] st1]|] eqn:E; [| |discriminate H].
  - destruct (Hm _ _ _ E) as [E1 _]. apply (Hf a st1 r st'); [|done].
    by rewrite E1.
  - injection H as <- <-. destruct (Hm _ _ _ E) as [_ Hne]. congruence.
Qed.

Lemma establishes_bind {A B} P (m : LM A) R (f : A -> LM B) Q :
  establishes P m R -> (forall a, establishes (R a) (f a) Q) ->
  establishes P (bind m f) Q.
Proof.
  intros Hm Hf st r st' HP H. unfold bind in H.
  destruct (m st) as [[[a|e] st1]|] eqn:E; [| |discriminate H].
  - apply (Hf a st1 r st'); [|done]. apply (Hm _ _ _ HP E).
  - injection H as <- <-. apply (Hm _ _ _ HP E).
Qed.

Lemma establishes_child {B} P P0 (C : LosslessValue -> Prop) init (m : LM unit)
    (f : LosslessValue -> LM B) Q :
  P0 init -> establishes P0 m (fun _ => C) ->
  (forall child, C child -> establishes P (f child) Q) ->
  establishes P (bind (with_child init m) f) Q.
Proof.
  intros Hinit Hm Hf st r st' HP H. unfold bind, with_child in H.
  destruct (m (set_lout init st)) as [[[[]|e] st1]|] eqn:E; [| |discriminate H].
  - pose proof (Hm (set_lout init st) _ _ Hinit E) as Hc.
    by apply (Hf (lout st1) Hc (set_lout (lout st) st1) r st').
  - injection H as <- <-. apply (Hm (set_lout init st) _ _ Hinit E).
Qed.

Lemma establishes_modify P (f : LosslessValue -> LosslessValue) Q :
  (forall l, P l -> Q tt (f l)) -> establishes P (modify_out f) Q.
Proof. intros Hf st r st' HP [= <- <-]. by apply Hf. Qed.

Lemma establishes_modify_bind {B} P P' (f : LosslessValue -> LosslessValue)
    (m : LM B) Q :
  (forall l, P l -> P' (f l)) -> establishes P' m Q ->
  establishes P (bind (modify_out f) (fun _ => m)) Q.
Proof.
  intros Hf Hm st r st' HP H. unfold bind, modify_out in H.
  apply (Hm (set_lout (f (lout st)) st) r st'); [|exact H]. by apply Hf.
Qed.

Lemma establishes_ret {A} (a : A) (Q : A -> LosslessValue -> Prop) :
  establishes (Q a) (ret a) Q.
Proof. by intros st r st' HP [= <- <-]. Qed.

Lemma establishes_if {A} P (b : bool) (m1 m2 : LM A) Q :
  establishes P m1 Q -> establishes P m2 Q ->
  establishes P (if b then m1 else m2) Q.
Proof. by destruct b. Qed.

Lemma establishes_out_of_fuel {A} P (Q : A -> LosslessValue -> Prop) :
  establishes P out_of_fuel Q.
Proof. by intros st r st' HP H. Qed.

Lemma establishes_Finish {A} P c msg (Q : A -> LosslessValue -> Prop) :
  c <> OK -> establishes P (Finish c msg) Q.
Proof. by intros Hc st r st' HP [= <- <-]. Qed.

Lemma establishes_pre {A} (P P' : LosslessValue -> Prop) (m : LM A) Q :
  (forall l, P l -> P' l) -> establishes P' m Q -> establishes P m Q.
Proof. intros HPP Hm st r st' HP H. by apply (Hm st r st'); [apply HPP|]. Qed.

Lemma establishes_leaf (f : Parser -> Res Value * Parser) :
  coherent_total f ->
  (forall p v p', f p = (ROk v, p') -> is_leaf v = true) ->
  establishes fresh (v <- ltotal f ;; modify_out (set_value v))
    (fun _ => items_agree).
Proof.
  intros Hc Hleaf st r st' HP H. unfold bind, ltotal, lift, total in H.
  destruct (f (lbase st)) as [[v|e] p1] eqn:E.
  - injection H as <- <-. simpl. apply fresh_leaf_agree; [|done].
    by eapply Hleaf.
  - injection H as <- <-. by destruct (Hc _ _ _ E) as (_ & Hne & _).
Qed.

Lemma ParseStringSingle_coherent : coherent_total ParseStringSingle.
Proof. intros p e p' H. by eapply (ParseQuoted_coherent SQ). Qed.

Create HintDb lossless.

#[local] Hint Resolve leaves_lrun leaves_lask leaves_lpeek leaves_lstack_back
  leaves_lmatch leaves_ret leaves_take_pending leaves_push_pending
  leaves_bind leaves_if leaves_pending_comment_here leaves_inline_comment_here
  leaves_NextContentLineLossless leaves_lift_total
  ReadLineIndent_coherent ApplyIndentLevel_coherent ParseKey_coherent
  ParseStringOrTriple_coherent ParseStringSingle_coherent ParseNumber_coherent
  : lossless.

Lemma establishes_push_array {B} array child (m : LM B) Q :
  items_agree child ->
  establishes (array_so_far (array ++ [value child])) m Q ->
  establishes (array_so_far array)
    (bind (modify_out (fun o => set_arrayItems (arrayItems o ++ [child]) o))
       (fun _ => m)) Q.
Proof.
  intros Hc. apply establishes_modify_bind. intros l.
  by apply array_so_far_push.
Qed.

Lemma establishes_push_object {B} object key child (m : LM B) Q :
  items_agree child ->
  establishes (object_so_far (emplace key (value child) object)) m Q ->
  establishes (object_so_far object)
    (bind (modify_out
             (fun o => set_objectItems (objectItems o ++ [(key, child)]) o))
       (fun _ => m)) Q.
Proof.
  intros Hc. apply establishes_modify_bind. intros l.
  by apply object_so_far_push.
Qed.

Lemma establishes_comment_array array (b : bool) :
  establishes (array_so_far array)
    (if b then pending_comment_here
     else comment <- inline_comment_here ;;
          modify_out (set_last_inline_array comment))
    (fun _ => array_so_far array).
Proof.
  destruct b.
  - intros st r st' HP H.
    destruct (leaves_pending_comment_here _ _ _ H) as [E Hne].
    destruct r as [[]|e]; [by rewrite E|congruence].
  - apply establishes_leaves; [apply leaves_inline_comment_here|intros comment].
    apply establishes_modify. intros l. apply array_so_far_inline.
Qed.

Lemma establishes_comment_object object (b : bool) :
  establishes (object_so_far object)
    (if b then pending_comment_here
     else comment <- inline_comment_here ;;
          modify_out (set_last_inline_object comment))
    (fun _ => object_so_far object).
Proof.
  destruct b.
  - intros st r st' HP H.
    destruct (leaves_pending_comment_here _ _ _ H) as [E Hne].
    destruct r as [[]|e]; [by rewrite E|congruence].
  - apply establishes_leaves; [apply leaves_inline_comment_here|intros comment].
    apply establishes_modify. intros l. apply object_so_far_inline.
Qed.

Lemma lossless_productions_agree fuel :
  (forall ci cp,
      establishes fresh (ParseValueLossless fuel ci cp) (fun _ => items_agree))
  /\ (forall ci,
         establishes fresh (ParseInlineObjectLossless fuel ci)
           (fun _ => items_agree))
  /\ (forall ci o,
         establishes (object_so_far o) (ParseInlineObjectLossless_loop fuel ci o)
           (fun _ => items_agree))
  /\ (forall pi,
         establishes fresh (ParseArrayLossless fuel pi) (fun _ => items_agree))
  /\ (forall ai a,
         establishes (array_so_far a) (ParseArrayLossless_multiline fuel ai a)
           array_so_far)
  /\ (forall pi a,
         establishes (array_so_far a) (ParseArrayLossless_inline fuel pi a)
           array_so_far)
  /\ (forall ci,
         establishes fresh (ParseIdentifierOrIndentedObjectLossless fuel ci)
           (fun _ => items_agree))
  /\ (forall bi o pi,
         establishes (object_so_far o)
           (ParseIndentedObjectBodyLossless fuel bi o pi) object_so_far).
Proof.
  induction fuel as [|k (IH1 & IH2 & IH3 & IH4 & IH5 & IH6 & IH7 & IH8)].
  { repeat split; intros; apply establishes_out_of_fuel. }
  split; [|split; [|split; [|split; [|split; [|split; [|split]]]]]].
  - intros ci cp. cbn [ParseValueLossless].
    eapply (establishes_bind _ _ (fun _ => fresh)).
    { destruct cp; [|apply (establishes_ret tt (fun _ => fresh))].
      apply establishes_leaves; [auto with lossless|intros cs].
      apply establishes_modify. intros l. apply fresh_append_leading. }
    intros _.
    repeat first
      [ apply establishes_Finish; discriminate
      | apply establishes_if
      | apply establishes_leaf; [auto with lossless|]
      | apply IH7
      | apply establishes_modify_bind with (P' := fresh);
          [intros l; apply fresh_set_value|]
      | apply IH2 | apply IH4
      | apply establishes_leaves; [solve [auto 10 with lossless]|intros ?] ].
    + apply ParseStringOrTriple_leaf.
    + apply ParseQuoted_leaf.
    + apply ParseNumber_leaf.
  - intros ci. cbn [ParseInlineObjectLossless].
    repeat first
      [ apply establishes_Finish; discriminate
      | apply establishes_if
      | apply establishes_leaves; [solve [auto 10 with lossless]|intros ?] ].
    + apply establishes_modify. intros l Hl.
      by apply object_so_far_agree, fresh_object_so_far.
    + eapply establishes_pre; [apply fresh_object_so_far|apply IH3].
  - intros ci o. cbn [ParseInlineObjectLossless_loop].
    repeat first
      [ apply establishes_Finish; discriminate
      | apply establishes_if
      | apply IH3
      | apply establishes_push_object; [assumption|]
      | eapply establishes_child; [apply fresh_default|apply IH1|intros ? ?]
      | apply establishes_leaves; [solve [auto 10 with lossless]|intros ?] ].
    apply establishes_modify. intros l. apply object_so_far_agree.
  - intros pi. cbn [ParseArrayLossless].
    repeat first
      [ apply establishes_Finish; discriminate
      | apply establishes_if
      | apply establishes_leaves; [solve [auto 10 with lossless]|intros ?] ].
    + apply establishes_modify. intros l Hl.
      by apply array_so_far_agree, fresh_array_so_far.
    + eapply establishes_bind;
        [eapply establishes_pre; [apply fresh_array_so_far|apply IH5]|].
      intros array.
      apply establishes_leaves; [solve [auto 10 with lossless]|intros ?].
      apply establishes_modify. intros l. apply array_so_far_agree.
    + apply establishes_modify. intros l Hl.
      by apply array_so_far_agree, fresh_array_so_far.
    + eapply establishes_bind;
        [eapply establishes_pre; [apply fresh_array_so_far|apply IH6]|].
      intros array.
      apply establishes_modify. intros l. apply array_so_far_agree.
  - intros ai a. cbn [ParseArrayLossless_multiline].
    repeat first
      [ apply establishes_Finish; discriminate
      | apply establishes_ret
      | apply establishes_if
      | apply IH5
      | apply establishes_push_array; [assumption|]
      | eapply establishes_bind; [apply establishes_comment_array|intros ?]
      | eapply establishes_child; [apply fresh_default|apply IH1|intros ? ?]
      | apply establishes_leaves; [solve [auto 10 with lossless]|intros ?] ].
  - intros pi a. cbn [ParseArrayLossless_inline].
    repeat first
      [ apply establishes_Finish; discriminate
      | apply establishes_ret
      | apply establishes_if
      | apply IH6
      | apply establishes_push_array; [assumption|]
      | eapply establishes_child; [apply fresh_default|apply IH1|intros ? ?]
      | apply establishes_leaves; [solve [auto 10 with lossless]|intros ?] ].
  - intros ci. cbn [ParseIdentifierOrIndentedObjectLossless].
    eapply (establishes_bind _ _ (fun _ => fresh)).
    { intros st r st' HP H. unfold lift in H.
      destruct (read_identifier _ _ _) as [i p1]. by injection H as <- <-. }
    intros identifier.
    repeat first
      [ apply establishes_if
      | apply establishes_leaves; [solve [auto 10 with lossless]|intros ?] ].
    + eapply establishes_bind;
        [eapply establishes_pre; [apply fresh_object_so_far|apply IH8]|].
      intros object. apply establishes_modify. intros l.
      apply object_so_far_agree.
    + apply establishes_modify. intros l. by apply fresh_leaf_agree.
    + apply establishes_modify. intros l. by apply fresh_leaf_agree.
    + apply establishes_modify. intros l. by apply fresh_leaf_agree.
    + apply establishes_modify. intros l. by apply fresh_leaf_agree.
  - intros bi o pi. cbn [ParseIndentedObjectBodyLossless].
    repeat first
      [ apply establishes_Finish; discriminate
      | apply establishes_ret
      | apply establishes_if
      | apply IH8
      | apply establishes_push_object; [assumption|]
      | eapply establishes_bind; [apply establishes_comment_object|intros ?]
      | eapply establishes_child;
          [apply fresh_append_leading, fresh_default|apply IH1|intros ? ?]
      | apply establishes_leaves; [solve [auto 10 with lossless]|intros ?] ].
Qed.

Lemma items_agree_set_trailingComments cs l :
  items_agree l -> items_agree (set_trailingComments cs l).
Proof. intros H. apply items_agree_unfold. by apply items_agree_unfold in H. Qed.

Lemma Finish_top_code c msg error st : lr_code (Finish_top c msg error st) = c.
Proof. done. Qed.

(** X16: when [ParseLossless] succeeds on an [out] that had no items, the
    tree it leaves in [out] agrees with its plain values at every node: the
    value of an array node is the list of the values of its [arrayItems],
    in order, and the value of an object node maps each key of its
    [objectItems] to the value of the first item with that key. *)
Theorem ParseLossless_items_agree (fuel : nat) (src : string)
    (out : LosslessValue) (error : option Error) (r : LParseResult) :
  fresh out ->
  ParseLossless fuel src out error = Some r ->
  lr_code r = OK ->
  items_agree (lr_out r).
Proof.
  intros Hfresh H Hok. unfold ParseLossless, LosslessParser_Parse in H.
  cbv zeta in H.
  destruct (negb (utf8_ok _)).
  { injection H as <-. by rewrite Finish_top_code in Hok. }
  match type of H with
  | match NextContentLineLossless fuel ?st0 with _ => _ end = _ =>
      destruct (NextContentLineLossless fuel st0) as [[[hasLine|e] st1]|] eqn:E1;
        [| |discriminate H];
        pose proof (leaves_NextContentLineLossless fuel _ _ _ E1) as [Hout Hne]
  end.
  2: { injection H as <-. rewrite Finish_top_code in Hok. congruence. }
  destruct (negb hasLine).
  { injection H as <-. by rewrite Finish_top_code in Hok. }
  destruct (lossless_productions_agree fuel) as (HV & _).
  assert (fresh (lout st1)) as Hfresh1 by (by rewrite Hout).
  destruct (ParseValueLossless fuel 0 true st1) as [[[[]|e] st2]|] eqn:E2;
    [| |discriminate H]; pose proof (HV 0 true _ _ _ Hfresh1 E2) as Hpost.
  2: { injection H as <-. by rewrite Finish_top_code in Hok. }
  destruct (negb (EndOfFile _)).
  { injection H as <-. by rewrite Finish_top_code in Hok. }
  injection H as <-. cbn [lr_out].
  by apply items_agree_set_trailingComments.
Qed.

Lemma ParseLossless_items_agree_witness :
  exists r,
    ParseLossless 12 ("a: [1, x]" +:+ nl +:+ "b: {c: 2, c: 3}") LosslessValue_default
      None = Some r
    /\ lr_code r = OK
    /\ length (objectItems (lr_out r)) = 2%nat
    /\ items_agree (lr_out r).
Proof.
  assert (exists r,
             ParseLossless 12 ("a: [1, x]" +:+ nl +:+ "b: {c: 2, c: 3}")
               LosslessValue_default None = Some r
             /\ lr_code r = OK
             /\ length (objectItems (lr_out r)) = 2%nat) as (r & Hr & Hc & Hn).
  { vm_compute. eexists. split; [reflexivity|]. split; reflexivity. }
  exists r. split; [exact Hr|]. split; [exact Hc|]. split; [exact Hn|].
  exact (ParseLossless_items_agree _ _ _ _ r fresh_default Hr Hc).
Defined.

(** ** Object construction keeps the first value *)

Lemma emplace_subseteq (key : string) (v : Value) (o : Object) :
  o ⊆ emplace key v o.
Proof.
  unfold emplace. destruct (o !! key) eqn:E; [done|]. by apply insert_subseteq.
Qed.

Lemma list_to_map_first_value (pairs : list (string * Value)) (key : string) :
  (list_to_map pairs : Object) !! key = first_value key pairs.
Proof.
  induction pairs as [|[k v] pairs IH]; simpl; [by rewrite lookup_empty|].
  destruct (String.eqb k key) eqn:E.
  - apply String.eqb_eq in E as ->. by rewrite lookup_insert_eq.
  - apply String.eqb_neq in E. by rewrite lookup_insert_ne.
Qed.

Lemma yields_ret {A} (Q : A -> Prop) (a : A) : Q a -> yields Q (ret a).
Proof. intros H p a' p' [= <- _]. exact H. Qed.

Lemma yields_fail {A} (Q : A -> Prop) c msg : yields Q (@fail A c msg).
Proof. intros p a p' H. discriminate H. Qed.

Lemma yields_out_of_fuel {A} (Q : A -> Prop) : yields Q (@out_of_fuel Parser A).
Proof. intros p a p' H. discriminate H. Qed.

Lemma yields_bind {A B} (Q : B -> Prop) (m : M A) (k : A -> M B) :
  (forall a, yields Q (k a)) -> yields Q (bind m k).
Proof.
  intros Hk p b p' H. unfold bind in H.
  destruct (m p) as [[[a|e] p1]|]; [|discriminate H..].
  by eapply Hk.
Qed.

Lemma yields_if {A} (Q : A -> Prop) (b : bool) (m1 m2 : M A) :
  yields Q m1 -> yields Q m2 -> yields Q (if b then m1 else m2).
Proof. by destruct b. Qed.

Lemma bind_ok {A B} (m : M A) (k : A -> M B) p a p1 :
  m p = Some (ROk a, p1) -> bind m k p = k a p1.
Proof. unfold bind. by intros ->. Qed.

Ltac grow_side :=
  solve [ reflexivity | assumption | apply emplace_subseteq
        | etrans; [eassumption|apply emplace_subseteq] ].

Ltac grow_steps G1 G2 :=
  repeat first
    [ progress cbv zeta
    | apply yields_fail
    | apply yields_ret; first [grow_side | eexists; split; [reflexivity|grow_side]]
    | apply G1; grow_side
    | apply G2; grow_side
    | apply yields_if
    | apply yields_bind; intros ? ].

(** Both loops that build an object hand on an object that holds what
    they were given. *)
Lemma object_loops_grow fuel :
  (forall ci o b,
      b ⊆ o ->
      yields (fun r => exists o', r = VObject o' /\ b ⊆ o')
        (ParseInlineObject_loop fuel ci o))
  /\ (forall bi o pi b,
        b ⊆ o ->
        yields (fun o' => b ⊆ o') (ParseIndentedObjectBody fuel bi o pi)).
Proof.
  induction fuel as [|fuel [IH1 IH2]];
    [split; intros; apply yields_out_of_fuel|].
  split; intros;
    [cbn [ParseInlineObject_loop]|cbn [ParseIndentedObjectBody]];
    grow_steps IH1 IH2.
Qed.

(** An iteration of the loop of [ParseInlineObject] that reads the key
    [key] and the value [value] adds them with [emplace]; what the loop
    returns holds the object so extended. *)
Lemma ParseInlineObject_loop_pair fuel ci o p key p1 p2 value p3 r p' :
  ParseKey p = (ROk key, p1) ->
  Match ":" (SkipWhitespaceAndComments p1) = (true, p2) ->
  ParseValue fuel ci (SkipWhitespaceAndComments p2) = Some (ROk value, p3) ->
  ParseInlineObject_loop (S fuel) ci o p = Some (ROk r, p') ->
  exists o', r = VObject o' /\ emplace key value o ⊆ o'.
Proof.
  intros HK HM HV H. destruct (object_loops_grow fuel) as [G1 G2].
  cbn [ParseInlineObject_loop] in H.
  rewrite (bind_ok _ _ p key p1) in H by (unfold total; by rewrite HK).
  rewrite (bind_ok _ _ p1 tt (SkipWhitespaceAndComments p1) eq_refl) in H.
  rewrite (bind_ok _ _ _ true p2) in H by (unfold match_; by rewrite HM).
  cbn [negb] in H.
  rewrite (bind_ok _ _ p2 tt (SkipWhitespaceAndComments p2) eq_refl) in H.
  rewrite (bind_ok _ _ _ value p3 HV) in H.
  lazymatch type of H with
  | ?m _ = _ =>
      assert (yields (fun r => exists o', r = VObject o' /\ emplace key value o ⊆ o') m)
        as Hy
  end.
  { grow_steps G1 G2. }
  exact (Hy _ _ _ H).
Qed.

(** The same for an iteration of the loop of [ParseIndentedObjectBody],
    whether the value stands on the line of the key or, as a block, on the
    lines below it. *)
Lemma ParseIndentedObjectBody_pair fuel bi o pi p key p1 p2 value p5 o' p' :
  let p0 := SkipInlineSpaces p in
  let bodyIndent := if bi =? -1 then back (mIndentStack p) else bi in
  let p3 := SkipInlineSpaces p2 in
  EndOfFile p0 = false ->
  (Peek p0 =c= HASH) || (Peek p0 =c= CR) || (Peek p0 =c= LF) = false ->
  IsIdentifierStart (Peek p0) || (Peek p0 =c= DQ) || (Peek p0 =c= SQ) = true ->
  ParseKey p0 = (ROk key, p1) ->
  Match ":" (SkipInlineSpaces p1) = (true, p2) ->
  (if (Peek p3 =c= HASH) || is_eol (Peek p3)
   then exists p4,
          NextContentLine fuel
            ((if Peek p3 =c= HASH then SkipToEOL else consume_eol) p3)
          = Some (ROk true, p4)
          /\ bodyIndent < back (mIndentStack p4)
          /\ ParseValue fuel (back (mIndentStack p4)) p4 = Some (ROk value, p5)
   else ParseValue fuel pi p3 = Some (ROk value, p5)) ->
  ParseIndentedObjectBody (S fuel) bi o pi p = Some (ROk o', p') ->
  emplace key value o ⊆ o'.
Proof.
  cbv zeta. intros Heof Hline Hstart HK HM HV H.
  destruct (object_loops_grow fuel) as [G1 G2].
  cbn [ParseIndentedObjectBody] in H.
  rewrite (bind_ok _ _ p (back (mIndentStack p)) p eq_refl) in H.
  cbv zeta in H.
  rewrite (bind_ok _ _ p tt (SkipInlineSpaces p) eq_refl) in H.
  rewrite (bind_ok _ _ _ (EndOfFile (SkipInlineSpaces p)) (SkipInlineSpaces p)
             eq_refl) in H.
  rewrite Heof in H.
  rewrite (bind_ok _ _ _ (Peek (SkipInlineSpaces p)) (SkipInlineSpaces p)
             eq_refl) in H.
  rewrite Hline in H.
  assert (negb (IsIdentifierStart (Peek (SkipInlineSpaces p)))
          && negb (Peek (SkipInlineSpaces p) =c= DQ)
          && negb (Peek (SkipInlineSpaces p) =c= SQ) = false) as Hkey.
  { destruct (IsIdentifierStart _); [done|].
    destruct (_ =c= DQ); [done|]. by destruct (_ =c= SQ). }
  rewrite Hkey in H.
  rewrite (bind_ok _ _ _ key p1) in H by (unfold total; by rewrite HK).
  rewrite (bind_ok _ _ p1 tt (SkipInlineSpaces p1) eq_refl) in H.
  rewrite (bind_ok _ _ _ true p2) in H by (unfold match_; by rewrite HM).
  cbn [negb] in H.
  rewrite (bind_ok _ _ p2 tt (SkipInlineSpaces p2) eq_refl) in H.
  rewrite (bind_ok _ _ _ (Peek (SkipInlineSpaces p2)) (SkipInlineSpaces p2)
             eq_refl) in H.
  destruct ((Peek (SkipInlineSpaces p2) =c= HASH)
            || is_eol (Peek (SkipInlineSpaces p2))).
  - destruct HV as (p4 & HN & Htop & HV).
    rewrite (bind_ok _ _ (SkipInlineSpaces p2) tt _ eq_refl) in H.
    rewrite (bind_ok _ _ _ true p4 HN) in H.
    cbn [negb] in H.
    rewrite (bind_ok _ _ p4 (back (mIndentStack p4)) p4 eq_refl) in H.
    assert ((back (mIndentStack p4)
             <=? (if bi =? -1 then back (mIndentStack p) else bi)) = false) as Hle
      by (apply Z.leb_gt; lia).
    rewrite Hle in H.
    rewrite (bind_ok _ _ _ value p5 HV) in H.
    lazymatch type of H with
    | ?m _ = _ => assert (yields (fun o' => emplace key value o ⊆ o') m) as Hy
    end.
    { grow_steps G1 G2. }
    exact (Hy _ _ _ H).
  - rewrite (bind_ok _ _ _ value p5 HV) in H.
    lazymatch type of H with
    | ?m _ = _ => assert (yields (fun o' => emplace key value o ⊆ o') m) as Hy
    end.
    { grow_steps G1 G2. }
    exact (Hy _ _ _ H).
Qed.

(** What [ParseLossless] leaves on success agrees with its items. *)
Lemma ParseLossless_out_agrees (fuel : nat) (src : string)
    (out : LosslessValue) (error : option Error) (r : LParseResult) :
  fresh out ->
  ParseLossless fuel src out error = Some r ->
  lr_code r = OK ->
  items_agree (lr_out r).
Proof.
  intros Hfresh H Hok. unfold ParseLossless, LosslessParser_Parse in H.
  cbv zeta in H.
  destruct (negb (utf8_ok _)).
  { injection H as <-. by rewrite Finish_top_code in Hok. }
  match type of H with
  | match NextContentLineLossless fuel ?st0 with _ => _ end = _ =>
      destruct (NextContentLineLossless fuel st0) as [[[hasLine|e] st1]|] eqn:E1;
        [| |discriminate H];
        pose proof (leaves_NextContentLineLossless fuel _ _ _ E1) as [Hout Hne]
  end.
  2: { injection H as <-. rewrite Finish_top_code in Hok. congruence. }
  destruct (negb hasLine).
  { injection H as <-. by rewrite Finish_top_code in Hok. }
  destruct (lossless_productions_agree fuel) as (HV & _).
  assert (fresh (lout st1)) as Hfresh1 by (by rewrite Hout).
  destruct (ParseValueLossless fuel 0 true st1) as [[[[]|e] st2]|] eqn:E2;
    [| |discriminate H]; pose proof (HV 0 true _ _ _ Hfresh1 E2) as Hpost.
  2: { injection H as <-. by rewrite Finish_top_code in Hok. }
  destruct (negb (EndOfFile _)).
  { injection H as <-. by rewrite Finish_top_code in Hok. }
  injection H as <-. cbn [lr_out].
  by apply items_agree_set_trailingComments.
Qed.

(** C1 (amended): object construction keeps the value of the FIRST
    occurrence of a repeated key, at every site that builds an object.
    Each site adds its pair with [emplace], which leaves a key that is
    present alone.  In the plain parser the loop of [ParseInlineObject]
    and the loop of [ParseIndentedObjectBody] return an object that holds
    all that the object held when the iteration began, and in which the
    key read by the iteration has the value it had before, or the value
    read if it had none.  In the lossless parser the object of every node
    maps a key to the value of the first of the [objectItems] with that
    key.  So [a: 1 / a: 2] yields an object in which [a] maps to [1],
    inline, indented and as a block; under the lossless parser
    [objectItems] holds two entries for [a], with the values [1] and [2]
    in this order, while the backing object holds only the value [1]. *)
Theorem C1_first_value_kept :
  (forall key v (o : Object),
      o ⊆ emplace key v o
      /\ emplace key v o !! key = Some (default v (o !! key))
      /\ forall v', emplace key v' (emplace key v o) = emplace key v o)
  /\ (forall fuel ci o p r p',
        ParseInlineObject_loop fuel ci o p = Some (ROk r, p') ->
        exists o', r = VObject o' /\ o ⊆ o')
  /\ (forall fuel ci o p key p1 p2 value p3 r p',
        ParseKey p = (ROk key, p1) ->
        Match ":" (SkipWhitespaceAndComments p1) = (true, p2) ->
        ParseValue fuel ci (SkipWhitespaceAndComments p2) = Some (ROk value, p3) ->
        ParseInlineObject_loop (S fuel) ci o p = Some (ROk r, p') ->
        exists o', r = VObject o'
                   /\ o' !! key = Some (default value (o !! key)))
  /\ (forall fuel bi o pi p o' p',
        ParseIndentedObjectBody fuel bi o pi p = Some (ROk o', p') -> o ⊆ o')
  /\ (forall fuel bi o pi p key p1 p2 value p5 o' p',
        let p0 := SkipInlineSpaces p in
        let bodyIndent := if bi =? -1 then back (mIndentStack p) else bi in
        let p3 := SkipInlineSpaces p2 in
        EndOfFile p0 = false ->
        (Peek p0 =c= HASH) || (Peek p0 =c= CR) || (Peek p0 =c= LF) = false ->
        IsIdentifierStart (Peek p0) || (Peek p0 =c= DQ) || (Peek p0 =c= SQ)
        = true ->
        ParseKey p0 = (ROk key, p1) ->
        Match ":" (SkipInlineSpaces p1) = (true, p2) ->
        (if (Peek p3 =c= HASH) || is_eol (Peek p3)
         then exists p4,
                NextContentLine fuel
                  ((if Peek p3 =c= HASH then SkipToEOL else consume_eol) p3)
                = Some (ROk true, p4)
                /\ bodyIndent < back (mIndentStack p4)
                /\ ParseValue fuel (back (mIndentStack p4)) p4
                   = Some (ROk value, p5)
         else ParseValue fuel pi p3 = Some (ROk value, p5)) ->
        ParseIndentedObjectBody (S fuel) bi o pi p = Some (ROk o', p') ->
        o' !! key = Some (default value (o !! key)))
  /\ (forall fuel src out error r,
        fresh out ->
        ParseLossless fuel src out error = Some r ->
        lr_code r = OK ->
        items_agree (lr_out r))
  /\ (forall l o key,
        items_agree l ->
        value l = VObject o ->
        o !! key
        = first_value key
            (map (fun kv => (fst kv, value (snd kv))) (objectItems l)))
  /\ (forall k,
        parse (5 + k) doc_duplicate_key
        = Some (OK, VObject {[ "a" := number_of "1" ]})
        /\ parse (5 + k) ("{" +:+ doc_inline_pairs)
           = Some (OK, VObject {[ "a" := number_of "1" ]})
        /\ parse (12 + k) doc_block_duplicate
           = Some (OK, VObject {[ "a" := VObject {[ "b" := number_of "1" ]} ]}))
  /\ (forall k, exists lv,
        parse_lossless (5 + k) doc_duplicate_key = Some (OK, lv)
        /\ value lv = VObject {[ "a" := number_of "1" ]}
        /\ map fst (objectItems lv) = ["a"; "a"]
        /\ map (fun kv => value (snd kv)) (objectItems lv)
           = [number_of "1"; number_of "2"]).
Proof.
  split.
  { intros key v o. split; [apply emplace_subseteq|].
    split; [apply emplace_lookup_same|]. intros v'. apply emplace_twice. }
  split.
  { intros fuel ci o p r p' H.
    destruct (object_loops_grow fuel) as [G1 _].
    exact (G1 ci o o (reflexivity o) _ _ _ H). }
  split.
  { intros fuel ci o p key p1 p2 value p3 r p' HK HM HV H.
    destruct (ParseInlineObject_loop_pair _ _ _ _ _ _ _ _ _ _ _ HK HM HV H)
      as (o' & -> & Hsub).
    exists o'. split; [done|].
    exact (lookup_weaken _ _ _ _ (emplace_lookup_same key value o) Hsub). }
  split.
  { intros fuel bi o pi p o' p' H.
    destruct (object_loops_grow fuel) as [_ G2].
    exact (G2 bi o pi o (reflexivity o) _ _ _ H). }
  split.
  { intros fuel bi o pi p key p1 p2 value p5 o' p' p0 bodyIndent p3
      Heof Hline Hstart HK HM HV H.
    pose proof (ParseIndentedObjectBody_pair _ _ _ _ _ _ _ _ _ _ _ _
                  Heof Hline Hstart HK HM HV H) as Hsub.
    exact (lookup_weaken _ _ _ _ (emplace_lookup_same key value o) Hsub). }
  split; [exact ParseLossless_out_agrees|].
  split.
  { intros l o key Hl Ho. apply items_agree_unfold in Hl as [_ Hv].
    rewrite Ho in Hv. rewrite Hv. apply list_to_map_first_value. }
  split.
  { intros k. split; [|split]; vm_compute; reflexivity. }
  intros k. eexists. split; [vm_compute; reflexivity|].
  split; [|split]; vm_compute; reflexivity.
Qed.

(** The pairs [a: 1, a: 2] inline, on two lines, and with block values:
    the first iteration reads the first pair, and what the loop returns
    maps [a] to the value of that pair. *)
Lemma C1_first_value_kept_witness :
  (exists r p' o',
      ParseInlineObject_loop 4 0 ∅ (Parser_new doc_inline_pairs) = Some (ROk r, p')
      /\ r = VObject o'
      /\ o' !! "a" = Some (number_of "1"))
  /\ (exists o' p',
        ParseIndentedObjectBody 5 (-1) ∅ 0 (Parser_new doc_duplicate_key)
        = Some (ROk o', p')
        /\ o' !! "a" = Some (number_of "1"))
  /\ (exists o' p',
        ParseIndentedObjectBody 11 (-1) ∅ 0 (Parser_new doc_block_duplicate)
        = Some (ROk o', p')
        /\ o' !! "a" = Some (VObject {[ "b" := number_of "1" ]})).
Proof.
  destruct C1_first_value_kept as (_ & _ & Hinline & _ & Hbody & _).
  split; [|split].
  - assert (exists r p',
               ParseInlineObject_loop 4 0 ∅ (Parser_new doc_inline_pairs)
               = Some (ROk r, p')) as (r & p' & H).
    { vm_compute. eexists _, _. reflexivity. }
    edestruct (Hinline 3%nat 0 ∅ (Parser_new doc_inline_pairs))
      as (o' & Hr & Ha); [| | |exact H|].
    + vm_compute. reflexivity.
    + vm_compute. reflexivity.
    + vm_compute. reflexivity.
    + exists r, p', o'. split; [exact H|]. split; [exact Hr|]. exact Ha.
  - assert (exists o' p',
               ParseIndentedObjectBody 5 (-1) ∅ 0 (Parser_new doc_duplicate_key)
               = Some (ROk o', p')) as (o' & p' & H).
    { vm_compute. eexists _, _. reflexivity. }
    exists o', p'. split; [exact H|].
    pose proof (Hbody 4%nat (-1) ∅ 0 (Parser_new doc_duplicate_key)) as Hb.
    cbv zeta in Hb.
    eapply Hb; [| | | | | |exact H].
    + reflexivity.
    + reflexivity.
    + reflexivity.
    + vm_compute. reflexivity.
    + vm_compute. reflexivity.
    + vm_compute. reflexivity.
  - assert (exists o' p',
               ParseIndentedObjectBody 11 (-1) ∅ 0 (Parser_new doc_block_duplicate)
               = Some (ROk o', p')) as (o' & p' & H).
    { vm_compute. eexists _, _. reflexivity. }
    exists o', p'. split; [exact H|].
    pose proof (Hbody 10%nat (-1) ∅ 0 (Parser_new doc_block_duplicate)) as Hb.
    cbv zeta in Hb.
    eapply Hb; [| | | | | |exact H].
    + reflexivity.
    + reflexivity.
    + reflexivity.
    + vm_compute. reflexivity.
    + vm_compute. reflexivity.
    + match goal with
      | |- if ?c then _ else _ =>
          replace c with true by (vm_compute; reflexivity)
      end.
      eexists. split; [vm_compute; reflexivity|].
      split; vm_compute; reflexivity.
Defined.

(** ** The lossless parser: the recorded error is the returned one *)

Lemma Get_mError p c q : Get p = (c, q) -> mError q = mError p.
Proof.
  intros H. destruct (Get_cases p) as [[_ E]|(c' & _ & _ & _ & E)];
    rewrite E in H; injection H as _ <-; [done|].
  apply after_char_fields.
Qed.

Lemma Get_keeps_mError (e : Error) p : mError p = e -> mError (snd (Get p)) = e.
Proof.
  intros <-. destruct (Get p) as [c q] eqn:E. by apply (Get_mError _ _ _ E).
Qed.

Lemma silent_advance : silent advance.
Proof.
  intros p. by apply (keeps_advance (fun q => mError q = mError p)),
    eq_refl; apply Get_keeps_mError.
Qed.

Lemma silent_SkipInlineSpaces : silent SkipInlineSpaces.
Proof.
  intros p. by apply (keeps_SkipInlineSpaces (fun q => mError q = mError p)),
    eq_refl; apply Get_keeps_mError.
Qed.

Lemma silent_SkipToEOL : silent SkipToEOL.
Proof.
  intros p. by apply (keeps_SkipToEOL (fun q => mError q = mError p)),
    eq_refl; apply Get_keeps_mError.
Qed.

Lemma silent_SkipWhitespaceAndComments : silent SkipWhitespaceAndComments.
Proof.
  intros p.
  by apply (keeps_SkipWhitespaceAndComments (fun q => mError q = mError p)),
    eq_refl; apply Get_keeps_mError.
Qed.

Lemma silent_consume_eol : silent consume_eol.
Proof.
  intros p. by apply (keeps_consume_eol (fun q => mError q = mError p)),
    eq_refl; apply Get_keeps_mError.
Qed.

Lemma silent_skip_trailing n : silent (skip_trailing n).
Proof.
  intros p. by apply (keeps_skip_trailing (fun q => mError q = mError p)),
    eq_refl; apply Get_keeps_mError.
Qed.

Lemma Match_mError c p b q : Match c p = (b, q) -> mError q = mError p.
Proof.
  intros H.
  by apply (keeps_Match_eq (fun q => mError q = mError p)
              (Get_keeps_mError (mError p)) c p b q H).
Qed.

Lemma read_identifier_mError n ident p :
  mError (snd (read_identifier n ident p)) = mError p.
Proof.
  by apply (keeps_read_identifier (fun q => mError q = mError p)),
    eq_refl; apply Get_keeps_mError.
Qed.

Lemma rest_of_line_mError n : forall acc p,
  mError (snd (rest_of_line n acc p)) = mError p.
Proof.
  induction n as [|n IH]; intros acc p; simpl; [done|].
  destruct (EndOfFile p); [done|]. destruct (is_eol _); [done|].
  destruct (Get p) as [c q] eqn:E. rewrite IH. by apply (Get_mError _ _ _ E).
Qed.

Lemma ReadHex4_silent k : forall acc, silent_total (ReadHex4 k acc).
Proof.
  induction k as [|k IH]; intros acc p a p' H; simpl in H.
  { by injection H as _ <-. }
  destruct (EndOfFile p); [discriminate H|].
  destruct (Get p) as [c q] eqn:E. destruct (_ <? _); [discriminate H|].
  rewrite (IH _ _ _ _ H). by apply (Get_mError _ _ _ E).
Qed.

Lemma UnicodeEscape_silent : silent_total UnicodeEscape.
Proof.
  intros p a p' H. unfold UnicodeEscape in H.
  destruct (ReadHex4 4 0 p) as [[cp|e] p1] eqn:E1; [|discriminate H].
  pose proof (ReadHex4_silent _ _ _ _ _ E1) as H1.
  destruct (_ && _).
  - destruct (negb _); [discriminate H|].
    destruct (ReadHex4 4 0 (advance (advance p1))) as [[lo|e] p2] eqn:E2;
      [|discriminate H].
    pose proof (ReadHex4_silent _ _ _ _ _ E2) as H2.
    rewrite !silent_advance in H2.
    destruct (_ || _); [discriminate H|]. injection H as _ <-. congruence.
  - destruct (_ && _); [discriminate H|]. injection H as _ <-. done.
Qed.

Lemma ParseQuoted_loop_silent q n : forall result,
  silent_total (ParseQuoted_loop q n result).
Proof.
  induction n as [|n IH]; intros result p v p' H; simpl in H; [discriminate H|].
  destruct (EndOfFile p); [discriminate H|].
  destruct (Get p) as [c p1] eqn:E1. pose proof (Get_mError _ _ _ E1) as H1.
  destruct (c =c= q); [by injection H as _ <-|].
  destruct (c =c= BSL).
  - destruct (EndOfFile p1); [discriminate H|].
    destruct (Get p1) as [e p2] eqn:E2. pose proof (Get_mError _ _ _ E2) as H2.
    repeat (match type of H with
            | (if ?b then _ else _) = _ =>
                destruct b; [rewrite (IH _ _ _ _ H); congruence|]
            end).
    destruct (e =c= "u"); [|discriminate H].
    destruct (UnicodeEscape p2) as [[cp|err] p3] eqn:E3; [|discriminate H].
    rewrite (IH _ _ _ _ H), (UnicodeEscape_silent _ _ _ E3). congruence.
  - destruct (_ || _); [discriminate H|]. rewrite (IH _ _ _ _ H). congruence.
Qed.

Lemma ParseQuoted_silent q : silent_total (ParseQuoted q).
Proof.
  intros p v p' H. unfold ParseQuoted in H.
  destruct (Match q p) as [[] p1] eqn:E; [|discriminate H].
  rewrite (ParseQuoted_loop_silent _ _ _ _ _ _ H). by apply (Match_mError _ _ _ _ E).
Qed.

Lemma ParseStringSingle_silent : silent_total ParseStringSingle.
Proof. intros p v p' H. by apply (ParseQuoted_silent SQ _ _ _ H). Qed.

Lemma ParseTripleString_loop_silent n : forall result,
  silent_total (ParseTripleString_loop n result).
Proof.
  induction n as [|n IH]; intros result p v p' H; simpl in H; [discriminate H|].
  destruct (EndOfFile p); [discriminate H|].
  destruct (_ && _); [injection H as _ <-; by rewrite !silent_advance|].
  destruct (Get p) as [c p1] eqn:E. rewrite (IH _ _ _ _ H).
  by apply (Get_mError _ _ _ E).
Qed.

Lemma ParseStringOrTriple_silent : silent_total ParseStringOrTriple.
Proof.
  intros p v p' H. unfold ParseStringOrTriple in H.
  destruct (negb _); [discriminate H|].
  destruct (at_triple_quote p); [|by apply (ParseQuoted_silent DQ _ _ _ H)].
  unfold ParseTripleString in H.
  destruct (Match DQ p) as [[] p1] eqn:E1; [|discriminate H]. cbn [negb] in H.
  destruct (Match DQ p1) as [[] p2] eqn:E2; [|discriminate H]. cbn [negb] in H.
  destruct (Match DQ p2) as [[] p3] eqn:E3; [|discriminate H]. cbn [negb] in H.
  rewrite (ParseTripleString_loop_silent _ _ _ _ _ H).
  rewrite (Match_mError _ _ _ _ E3), (Match_mError _ _ _ _ E2).
  by apply (Match_mError _ _ _ _ E1).
Qed.

Lemma ParseNumber_silent : silent_total ParseNumber.
Proof.
  intros p v p' H. unfold ParseNumber in H.
  destruct (strtod _) as [d consumed].
  destruct (negb _); [discriminate H|]. injection H as _ <-.
  assert (forall n b1 b2 q, mError (ParseNumber_scan n b1 b2 q) = mError q) as Hs.
  { intros n b1 b2 q.
    by apply (keeps_ParseNumber_scan (fun q' => mError q' = mError q)),
      eq_refl; apply Get_keeps_mError. }
  rewrite Hs. destruct (_ || _); [apply silent_advance|done].
Qed.

Lemma ParseKey_silent : silent_total ParseKey.
Proof.
  intros p key p' H. unfold ParseKey in H.
  destruct (Peek (SkipInlineSpaces p) =c= DQ).
  { destruct (ParseStringDouble _) as [[v|e] p1] eqn:E; [|discriminate H].
    apply (ParseQuoted_silent DQ) in E. rewrite silent_SkipInlineSpaces in E.
    by destruct v; injection H as _ <-. }
  destruct (Peek (SkipInlineSpaces p) =c= SQ).
  { destruct (ParseStringSingle _) as [[v|e] p1] eqn:E; [|discriminate H].
    apply (ParseQuoted_silent SQ) in E. rewrite silent_SkipInlineSpaces in E.
    by destruct v; injection H as _ <-. }
  destruct (negb _); [discriminate H|].
  destruct (read_identifier _ _ _) as [ident p1] eqn:E. injection H as _ <-.
  pose proof (read_identifier_mError (remaining (SkipInlineSpaces p)) ""
                (SkipInlineSpaces p)) as Hr.
  rewrite E in Hr. simpl in Hr. by rewrite Hr, silent_SkipInlineSpaces.
Qed.

Lemma ReadLineIndent_spaces_silent n : forall cols,
  silent_total (ReadLineIndent_spaces n cols).
Proof.
  induction n as [|n IH]; intros cols p a p' H; simpl in H.
  { by injection H as _ <-. }
  destruct (EndOfFile p); [by injection H as _ <-|].
  destruct (Peek p =c= SP).
  { rewrite (IH _ _ _ _ H). apply silent_advance. }
  destruct (Peek p =c= TAB); [discriminate H|]. by injection H as _ <-.
Qed.

Lemma ReadLineIndent_silent : silent_total ReadLineIndent.
Proof.
  intros p a p' H. unfold ReadLineIndent in H.
  destruct (ReadLineIndent_spaces _ _ _) as [[cols|e] p1] eqn:E; [|discriminate H].
  rewrite <- (ReadLineIndent_spaces_silent _ _ _ _ _ E).
  destruct (_ || _).
  - destruct (Peek p1 =c= HASH).
    + rewrite <- (silent_SkipToEOL p1).
      destruct (Peek (SkipToEOL p1) =c= CR); [|destruct (_ =c= LF)];
        [destruct (_ =c= LF)| |]; injection H as _ <-;
        by rewrite ?silent_advance.
    + destruct (Peek p1 =c= CR); [|destruct (_ =c= LF)];
        [destruct (_ =c= LF)| |]; injection H as _ <-;
        by rewrite ?silent_advance.
  - destruct (0 <? cols); [|by injection H as _ <-].
    destruct (mIndentUnit p1 =? 0); [by injection H as _ <-|].
    destruct (negb _); [discriminate H|]. by injection H as _ <-.
Qed.

Lemma ApplyIndentLevel_silent cols : silent_total (ApplyIndentLevel cols).
Proof.
  intros p a p' H. unfold ApplyIndentLevel in H.
  destruct (_ <? _); [by injection H as _ <-|].
  destruct (_ <? _); [|by injection H as _ <-].
  destruct (pop_while_less _ _) as [|top' st]; [discriminate H|].
  destruct (negb _); [discriminate H|]. by injection H as _ <-.
Qed.

(** Rules for [lcoherent]. *)

Lemma lcoherent_lrun f : silent f -> lcoherent (lrun f).
Proof.
  intros Hf st r st' Hc [= <- <-]. unfold clean in *. simpl. by rewrite Hf.
Qed.

Lemma lcoherent_lask {A} (f : Parser -> A) : lcoherent (lask f).
Proof. by intros st r st' Hc [= <- <-]. Qed.

Lemma lcoherent_lpeek : lcoherent lpeek.
Proof. apply lcoherent_lask. Qed.

Lemma lcoherent_lstack_back : lcoherent lstack_back.
Proof. apply lcoherent_lask. Qed.

Lemma lcoherent_lmatch c : lcoherent (lmatch c).
Proof.
  intros st r st' Hc H. unfold lmatch, lift, match_ in H.
  destruct (Match c (lbase st)) as [b q] eqn:E. injection H as <- <-.
  unfold clean in *. simpl. by rewrite (Match_mError _ _ _ _ E).
Qed.

Lemma lcoherent_ltotal {A} (f : Parser -> Res A * Parser) :
  coherent_total f -> silent_total f -> lcoherent (ltotal f).
Proof.
  intros Hf Hs st r st' Hc H. unfold ltotal, lift, total in H.
  destruct (f (lbase st)) as [[a|e] q] eqn:E; injection H as <- <-; simpl.
  - unfold clean in *. by rewrite (Hs _ _ _ E).
  - by apply (Hf _ _ _ E).
Qed.

Lemma lcoherent_ret {A} (a : A) : lcoherent (ret a : LM A).
Proof. by intros st r st' Hc [= <- <-]. Qed.

Lemma lcoherent_out_of_fuel {A} : lcoherent (out_of_fuel : LM A).
Proof. by intros st r st' Hc H. Qed.

Lemma lcoherent_take_pending : lcoherent take_pending.
Proof. by intros st r st' Hc [= <- <-]. Qed.

Lemma lcoherent_push_pending c : lcoherent (push_pending c).
Proof. by intros st r st' Hc [= <- <-]. Qed.

Lemma lcoherent_modify_out f : lcoherent (modify_out f).
Proof. by intros st r st' Hc [= <- <-]. Qed.

Lemma lcoherent_Finish {A} c msg : c <> OK -> lcoherent (Finish c msg : LM A).
Proof.
  intros Hne st r st' Hc [= <- <-]. unfold clean in Hc. simpl.
  unfold Finish_mError. destruct msg as [m|]; [done|]. by rewrite Hc.
Qed.

Lemma lcoherent_bind {A B} (m : LM A) (f : A -> LM B) :
  lcoherent m -> (forall a, lcoherent (f a)) -> lcoherent (bind m f).
Proof.
  intros Hm Hf st r st' Hc H. unfold bind in H.
  destruct (m st) as [[[a|e] st1]|] eqn:E; [| |discriminate H].
  - apply (Hf a st1 r st'); [|done]. apply (Hm _ _ _ Hc E).
  - injection H as <- <-. apply (Hm _ _ _ Hc E).
Qed.

Lemma lcoherent_if {A} (b : bool) (m1 m2 : LM A) :
  lcoherent m1 -> lcoherent m2 -> lcoherent (if b then m1 else m2).
Proof. by destruct b. Qed.

Lemma lcoherent_with_child init (m : LM unit) :
  lcoherent m -> lcoherent (with_child init m).
Proof.
  intros Hm st r st' Hc H. unfold with_child in H.
  destruct (m (set_lout init st)) as [[[[]|e] st1]|] eqn:E; [| |discriminate H];
    injection H as <- <-; apply (Hm (set_lout init st) _ _ Hc E).
Qed.

Lemma lcoherent_read_identifier :
  lcoherent (lift (fun p => Some (let (i, p) := read_identifier (remaining p) "" p in
                                  (ROk i, p)))).
Proof.
  intros st r st' Hc H. unfold lift in H.
  pose proof (read_identifier_mError (remaining (lbase st)) "" (lbase st)) as Hr.
  destruct (read_identifier _ _ _) as [i q]. injection H as <- <-.
  unfold clean in *. simpl in *. by rewrite Hr.
Qed.

Lemma lcoherent_rest_of_line start :
  lcoherent (lift (fun p => Some (let (l, p) := rest_of_line (remaining p) start p in
                                  (ROk l, p)))).
Proof.
  intros st r st' Hc H. unfold lift in H.
  pose proof (rest_of_line_mError (remaining (lbase st)) start (lbase st)) as Hr.
  destruct (rest_of_line _ _ _) as [l q]. injection H as <- <-.
  unfold clean in *. simpl in *. by rewrite Hr.
Qed.

Lemma lcoherent_pending_comment_here : lcoherent pending_comment_here.
Proof.
  unfold pending_comment_here.
  apply lcoherent_bind; [apply lcoherent_lrun, silent_advance|intros _].
  apply lcoherent_bind; [apply lcoherent_rest_of_line|intros line].
  apply lcoherent_bind; [apply lcoherent_lask|intros col].
  apply lcoherent_push_pending.
Qed.

Lemma lcoherent_inline_comment_here : lcoherent inline_comment_here.
Proof.
  unfold inline_comment_here.
  apply lcoherent_bind; [apply lcoherent_lrun, silent_advance|intros _].
  apply lcoherent_rest_of_line.
Qed.

Lemma lcoherent_NextContentLineLossless fuel :
  lcoherent (NextContentLineLossless fuel).
Proof.
  induction fuel as [|fuel IH]; [apply lcoherent_out_of_fuel|].
  cbn [NextContentLineLossless].
  apply lcoherent_bind; [apply lcoherent_lask|intros eof].
  apply lcoherent_if; [apply lcoherent_ret|].
  apply lcoherent_bind; [apply lcoherent_lask|intros col].
  apply lcoherent_if.
  - apply lcoherent_bind; [apply lcoherent_lrun, silent_SkipToEOL|intros _].
    apply lcoherent_bind; [apply lcoherent_lask|intros eof2].
    apply lcoherent_if; [apply lcoherent_ret|apply IH].
  - apply lcoherent_bind; [apply lcoherent_lask|intros lineStart].
    apply lcoherent_bind;
      [apply lcoherent_ltotal;
         [apply ReadLineIndent_coherent|apply ReadLineIndent_silent]
      |intros [indentCols hasContent]].
    apply lcoherent_if.
    + apply lcoherent_bind; [apply lcoherent_lask|intros c].
      apply lcoherent_bind; [apply lcoherent_push_pending|intros _]. apply IH.
    + apply lcoherent_bind;
        [apply lcoherent_ltotal;
           [apply ApplyIndentLevel_coherent|apply ApplyIndentLevel_silent]
        |intros _].
      apply lcoherent_ret.
Qed.

Lemma silent_advance_at c : silent (fun p => if Peek p =c= c then advance p else p).
Proof. intros p. destruct (_ =c= _); [apply silent_advance|done]. Qed.

Lemma silent_SkipToEOL_at c :
  silent (fun p => if Peek p =c= c then SkipToEOL p else p).
Proof. intros p. destruct (_ =c= _); [apply silent_SkipToEOL|done]. Qed.

Lemma silent_line_end (b : bool) : silent (if b then SkipToEOL else consume_eol).
Proof. destruct b; [apply silent_SkipToEOL|apply silent_consume_eol]. Qed.

Lemma silent_rewind n :
  silent (fun p => set_cursor (mPos p - n) (mLine p) (mCol p - n) p).
Proof. done. Qed.

Lemma lossless_productions_coherent fuel :
  (forall ci cp, lcoherent (ParseValueLossless fuel ci cp))
  /\ (forall ci, lcoherent (ParseInlineObjectLossless fuel ci))
  /\ (forall ci o, lcoherent (ParseInlineObjectLossless_loop fuel ci o))
  /\ (forall pi, lcoherent (ParseArrayLossless fuel pi))
  /\ (forall ai a, lcoherent (ParseArrayLossless_multiline fuel ai a))
  /\ (forall pi a, lcoherent (ParseArrayLossless_inline fuel pi a))
  /\ (forall ci, lcoherent (ParseIdentifierOrIndentedObjectLossless fuel ci))
  /\ (forall bi o pi, lcoherent (ParseIndentedObjectBodyLossless fuel bi o pi)).
Proof.
  induction fuel as [|fuel (IH1 & IH2 & IH3 & IH4 & IH5 & IH6 & IH7 & IH8)].
  { repeat (split; [intros; apply lcoherent_out_of_fuel|]).
    intros. apply lcoherent_out_of_fuel. }
  split; [|split; [|split; [|split; [|split; [|split; [|split]]]]]]; intros;
    [ cbn [ParseValueLossless] | cbn [ParseInlineObjectLossless]
    | cbn [ParseInlineObjectLossless_loop] | cbn [ParseArrayLossless]
    | cbn [ParseArrayLossless_multiline] | cbn [ParseArrayLossless_inline]
    | cbn [ParseIdentifierOrIndentedObjectLossless]
    | cbn [ParseIndentedObjectBodyLossless] ];
    repeat first
      [ progress cbv zeta
      | apply lcoherent_ret | apply lcoherent_Finish; discriminate
      | apply lcoherent_lrun;
        first [ apply silent_advance | apply silent_SkipInlineSpaces
              | apply silent_SkipToEOL | apply silent_SkipWhitespaceAndComments
              | apply silent_consume_eol | apply silent_advance_at
              | apply silent_SkipToEOL_at | apply silent_line_end
              | apply silent_rewind ]
      | apply lcoherent_lask | apply lcoherent_lpeek | apply lcoherent_lstack_back
      | apply lcoherent_lmatch
      | apply lcoherent_take_pending | apply lcoherent_push_pending
      | apply lcoherent_modify_out
      | apply lcoherent_read_identifier
      | apply lcoherent_pending_comment_here
      | apply lcoherent_inline_comment_here
      | apply lcoherent_NextContentLineLossless
      | apply lcoherent_ltotal;
        [ first [ apply ParseStringOrTriple_coherent
                | apply ParseStringSingle_coherent
                | apply ParseNumber_coherent
                | apply ParseKey_coherent ]
        | first [ apply ParseStringOrTriple_silent
                | apply ParseStringSingle_silent
                | apply ParseNumber_silent
                | apply ParseKey_silent ] ]
      | apply lcoherent_with_child
      | apply IH1 | apply IH2 | apply IH3 | apply IH4 | apply IH5
      | apply IH6 | apply IH7 | apply IH8
      | apply lcoherent_if
      | apply lcoherent_bind; [|intros ?] ].
Qed.

Lemma Finish_top_recorded c error st :
  records c (lbase st) ->
  Finish_top c None error st
  = mkLParseResult c (lout st) (store_error error (mError (lbase st))) st.
Proof.
  intros (Hcode & Hne & _). unfold Finish_top, Finish_mError.
  destruct (code (mError (lbase st))) eqn:E; [congruence|..];
    simpl; rewrite E; by destruct st.
Qed.

(** X17: whatever [ParseLossless] returns, the [Error] that it stores for
    the caller carries the returned code; on a failure its location is the
    line and column at which the parser stopped, and on success it is the
    default [Error]. *)
Theorem ParseLossless_error_matches_code (fuel : nat) (src : string)
    (out : LosslessValue) (e0 : Error) (r : LParseResult) :
  ParseLossless fuel src out (Some e0) = Some r ->
  exists e,
    lr_error r = Some e
    /\ code e = lr_code r
    /\ (lr_code r <> OK -> where_ e = Location (lbase (lr_state r)))
    /\ (lr_code r = OK -> e = Error_default).
Proof.
  intros H. unfold ParseLossless, LosslessParser_Parse in H. cbv zeta in H.
  destruct (negb (utf8_ok _)).
  { injection H as <-. eexists. split; [reflexivity|]. simpl. done. }
  match type of H with
  | match NextContentLineLossless fuel ?st0 with _ => _ end = _ =>
      assert (clean (lbase st0)) as Hclean
        by (unfold clean; simpl; by destruct (has_bom _));
      destruct (NextContentLineLossless fuel st0) as [[[hasLine|e] st1]|] eqn:E1;
        [| |discriminate H];
        pose proof (lcoherent_NextContentLineLossless fuel _ _ _ Hclean E1) as H1
  end.
  2: { injection H as <-. rewrite (Finish_top_recorded _ _ _ H1).
       destruct H1 as (Hcode & Hne & Hwhere).
       eexists. split; [reflexivity|]. simpl. done. }
  destruct (negb hasLine).
  { injection H as <-. eexists. split; [reflexivity|]. simpl. done. }
  destruct (lossless_productions_coherent fuel) as (HV & _).
  destruct (ParseValueLossless fuel 0 true st1) as [[[[]|e] st2]|] eqn:E2;
    [| |discriminate H]; pose proof (HV 0 true _ _ _ H1 E2) as H2.
  2: { injection H as <-. rewrite (Finish_top_recorded _ _ _ H2).
       destruct H2 as (Hcode & Hne & Hwhere).
       eexists. split; [reflexivity|]. simpl. done. }
  destruct (negb (EndOfFile _)).
  { injection H as <-. eexists. split; [reflexivity|]. simpl. done. }
  injection H as <-. eexists. split; [reflexivity|]. simpl. done.
Qed.

Lemma ParseLossless_error_matches_code_witness :
  exists r e,
    ParseLossless 8 ("a: [1," +:+ nl +:+ "  ?]") LosslessValue_default
      (Some Error_default) = Some r
    /\ lr_code r = UnexpectedChar
    /\ lr_error r = Some e
    /\ code e = lr_code r
    /\ (lr_code r <> OK -> where_ e = Location (lbase (lr_state r)))
    /\ (lr_code r = OK -> e = Error_default).
Proof.
  assert (exists r,
             ParseLossless 8 ("a: [1," +:+ nl +:+ "  ?]") LosslessValue_default
               (Some Error_default) = Some r
             /\ lr_code r = UnexpectedChar) as (r & H & Hc).
  { vm_compute. eexists. split; reflexivity. }
  destruct (ParseLossless_error_matches_code 8 _ LosslessValue_default
              Error_default r H) as (e & He1 & He2 & He3 & He4).
  exists r, e. split; [exact H|]. split; [exact Hc|]. split; [exact He1|].
  split; [exact He2|]. split; [exact He3|exact He4].
Defined.

(** ** The lossless parser: what its productions keep of the base parser *)

Section LosslessInvariant.

Variable I : Parser -> Prop.
Hypothesis I_Get : forall p, I p -> I (snd (Get p)).
Hypothesis I_Fail : forall c msg p, I p -> I (Fail c msg p).
Hypothesis I_unit : forall u p, I p -> I (set_indent_unit u p).
Hypothesis I_apply :
  forall cols p, 0 <= cols -> I p -> I (snd (ApplyIndentLevel cols p)).
(** The rewind of [ParseIdentifierOrIndentedObjectLossless]. *)
Hypothesis I_back :
  forall p, I p ->
    let (ident, p1) := read_identifier (remaining p) "" p in
    let p2 := SkipInlineSpaces p1 in
    I p2
    /\ I (set_cursor (mPos p2 - String.length ident) (mLine p2)
            (mCol p2 - String.length ident) p2).

Lemma lpreserves_lift {A} (m : M A) : preserves I m -> lpreserves I (lift m).
Proof.
  intros Hm st r st' Hi H. unfold lift in H.
  destruct (m (lbase st)) as [[r1 p1]|] eqn:E; [|discriminate H].
  injection H as <- <-. by apply (Hm _ _ _ Hi E).
Qed.

Lemma lpreserves_lrun f : (forall p, I p -> I (f p)) -> lpreserves I (lrun f).
Proof. intros Hf. by apply lpreserves_lift, preserves_run. Qed.

Lemma lpreserves_lask {A} (f : Parser -> A) : lpreserves I (lask f).
Proof. apply lpreserves_lift, preserves_ask. Qed.

Lemma lpreserves_lmatch c : lpreserves I (lmatch c).
Proof. by apply lpreserves_lift, preserves_match. Qed.

Lemma lpreserves_ltotal {A} (f : Parser -> Res A * Parser) :
  (forall p, I p -> I (snd (f p))) -> lpreserves I (ltotal f).
Proof. intros Hf. by apply lpreserves_lift, preserves_total. Qed.

Lemma lpreserves_ret {A} (a : A) : lpreserves I (ret a : LM A).
Proof. by intros st r st' Hi [= <- <-]. Qed.

Lemma lpreserves_out_of_fuel {A} : lpreserves I (out_of_fuel : LM A).
Proof. by intros st r st' Hi H. Qed.

Lemma lpreserves_take_pending : lpreserves I take_pending.
Proof. by intros st r st' Hi [= <- <-]. Qed.

Lemma lpreserves_push_pending c : lpreserves I (push_pending c).
Proof. by intros st r st' Hi [= <- <-]. Qed.

Lemma lpreserves_modify_out f : lpreserves I (modify_out f).
Proof. by intros st r st' Hi [= <- <-]. Qed.

Lemma lpreserves_Finish {A} c msg : lpreserves I (Finish c msg : LM A).
Proof.
  intros st r st' Hi [= <- <-]. simpl. unfold Finish_mError.
  destruct msg as [m|]; [by apply (I_Fail c m)|].
  destruct (code _); first [by apply (I_Fail c "")|done].
Qed.

Lemma lpreserves_bind {A B} (m : LM A) (f : A -> LM B) :
  lpreserves I m -> (forall a, lpreserves I (f a)) -> lpreserves I (bind m f).
Proof.
  intros Hm Hf st r st' Hi H. unfold bind in H.
  destruct (m st) as [[[a|e] st1]|] eqn:E; [| |discriminate H].
  - apply (Hf a st1 r st'); [|done]. apply (Hm _ _ _ Hi E).
  - injection H as <- <-. apply (Hm _ _ _ Hi E).
Qed.

Lemma lpreserves_if {A} (b : bool) (m1 m2 : LM A) :
  lpreserves I m1 -> lpreserves I m2 -> lpreserves I (if b then m1 else m2).
Proof. by destruct b. Qed.

Lemma lpreserves_with_child init (m : LM unit) :
  lpreserves I m -> lpreserves I (with_child init m).
Proof.
  intros Hm st r st' Hi H. unfold with_child in H.
  destruct (m (set_lout init st)) as [[[[]|e] st1]|] eqn:E; [| |discriminate H];
    injection H as <- <-; apply (Hm (set_lout init st) _ _ Hi E).
Qed.

Lemma keeps_rest_of_line n : forall acc p, I p -> I (snd (rest_of_line n acc p)).
Proof.
  induction n as [|n IH]; intros acc p Hi; simpl; [done|].
  destruct (EndOfFile p); [done|]. destruct (is_eol _); [done|].
  destruct (Get p) as [c q] eqn:E. apply IH.
  by apply (keeps_Get_eq I I_Get _ _ _ E).
Qed.

Lemma lpreserves_rest_of_line start :
  lpreserves I
    (lift (fun p => Some (let (l, p) := rest_of_line (remaining p) start p in
                          (ROk l, p)))).
Proof.
  apply lpreserves_lift. intros p r p' Hi H.
  pose proof (keeps_rest_of_line (remaining p) start p Hi) as Hr.
  destruct (rest_of_line _ _ _) as [l q]. by injection H as <- <-.
Qed.

Lemma lpreserves_pending_comment_here : lpreserves I pending_comment_here.
Proof.
  unfold pending_comment_here.
  apply lpreserves_bind;
    [apply lpreserves_lrun, (keeps_advance I I_Get)|intros _].
  apply lpreserves_bind; [apply lpreserves_rest_of_line|intros line].
  apply lpreserves_bind; [apply lpreserves_lask|intros col].
  apply lpreserves_push_pending.
Qed.

Lemma lpreserves_inline_comment_here : lpreserves I inline_comment_here.
Proof.
  unfold inline_comment_here.
  apply lpreserves_bind;
    [apply lpreserves_lrun, (keeps_advance I I_Get)|intros _].
  apply lpreserves_rest_of_line.
Qed.

Lemma lpreserves_NextContentLineLossless fuel :
  lpreserves I (NextContentLineLossless fuel).
Proof.
  induction fuel as [|fuel IH]; [apply lpreserves_out_of_fuel|].
  cbn [NextContentLineLossless].
  apply lpreserves_bind; [apply lpreserves_lask|intros eof].
  apply lpreserves_if; [apply lpreserves_ret|].
  apply lpreserves_bind; [apply lpreserves_lask|intros col].
  apply lpreserves_if.
  - apply lpreserves_bind;
      [apply lpreserves_lrun, (keeps_SkipToEOL I I_Get)|intros _].
    apply lpreserves_bind; [apply lpreserves_lask|intros eof2].
    apply lpreserves_if; [apply lpreserves_ret|apply IH].
  - apply lpreserves_bind; [apply lpreserves_lask|intros lineStart].
    intros st r st' Hi H. unfold bind at 1, ltotal, lift, total in H.
    pose proof (keeps_ReadLineIndent I I_Get I_Fail I_unit _ Hi) as H1.
    destruct (ReadLineIndent (lbase st)) as [[[cols hasContent]|e] p1] eqn:E;
      simpl in H1; [|by injection H as <- <-].
    apply ReadLineIndent_nonneg in E.
    destruct (negb hasContent).
    + refine (lpreserves_bind (lask _) _ (lpreserves_lask _) _
                (set_lbase p1 st) r st' H1 H).
      intros c. apply lpreserves_bind; [apply lpreserves_push_pending|].
      intros _. apply IH.
    + refine (lpreserves_bind (ltotal _) _ _ _ (set_lbase p1 st) r st' H1 H).
      * apply lpreserves_ltotal. intros p. by apply I_apply.
      * intros _. apply lpreserves_ret.
Qed.

Lemma lpreserves_rewind {A} (body : LM A) (other : string -> LM A) :
  lpreserves I body -> (forall ident, lpreserves I (other ident)) ->
  lpreserves I
    (identifier <- lift (fun p => Some (let (i, p) :=
                                          read_identifier (remaining p) "" p in
                                        (ROk i, p))) ;;
     lrun SkipInlineSpaces ;;;
     c <- lpeek ;;
     if c =c= ":"
     then
       lrun (fun p => set_cursor (mPos p - String.length identifier) (mLine p)
                        (mCol p - String.length identifier) p) ;;;
       body
     else other identifier).
Proof.
  intros Hbody Hother st r st' Hi H.
  pose proof (I_back _ Hi) as Hb.
  unfold bind at 1, lift at 1 in H.
  destruct (read_identifier _ _ _) as [ident p1]. cbv zeta in Hb.
  destruct Hb as [Hhere Hback].
  unfold bind at 1, lrun at 1, lift at 1, run at 1 in H.
  unfold bind at 1, lpeek, lift at 1, peek, ask in H.
  cbn [lbase set_lbase] in H.
  destruct (Peek (SkipInlineSpaces p1) =c= ":").
  - unfold bind at 1, lrun at 1, lift at 1, run at 1 in H.
    cbn [lbase set_lbase] in H.
    revert H. match goal with |- body ?s = _ -> _ => intros H; by apply (Hbody s r st') end.
  - revert H. match goal with |- other _ ?s = _ -> _ => intros H; by apply (Hother ident s r st') end.
Qed.

Lemma lossless_productions_preserve fuel :
  (forall ci cp, lpreserves I (ParseValueLossless fuel ci cp))
  /\ (forall ci, lpreserves I (ParseInlineObjectLossless fuel ci))
  /\ (forall ci o, lpreserves I (ParseInlineObjectLossless_loop fuel ci o))
  /\ (forall pi, lpreserves I (ParseArrayLossless fuel pi))
  /\ (forall ai a, lpreserves I (ParseArrayLossless_multiline fuel ai a))
  /\ (forall pi a, lpreserves I (ParseArrayLossless_inline fuel pi a))
  /\ (forall ci, lpreserves I (ParseIdentifierOrIndentedObjectLossless fuel ci))
  /\ (forall bi o pi, lpreserves I (ParseIndentedObjectBodyLossless fuel bi o pi)).
Proof.
  induction fuel as [|fuel (IH1 & IH2 & IH3 & IH4 & IH5 & IH6 & IH7 & IH8)].
  { repeat (split; [intros; apply lpreserves_out_of_fuel|]).
    intros. apply lpreserves_out_of_fuel. }
  split; [|split; [|split; [|split; [|split; [|split; [|split]]]]]]; intros;
    [ cbn [ParseValueLossless] | cbn [ParseInlineObjectLossless]
    | cbn [ParseInlineObjectLossless_loop] | cbn [ParseArrayLossless]
    | cbn [ParseArrayLossless_multiline] | cbn [ParseArrayLossless_inline]
    | cbn [ParseIdentifierOrIndentedObjectLossless]; apply lpreserves_rewind
    | cbn [ParseIndentedObjectBodyLossless] ];
    repeat first
      [ progress cbv zeta
      | apply lpreserves_ret | apply lpreserves_Finish
      | apply lpreserves_lask | apply lpreserves_lmatch
      | apply lpreserves_take_pending | apply lpreserves_push_pending
      | apply lpreserves_modify_out
      | apply lpreserves_pending_comment_here
      | apply lpreserves_inline_comment_here
      | apply lpreserves_NextContentLineLossless
      | apply lpreserves_lrun;
        first [ apply (keeps_SkipWhitespaceAndComments I I_Get)
              | apply (keeps_SkipInlineSpaces I I_Get)
              | apply (keeps_SkipToEOL I I_Get)
              | apply (keeps_consume_eol I I_Get)
              | apply (keeps_advance I I_Get)
              | intros ? ?; destruct (_ =c= _);
                first [ by apply (keeps_advance I I_Get)
                      | by apply (keeps_SkipToEOL I I_Get)
                      | by apply (keeps_consume_eol I I_Get) | done ] ]
      | apply lpreserves_ltotal;
        first [ apply (keeps_ParseStringOrTriple I I_Get I_Fail)
              | apply (keeps_ParseQuoted I I_Get I_Fail SQ)
              | apply (keeps_ParseNumber I I_Get I_Fail)
              | apply (keeps_ParseKey I I_Get I_Fail) ]
      | apply lpreserves_with_child
      | apply IH1 | apply IH2 | apply IH3 | apply IH4 | apply IH5
      | apply IH6 | apply IH7 | apply IH8
      | apply lpreserves_if
      | apply lpreserves_bind; [|intros ?]
      | intros ? ].
Qed.

End LosslessInvariant.

(** *** The position of the cursor *)

Lemma tracks_rewind src base p :
  tracks src base p ->
  let (ident, p1) := read_identifier (remaining p) "" p in
  let p2 := SkipInlineSpaces p1 in
  tracks src base p2
  /\ tracks src base
       (set_cursor (mPos p2 - String.length ident) (mLine p2)
          (mCol p2 - String.length ident) p2).
Proof.
  intros Hp.
  pose proof (tracks_back_read_identifier src base (remaining p) "" p
                (tracks_back_start _ _ _ Hp)) as Hid.
  destruct (read_identifier (remaining p) "" p) as [ident p1]. simpl in Hid.
  apply tracks_back_SkipInlineSpaces in Hid. cbv zeta. split.
  - by apply tracks_back_here in Hid.
  - by apply Hid.
Qed.

Lemma lossless_productions_track src base fuel :
  (forall ci cp, lpreserves (tracks src base) (ParseValueLossless fuel ci cp))
  /\ lpreserves (tracks src base) (NextContentLineLossless fuel).
Proof.
  split.
  - apply (lossless_productions_preserve (tracks src base)).
    + apply tracks_Get.
    + apply tracks_failed.
    + apply tracks_set_indent_unit.
    + intros cols p _. apply tracks_ApplyIndentLevel.
    + apply tracks_rewind.
  - apply (lpreserves_NextContentLineLossless (tracks src base)).
    + apply tracks_Get.
    + apply tracks_failed.
    + apply tracks_set_indent_unit.
    + intros cols p _. apply tracks_ApplyIndentLevel.
Qed.

Lemma located_message src base c m e0 st :
  tracks src base (lbase st) ->
  exists e,
    lr_error (Finish_top c (Some m) (Some e0) st) = Some e
    /\ let offset := mPos (lbase (lr_state (Finish_top c (Some m) (Some e0) st))) in
       (base <= offset <= String.length src)%nat
       /\ (line (where_ e), column (where_ e))
          = position_at (substr_from base src) (offset - base) 1 1.
Proof.
  intros (_ & Hpos & Hlc). eexists. split; [reflexivity|]. simpl.
  split; [exact Hpos|exact Hlc].
Qed.

Lemma located_recorded src base c e0 st :
  tracks src base (lbase st) -> records c (lbase st) ->
  exists e,
    lr_error (Finish_top c None (Some e0) st) = Some e
    /\ let offset := mPos (lbase (lr_state (Finish_top c None (Some e0) st))) in
       (base <= offset <= String.length src)%nat
       /\ (line (where_ e), column (where_ e))
          = position_at (substr_from base src) (offset - base) 1 1.
Proof.
  intros (_ & Hpos & Hlc) Hrec. rewrite (Finish_top_recorded _ _ _ Hrec).
  destruct Hrec as (_ & _ & Hwhere).
  eexists. split; [reflexivity|]. simpl. rewrite Hwhere.
  split; [exact Hpos|exact Hlc].
Qed.

(** X18: when [ParseLossless] fails on well-formed UTF-8, the location it
    reports is the position of the cursor where the parser stopped: the
    line is one more than the number of line feeds before the cursor, the
    column is one more than the number of bytes behind the last of them
    (counted from behind the byte-order mark, if there is one). *)
Theorem ParseLossless_location_is_cursor_position (fuel : nat) (src : string)
    (out : LosslessValue) (e0 : Error) (r : LParseResult) :
  ParseLossless fuel src out (Some e0) = Some r ->
  lr_code r <> OK -> lr_code r <> InvalidUtf8 ->
  exists e,
    lr_error r = Some e
    /\ let base := (if has_bom src then 3 else 0)%nat in
       let offset := mPos (lbase (lr_state r)) in
       (base <= offset <= String.length src)%nat
       /\ (line (where_ e), column (where_ e))
          = position_at (substr_from base src) (offset - base) 1 1.
Proof.
  intros H Hok Hutf. unfold ParseLossless, LosslessParser_Parse in H.
  cbv zeta in H. cbn [lbase mSrc Parser_new set_error] in H.
  destruct (negb (utf8_ok _)).
  { injection H as <-. by rewrite Finish_top_code in Hutf. }
  destruct (lossless_productions_track src (if has_bom src then 3 else 0)%nat fuel)
    as [HVt HNt].
  match type of H with
  | match NextContentLineLossless fuel ?st0 with _ => _ end = _ =>
      assert (clean (lbase st0)) as Hclean
        by (unfold clean; simpl; by destruct (has_bom _));
      destruct (NextContentLineLossless fuel st0) as [[[hasLine|e] st1]|] eqn:E1;
        [| |discriminate H];
        pose proof (lcoherent_NextContentLineLossless fuel _ _ _ Hclean E1) as H1;
        pose proof (HNt st0 _ _ (tracks_start src) E1) as T1
  end.
  2: { injection H as <-. by apply located_recorded. }
  destruct (negb hasLine).
  { injection H as <-. by apply located_message. }
  destruct (lossless_productions_coherent fuel) as (HV & _).
  destruct (ParseValueLossless fuel 0 true st1) as [[[[]|e] st2]|] eqn:E2;
    [| |discriminate H]; pose proof (HV 0 true _ _ _ H1 E2) as H2;
    pose proof (HVt 0 true _ _ _ T1 E2) as T2.
  2: { injection H as <-. by apply located_recorded. }
  apply (keeps_skip_trailing _ (tracks_Get src _) (remaining (lbase st2))) in T2.
  apply (tracks_set_indent_stack src _ [0]) in T2.
  destruct (negb (EndOfFile _)).
  - injection H as <-. by apply located_message.
  - injection H as <-. done.
Qed.

Lemma ParseLossless_location_is_cursor_position_witness :
  exists r e,
    ParseLossless 8 ("[1," +:+ nl +:+ "  ?]") LosslessValue_default
      (Some Error_default) = Some r
    /\ lr_error r = Some e
    /\ (0 <= mPos (lbase (lr_state r)) <= 8)%nat
    /\ (line (where_ e), column (where_ e)) = (2%nat, 3%nat).
Proof.
  assert (exists r,
             ParseLossless 8 ("[1," +:+ nl +:+ "  ?]") LosslessValue_default
               (Some Error_default) = Some r
             /\ mPos (lbase (lr_state r)) = 6%nat
             /\ lr_code r = UnexpectedChar) as (r & H & Hpos & Hcode).
  { vm_compute. eexists. split; [reflexivity|]. split; reflexivity. }
  destruct (ParseLossless_location_is_cursor_position 8 _ LosslessValue_default
              Error_default r H)
    as (e & He & Hrange & Hlc).
  { rewrite Hcode. discriminate. }
  { rewrite Hcode. discriminate. }
  exists r, e. split; [exact H|]. split; [exact He|].
  split; [exact Hrange|]. rewrite Hlc, Hpos. reflexivity.
Defined.

(** *** The indent stack *)

Lemma stack_back_rewind p :
  stack_ok (mIndentStack p) ->
  let (ident, p1) := read_identifier (remaining p) "" p in
  let p2 := SkipInlineSpaces p1 in
  stack_ok (mIndentStack p2)
  /\ stack_ok
       (mIndentStack
          (set_cursor (mPos p2 - String.length ident) (mLine p2)
             (mCol p2 - String.length ident) p2)).
Proof.
  intros Hp.
  pose proof (keeps_read_identifier (fun q => stack_ok (mIndentStack q)) stack_Get
                (remaining p) "" p Hp) as H1.
  destruct (read_identifier (remaining p) "" p) as [ident p1]. simpl in H1.
  apply (keeps_SkipInlineSpaces (fun q => stack_ok (mIndentStack q)) stack_Get)
    in H1.
  by split.
Qed.

Lemma lossless_productions_keep_stack fuel :
  (forall ci cp,
      lpreserves (fun p => stack_ok (mIndentStack p))
        (ParseValueLossless fuel ci cp))
  /\ lpreserves (fun p => stack_ok (mIndentStack p)) (NextContentLineLossless fuel).
Proof.
  split.
  - apply (lossless_productions_preserve (fun p => stack_ok (mIndentStack p)));
      first [ apply stack_Get | apply stack_ApplyIndentLevel
            | apply stack_back_rewind | done ].
  - apply (lpreserves_NextContentLineLossless (fun p => stack_ok (mIndentStack p)));
      first [ apply stack_Get | apply stack_ApplyIndentLevel | done ].
Qed.

(** X19: the lossless parser keeps the indent stack of its base parser
    strictly increasing from [0]: [NextContentLineLossless] and
    [ParseValueLossless], with all the productions they call, leave it so
    whatever they return, so the stack is never empty and its top is
    always defined. *)
Theorem lossless_indent_stack_invariant (fuel : nat) :
  (forall st r st',
      stack_ok (mIndentStack (lbase st)) ->
      NextContentLineLossless fuel st = Some (r, st') ->
      stack_ok (mIndentStack (lbase st')) /\ mIndentStack (lbase st') <> [])
  /\ (forall currentIndent consumePending st r st',
         stack_ok (mIndentStack (lbase st)) ->
         ParseValueLossless fuel currentIndent consumePending st = Some (r, st') ->
         stack_ok (mIndentStack (lbase st')) /\ mIndentStack (lbase st') <> []).
Proof.
  destruct (lossless_productions_keep_stack fuel) as [Hvalue Hnext].
  assert (forall st, stack_ok st -> st <> []) as Hne by (by intros []).
  split.
  - intros st r st' Hp H. split; [|apply Hne]; by eapply Hnext.
  - intros ci cp st r st' Hp H. split; [|apply Hne]; by eapply Hvalue.
Qed.

Lemma lossless_indent_stack_invariant_witness :
  exists r st',
    ParseValueLossless 8 0 true
      (mkLState (Parser_new doc_three_space_sibling) [] LosslessValue_default)
    = Some (r, st')
    /\ stack_ok (mIndentStack (lbase st')) /\ mIndentStack (lbase st') <> [].
Proof.
  destruct (ParseValueLossless 8 0 true
              (mkLState (Parser_new doc_three_space_sibling) []
                 LosslessValue_default))
    as [[r st']|] eqn:H; [|vm_compute in H; discriminate H].
  exists r, st'. split; [reflexivity|].
  apply (proj2 (lossless_indent_stack_invariant 8) 0 true
           (mkLState (Parser_new doc_three_space_sibling) [] LosslessValue_default)
           r st'); [|exact H].
  simpl. reflexivity.
Defined.
